(** * Waveform player: resampler, peak extractor, tempo detector,
      renderer dispatch and the single-play registry.

    A shallow embedding of the analysis and playback core of the waveform
    player bundle (utils.js, drawing.js, bpm.js, audio.js, core.js), and of
    the track and chapter navigation of the playlist (src/js/index.js).

    Numbers.  JavaScript numbers are embedded as rationals [Q] (every
    finite double is one); array lengths, loop counters and sample indices
    are [Z].  The resampler, the peak scan and the onset scan are embedded
    in exact arithmetic, and so is the quotient by the maximum that ends
    the peak extractor.  The tempo buckets, the ceiling scaling, the
    drawing coordinates and the progress ratio are rounded: their
    operations go through the rounding [rnd] of the engine (see
    [Js.Engine]), which is left open, and their decimal literals are the
    doubles that the literals denote; the examples run with
    [Js.binary64_round], round to nearest of binary64, which has the
    properties asked of a rounding ([binary64_laws]).  Results beyond
    the finite range of binary64 are not modelled.  The non-finite
    values that the functions below can meet (a division by a zero
    count, [Math.max()] of an empty array) are written out case by case
    where they occur. *)

From Stdlib Require Import ZArith QArith Qround Qpower Lia Lqa List Bool String Ascii.
From stdpp Require Import gmap.
Import ListNotations.

Local Open Scope Z_scope.

(** ** JavaScript arithmetic helpers *)

Module Js.

(** [x < y] on numbers, as a boolean. *)
Definition ltb (x y : Q) : bool :=
  (Qnum x * QDen y <? Qnum y * QDen x)%Z.

(** [x === y] on (finite) numbers. *)
Definition eqb (x y : Q) : bool := Qeq_bool x y.

(** [Math.round]: the nearest integer, halves rounded up. *)
Definition round (x : Q) : Z := Qfloor (x + (1 # 2)).

(** Truncation towards zero, the first step of [ToInt32]. *)
Definition trunc (x : Q) : Z :=
  if ltb x 0 then Qceiling x else Qfloor x.

(** [~~x] on a finite number: truncate, wrap modulo 2^32, read as signed. *)
Definition toInt32 (x : Q) : Z :=
  let m := (trunc x) mod 2 ^ 32 in
  if 2 ^ 31 <=? m then m - 2 ^ 32 else m.

(** [Math.abs]. *)
Definition abs (x : Q) : Q := if ltb x 0 then - x else x.

(** [Math.max(a, b)] and [Math.min(a, b)] on two numbers. *)
Definition max (a b : Q) : Q := if ltb a b then b else a.
Definition min (a b : Q) : Q := if ltb b a then b else a.

(** [Math.max(...xs)]: [None] stands for the [-Infinity] of an empty
    argument list. *)
Fixpoint Math_max (xs : list Q) : option Q :=
  match xs with
  | [] => None
  | x :: r =>
      match Math_max r with
      | None => Some x
      | Some m => Some (max x m)
      end
  end.

(** [data.length]. *)
Definition len {A} (data : list A) : Z := Z.of_nat (List.length data).

(** [data[j]]; [None] is the [undefined] read at an index out of range. *)
Definition get {A} (data : list A) (j : Z) : option A :=
  if j <? 0 then None else nth_error data (Z.to_nat j).

(** [data[j]] where the source has just checked the index; the default is
    never read (see [get_num_in_range]). *)
Definition get_num (data : list Q) (j : Z) : Q :=
  match get data j with Some v => v | None => 0%Q end.

(** [for (let i = i0; i < i0 + n; i++) s = body(i, s)]. *)
Fixpoint for_loop {St : Type} (n : nat) (i : Z) (body : Z -> St -> St) (s : St) : St :=
  match n with
  | O => s
  | S n' => for_loop n' (i + 1) body (body i s)
  end.

(** What a call can do: return a value, throw, or never return. *)
Inductive outcome (A : Type) : Type :=
| Returns (a : A)
| Throws
| Diverges.
Arguments Returns {A} a.
Arguments Throws {A}.
Arguments Diverges {A}.

Definition bind {A B} (m : outcome A) (k : A -> outcome B) : outcome B :=
  match m with
  | Returns a => k a
  | Throws => Throws
  | Diverges => Diverges
  end.

(** The same loop with a body that may throw or diverge. *)
Fixpoint for_loopM {St : Type} (n : nat) (i : Z) (body : Z -> St -> outcome St) (s : St)
  : outcome St :=
  match n with
  | O => Returns s
  | S n' => bind (body i s) (for_loopM n' (i + 1) body)
  end.

(** *** What is left to the engine

    [rnd] sends a real result to the double that the engine returns for
    it (round to nearest); [max_arguments] is the largest number of
    arguments that a call written with a spread, [f(...xs)], accepts
    before it throws [RangeError] (taken as one constant of the engine);
    [max_value] is [Number.MAX_VALUE], beyond which a result is no
    number of the model. *)
Class Engine : Type := {
  rnd : Q -> Q;
  max_arguments : Z;
  max_value : Q
}.

(** The four operations on doubles.  The exact result is read in lowest
    terms, so that equal numbers round alike.  A quotient is only taken
    where the divisor has been told from zero. *)
Definition fadd `{E : Engine} (x y : Q) : Q := rnd (Qred (x + y)).
Definition fsub `{E : Engine} (x y : Q) : Q := rnd (Qred (x - y)).
Definition fmul `{E : Engine} (x y : Q) : Q := rnd (Qred (x * y)).
Definition fdiv `{E : Engine} (x y : Q) : Q := rnd (Qred (x / y)).

Notation "x +! y" := (fadd x y) (at level 50, left associativity).
Notation "x -! y" := (fsub x y) (at level 50, left associativity).
Notation "x *! y" := (fmul x y) (at level 40, left associativity).
Notation "x /! y" := (fdiv x y) (at level 40, left associativity).

(** [Math.max(...xs)] as a call: it throws when [xs] has more elements
    than the engine takes as arguments. *)
Definition spread_max `{E : Engine} (xs : list Q) : outcome (option Q) :=
  if max_arguments <? len xs then Throws else Returns (Math_max xs).

(** A quotient whose divisor may be zero: [x / 0] is an infinity, and
    [0 / 0] is [NaN]. *)
Inductive number : Type :=
  | Finite (q : Q)
  | Infinite
  | NaN.

Definition number_div `{E : Engine} (x y : Q) : number :=
  if eqb y 0 then (if eqb x 0 then NaN else Infinite) else Finite (x /! y).

(** What holds of round-to-nearest, overflow apart: it is monotone, it
    leaves a double alone, and the integers up to 2^53 are doubles.  No
    call is refused for having no argument. *)
Class EngineLaws (E : Engine) : Prop := {
  rnd_monotone : forall x y : Q, (x <= y)%Q -> (rnd x <= rnd y)%Q;
  rnd_idempotent : forall x : Q, (rnd (rnd x) == rnd x)%Q;
  rnd_integer : forall n : Z, - 2 ^ 53 <= n <= 2 ^ 53 -> (rnd (inject_Z n) == inject_Z n)%Q;
  max_arguments_nonneg : 0 <= max_arguments
}.

(** Round to nearest, ties to even, in binary64: 53 significant bits,
    the smallest unit 2^-1074. *)
Definition pow2 (e : Z) : Q :=
  if 0 <=? e then inject_Z (2 ^ e) else 1 # Z.to_pos (2 ^ (- e)).

Definition round_half_even (x : Q) : Z :=
  let f := Qfloor x in
  match Qcompare (x - inject_Z f) (1 # 2) with
  | Lt => f
  | Gt => f + 1
  | Eq => if Z.even f then f else f + 1
  end.

(** The integer part of the binary logarithm of a positive rational. *)
Definition ilog2 (x : Q) : Z :=
  let k := Z.log2 (Qnum x) - Z.log2 (Zpos (Qden x)) in
  if Qle_bool (pow2 k) x then k else k - 1.

Definition round_positive (x : Q) : Q :=
  let e := Z.max (- 1074) (ilog2 x - 52) in
  Qred (inject_Z (round_half_even (x / pow2 e)) * pow2 e).

(** The exponent of the unit in the last place of the double nearest to
    a positive [x], and the significand that [round_positive] gives it. *)
Definition exponent (x : Q) : Z := Z.max (- 1074) (ilog2 x - 52).
Definition mant (x : Q) : Z := round_half_even (x / pow2 (exponent x)).

Definition binary64_round (x : Q) : Q :=
  match Qcompare x 0 with
  | Eq => 0%Q
  | Gt => round_positive x
  | Lt => Qred (- round_positive (- x))
  end.

(** The doubles that the decimal literals of the source denote. *)
Definition double_0_95 : Q := 4278419646001971 # 4503599627370496.
Definition double_0_9 : Q := 8106479329266893 # 9007199254740992.
Definition double_0_45 : Q := 8106479329266893 # 18014398509481984.
Definition double_0_35 : Q := 3152519739159347 # 9007199254740992.
Definition double_0_1 : Q := 3602879701896397 # 36028797018963968.
Definition double_0_4 : Q := 3602879701896397 # 9007199254740992.
Definition double_0_001 : Q := 1152921504606847 # 1152921504606846976.

End Js.

(** ** utils.js: [resampleData] *)

Module Resampler.

Import Js.

(** One iteration of the upsampling loop: the value pushed for output
    index [i]. *)
Definition upsample_at (data : list Q) (ratio : Q) (i : Z) : Q :=
  let index := (inject_Z i * ratio)%Q in
  let lower := Qfloor index in
  let upper := Qceiling index in
  let fraction := (index - inject_Z lower)%Q in
  if len data <=? upper then get_num data (len data - 1)
  else if lower =? upper then get_num data lower
  else (get_num data lower * (1 - fraction) + get_num data upper * fraction)%Q.

(** The inner loop of the downsampling branch,
    [for (let j = start; j <= end && j < data.length; j++)],
    carrying [max] and [count]. *)
Fixpoint bucket_loop (fuel : nat) (data : list Q) (j end_ : Z) (max : Q) (count : Z)
  : Q * Z :=
  match fuel with
  | O => (max, count)
  | S fuel' =>
      if (j <=? end_) && (j <? len data) then
        let max' := if ltb max (get_num data j) then get_num data j else max in
        bucket_loop fuel' data (j + 1) end_ max' (count + 1)
      else (max, count)
  end.

Definition bucket_start (bucketSize : Q) (i : Z) : Z :=
  Qfloor (inject_Z i * bucketSize).

Definition bucket_end (bucketSize : Q) (i : Z) : Z :=
  Qfloor (inject_Z (i + 1) * bucketSize).

(** The scan of bucket [i]: the pair [(max, count)] when the inner loop
    exits.  The loop runs at most [data.length - start] times, which is
    the fuel given. *)
Definition bucket_scan (data : list Q) (bucketSize : Q) (i : Z) : Q * Z :=
  let start := bucket_start bucketSize i in
  let end_ := bucket_end bucketSize i in
  bucket_loop (Z.to_nat (len data - start)) data start end_ 0%Q 0.

(** One iteration of the downsampling loop: the value pushed for bucket
    [i], with the nearest-neighbour fallback when [count === 0]. *)
Definition downsample_at (data : list Q) (bucketSize : Q) (i : Z) : Q :=
  let '(max, count) := bucket_scan data bucketSize i in
  if count =? 0 then
    let nearestIndex := Z.min (round (inject_Z i * bucketSize)) (len data - 1) in
    get_num data nearestIndex
  else max.

Definition resampleData (data : list Q) (targetLength : Z) : list Q :=
  if len data =? targetLength then data
  else if (len data =? 0) || (targetLength =? 0) then []
  else if len data <? targetLength then
    let ratio := (inject_Z (len data - 1) / inject_Z (targetLength - 1))%Q in
    for_loop (Z.to_nat targetLength) 0
      (fun i result => result ++ [upsample_at data ratio i]) []
  else
    let bucketSize := (inject_Z (len data) / inject_Z targetLength)%Q in
    for_loop (Z.to_nat targetLength) 0
      (fun i result => result ++ [downsample_at data bucketSize i]) [].

End Resampler.

(** ** audio.js: [extractPeaks], [normalizePeaks] *)

Module Audio.

Import Js.

(** The part of a decoded [AudioBuffer] that the analysis reads.
    [channels] holds what [getChannelData(c)] returns for each [c]; a
    decoded buffer has [numberOfChannels] of them, each of
    [buffer_length] frames (see [valid_buffer]), but the code is also
    defined on objects that break this. *)
Record AudioBuffer : Type := {
  sampleRate : Q;
  buffer_length : Z;
  numberOfChannels : Z;
  channels : list (list Q)
}.

(** [buffer.getChannelData(c)]: [None] when the call throws. *)
Definition getChannelData (buffer : AudioBuffer) (c : Z) : option (list Q) :=
  get (channels buffer) c.

(** [for (let j = start; j < end; j += sampleStep)], carrying [(min, max)].
    [chan[j]] out of range is [undefined], and both comparisons with
    [undefined] are false. *)
Fixpoint window_loop (fuel : nat) (chan : list Q) (j end_ sampleStep : Z) (min max : Q)
  : Q * Q :=
  match fuel with
  | O => (min, max)
  | S fuel' =>
      if j <? end_ then
        match get chan j with
        | Some value =>
            let max' := if ltb max value then value else max in
            let min' := if ltb value min then value else min in
            window_loop fuel' chan (j + sampleStep) end_ sampleStep min' max'
        | None => window_loop fuel' chan (j + sampleStep) end_ sampleStep min max
        end
      else (min, max)
  end.

(** The scan of one window.  With a positive step the loop exits within
    [end - start] iterations; with a non-positive step and a non-empty
    window [j] never reaches [end]. *)
Definition window_scan (chan : list Q) (start end_ sampleStep : Z) : outcome (Q * Q) :=
  if start <? end_ then
    if 0 <? sampleStep then
      Returns (window_loop (Z.to_nat (end_ - start)) chan start end_ sampleStep 0%Q 0%Q)
    else Diverges
  else Returns (0%Q, 0%Q).

(** [peaks[i] = peak].  In [extractPeaks] the index is at most
    [peaks.length] (channel 0 fills the array in order), so the write
    either replaces an element or appends one. *)
Definition array_set (peaks : list Q) (i : Z) (peak : Q) : list Q :=
  firstn (Z.to_nat i) peaks ++ [peak] ++ skipn (Z.to_nat i + 1) peaks.

(** [if (c === 0 || peak > peaks[i]) peaks[i] = peak]. *)
Definition store_peak (c i : Z) (peak : Q) (peaks : list Q) : list Q :=
  if (c =? 0) || match get peaks i with Some p => ltb p peak | None => false end
  then array_set peaks i peak
  else peaks.

(** [~~(sampleSize / 10) || 1].  For [samples = 0] the quotient
    [buffer.length / samples] is [Infinity] or [NaN], [~~] of either is 0,
    and [0 || 1] is 1. *)
Definition sampleStep_of (buffer_len samples : Z) : Z :=
  if samples =? 0 then 1
  else
    let sampleSize := (inject_Z buffer_len / inject_Z samples)%Q in
    let t := toInt32 (sampleSize / 10) in
    if t =? 0 then 1 else t.

(** The body of the loop over [i] for channel [c]. *)
Definition window_step (chan : list Q) (sampleSize : Q) (sampleStep c i : Z)
  (peaks : list Q) : outcome (list Q) :=
  let start := toInt32 (inject_Z i * sampleSize) in
  let end_ := toInt32 (inject_Z start + sampleSize) in
  bind (window_scan chan start end_ sampleStep) (fun mm =>
    let '(min, max) := mm in
    let peak := Js.max (abs max) (abs min) in
    Returns (store_peak c i peak peaks)).

(** The two nested loops: the raw (not yet normalized) peaks.  [sampleSize]
    is only read inside the loop over [i], which does not run for
    [samples <= 0]. *)
Definition raw_peaks (buffer : AudioBuffer) (samples : Z) : outcome (list Q) :=
  let sampleSize := (inject_Z (buffer_length buffer) / inject_Z samples)%Q in
  let sampleStep := sampleStep_of (buffer_length buffer) samples in
  for_loopM (Z.to_nat (numberOfChannels buffer)) 0
    (fun c peaks =>
       match getChannelData buffer c with
       | None => Throws
       | Some chan =>
           for_loopM (Z.to_nat samples) 0
             (window_step chan sampleSize sampleStep c) peaks
       end) [].

Definition extractPeaks `{E : Engine} (buffer : AudioBuffer) (samples : Z)
  : outcome (list Q) :=
  bind (raw_peaks buffer samples) (fun peaks =>
  bind (spread_max peaks) (fun m =>
    match m with
    | Some maxPeak =>
        if ltb 0 maxPeak then Returns (map (fun peak => (peak / maxPeak)%Q) peaks)
        else Returns peaks
    | None => Returns peaks
    end)).

(** [normalizePeaks(peaks, targetMax)].  For an empty array [maxPeak] is
    [-Infinity]: neither test holds and the map over no element is [].
    The quotient and the products are rounded. *)
Definition normalizePeaks `{E : Engine} (peaks : list Q) (targetMax : Q)
  : outcome (list Q) :=
  bind (spread_max peaks) (fun m =>
    match m with
    | None => Returns []
    | Some maxPeak =>
        if eqb maxPeak 0 || ltb targetMax maxPeak then Returns peaks
        else
          let scaleFactor := targetMax /! maxPeak in
          Returns (map (fun peak => peak *! scaleFactor) peaks)
    end).

(** The envelope that [generateWaveform] builds from a decoded buffer:
    [extractPeaks] followed by [normalizePeaks] with its default ceiling,
    the double written 0.95. *)
Definition generateWaveform_peaks `{E : Engine} (audioBuffer : AudioBuffer) (samples : Z)
  : outcome (list Q) :=
  bind (extractPeaks audioBuffer samples) (fun peaks =>
    normalizePeaks peaks double_0_95).

(** A decoded buffer as the Web Audio decoder hands it over: a length that
    fits an unsigned long, at least one channel, and as many frames in
    every channel as the length says. *)
Definition valid_buffer (b : AudioBuffer) : Prop :=
  0 <= buffer_length b < 2 ^ 32 /\
  1 <= numberOfChannels b /\
  len (channels b) = numberOfChannels b /\
  Forall (fun chan => len chan = buffer_length b) (channels b).

(** Every channel that the buffer announces can be read. *)
Definition readable (b : AudioBuffer) : Prop :=
  forall c, 0 <= c < numberOfChannels b -> is_Some (getChannelData b c).

End Audio.

(** ** bpm.js: [detectOnsets], [detectBPM] *)

Module Bpm.

Import Js Audio.

(** The mean squared energy of the window that starts at frame [i]:
    the inner loop over [j] followed by the division by [windowSize]. *)
Definition window_energy (channelData : list Q) (i : Z) : Q :=
  (for_loop 2048 i
     (fun j energy => energy + get_num channelData j * get_num channelData j) 0
   / 2048)%Q.

(** One iteration of the loop of [detectOnsets], on the pair
    [(onsets, previousEnergy)]: what follows the computation of [energy],
    then the whole body.  [onsets[onsets.length - 1] || 0] is the last
    onset, or 0 when there is none. *)
Definition onset_update (sampleRate : Q) (i : Z) (energy : Q)
  (st : list Z * Q) : list Z * Q :=
  let '(onsets, previousEnergy) := st in
  let energyDiff := (energy - previousEnergy)%Q in
  let threshold := (previousEnergy * (18 # 10) + (1 # 100))%Q in
  let onsets' :=
    if ltb threshold energyDiff && ltb (1 # 100) energy then
      let lastOnset := List.last onsets 0 in
      let minDistance := (sampleRate * (15 # 100))%Q in
      if ltb minDistance (inject_Z (i - lastOnset)) then onsets ++ [i] else onsets
    else onsets in
  (onsets', (energy * (8 # 10) + previousEnergy * (2 # 10))%Q).

Definition onset_step (channelData : list Q) (sampleRate : Q) (i : Z)
  (st : list Z * Q) : list Z * Q :=
  onset_update sampleRate i (window_energy channelData i) st.

(** [for (let i = 0; i < channelData.length - windowSize; i += hopSize)]. *)
Fixpoint onset_loop (fuel : nat) (channelData : list Q) (sampleRate : Q) (i : Z)
  (st : list Z * Q) : list Z * Q :=
  match fuel with
  | O => st
  | S fuel' =>
      if i <? len channelData - 2048 then
        onset_loop fuel' channelData sampleRate (i + 1024)
          (onset_step channelData sampleRate i st)
      else st
  end.

(** The loop counter grows by 1024 per iteration and stays below
    [channelData.length], so [channelData.length] iterations are enough. *)
Definition detectOnsets (channelData : list Q) (sampleRate : Q) : list Z :=
  fst (onset_loop (List.length channelData) channelData sampleRate 0 ([], 0%Q)).

Definition get_int (onsets : list Z) (i : Z) : Z :=
  match get onsets i with Some v => v | None => 0 end.

(** [for (let i = 1; i < onsets.length; i++) intervals.push(...)]: each
    interval is the double quotient of a frame distance and
    [sampleRate]. *)
Definition intervals_of `{E : Engine} (onsets : list Z) (sampleRate : Q) : list number :=
  for_loop (Z.to_nat (len onsets - 1)) 1
    (fun i intervals =>
       intervals
       ++ [number_div (inject_Z (get_int onsets i - get_int onsets (i - 1))) sampleRate])
    [].

(** [tempo = 60 / interval]: 0 for an infinite interval, an infinity for
    the interval 0. *)
Definition tempo_of `{E : Engine} (interval : number) : number :=
  match interval with
  | Finite q => number_div 60 q
  | Infinite => Finite 0
  | NaN => NaN
  end.

(** [Math.round(tempo / 3) * 3], each step in doubles; [None] when the
    tempo is no finite number, in which case the bucket is none either
    and fails both comparisons of the range test. *)
Definition bucket_of `{E : Engine} (interval : number) : option Z :=
  match tempo_of interval with
  | Finite tempo => Some (round (tempo /! 3) * 3)
  | _ => None
  end.

(** [tempoGroups]: an object whose keys are bucket numbers.  The keys
    that are ever written lie strictly between 60 and 200, so they are
    integer keys, which [Object.entries] lists in ascending numeric order:
    the object is kept as an association list sorted by key. *)
Definition tempoGroups_t : Type := list (Z * Z).

Fixpoint group_get (tempoGroups : tempoGroups_t) (bucket : Z) : option Z :=
  match tempoGroups with
  | [] => None
  | (k, n) :: r => if k =? bucket then Some n else group_get r bucket
  end.

Fixpoint group_put (tempoGroups : tempoGroups_t) (bucket count : Z) : tempoGroups_t :=
  match tempoGroups with
  | [] => [(bucket, count)]
  | (k, n) :: r =>
      if bucket <? k then (bucket, count) :: tempoGroups
      else if bucket =? k then (k, count) :: r
      else (k, n) :: group_put r bucket count
  end.

(** [tempoGroups[k]] read as a condition: present with a non-zero count. *)
Definition has_votes (tempoGroups : tempoGroups_t) (k : Z) : bool :=
  match group_get tempoGroups k with
  | Some n => negb (n =? 0)
  | None => false
  end.

(** The body of [intervals.forEach]. *)
Definition add_interval `{E : Engine} (tempoGroups : tempoGroups_t) (interval : number)
  : tempoGroups_t :=
  match bucket_of interval with
  | Some bucket =>
      if (60 <? bucket) && (bucket <? 200) then
        let old := match group_get tempoGroups bucket with Some n => n | None => 0 end in
        group_put tempoGroups bucket (old + 1)
      else tempoGroups
  | None => tempoGroups
  end.

(** The loop over [Object.entries(tempoGroups)], on
    [(maxCount, detectedBPM)]. *)
Definition most_common (tempoGroups : tempoGroups_t) : Z * Z :=
  fold_left
    (fun (st : Z * Z) (entry : Z * Z) =>
       let '(maxCount, detectedBPM) := st in
       let '(tempo, count) := entry in
       if maxCount <? count then (count, tempo) else st)
    tempoGroups (0, 120).

(** "Handle tempo ambiguity". *)
Definition octave_correct (tempoGroups : tempoGroups_t) (detectedBPM : Z) : Z :=
  if (detectedBPM <? 70) && has_votes tempoGroups (detectedBPM * 2) then detectedBPM * 2
  else if (160 <? detectedBPM) && has_votes tempoGroups (round (inject_Z detectedBPM / 2))
  then round (inject_Z detectedBPM / 2)
  else detectedBPM.

(** The part of [detectBPM] after the onsets are known to number 2 or
    more. *)
Definition tempo_of_onsets `{E : Engine} (onsets : list Z) (sampleRate : Q) : Z :=
  let intervals := intervals_of onsets sampleRate in
  let tempoGroups := fold_left add_interval intervals [] in
  let detectedBPM := snd (most_common tempoGroups) in
  octave_correct tempoGroups detectedBPM - 1.

(** [detectBPM(buffer)]; [None] is the [null] returned by the [catch]
    clause, reached when [getChannelData(0)] throws. *)
Definition detectBPM `{E : Engine} (buffer : AudioBuffer) : option Z :=
  match getChannelData buffer 0 with
  | None => None
  | Some channelData =>
      let onsets := detectOnsets channelData (sampleRate buffer) in
      if len onsets <? 2 then Some 120
      else Some (tempo_of_onsets onsets (sampleRate buffer))
  end.

(** The tempo estimate as the specification words it: every inter-onset
    tempo is bucketed and votes (no range test on the bucket), the most
    frequent bucket wins, the octave correction and the offset follow. *)
Definition spec_add_interval `{E : Engine} (tempoGroups : tempoGroups_t) (interval : number)
  : tempoGroups_t :=
  match bucket_of interval with
  | Some bucket =>
      let old := match group_get tempoGroups bucket with Some n => n | None => 0 end in
      group_put tempoGroups bucket (old + 1)
  | None => tempoGroups
  end.

Definition spec_tempo_of_onsets `{E : Engine} (onsets : list Z) (sampleRate : Q) : Z :=
  let tempoGroups := fold_left spec_add_interval (intervals_of onsets sampleRate) [] in
  octave_correct tempoGroups (snd (most_common tempoGroups)) - 1.

(** *** The estimate read as an election *)

(** The buckets of the finite tempos, in interval order. *)
Definition buckets_of `{E : Engine} (intervals : list number) : list Z :=
  flat_map (fun interval => match bucket_of interval with Some b => [b] | None => [] end)
    intervals.

(** The buckets that vote: those of the inter-onset tempos that pass the
    range test, in interval order. *)
Definition votes `{E : Engine} (onsets : list Z) (sampleRate : Q) : list Z :=
  List.filter (fun bucket => (60 <? bucket) && (bucket <? 200))
    (buckets_of (intervals_of onsets sampleRate)).

Fixpoint count_votes (bucket : Z) (l : list Z) : Z :=
  match l with
  | [] => 0
  | b :: r => (if b =? bucket then 1 else 0) + count_votes bucket r
  end.

(** The winner of a ballot: 120 when nobody votes; otherwise a bucket
    with the most votes and, among those, the smallest. *)
Definition is_winner (ballot : list Z) (winner : Z) : Prop :=
  match ballot with
  | [] => winner = 120
  | _ =>
      In winner ballot /\
      forall b, In b ballot ->
        count_votes b ballot <= count_votes winner ballot /\
        (count_votes b ballot = count_votes winner ballot -> winner <= b)
  end.

(** Doubling below 70 and halving above 160, when the target has votes. *)
Definition corrected (ballot : list Z) (winner : Z) : Z :=
  if (winner <? 70) && (0 <? count_votes (winner * 2) ballot) then winner * 2
  else if (160 <? winner) && (0 <? count_votes (round (inject_Z winner / 2)) ballot)
  then round (inject_Z winner / 2)
  else winner.

(** The count stored for a bucket, 0 when it has no entry. *)
Definition gcount (g : tempoGroups_t) (k : Z) : Z :=
  match group_get g k with Some n => n | None => 0 end.

(** The update made for one vote, and the groups built from a ballot. *)
Definition put1 (g : tempoGroups_t) (bucket : Z) : tempoGroups_t :=
  group_put g bucket (gcount g bucket + 1).

Definition tally (g : tempoGroups_t) (ballot : list Z) : tempoGroups_t :=
  fold_left put1 ballot g.

(** Keys strictly ascending, all above [lo]. *)
Fixpoint keys_above (lo : Z) (g : tempoGroups_t) : Prop :=
  match g with
  | [] => True
  | (k, _) :: r => lo < k /\ keys_above k r
  end.

(** *** The window energy read from a slice *)

(** The same mean of squares, summed over the slice of 2048 frames that
    starts at [i]; [detectOnsets_sliced] is [detectOnsets] with this
    reading (see [detectOnsets_sliced_eq]) and is the form evaluated on
    the long example signal. *)
Definition slice_energy (channelData : list Q) (i : Z) : Q :=
  (fold_left (fun energy v => energy + v * v)
     (firstn 2048 (skipn (Z.to_nat i) channelData)) 0
   / 2048)%Q.

Fixpoint onset_loop_sliced (fuel : nat) (channelData : list Q) (sampleRate : Q) (i : Z)
  (st : list Z * Q) : list Z * Q :=
  match fuel with
  | O => st
  | S fuel' =>
      if i <? len channelData - 2048 then
        onset_loop_sliced fuel' channelData sampleRate (i + 1024)
          (onset_update sampleRate i (slice_energy channelData i) st)
      else st
  end.

Definition detectOnsets_sliced (channelData : list Q) (sampleRate : Q) : list Z :=
  fst (onset_loop_sliced (List.length channelData) channelData sampleRate 0 ([], 0%Q)).

End Bpm.

(** ** drawing.js: the six styles and their dispatch *)

Module Drawing.

Import Js Resampler.

(** An angle given as a multiple of [Math.PI]. *)
Inductive angle : Type := PiTimes (k : Q).

(** The calls and property writes made on the 2D context, in order. *)
Inductive canvas_op : Type :=
| ClearRect (x y w h : Q)
| FillStyle (c : string)
| StrokeStyle (c : string)
| LineWidth (w : Q)
| LineCap (s : string)
| LineJoin (s : string)
| ShadowBlur (b : Q)
| ShadowColor (c : string)
| ShadowOffsetY (o : Q)
| FillRect (x y w h : Q)
| Save
| Restore
| BeginPath
| ClosePath
| Clip
| Stroke
| Fill
| Rect (x y w h : Q)
| MoveTo (x y : Q)
| LineTo (x y : Q)
| BezierCurveTo (cp1x cp1y cp2x cp2y x y : Q)
| Arc (x y r : Q) (a0 a1 : angle).

Record Canvas : Type := { width : Q; height : Q }.

Record Options : Type := {
  waveformStyle : string;
  barWidth : Q;
  barSpacing : Q;
  color : string;
  progressColor : string
}.

(** [a || b] on numbers and on strings. *)
Definition num_or (a b : Q) : Q := if eqb a 0 then b else a.
Definition str_or (a b : string) : string :=
  if String.eqb a EmptyString then b else a.

(** [resampleData(peaks, Math.floor(canvas.width / (barWidth + barSpacing)))],
    the quotient being the double that the engine computes.  When
    [barWidth + barSpacing] is 0 the quotient is not finite: it is [NaN]
    for a zero width, and every test of [resampleData] on [NaN] fails up
    to the loop guard, so the result is []; it is [Infinity] for a
    positive width, and then an empty envelope gives [] while the
    upsampling loop of a non-empty one never ends. *)
Definition resample_columns `{E : Engine} (peaks : list Q) (canvas_width per : Q)
  : outcome (list Q) :=
  if eqb per 0 then
    if ltb 0 canvas_width && negb (len peaks =? 0) then Diverges else Returns []
  else Returns (resampleData peaks (Qfloor (canvas_width /! per))).

(** A [for] loop over the columns with an early [break]: [stop x] is the
    break test at the column's position, [paint x peak] what is drawn. *)
Fixpoint column_pass (position : Z -> Q) (stop : Q -> bool)
  (paint : Q -> Q -> list canvas_op) (resampledPeaks : list Q) (i : Z) : list canvas_op :=
  match resampledPeaks with
  | [] => []
  | peak :: rest =>
      let x := position i in
      if stop x then []
      else paint x peak ++ column_pass position stop paint rest (i + 1)
  end.

(** The same loop when painting a column may not end. *)
Fixpoint column_passM (position : Z -> Q) (stop : Q -> bool)
  (paint : Q -> Q -> outcome (list canvas_op)) (resampledPeaks : list Q) (i : Z)
  : outcome (list canvas_op) :=
  match resampledPeaks with
  | [] => Returns []
  | peak :: rest =>
      let x := position i in
      if stop x then Returns []
      else bind (paint x peak) (fun ops =>
           bind (column_passM position stop paint rest (i + 1)) (fun more =>
           Returns (ops ++ more)))
  end.

(** Column [k] is reached by a pass when neither it nor a column before
    it meets the break test. *)
Definition reached (position : Z -> Q) (stop : Q -> bool) (k : Z) : Prop :=
  forall j, 0 <= j <= k -> stop (position j) = false.

(** What a call of a member that every object inherits from
    [Object.prototype] does when it is called as a plain function on the
    arguments of a drawing routine. *)
Inductive inherited_call : Type :=
| ReturnsUndrawn
| RaisesTypeError.

(** The members of [Object.prototype] in ECMAScript.  [toString] and
    [constructor] return without touching the context; the others need
    a receiver and raise [TypeError] without one, and [__proto__] is the
    prototype object itself, which cannot be called. *)
Definition Object_prototype (key : string) : option inherited_call :=
  if String.eqb key "toString" || String.eqb key "constructor" then Some ReturnsUndrawn
  else if String.eqb key "hasOwnProperty" || String.eqb key "isPrototypeOf"
          || String.eqb key "propertyIsEnumerable" || String.eqb key "toLocaleString"
          || String.eqb key "valueOf" || String.eqb key "__proto__"
          || String.eqb key "__defineGetter__" || String.eqb key "__defineSetter__"
          || String.eqb key "__lookupGetter__" || String.eqb key "__lookupSetter__"
  then Some RaisesTypeError
  else None.

Section Styles.

Context `{E : Engine}.

(** [window.devicePixelRatio] and [Math.sin]. *)
Variable devicePixelRatio : Q.
Variable sin : Q -> Q.

Definition dpr : Q := num_or devicePixelRatio 1.

(** Each of the four column styles is written in two steps: the
    resampling, and what the routine does once [resampledPeaks] is
    known. *)
Definition paint_bars (canvas : Canvas) (progress : Q) (options : Options)
  (resampledPeaks : list Q) : list canvas_op :=
  let barWidth := barWidth options *! dpr in
  let barSpacing := barSpacing options *! dpr in
  let height := height canvas in
  let progressWidth := progress *! width canvas in
  let position i := inject_Z i *! (barWidth +! barSpacing) in
  let bar c x peak :=
    let peakHeight := peak *! height *! double_0_9 in
    let y := height -! peakHeight in
    [FillStyle c; FillRect x y barWidth peakHeight] in
  [ClearRect 0 0 (width canvas) height]
  ++ column_pass position (fun x => ltb (width canvas) (x +! barWidth))
       (bar (color options)) resampledPeaks 0
  ++ [Save; BeginPath; Rect 0 0 progressWidth height; Clip]
  ++ column_pass position (fun x => ltb progressWidth x)
       (bar (progressColor options)) resampledPeaks 0
  ++ [Restore].

Definition drawBars (canvas : Canvas) (peaks : list Q) (progress : Q) (options : Options)
  : outcome (list canvas_op) :=
  let barWidth := barWidth options *! dpr in
  let barSpacing := barSpacing options *! dpr in
  bind (resample_columns peaks (width canvas) (barWidth +! barSpacing)) (fun resampledPeaks =>
  Returns (paint_bars canvas progress options resampledPeaks)).

Definition paint_mirror (canvas : Canvas) (progress : Q) (options : Options)
  (resampledPeaks : list Q) : list canvas_op :=
  let barWidth := barWidth options *! dpr in
  let barSpacing := barSpacing options *! dpr in
  let height := height canvas in
  let centerY := height /! 2 in
  let progressWidth := progress *! width canvas in
  let position i := inject_Z i *! (barWidth +! barSpacing) in
  let bar c x peak :=
    let peakHeight := peak *! height *! double_0_45 in
    [FillStyle c;
     FillRect x (centerY -! peakHeight) barWidth peakHeight;
     FillRect x centerY barWidth peakHeight] in
  [ClearRect 0 0 (width canvas) height]
  ++ column_pass position (fun x => ltb (width canvas) (x +! barWidth))
       (bar (color options)) resampledPeaks 0
  ++ [Save; BeginPath; Rect 0 0 progressWidth height; Clip]
  ++ column_pass position (fun x => ltb progressWidth x)
       (bar (progressColor options)) resampledPeaks 0
  ++ [Restore].

Definition drawMirror (canvas : Canvas) (peaks : list Q) (progress : Q) (options : Options)
  : outcome (list canvas_op) :=
  let barWidth := barWidth options *! dpr in
  let barSpacing := barSpacing options *! dpr in
  bind (resample_columns peaks (width canvas) (barWidth +! barSpacing)) (fun resampledPeaks =>
  Returns (paint_mirror canvas progress options resampledPeaks)).

(** The points of [drawCurve]: one per envelope value below
    [Math.floor(peaks.length * endProgress)].  For an envelope of one
    value the abscissa [0 / 0 * width] of its point is [NaN]; the point
    joins no segment, and its abscissa is kept as 0 here. *)
Definition curve_points (canvas : Canvas) (peaks : list Q) (endProgress : Q)
  : list (Q * Q) :=
  let centerY := height canvas /! 2 in
  let amplitude := height canvas *! double_0_35 in
  let samples := Qfloor (inject_Z (len peaks) *! endProgress) in
  for_loop (Z.to_nat samples) 0
    (fun i points =>
       let x := inject_Z i /! inject_Z (len peaks - 1) *! width canvas in
       let peakValue := get_num peaks i in
       let waveOffset := sin (inject_Z i *! double_0_1) *! peakValue in
       let y := centerY +! waveOffset *! amplitude in
       points ++ [(x, y)])
    [].

(** The Bezier segments through consecutive points. *)
Fixpoint curve_segments (points : list (Q * Q)) : list canvas_op :=
  match points with
  | p :: ((q :: _) as rest) =>
      let cp1x := fst p +! (fst q -! fst p) *! (1 # 2) in
      let cp1y := snd p in
      let cp2x := fst q -! (fst q -! fst p) *! (1 # 2) in
      let cp2y := snd q in
      BezierCurveTo cp1x cp1y cp2x cp2y (fst q) (snd q) :: curve_segments rest
  | _ => []
  end.

Definition drawCurve (canvas : Canvas) (peaks : list Q) (color : string) (lineWidth : Q)
  (endProgress : Q) (addGlow : bool) : list canvas_op :=
  let centerY := height canvas /! 2 in
  (if addGlow then [ShadowBlur 12; ShadowColor color] else [])
  ++ [StrokeStyle color; LineWidth lineWidth; LineCap "round"; LineJoin "round";
      BeginPath; MoveTo 0 centerY]
  ++ curve_segments (curve_points canvas peaks endProgress)
  ++ [Stroke]
  ++ (if addGlow then [ShadowBlur 0] else []).

Definition drawLine (canvas : Canvas) (peaks : list Q) (progress : Q) (options : Options)
  : outcome (list canvas_op) :=
  let width := width canvas in
  let height := height canvas in
  let centerY := height /! 2 in
  Returns
    ([ClearRect 0 0 width height;
      StrokeStyle "rgba(255, 255, 255, 0.03)"; LineWidth (1 # 2);
      BeginPath; MoveTo 0 centerY; LineTo width centerY; Stroke]
     ++ for_loop 11 0
          (fun i ops =>
             let x := width /! 10 *! inject_Z i in
             ops ++ [BeginPath; MoveTo x 0; LineTo x height; Stroke]) []
     ++ drawCurve canvas peaks (color options) 2 1 false
     ++ (if ltb 0 progress
         then drawCurve canvas peaks (progressColor options) 3 progress true
         else [])).

(** [Math.floor(peakHeight / (blockSize + blockGap))]; [None] when the
    quotient is [Infinity], for which the loop over the blocks does not
    end.  The quotient by 0 of 0 is [NaN] and that of a negative height
    [-Infinity]: the loop has no iteration. *)
Definition block_count (peakHeight blockPitch : Q) : option Z :=
  if eqb blockPitch 0 then (if ltb 0 peakHeight then None else Some 0)
  else Some (Qfloor (peakHeight /! blockPitch)).

(** The inner loop of [drawBlocks] over the blocks of one column. *)
Definition column_blocks (x centerY barWidth blockSize blockGap : Q) (blockCount : Z)
  : list canvas_op :=
  for_loop (Z.to_nat blockCount) 0
    (fun j ops =>
       let blockOffset := inject_Z j *! (blockSize +! blockGap) in
       ops ++ [FillRect x (centerY -! blockOffset -! blockSize) barWidth blockSize]
           ++ (if 0 <? j then [FillRect x (centerY +! blockOffset) barWidth blockSize]
               else []))
    [].

Definition paint_blocks (canvas : Canvas) (progress : Q) (options : Options)
  (resampledPeaks : list Q) : outcome (list canvas_op) :=
  let barWidth := num_or (barWidth options) 3 *! dpr in
  let barSpacing := num_or (barSpacing options) 1 *! dpr in
  let height := height canvas in
  let blockSize := 4 *! dpr in
  let blockGap := 2 *! dpr in
  let progressWidth := progress *! width canvas in
  let centerY := height /! 2 in
  bind (column_passM (fun i => inject_Z i *! (barWidth +! barSpacing))
          (fun x => ltb (width canvas) (x +! barWidth))
          (fun x peak =>
             let peakHeight := peak *! height *! double_0_9 in
             match block_count peakHeight (blockSize +! blockGap) with
             | None => Diverges
             | Some blockCount =>
                 Returns
                   (FillStyle (if ltb x progressWidth then progressColor options
                               else color options)
                    :: column_blocks x centerY barWidth blockSize blockGap blockCount)
             end)
          resampledPeaks 0) (fun columns =>
  Returns ([ClearRect 0 0 (width canvas) height] ++ columns)).

Definition drawBlocks (canvas : Canvas) (peaks : list Q) (progress : Q) (options : Options)
  : outcome (list canvas_op) :=
  let barWidth := num_or (barWidth options) 3 *! dpr in
  let barSpacing := num_or (barSpacing options) 1 *! dpr in
  bind (resample_columns peaks (width canvas) (barWidth +! barSpacing))
    (paint_blocks canvas progress options).

Definition paint_dots (canvas : Canvas) (progress : Q) (options : Options)
  (resampledPeaks : list Q) : list canvas_op :=
  let barWidth := num_or (barWidth options) 2 *! dpr in
  let barSpacing := num_or (barSpacing options) 3 *! dpr in
  let height := height canvas in
  let dotRadius := Js.max ((3 # 2) *! dpr) (barWidth /! 2) in
  let progressWidth := progress *! width canvas in
  let centerY := height /! 2 in
  [ClearRect 0 0 (width canvas) height]
  ++ column_pass (fun i => inject_Z i *! (barWidth +! barSpacing) +! barWidth /! 2)
       (fun x => ltb (width canvas) x)
       (fun x peak =>
          let peakHeight := peak *! height *! double_0_9 in
          [FillStyle (if ltb x progressWidth then progressColor options else color options);
           BeginPath;
           Arc x (centerY -! peakHeight /! 2) dotRadius (PiTimes 0) (PiTimes 2);
           Fill;
           BeginPath;
           Arc x (centerY +! peakHeight /! 2) dotRadius (PiTimes 0) (PiTimes 2);
           Fill])
       resampledPeaks 0.

Definition drawDots (canvas : Canvas) (peaks : list Q) (progress : Q) (options : Options)
  : outcome (list canvas_op) :=
  let barWidth := num_or (barWidth options) 2 *! dpr in
  let barSpacing := num_or (barSpacing options) 3 *! dpr in
  bind (resample_columns peaks (width canvas) (barWidth +! barSpacing)) (fun resampledPeaks =>
  Returns (paint_dots canvas progress options resampledPeaks)).

(** The rounded track from [borderRadius] to [right]; [barHeight / 2] is
    2. *)
Definition rounded_track (centerY borderRadius right : Q) : list canvas_op :=
  [BeginPath;
   MoveTo borderRadius (centerY -! 2);
   LineTo (right -! borderRadius) (centerY -! 2);
   Arc (right -! borderRadius) centerY 2 (PiTimes (- (1 # 2))) (PiTimes (1 # 2));
   LineTo borderRadius (centerY +! 2);
   Arc borderRadius centerY 2 (PiTimes (1 # 2)) (PiTimes (- (1 # 2)));
   ClosePath;
   Fill].

Definition drawSeekbar (canvas : Canvas) (peaks : list Q) (progress : Q) (options : Options)
  : outcome (list canvas_op) :=
  let width := width canvas in
  let height := height canvas in
  let centerY := height /! 2 in
  let borderRadius := 2%Q in
  Returns
    ([ClearRect 0 0 width height;
      FillStyle (str_or (color options) "rgba(255, 255, 255, 0.2)")]
     ++ rounded_track centerY borderRadius width
     ++ (if ltb 0 progress then
           let progressWidth := Js.max 4 (progress *! width) in
           let handleRadius := 8%Q in
           let handleX := progressWidth in
           [ShadowBlur 8; ShadowColor (progressColor options);
            FillStyle (str_or (progressColor options) "rgba(255, 255, 255, 0.9)")]
           ++ rounded_track centerY borderRadius progressWidth
           ++ [ShadowBlur 0;
               ShadowBlur 4; ShadowColor "rgba(0, 0, 0, 0.3)"; ShadowOffsetY 2;
               FillStyle "#ffffff";
               BeginPath; Arc handleX centerY handleRadius (PiTimes 0) (PiTimes 2); Fill;
               ShadowBlur 0; ShadowOffsetY 0;
               FillStyle (str_or (progressColor options) "rgba(255, 255, 255, 0.9)");
               BeginPath;
               Arc handleX centerY (handleRadius *! double_0_4) (PiTimes 0) (PiTimes 2);
               Fill]
         else [])).

(** The own properties of [DRAWING_STYLES]. *)
Definition DRAWING_STYLES (style : string)
  : option (Canvas -> list Q -> Q -> Options -> outcome (list canvas_op)) :=
  if String.eqb style "bars" then Some drawBars
  else if String.eqb style "mirror" then Some drawMirror
  else if String.eqb style "line" then Some drawLine
  else if String.eqb style "blocks" then Some drawBlocks
  else if String.eqb style "dots" then Some drawDots
  else if String.eqb style "seekbar" then Some drawSeekbar
  else None.

(** [const drawFunc = DRAWING_STYLES[options.waveformStyle] || drawBars;
    drawFunc(ctx, canvas, peaks, progress, options)].  The lookup finds
    the six own properties and, for any other key, what the object
    inherits; [drawBars] is the fallback for a key that is found
    nowhere. *)
Definition draw (canvas : Canvas) (peaks : list Q) (progress : Q) (options : Options)
  : outcome (list canvas_op) :=
  match DRAWING_STYLES (waveformStyle options) with
  | Some drawFunc => drawFunc canvas peaks progress options
  | None =>
      match Object_prototype (waveformStyle options) with
      | Some ReturnsUndrawn => Returns []
      | Some RaisesTypeError => Throws
      | None => drawBars canvas peaks progress options
      end
  end.

(** The number of columns the specification gives every style: those that
    fit the surface width for [barWidth + barSpacing] scaled by the device
    pixel ratio. *)
Definition spec_barCount (canvas : Canvas) (options : Options) : Z :=
  Qfloor (width canvas / ((barWidth options + barSpacing options) * dpr)).

End Styles.

End Drawing.

(** ** core.js: pre-supplied waveform data *)

Module WaveformData.

Import Js.

(** A JavaScript value as far as an envelope entry is concerned. *)
Inductive jsvalue : Type :=
| VNum (q : Q)
| VNaN
| VOther.

(** What [JSON.parse(data)] does: it returns an array, returns some other
    value, or throws. *)
Inductive parse_result : Type :=
| ParsedArray (parsed : list jsvalue)
| ParsedOther
| ParseThrows.

(** The argument of [setWaveformData]: a string, an array, or any other
    value (with its truthiness). *)
Inductive jsdata : Type :=
| DString (s : string)
| DArray (a : list jsvalue)
| DOther (truthy : bool).

(** [if (options.waveform)]. *)
Definition truthy (d : jsdata) : bool :=
  match d with
  | DString s => negb (String.eqb s EmptyString)
  | DArray _ => true
  | DOther t => t
  end.

(** [data.split(sep)] for a one-character separator. *)
Fixpoint split (sep : ascii) (data : string) : list string :=
  match data with
  | EmptyString => [EmptyString]
  | String c rest =>
      match split sep rest with
      | piece :: pieces =>
          if Ascii.eqb c sep then EmptyString :: piece :: pieces
          else String c piece :: pieces
      | [] => []
      end
  end.

Section Builtins.

(** The built-ins [JSON.parse] and [Number], the outcome of
    [generateWaveform] for the track (its promise resolves with the peaks
    or is rejected) and the array that [generatePlaceholderWaveform] would
    return. *)
Variable JSON_parse : string -> parse_result.
Variable Number : string -> jsvalue.
Variable generated : outcome (list Q).
Variable placeholder : list jsvalue.

(** [setWaveformData(data)]: the value assigned to [this.waveformData]. *)
Definition setWaveformData (data : jsdata) : list jsvalue :=
  match data with
  | DString s =>
      match JSON_parse s with
      | ParsedArray parsed => parsed
      | ParsedOther => []
      | ParseThrows => map Number (split "," s)
      end
  | DArray a => a
  | DOther _ => []
  end.

(** The envelope that [load] leaves in [this.waveformData] once the
    metadata are there: the pre-supplied data when [options.waveform] is
    truthy, else the generated peaks, else (generation failed) the
    placeholder. *)
Definition load_waveformData (waveform : jsdata) : list jsvalue :=
  if truthy waveform then setWaveformData waveform
  else
    match generated with
    | Returns peaks => map VNum peaks
    | _ => placeholder
    end.

(** [drawWaveform] draws unless the envelope is empty. *)
Definition drawWaveform_draws (waveformData : list jsvalue) : bool :=
  negb (len waveformData =? 0).

(** A string "parses as a comma-separated list of numbers" when [Number]
    turns each of its pieces into a number. *)
Definition comma_separated_numbers (s : string) : Prop :=
  Forall (fun piece => exists q, Number piece = VNum q) (split "," s).

End Builtins.

End WaveformData.

(** ** core.js: [play], [pause] and the currently-playing registry *)

Module Player.

(** The events of the media element that the player listens to. *)
Inductive media_event : Type := EvPlay | EvPause | EvEnded.

(** A player instance: its [singlePlay] option, the [paused] attribute of
    its audio element, and its [isPlaying] field. *)
Record player : Type := {
  singlePlay : bool;
  audio_paused : bool;
  isPlaying : bool
}.

(** The page: the static [currentlyPlaying] reference, the player objects
    by identity, and the media events that are queued but not yet
    dispatched, oldest first. *)
Record world : Type := {
  currentlyPlaying : option nat;
  players : gmap nat player;
  pending : list (nat * media_event)
}.

Definition set_currentlyPlaying (c : option nat) (w : world) : world :=
  {| currentlyPlaying := c; players := players w; pending := pending w |}.

Definition set_paused (b : bool) (p : player) : player :=
  {| singlePlay := singlePlay p; audio_paused := b; isPlaying := isPlaying p |}.

Definition set_isPlaying (b : bool) (p : player) : player :=
  {| singlePlay := singlePlay p; audio_paused := audio_paused p; isPlaying := b |}.

(** The audio element (browser side, after the HTML standard): [play()]
    on a paused element clears [paused] and queues a [play] event;
    [pause()] on an element that is not paused sets [paused] and queues a
    [pause] event; otherwise neither does anything.  The browser pauses
    an element in the same way when it does so of its own accord.
    [audio_play] is the case where the element is let to start; see
    [play_refused] for the other. *)
Definition audio_play (a : nat) (w : world) : world :=
  match players w !! a with
  | Some p =>
      if audio_paused p then
        {| currentlyPlaying := currentlyPlaying w;
           players := <[a := set_paused false p]> (players w);
           pending := pending w ++ [(a, EvPlay)] |}
      else w
  | None => w
  end.

Definition audio_pause (a : nat) (w : world) : world :=
  match players w !! a with
  | Some p =>
      if audio_paused p then w
      else
        {| currentlyPlaying := currentlyPlaying w;
           players := <[a := set_paused true p]> (players w);
           pending := pending w ++ [(a, EvPause)] |}
  | None => w
  end.

(** The element reaches the end of the track: it becomes paused and the
    [pause] and [ended] events are queued. *)
Definition media_ended (a : nat) (w : world) : world :=
  match players w !! a with
  | Some p =>
      if audio_paused p then w
      else
        {| currentlyPlaying := currentlyPlaying w;
           players := <[a := set_paused true p]> (players w);
           pending := pending w ++ [(a, EvPause); (a, EvEnded)] |}
  | None => w
  end.

(** [pause()]. *)
Definition pause (a : nat) (w : world) : world :=
  let w1 :=
    if decide (currentlyPlaying w = Some a) then set_currentlyPlaying None w else w in
  audio_pause a w1.

(** [play()], when the browser lets the element start. *)
Definition play (a : nat) (w : world) : world :=
  let w1 :=
    match players w !! a, currentlyPlaying w with
    | Some p, Some b =>
        if singlePlay p && negb (bool_decide (b = a)) then pause b w else w
    | _, _ => w
    end in
  audio_play a (set_currentlyPlaying (Some a) w1).

(** [play()] when the browser does not let the element start (the promise
    of [audio.play()] is rejected): the registry is updated all the
    same. *)
Definition play_refused (a : nat) (w : world) : world :=
  let w1 :=
    match players w !! a, currentlyPlaying w with
    | Some p, Some b =>
        if singlePlay p && negb (bool_decide (b = a)) then pause b w else w
    | _, _ => w
    end in
  set_currentlyPlaying (Some a) w1.

(** [togglePlay()]. *)
Definition togglePlay (a : nat) (w : world) : world :=
  match players w !! a with
  | Some p => if isPlaying p then pause a w else play a w
  | None => w
  end.

(** The value that the handler of an event gives to [isPlaying]: [onPlay]
    sets it, [onPause] clears it, and [onEnded] ends with a call of
    [onPause]. *)
Definition ev_flag (ev : media_event) : bool :=
  match ev with
  | EvPlay => true
  | EvPause | EvEnded => false
  end.

Definition handle (a : nat) (ev : media_event) (w : world) : world :=
  {| currentlyPlaying := currentlyPlaying w;
     players := alter (set_isPlaying (ev_flag ev)) a (players w);
     pending := pending w |}.

(** The event loop dispatches the oldest queued event. *)
Definition deliver (w : world) : world :=
  match pending w with
  | [] => w
  | (a, ev) :: rest =>
      handle a ev
        {| currentlyPlaying := currentlyPlaying w; players := players w; pending := rest |}
  end.

Fixpoint deliver_n (n : nat) (w : world) : world :=
  match n with
  | O => w
  | S n' => deliver_n n' (deliver w)
  end.

(** All queued events dispatched. *)
Definition settle (w : world) : world := deliver_n (length (pending w)) w.

(** The constructor: a new player starts paused and not playing. *)
Definition create (a : nat) (sp : bool) (w : world) : world :=
  {| currentlyPlaying := currentlyPlaying w;
     players := <[a := {| singlePlay := sp; audio_paused := true; isPlaying := false |}]>
                  (players w);
     pending := pending w |}.

Inductive action : Type :=
| Create (a : nat) (sp : bool)
| Play (a : nat)
| Pause (a : nat)
| TogglePlay (a : nat)
| MediaEnded (a : nat)
| Deliver
| PlayRefused (a : nat)
| MediaPaused (a : nat).

Definition exec (act : action) (w : world) : world :=
  match act with
  | Create a sp => create a sp w
  | Play a => play a w
  | Pause a => pause a w
  | TogglePlay a => togglePlay a w
  | MediaEnded a => media_ended a w
  | Deliver => deliver w
  | PlayRefused a => play_refused a w
  | MediaPaused a => audio_pause a w
  end.

(** A constructor call makes a new object; the methods are called on
    objects that exist. *)
Definition enabled (act : action) (w : world) : Prop :=
  match act with
  | Create a _ => players w !! a = None
  | Play a | Pause a | TogglePlay a | MediaEnded a | PlayRefused a | MediaPaused a =>
      is_Some (players w !! a)
  | Deliver => True
  end.

Definition initial : world :=
  {| currentlyPlaying := None; players := ∅; pending := [] |}.

Inductive reachable : world -> Prop :=
| reachable_initial : reachable initial
| reachable_step w act : reachable w -> enabled act w -> reachable (exec act w).

(** The readings of "marked currently-playing". *)
Definition holder (w : world) (a : nat) : Prop := currentlyPlaying w = Some a.

Definition sounding (w : world) (a : nat) : Prop :=
  exists p, players w !! a = Some p /\ audio_paused p = false.

Definition flagged (w : world) (a : nat) : Prop :=
  exists p, players w !! a = Some p /\ isPlaying p = true.

Definition all_singlePlay (w : world) : Prop :=
  forall a p, players w !! a = Some p -> singlePlay p = true.

(** *** Readings of the state used in the proofs *)

(** The [paused] attribute and the [isPlaying] field of [a], with the
    values of a fresh player for an identity that is not allocated. *)
Definition paused_of (w : world) (a : nat) : bool :=
  match players w !! a with Some p => audio_paused p | None => true end.

Definition playing_of (w : world) (a : nat) : bool :=
  match players w !! a with Some p => isPlaying p | None => false end.

(** The [isPlaying] field of [a] once the events [evs] are dispatched. *)
Fixpoint flag_after (evs : list (nat * media_event)) (a : nat) (f : bool) : bool :=
  match evs with
  | [] => f
  | (b, ev) :: r => flag_after r a (if bool_decide (b = a) then ev_flag ev else f)
  end.

(** ... and once the [k] oldest queued events are. *)
Definition flag_at (w : world) (k : nat) (a : nat) : bool :=
  flag_after (take k (pending w)) a (playing_of w a).

(** Queued events belong to allocated players, and dispatching all of
    them makes every [isPlaying] the negation of [paused]. *)
Definition events_exist (w : world) : Prop :=
  forall a ev, In (a, ev) (pending w) -> is_Some (players w !! a).

Definition coherent (w : world) : Prop :=
  forall a, flag_after (pending w) a (playing_of w a) = negb (paused_of w a).

(** Only the holder sounds; at most one flag is up whatever the number of
    events dispatched so far. *)
Definition exclusive (w : world) : Prop :=
  forall a, paused_of w a = false -> currentlyPlaying w = Some a.

Definition one_flag (w : world) : Prop :=
  forall k a b, flag_at w k a = true -> flag_at w k b = true -> a = b.

(** *** Small steps *)

(** A step that leaves every [isPlaying] alone, appends events [es] to
    the queue, keeps the players and their options, and is such that
    dispatching one or more of the new events after the old ones brings
    the flags in line with the new [paused] attributes. *)
Definition micro (w w' : world) : Prop :=
  exists es,
    (forall x, playing_of w' x = playing_of w x) /\
    pending w' = pending w ++ es /\
    (forall x, singlePlay <$> players w' !! x = singlePlay <$> players w !! x) /\
    (forall j x, (1 <= j)%nat ->
       flag_after (take j es) x (negb (paused_of w x)) = negb (paused_of w' x)) /\
    (forall x ev, In (x, ev) es -> is_Some (players w !! x)).

(** At most one audio element is not paused. *)
Definition amo_sounding (w : world) : Prop :=
  forall a b, paused_of w a = false -> paused_of w b = false -> a = b.

(** The invariant of every reachable page. *)
Definition base (w : world) : Prop := events_exist w /\ coherent w.

(** The invariant kept between the small steps of a call when every
    player is in single-play mode. *)
Definition steady (w : world) : Prop := base w /\ one_flag w /\ amo_sounding w.

(** Two pages with the same holder, queue, [paused] attributes and
    [isPlaying] fields. *)
Definition same_readings (w w' : world) : Prop :=
  currentlyPlaying w' = currentlyPlaying w /\
  pending w' = pending w /\
  (forall x, paused_of w' x = paused_of w x) /\
  (forall x, playing_of w' x = playing_of w x).

(** *** Loading: [load], [loadTrack] and [destroy]

    An assignment to [audio.src] and a call of [audio.load()] run the
    media element load algorithm of the HTML standard.  It removes the
    tasks that the element has queued, so that its events not yet
    dispatched never are; and when the element is not in the state
    [NETWORK_EMPTY] it sets [paused] without firing [pause]. *)
Definition drop_events (a : nat) (w : world) : world :=
  {| currentlyPlaying := currentlyPlaying w;
     players := players w;
     pending := List.filter (fun e => negb (bool_decide (fst e = a))) (pending w) |}.

Definition silence (a : nat) (w : world) : world :=
  {| currentlyPlaying := currentlyPlaying w;
     players := alter (set_paused true) a (players w);
     pending := pending w |}.

(** [had_resource] tells whether the element was in another state than
    [NETWORK_EMPTY]; it is once a first assignment to [src] has been
    made. *)
Definition audio_load (a : nat) (had_resource : bool) (w : world) : world :=
  let w1 := drop_events a w in
  if had_resource then silence a w1 else w1.

(** [load(url)] up to its first [await]: [this.audio.src = url]. *)
Definition load (a : nat) (had_resource : bool) (w : world) : world :=
  audio_load a had_resource w.

Definition set_singlePlay (b : bool) (p : player) : player :=
  {| singlePlay := b; audio_paused := audio_paused p; isPlaying := isPlaying p |}.

(** [this.options = mergeOptions(this.options, {..., ...options})] as far
    as [singlePlay] goes: [sp] is the value given in [options], if any. *)
Definition merge_singlePlay (a : nat) (sp : option bool) (w : world) : world :=
  match sp with
  | Some b =>
      {| currentlyPlaying := currentlyPlaying w;
         players := alter (set_singlePlay b) a (players w);
         pending := pending w |}
  | None => w
  end.

(** [loadTrack(url, title, subtitle, options)] up to its first [await]:
    [pause()] when [isPlaying] is set, [audio.src = ""], [audio.load()],
    the merge of the options, and the assignment of [load(url)].  The
    call of [play()] that follows the [await] is a call of its own. *)
Definition loadTrack (a : nat) (had_resource : bool) (sp : option bool) (w : world)
  : world :=
  match players w !! a with
  | Some p =>
      let w1 := if isPlaying p then pause a w else w in
      let w2 := audio_load a had_resource w1 in
      let w3 := audio_load a true w2 in
      let w4 := merge_singlePlay a sp w3 in
      load a true w4
  | None => w
  end.

(** [destroy()]: [pause()], then [audio.src = ""]. *)
Definition destroy (a : nat) (had_resource : bool) (w : world) : world :=
  audio_load a had_resource (pause a w).

(** What can happen on a page: the calls and events of [action], and the
    three calls that load. *)
Inductive call : Type :=
| Method (act : action)
| Load (a : nat) (had_resource : bool)
| LoadTrack (a : nat) (had_resource : bool) (sp : option bool)
| Destroy (a : nat) (had_resource : bool).

Definition run (c : call) (w : world) : world :=
  match c with
  | Method act => exec act w
  | Load a had_resource => load a had_resource w
  | LoadTrack a had_resource sp => loadTrack a had_resource sp w
  | Destroy a had_resource => destroy a had_resource w
  end.

Definition callable (c : call) (w : world) : Prop :=
  match c with
  | Method act => enabled act w
  | Load a _ | LoadTrack a _ _ | Destroy a _ => is_Some (players w !! a)
  end.

(** The pages that a history of calls, loads included, can reach; and
    those that it reaches with every player in single-play mode all
    along. *)
Inductive reachable_with_loads : world -> Prop :=
| loads_initial : reachable_with_loads initial
| loads_step w c :
    reachable_with_loads w -> callable c w -> reachable_with_loads (run c w).

Inductive single_play_history : world -> Prop :=
| single_initial : single_play_history initial
| single_step w c :
    single_play_history w -> callable c w -> all_singlePlay (run c w) ->
    single_play_history (run c w).

(** A step that keeps the players allocated and queues events for
    allocated players only. *)
Definition grows (w w' : world) : Prop :=
  (forall x, is_Some (players w !! x) -> is_Some (players w' !! x)) /\
  (forall x ev, In (x, ev) (pending w') -> In (x, ev) (pending w) \/ is_Some (players w' !! x)).

(** A step after which the holder is the same and nobody new sounds. *)
Definition quieter (w w' : world) : Prop :=
  currentlyPlaying w' = currentlyPlaying w /\
  forall x, paused_of w' x = false -> paused_of w x = false.

(** Two single-play players and one that is not: the second single-play
    player is started while the other kind holds the reference. *)
Definition mixed_page : world :=
  exec (Play 2)
    (exec (Play 3)
       (exec (Play 1)
          (exec (Create 3 false) (exec (Create 2 true) (exec (Create 1 true) initial))))).

(** Two single-play players: the first is loaded, started, and loaded
    again while it plays. *)
Definition reloaded_page : world :=
  run (Load 1 true)
    (run (Method Deliver)
       (run (Method (Play 1))
          (run (Load 1 false)
             (run (Method (Create 2 true)) (run (Method (Create 1 true)) initial))))).

End Player.

(** ** Concrete inputs used by the examples below *)

Module Examples.

Import Js Audio.

(** An engine that rounds nothing: the arithmetic of the rationals, which
    the rounded one is compared with. *)
Definition exact_engine : Engine :=
  {| rnd := fun x => x;
     max_arguments := 65535;
     max_value := inject_Z (2 ^ 1024 - 2 ^ 971) |}.

(** An engine that rounds as binary64 does. *)
Definition binary64 : Engine :=
  {| rnd := binary64_round;
     max_arguments := 65535;
     max_value := inject_Z (2 ^ 1024 - 2 ^ 971) |}.

(** One channel of 20 frames, silent except for frame 1. *)
Definition click_buffer : AudioBuffer :=
  {| sampleRate := 8000;
     buffer_length := 20;
     numberOfChannels := 1;
     channels := [ (0 :: (1 # 2) :: repeat 0 18)%Q ] |}.

(** A stereo buffer of 4 frames. *)
Definition stereo_buffer : AudioBuffer :=
  {| sampleRate := 8000;
     buffer_length := 4;
     numberOfChannels := 2;
     channels := [ [0; 1 # 2; - (1 # 4); 0]%Q; [0; 0; 1 # 8; - (3 # 4)]%Q ] |}.

(** An object that announces two channels and has one. *)
Definition short_buffer : AudioBuffer :=
  {| sampleRate := 8000;
     buffer_length := 4;
     numberOfChannels := 2;
     channels := [ [0; 1 # 2; - (1 # 4); 0]%Q ] |}.

(** Seven blocks of 1024 frames at 8 kHz: a short click at the start of
    block 3 and a full-scale block 5.  The windows that start at frames
    2048 and 4096 are onsets, 0.256 s apart. *)
Definition two_click_signal : list Q :=
  (repeat 0 3072 ++ repeat 1 64 ++ repeat 0 1984 ++ repeat 1 1024 ++ repeat 0 1024)%Q.

Definition two_click_buffer : AudioBuffer :=
  {| sampleRate := 8000;
     buffer_length := 7168;
     numberOfChannels := 1;
     channels := [two_click_signal] |}.

(** The same with a third click, a full-scale block 9, at 4300 Hz: the
    windows that start at frames 2048, 4096 and 8192 are onsets. *)
Definition three_click_signal : list Q :=
  (two_click_signal ++ repeat 0 2048 ++ repeat 1 1024 ++ repeat 0 1024)%Q.

Definition three_click_buffer : AudioBuffer :=
  {| sampleRate := 4300;
     buffer_length := 11264;
     numberOfChannels := 1;
     channels := [three_click_signal] |}.

(** A surface on which one column of width 2 fits, and the options of a
    player in a given style. *)
Definition narrow_canvas : Drawing.Canvas := {| Drawing.width := 2; Drawing.height := 10 |}.

Definition wide_canvas : Drawing.Canvas := {| Drawing.width := 33; Drawing.height := 10 |}.

(** The double 1.1. *)
Definition double_1_1 : Q := 2476979795053773 # 2251799813685248.

Definition spaced_options (style : string) : Drawing.Options :=
  {| Drawing.waveformStyle := style;
     Drawing.barWidth := 2;
     Drawing.barSpacing := 1;
     Drawing.color := "rgba(255, 255, 255, 0.3)";
     Drawing.progressColor := "rgba(255, 255, 255, 0.9)" |}.

Definition style_options (style : string) : Drawing.Options :=
  {| Drawing.waveformStyle := style;
     Drawing.barWidth := 2;
     Drawing.barSpacing := 0;
     Drawing.color := "rgba(255, 255, 255, 0.3)";
     Drawing.progressColor := "rgba(255, 255, 255, 0.9)" |}.

(** The number of operations of a drawing that returns. *)
Definition ops_count (o : outcome (list Drawing.canvas_op)) : option nat :=
  match o with
  | Returns ops => Some (List.length ops)
  | _ => None
  end.

(** [JSON.parse] and [Number] on the strings of the examples:
    "[0.5,1]" is an array, "{}" an object, and [JSON.parse] throws on
    "abc" and on "0.5,1"; [Number] reads "0.5" and "1" and gives [NaN]
    for "abc". *)
Definition JSON_parse_table (s : string) : WaveformData.parse_result :=
  if String.eqb s "[0.5,1]"
  then WaveformData.ParsedArray [WaveformData.VNum (1 # 2); WaveformData.VNum 1]
  else if String.eqb s "{}" then WaveformData.ParsedOther
  else WaveformData.ParseThrows.

Definition Number_table (s : string) : WaveformData.jsvalue :=
  if String.eqb s "0.5" then WaveformData.VNum (1 # 2)
  else if String.eqb s "1" then WaveformData.VNum 1
  else WaveformData.VNaN.

End Examples.

(** ** audio.js: [generatePlaceholderWaveform] *)

Module Placeholder.

Import Js.

Section Builtins.

(** [Math.random()] as the value returned by the call made in iteration
    [i], [Math.sin] and the number [Math.PI]. *)
Variable random : Z -> Q.
Variable sin : Q -> Q.
Variable PI : Q.

Definition generatePlaceholderWaveform (samples : Z) : list Q :=
  for_loop (Z.to_nat samples) 0
    (fun i data =>
       let base := (random i * (5 # 10) + (3 # 10))%Q in
       let variation := (sin (inject_Z i / inject_Z samples * PI * 4) * (2 # 10))%Q in
       data ++ [Js.max (1 # 10) (Js.min 1 (base + variation))])
    [].

End Builtins.

End Placeholder.

(** ** bpm.js: the shape of an onset list *)

Module OnsetShape.
Import Js.

(** Every element is in relation [R] with the one before it, the first
    one with [prev]. *)
Fixpoint chain (R : Z -> Z -> Prop) (prev : Z) (l : list Z) : Prop :=
  match l with
  | [] => True
  | o :: r => R prev o /\ chain R o r
  end.

(** Strictly increasing. *)
Definition increasing (l : list Z) : Prop :=
  match l with
  | [] => True
  | o :: r => chain Z.lt o r
  end.

(** The refractory test of [detectOnsets] between neighbours. *)
Definition apart (sampleRate : Q) (a b : Z) : Prop :=
  (sampleRate * (15 # 100) < inject_Z (b - a))%Q.

Definition onsets_shape (channelData : list Q) (sampleRate : Q) (bound : Z)
  (onsets : list Z) : Prop :=
  Forall (fun o => 0 <= o < bound /\ o mod 1024 = 0 /\ o + 2048 < len channelData) onsets /\
  chain (apart sampleRate) 0 onsets /\
  increasing onsets.

End OnsetShape.

(** ** Seeking, progress, volume and rate (core.js)

    The part of a [WaveformPlayer] instance that the transport methods
    read and write.  [audio] is [null] until the constructor has built the
    element.  The element is taken to store the position, volume and rate
    that are assigned to it; the arguments of the methods are finite
    numbers.  The texts written to the page are left out.  What is drawn
    on the canvas is kept, frame by frame, in [frames]. *)

Module Playback.

Import Js.

(** [audio.duration]: [NaN] until the metadata is known, [Infinity] for an
    unbounded stream, a finite number of seconds otherwise. *)
Inductive duration_t : Type := DurNaN | DurInfinity | DurFinite (d : Q).

Record media : Type := {
  duration : duration_t;
  currentTime : Q;
  volume : Q;
  playbackRate : Q
}.

(** What [drawWaveform] reads besides the progress: whether the canvas
    gave a 2D context, the canvas, the envelope, and the options that it
    hands on to [draw]. *)
Record view : Type := {
  ctx : bool;
  canvas : Drawing.Canvas;
  waveformData : list Q;
  options_waveformStyle : string;
  options_barWidth : Q;
  options_barSpacing : Q;
  options_waveformColor : string;
  options_progressColor : string
}.

Record instance : Type := {
  audio : option media;
  progress : Q;
  options_playbackRate : Q;
  surface : view;
  frames : list (list Drawing.canvas_op)
}.

(** [!duration]. *)
Definition falsy (d : duration_t) : bool :=
  match d with
  | DurNaN => true
  | DurInfinity => false
  | DurFinite q => eqb q 0
  end.

Definition set_currentTime (t : Q) (a : media) : media :=
  {| duration := duration a; currentTime := t; volume := volume a;
     playbackRate := playbackRate a |}.

Definition set_audio (a : media) (s : instance) : instance :=
  {| audio := Some a; progress := progress s;
     options_playbackRate := options_playbackRate s;
     surface := surface s; frames := frames s |}.

Definition set_progress (p : Q) (s : instance) : instance :=
  {| audio := audio s; progress := p;
     options_playbackRate := options_playbackRate s;
     surface := surface s; frames := frames s |}.

Definition add_frame (ops : list Drawing.canvas_op) (s : instance) : instance :=
  {| audio := audio s; progress := progress s;
     options_playbackRate := options_playbackRate s;
     surface := surface s; frames := frames s ++ [ops] |}.

Section Environment.

Context `{E : Engine}.

(** [window.devicePixelRatio], [Math.sin], and [options.onTimeUpdate]
    when the caller gave one: a function of the position, the duration
    and the player, which it may change. *)
Variable devicePixelRatio : Q.
Variable sin : Q -> Q.
Variable onTimeUpdate : option (Q -> duration_t -> instance -> outcome instance).

(** [currentTime / duration] for a duration that is not falsy. *)
Definition quotient (t : Q) (d : duration_t) : Q :=
  match d with
  | DurFinite q => t /! q
  | _ => 0%Q
  end.

(** [drawWaveform()]. *)
Definition drawWaveform (s : instance) : outcome instance :=
  let v := surface s in
  if negb (ctx v) || (len (waveformData v) =? 0) then Returns s
  else
    bind (Drawing.draw devicePixelRatio sin (canvas v) (waveformData v) (progress s)
            {| Drawing.waveformStyle := Drawing.str_or (options_waveformStyle v) "bars";
               Drawing.barWidth := options_barWidth v;
               Drawing.barSpacing := options_barSpacing v;
               Drawing.color := options_waveformColor v;
               Drawing.progressColor := options_progressColor v |})
      (fun ops => Returns (add_frame ops s)).

(** The call of [options.onTimeUpdate] that ends [updateProgress]. *)
Definition notify (a : media) (s : instance) : outcome instance :=
  match onTimeUpdate with
  | Some callback => callback (currentTime a) (duration a) s
  | None => Returns s
  end.

(** [updateProgress()]; reading [this.audio.duration] throws when [audio]
    is [null]. *)
Definition updateProgress (s : instance) : outcome instance :=
  match audio s with
  | None => Throws
  | Some a =>
      if falsy (duration a) then Returns s
      else
        let newProgress := quotient (currentTime a) (duration a) in
        bind (if ltb double_0_001 (abs (newProgress -! progress s))
              then drawWaveform (set_progress newProgress s)
              else Returns s)
          (notify a)
  end.

(** [seekTo(seconds)]. *)
Definition seekTo (seconds : Q) (s : instance) : outcome instance :=
  match audio s with
  | Some a =>
      if falsy (duration a) then Returns s
      else
        let position :=
          match duration a with
          | DurFinite d => Js.max 0 (Js.min seconds d)
          | _ => Js.max 0 seconds
          end in
        updateProgress (set_audio (set_currentTime position a) s)
  | None => Returns s
  end.

(** [seekToPercent(percent)].  With an infinite duration the product is
    [NaN] or [Infinity], and the assignment to [currentTime] throws. *)
Definition seekToPercent (percent : Q) (s : instance) : outcome instance :=
  match audio s with
  | Some a =>
      if falsy (duration a) then Returns s
      else
        match duration a with
        | DurFinite d =>
            let position := d *! Js.max 0 (Js.min 1 percent) in
            updateProgress (set_audio (set_currentTime position a) s)
        | _ => Throws
        end
  | None => Returns s
  end.

End Environment.

(** [setVolume(volume)]. *)
Definition setVolume (v : Q) (s : instance) : instance :=
  match audio s with
  | Some a =>
      set_audio {| duration := duration a; currentTime := currentTime a;
                   volume := Js.max 0 (Js.min 1 v);
                   playbackRate := playbackRate a |} s
  | None => s
  end.

(** [setPlaybackRate(rate)]. *)
Definition setPlaybackRate (rate : Q) (s : instance) : instance :=
  match audio s with
  | None => s
  | Some a =>
      let clampedRate := Js.max (1 # 2) (Js.min 2 rate) in
      {| audio := Some {| duration := duration a; currentTime := currentTime a;
                          volume := volume a; playbackRate := clampedRate |};
         progress := progress s;
         options_playbackRate := clampedRate;
         surface := surface s;
         frames := frames s |}
  end.

(** A callback that returns and leaves the player alone, and a surface
    on which [drawWaveform] returns whatever the rest of the player. *)
Definition quiet (onTimeUpdate : option (Q -> duration_t -> instance -> outcome instance))
  : Prop :=
  match onTimeUpdate with
  | Some callback => forall t d s, callback t d s = Returns s
  | None => True
  end.

Definition paints `{E : Engine} (devicePixelRatio : Q) (sin : Q -> Q) (v : view) : Prop :=
  forall s, surface s = v -> exists s', drawWaveform devicePixelRatio sin s = Returns s'.

(** Two instances that agree up to the representation of their numbers. *)
Definition same_media (a b : media) : Prop :=
  duration a = duration b /\
  (currentTime a == currentTime b)%Q /\
  (volume a == volume b)%Q /\
  (playbackRate a == playbackRate b)%Q.

Definition same_instance (s t : instance) : Prop :=
  match audio s, audio t with
  | Some a, Some b => same_media a b
  | None, None => True
  | _, _ => False
  end /\
  (progress s == progress t)%Q /\
  (options_playbackRate s == options_playbackRate t)%Q /\
  surface s = surface t /\
  frames s = frames t.

(** A player of a file of 60 seconds, stopped at the start, with the
    envelope [0.5, 1] drawn as bars on a canvas 33 wide and 10 high. *)
Definition bars_view : view :=
  {| ctx := true;
     canvas := {| Drawing.width := 33; Drawing.height := 10 |};
     waveformData := [1 # 2; 1]%Q;
     options_waveformStyle := "bars";
     options_barWidth := 2;
     options_barSpacing := 1;
     options_waveformColor := "rgba(255, 255, 255, 0.3)";
     options_progressColor := "rgba(255, 255, 255, 0.9)" |}.

Definition player_at_start (d : duration_t) : instance :=
  {| audio := Some {| duration := d; currentTime := 0; volume := 1; playbackRate := 1 |};
     progress := 0;
     options_playbackRate := 1;
     surface := bars_view;
     frames := [] |}.

End Playback.

(** ** Helpers (utils.js) *)

Module Utils.

Import Js.

(** [a % b] on finite numbers, [b] not zero: the remainder has the sign of
    the dividend. *)
Definition rem (a b : Q) : Q := (a - b * inject_Z (trunc (a / b)))%Q.

(** The two numbers that the template [`${mins}:${secs}`] prints, the
    second one padded to two characters. *)
Record clock : Type := { mins : Z; secs : Z }.

(** [formatTime(seconds)] of the player; [None] is a [NaN] or missing
    argument, and the literal ["0:00"] is the clock of two zeros. *)
Definition formatTime (seconds : option Q) : clock :=
  match seconds with
  | None => {| mins := 0; secs := 0 |}
  | Some s =>
      if eqb s 0 then {| mins := 0; secs := 0 |}
      else {| mins := Qfloor (s / 60); secs := Qfloor (rem s 60) |}
  end.

Section MergeOptions.

Context {K : Type} `{Countable K} {V : Type}.





End MergeOptions.

End Utils.

(** ** Track and chapter navigation of the playlist (src/js/index.js) *)

Module Playlist.

Import Js.

(** A chapter's [time] is what [parseTime] made of its attribute: a
    number, or [NaN] ([None]). *)
Record track : Type := { chapters : list (option Q) }.

Record playlist : Type := {
  tracks : list track;
  continuous : bool;
  currentTrackIndex : Z;
  currentChapterIndex : Z
}.

Definition set_chapter (c : Z) (s : playlist) : playlist :=
  {| tracks := tracks s; continuous := continuous s;
     currentTrackIndex := currentTrackIndex s; currentChapterIndex := c |}.

(** [currentTime >= time]. *)
Definition reached (currentTime : Q) (time : option Q) : bool :=
  match time with
  | Some t => negb (ltb currentTime t)
  | None => false
  end.

(** [for (let i = chapters.length - 1; i >= 0; i--)] with its [break]. *)
Fixpoint chapter_scan (fuel : nat) (chapters : list (option Q)) (currentTime : Q) (i : Z)
  : outcome Z :=
  match fuel with
  | O => Returns (-1)
  | S fuel' =>
      if 0 <=? i then
        match get chapters i with
        | Some time =>
            if reached currentTime time then Returns i
            else chapter_scan fuel' chapters currentTime (i - 1)
        | None => Throws
        end
      else Returns (-1)
  end.

(** [updateActiveChapter(currentTime)], up to the changes of the page. *)
Definition updateActiveChapter (currentTime : Q) (s : playlist) : outcome playlist :=
  match get (tracks s) (currentTrackIndex s) with
  | None => Throws
  | Some track =>
      if len (chapters track) =? 0 then Returns s
      else
        bind (chapter_scan (length (chapters track)) (chapters track) currentTime
                (len (chapters track) - 1))
          (fun activeChapterIndex =>
             if activeChapterIndex =? currentChapterIndex s then Returns s
             else Returns (set_chapter activeChapterIndex s))
  end.

(** [formatTime(seconds)] of the playlist, on a finite number. *)
Definition formatTime (seconds : Q) : Utils.clock :=
  {| Utils.mins := Qfloor (seconds / 60); Utils.secs := Qfloor (Utils.rem seconds 60) |}.

(** [selectTrack(index)], up to the loading of the track. *)
Definition selectTrack (index : Z) (s : playlist) : playlist :=
  if (index <? 0) || (len (tracks s) <=? index) then s
  else {| tracks := tracks s; continuous := continuous s;
          currentTrackIndex := index; currentChapterIndex := -1 |}.

Definition nextTrack (s : playlist) : playlist :=
  if currentTrackIndex s <? len (tracks s) - 1
  then selectTrack (currentTrackIndex s + 1) s else s.

Definition previousTrack (s : playlist) : playlist :=
  if 0 <? currentTrackIndex s
  then selectTrack (currentTrackIndex s - 1) s else s.

(** [onTrackEnd()]. *)
Definition onTrackEnd (s : playlist) : outcome playlist :=
  bind (updateActiveChapter 0 (set_chapter (-1) s)) (fun s1 =>
    if continuous s1 && (currentTrackIndex s1 <? len (tracks s1) - 1)
    then Returns (selectTrack (currentTrackIndex s1 + 1) s1)
    else Returns s1).

(** The end of the [onPause] callback when the track is paused at its end. *)
Definition onPauseAtEnd (s : playlist) : outcome playlist :=
  updateActiveChapter 0 (set_chapter (-1) s).

Inductive command : Type :=
| SelectTrack (index : Z)
| NextTrack
| PreviousTrack
| TrackEnd
| PauseAtEnd
| TimeUpdate (currentTime : Q).

Definition run (c : command) (s : playlist) : outcome playlist :=
  match c with
  | SelectTrack index => Returns (selectTrack index s)
  | NextTrack => Returns (nextTrack s)
  | PreviousTrack => Returns (previousTrack s)
  | TrackEnd => onTrackEnd s
  | PauseAtEnd => onPauseAtEnd s
  | TimeUpdate currentTime => updateActiveChapter currentTime s
  end.


End Playlist.

(** ** Titles from file names (utils.js) *)

Module Title.

Import WaveformData.

(** The character classes of the two regular expressions: [[-_]] and
    [\w] (letters, digits and the underscore, all ASCII). *)
Definition is_lower (c : ascii) : bool :=
  (97 <=? nat_of_ascii c)%nat && (nat_of_ascii c <=? 122)%nat.

Definition is_upper (c : ascii) : bool :=
  (65 <=? nat_of_ascii c)%nat && (nat_of_ascii c <=? 90)%nat.

Definition is_digit (c : ascii) : bool :=
  (48 <=? nat_of_ascii c)%nat && (nat_of_ascii c <=? 57)%nat.

Definition is_word (c : ascii) : bool :=
  is_lower c || is_upper c || is_digit c || Ascii.eqb c "_".

Definition is_dash (c : ascii) : bool := Ascii.eqb c "-" || Ascii.eqb c "_".

(** [l.toUpperCase()] on one character matched by [\w]. *)
Definition toUpperCase (c : ascii) : ascii :=
  if is_lower c then ascii_of_nat (nat_of_ascii c - 32) else c.

(** [name.replace(/[-_]/g, " ")]. *)
Fixpoint replace_dashes (name : string) : string :=
  match name with
  | EmptyString => EmptyString
  | String c rest => String (if is_dash c then " "%char else c) (replace_dashes rest)
  end.

(** [s.replace(/\b\w/g, l => l.toUpperCase())]: a word character is at a
    boundary when the character before it is not a word character, or
    when it is the first one. *)
Fixpoint capitalize (after_word : bool) (s : string) : string :=
  match s with
  | EmptyString => EmptyString
  | String c rest =>
      String (if is_word c && negb after_word then toUpperCase c else c)
        (capitalize (is_word c) rest)
  end.

(** [parts[parts.length - 1]] and [parts[0]] of the pieces of a split,
    which are never none. *)
Definition last_piece (parts : list string) : string := List.last parts EmptyString.
Definition first_piece (parts : list string) : string := hd EmptyString parts.

(** [extractTitleFromUrl(url)] of the player. *)
Definition extractTitleFromUrl (url : string) : string :=
  if String.eqb url EmptyString then "Audio"%string
  else
    let parts := split "/" url in
    let filename := last_piece parts in
    let name := first_piece (split "." filename) in
    capitalize false (replace_dashes name).

(** [extractTitleFromUrl(url)] of the playlist. *)
Definition playlist_extractTitleFromUrl (url : string) : string :=
  if String.eqb url EmptyString then "Untitled"%string
  else
    let parts := split "/" url in
    let filename := last_piece parts in
    replace_dashes (first_piece (split "." filename)).

(** The character [c] occurs in [s]. *)
Fixpoint occurs (c : ascii) (s : string) : bool :=
  match s with
  | EmptyString => false
  | String d rest => Ascii.eqb d c || occurs c rest
  end.

End Title.

(** ** The same recording at another gain *)

Module Gain.

Import Js Audio.

(** Every frame of every channel multiplied by [k]. *)
Definition scale_buffer (k : Q) (b : AudioBuffer) : AudioBuffer :=
  {| sampleRate := sampleRate b;
     buffer_length := buffer_length b;
     numberOfChannels := numberOfChannels b;
     channels := map (map (fun v => (v * k)%Q)) (channels b) |}.

(** [y] is [x] at the gain [k]. *)
Definition scaled (k x y : Q) : Prop := (y == x * k)%Q.

(** Two runs that end the same way, with results related by [R]. *)
Definition related_outcome {A : Type} (R : A -> A -> Prop) (o1 o2 : outcome A) : Prop :=
  match o1, o2 with
  | Returns a, Returns b => R a b
  | Throws, Throws => True
  | Diverges, Diverges => True
  | _, _ => False
  end.

End Gain.

(** ** The peak of one window, and the merge over the channels *)

Module Windows.

Import Js Audio.

(** The value [peak] that the body of the loop over [i] computes for one
    channel (0 where the scan of the window does not return). *)
Definition window_peak (chan : list Q) (sampleSize : Q) (sampleStep i : Z) : Q :=
  let start := toInt32 (inject_Z i * sampleSize) in
  let end_ := toInt32 (inject_Z start + sampleSize) in
  match window_scan chan start end_ sampleStep with
  | Returns (min, max) => Js.max (abs max) (abs min)
  | _ => 0%Q
  end.

(** [peaks[i]] is the largest window peak among the channels before [c]:
    it is the peak of one of them and at least the peak of each. *)
Definition merged (buffer : AudioBuffer) (sampleSize : Q) (sampleStep c i : Z)
  (peaks : list Q) : Prop :=
  exists p,
    get peaks i = Some p /\
    (exists c' chan,
       0 <= c' < c /\ getChannelData buffer c' = Some chan /\
       p = window_peak chan sampleSize sampleStep i) /\
    (forall c' chan,
       0 <= c' < c -> getChannelData buffer c' = Some chan ->
       (window_peak chan sampleSize sampleStep i <= p)%Q).

End Windows.

(** * Properties *)

Import Js Resampler Audio Bpm Drawing.

(** ** Comparisons, loops and array reads *)

Section JsFacts.

Lemma ltb_lt (x y : Q) : ltb x y = true <-> (x < y)%Q.
Proof. unfold ltb, Qlt. apply Z.ltb_lt. Qed.

Lemma ltb_ge (x y : Q) : ltb x y = false <-> (y <= x)%Q.
Proof. unfold ltb, Qle. apply Z.ltb_ge. Qed.

Lemma max_ge_l (a b : Q) : (a <= Js.max a b)%Q.
Proof.
  unfold Js.max. destruct (ltb a b) eqn:E.
  - apply ltb_lt in E. apply Qlt_le_weak, E.
  - apply Qle_refl.
Qed.

Lemma max_ge_r (a b : Q) : (b <= Js.max a b)%Q.
Proof.
  unfold Js.max. destruct (ltb a b) eqn:E.
  - apply Qle_refl.
  - apply ltb_ge in E. exact E.
Qed.

Lemma max_cases (a b : Q) : Js.max a b = a \/ Js.max a b = b.
Proof. unfold Js.max. destruct (ltb a b); auto. Qed.

Lemma abs_nonneg (x : Q) : (0 <= abs x)%Q.
Proof.
  unfold abs. destruct (ltb x 0) eqn:E.
  - apply ltb_lt in E. apply (Qopp_le_compat x 0), Qlt_le_weak, E.
  - apply ltb_ge in E. exact E.
Qed.

(** [Math.max(...xs)] is an element of [xs] that bounds all of them. *)
Lemma Math_max_In (xs : list Q) (m : Q) : Math_max xs = Some m -> In m xs.
Proof.
  revert m. induction xs as [|x r IH]; intros m H; simpl in H; [discriminate|].
  destruct (Math_max r) as [m'|] eqn:E.
  - injection H as <-. destruct (max_cases x m') as [-> | ->]; [left; reflexivity|].
    right. apply IH. reflexivity.
  - injection H as <-. left. reflexivity.
Qed.

Lemma Math_max_bound (xs : list Q) (m : Q) :
  Math_max xs = Some m -> forall x, In x xs -> (x <= m)%Q.
Proof.
  revert m. induction xs as [|x r IH]; intros m H y Hy; [destruct Hy|].
  simpl in H. destruct (Math_max r) as [m'|] eqn:E.
  - injection H as <-. destruct Hy as [<- | Hy].
    + apply max_ge_l.
    + eapply Qle_trans; [apply (IH m' eq_refl y Hy) | apply max_ge_r].
  - injection H as <-. destruct r; [|simpl in E; destruct (Math_max r); discriminate].
    destruct Hy as [<- | []]. apply Qle_refl.
Qed.

Lemma Math_max_None (xs : list Q) : Math_max xs = None <-> xs = [].
Proof.
  destruct xs as [|x r]; simpl; [tauto|].
  destruct (Math_max r); split; discriminate.
Qed.

(** A loop that only pushes builds the image of its index range. *)
Lemma for_loop_push {A : Type} (f : Z -> A) (n : nat) (i : Z) (acc : list A) :
  for_loop n i (fun k result => result ++ [f k]) acc
  = acc ++ map f (seqZ i (Z.of_nat n)).
Proof.
  revert i acc. induction n as [|n IH]; intros i acc.
  - simpl. symmetry. apply app_nil_r.
  - cbn [for_loop]. rewrite IH. rewrite (seqZ_cons i) by lia.
    replace (Z.pred (Z.of_nat (S n))) with (Z.of_nat n) by lia.
    replace (Z.succ i) with (i + 1) by lia.
    simpl. rewrite <- app_assoc. reflexivity.
Qed.

Lemma for_loop_push_In {A : Type} (f : Z -> A) (n : nat) (y : A) :
  In y (for_loop n 0 (fun k result => result ++ [f k]) [])
  <-> exists k, 0 <= k < Z.of_nat n /\ y = f k.
Proof.
  rewrite for_loop_push. simpl. rewrite in_map_iff. split.
  - intros (k & <- & Hk). apply list_elem_of_In, elem_of_seqZ in Hk.
    exists k. split; [lia | reflexivity].
  - intros (k & Hk & ->). exists k. split; [reflexivity|].
    apply list_elem_of_In, elem_of_seqZ. lia.
Qed.

Lemma for_loop_push_length {A : Type} (f : Z -> A) (n : nat) :
  List.length (for_loop n 0 (fun k result => result ++ [f k]) []) = n.
Proof.
  rewrite for_loop_push. simpl. rewrite length_map, length_seqZ. lia.
Qed.

(** A read is an element of the array, or the default of a missed read. *)
Lemma get_In {A : Type} (data : list A) (j : Z) (v : A) : get data j = Some v -> In v data.
Proof.
  unfold get. destruct (j <? 0); [discriminate|]. apply nth_error_In.
Qed.

Lemma get_in_range {A : Type} (data : list A) (j : Z) :
  0 <= j < len data -> exists v, get data j = Some v.
Proof.
  intros H. unfold get, len in *. destruct (j <? 0) eqn:E; [lia|].
  destruct (nth_error data (Z.to_nat j)) as [v|] eqn:E'; [eauto|].
  apply nth_error_None in E'. lia.
Qed.

Lemma get_num_in_range (data : list Q) (j : Z) :
  0 <= j < len data -> In (get_num data j) data.
Proof.
  intros H. unfold get_num. destruct (get_in_range data j H) as [v Hv].
  rewrite Hv. eapply get_In, Hv.
Qed.

Lemma get_num_cases (data : list Q) (j : Z) :
  In (get_num data j) data \/ get_num data j = 0%Q.
Proof.
  unfold get_num. destruct (get data j) eqn:E; [left; eapply get_In, E | right; reflexivity].
Qed.

(** *** Rounded operations *)

Section Rounding.

Context `{E : Engine} `{!EngineLaws E}.

Lemma rnd_zero : (rnd 0 == 0)%Q.
Proof. apply (rnd_integer 0). lia. Qed.

Lemma rnd_nonneg (x : Q) : (0 <= x)%Q -> (0 <= rnd x)%Q.
Proof. intros H. rewrite <- rnd_zero. apply rnd_monotone, H. Qed.

Lemma rnd_Qred_monotone (x y : Q) : (x <= y)%Q -> (rnd (Qred x) <= rnd (Qred y))%Q.
Proof. intros H. apply rnd_monotone. rewrite !Qred_correct. exact H. Qed.

Lemma rnd_Qred_nonneg (x : Q) : (0 <= x)%Q -> (0 <= rnd (Qred x))%Q.
Proof. intros H. apply rnd_nonneg. rewrite Qred_correct. exact H. Qed.

Lemma rnd_Qeq (x y : Q) : (x == y)%Q -> (rnd x == rnd y)%Q.
Proof.
  intros H. apply Qle_antisym; apply rnd_monotone; rewrite H; apply Qle_refl.
Qed.

Lemma rnd_Qred_integer (x : Q) (n : Z) :
  - 2 ^ 53 <= n <= 2 ^ 53 -> (x == inject_Z n)%Q -> (rnd (Qred x) == inject_Z n)%Q.
Proof.
  intros Hn Hx. rewrite <- (rnd_integer n Hn). apply rnd_Qeq.
  rewrite Qred_correct. exact Hx.
Qed.

Lemma rnd_Qred_le (q c : Q) : (q <= c)%Q -> (rnd c == c)%Q -> (rnd (Qred q) <= c)%Q.
Proof.
  intros Hq Hc. rewrite <- Hc. apply rnd_monotone. rewrite Qred_correct. exact Hq.
Qed.

Lemma rnd_Qred_ge (q c : Q) : (c <= q)%Q -> (rnd c == c)%Q -> (c <= rnd (Qred q))%Q.
Proof.
  intros Hq Hc. rewrite <- Hc. apply rnd_monotone. rewrite Qred_correct. exact Hq.
Qed.

Lemma rnd_Qred_fixed (q : Q) : (rnd (rnd (Qred q)) == rnd (Qred q))%Q.
Proof. apply rnd_idempotent. Qed.

Lemma rnd_count_fixed (q : Q) :
  (exists n, 0 <= n <= 2 ^ 53 /\ (q == inject_Z n)%Q) -> (rnd q == q)%Q /\ (0 <= q)%Q.
Proof.
  intros (n & Hn & Hq). split.
  - rewrite (rnd_Qeq q (inject_Z n) Hq), Hq. apply rnd_integer. lia.
  - rewrite Hq. change 0%Q with (inject_Z 0). rewrite <- Zle_Qle. lia.
Qed.

Lemma fmul_monotone (s x y : Q) : (0 <= s)%Q -> (x <= y)%Q -> (x *! s <= y *! s)%Q.
Proof. intros Hs H. apply rnd_Qred_monotone, Qmult_le_compat_r; assumption. Qed.

Lemma fmul_nonneg (x y : Q) : (0 <= x)%Q -> (0 <= y)%Q -> (0 <= x *! y)%Q.
Proof. intros Hx Hy. apply rnd_Qred_nonneg, Qmult_le_0_compat; assumption. Qed.

Lemma fdiv_nonneg (x y : Q) : (0 <= x)%Q -> (0 < y)%Q -> (0 <= x /! y)%Q.
Proof.
  intros Hx Hy. apply rnd_Qred_nonneg. apply Qle_shift_div_l; [exact Hy|].
  rewrite Qmult_0_l. exact Hx.
Qed.

(** [Math.max] of the images under a monotone function is the image of
    [Math.max]. *)
Lemma Math_max_monotone (f : Q -> Q) (xs : list Q) :
  (forall x y, (x <= y)%Q -> (f x <= f y)%Q) ->
  forall m, Math_max xs = Some m ->
  exists m', Math_max (map f xs) = Some m' /\ (m' == f m)%Q.
Proof.
  intros Hf. induction xs as [|x r IH]; intros m Hm; [discriminate Hm|].
  cbn [map Math_max] in *. destruct (Math_max r) as [mr|] eqn:Er.
  - destruct (IH mr eq_refl) as (mr' & -> & Hr'). injection Hm as <-.
    eexists. split; [reflexivity|]. unfold Js.max.
    destruct (ltb x mr) eqn:E1; destruct (ltb (f x) mr') eqn:E2;
      try apply ltb_lt in E1; try apply ltb_ge in E1;
      try apply ltb_lt in E2; try apply ltb_ge in E2.
    + exact Hr'.
    + apply Qle_antisym; [apply Hf, Qlt_le_weak, E1|].
      rewrite <- Hr'. exact E2.
    + exfalso. apply (Qlt_irrefl (f x)). eapply Qlt_le_trans; [exact E2|].
      rewrite Hr'. apply Hf, E1.
    + reflexivity.
  - apply Math_max_None in Er. subst r. injection Hm as <-.
    eexists. split; [reflexivity | reflexivity].
Qed.

End Rounding.

Lemma exact_engine_laws : EngineLaws Examples.exact_engine.
Proof.
  split; cbn.
  - intros x y H. exact H.
  - intros x. reflexivity.
  - intros n _. reflexivity.
  - discriminate.
Qed.

(** *** Round to nearest in binary64

    [binary64_round] is monotone, leaves its own values alone, and leaves
    the integers up to 2^53 alone. *)

Lemma pow2_Qpower (e : Z) : (pow2 e == 2 ^ e)%Q.
Proof.
  unfold pow2. destruct (0 <=? e) eqn:E.
  - apply Z.leb_le in E. apply (Zpower_Qpower 2 e E).
  - apply Z.leb_gt in E.
    assert (H : (2 ^ e == / 2 ^ (- e))%Q).
    { rewrite <- Qpower_opp. rewrite Z.opp_involutive. reflexivity. }
    rewrite H.
    assert (H2 : (2 ^ (- e) == inject_Z (2 ^ (- e)))%Q).
    { symmetry. apply (Zpower_Qpower 2 (- e)). lia. }
    rewrite H2.
    assert (Hp : 0 < 2 ^ (- e)) by (apply Z.pow_pos_nonneg; lia).
    destruct (2 ^ (- e)) as [|p|p] eqn:Ep; try lia.
    reflexivity.
Qed.

Lemma pow2_pos (e : Z) : (0 < pow2 e)%Q.
Proof.
  rewrite pow2_Qpower. apply Qpower_0_lt. reflexivity.
Qed.

Lemma pow2_add (a b : Z) : (pow2 (a + b) == pow2 a * pow2 b)%Q.
Proof.
  rewrite !pow2_Qpower. apply Qpower_plus. discriminate.
Qed.

Lemma pow2_nonneg_Z (e : Z) : 0 <= e -> pow2 e = inject_Z (2 ^ e).
Proof. intros H. unfold pow2. apply Z.leb_le in H. rewrite H. reflexivity. Qed.

Lemma pow2_le (a b : Z) : a <= b -> (pow2 a <= pow2 b)%Q.
Proof.
  intros H. replace b with (a + (b - a)) by lia. rewrite pow2_add.
  rewrite (pow2_nonneg_Z (b - a)) by lia.
  assert (H1 : (1 <= inject_Z (2 ^ (b - a)))%Q).
  { change 1%Q with (inject_Z 1). rewrite <- Zle_Qle.
    assert (0 < 2 ^ (b - a)) by (apply Z.pow_pos_nonneg; lia). lia. }
  pose proof (pow2_pos a).
  rewrite <- (Qmult_1_r (pow2 a)) at 1.
  apply Qmult_le_l; assumption.
Qed.

Lemma pow2_lt (a b : Z) : a < b -> (pow2 a < pow2 b)%Q.
Proof.
  intros H. replace b with (a + (b - a)) by lia. rewrite pow2_add.
  rewrite (pow2_nonneg_Z (b - a)) by lia.
  assert (H1 : (1 < inject_Z (2 ^ (b - a)))%Q).
  { change 1%Q with (inject_Z 1). rewrite <- Zlt_Qlt.
    assert (2 ^ 1 <= 2 ^ (b - a)) by (apply Z.pow_le_mono_r; lia). lia. }
  pose proof (pow2_pos a).
  rewrite <- (Qmult_1_r (pow2 a)) at 1.
  apply Qmult_lt_l; assumption.
Qed.

Lemma pow2_sub (a b : Z) : (pow2 (a - b) == pow2 a / pow2 b)%Q.
Proof.
  pose proof (pow2_pos b) as Hb.
  assert (H : (pow2 a == pow2 (a - b) * pow2 b)%Q).
  { rewrite <- pow2_add. replace (a - b + b) with a by lia. reflexivity. }
  rewrite H. field. intros E. rewrite E in Hb. discriminate.
Qed.

Lemma ilog2_spec (x : Q) : (0 < x)%Q -> (pow2 (ilog2 x) <= x)%Q /\ (x < pow2 (ilog2 x + 1))%Q.
Proof.
  intros Hx. destruct x as [n d].
  assert (Hn : 0 < n) by (unfold Qlt in Hx; simpl in Hx; lia).
  pose proof (Z.log2_spec n Hn) as [Ha1 Ha2].
  pose proof (Z.log2_spec (Zpos d) (Pos2Z.is_pos d)) as [Hb1 Hb2].
  pose proof (Z.log2_nonneg n) as Ha0.
  pose proof (Z.log2_nonneg (Zpos d)) as Hb0.
  unfold ilog2. cbn [Qnum Qden].
  set (a := Z.log2 n) in *. set (b := Z.log2 (Zpos d)) in *.
  assert (Hpa : 0 < 2 ^ a) by (apply Z.pow_pos_nonneg; lia).
  assert (Hpb : 0 < 2 ^ b) by (apply Z.pow_pos_nonneg; lia).
  assert (Hup : (n # d < pow2 (a - b + 1))%Q).
  { replace (a - b + 1) with ((a + 1) - b) by lia. rewrite pow2_sub.
    rewrite (pow2_nonneg_Z (a + 1)), (pow2_nonneg_Z b) by lia.
    apply Qlt_shift_div_l.
    - change 0%Q with (inject_Z 0). rewrite <- Zlt_Qlt. exact Hpb.
    - unfold Qlt, Qmult, inject_Z. cbn [Qnum Qden].
      rewrite Pos.mul_1_r. replace (Z.succ a) with (a + 1) in Ha2 by lia. nia. }
  assert (Hlo : (pow2 (a - b - 1) < n # d)%Q).
  { replace (a - b - 1) with (a - (b + 1)) by lia. rewrite pow2_sub.
    rewrite (pow2_nonneg_Z a), (pow2_nonneg_Z (b + 1)) by lia.
    assert (Hpb1 : 0 < 2 ^ (b + 1)) by (apply Z.pow_pos_nonneg; lia).
    apply Qlt_shift_div_r.
    - change 0%Q with (inject_Z 0). rewrite <- Zlt_Qlt. exact Hpb1.
    - unfold Qlt, Qmult, inject_Z. cbn [Qnum Qden].
      rewrite Pos.mul_1_r. replace (Z.succ b) with (b + 1) in Hb2 by lia. nia. }
  destruct (Qle_bool (pow2 (a - b)) (n # d)) eqn:E.
  - apply Qle_bool_iff in E. split; assumption.
  - split; [apply Qlt_le_weak; exact Hlo|].
    replace (a - b - 1 + 1) with (a - b) by lia.
    apply Qnot_le_lt. intros H. apply Qle_bool_iff in H. congruence.
Qed.

Lemma ilog2_unique (x : Q) (k : Z) :
  (pow2 k <= x)%Q -> (x < pow2 (k + 1))%Q -> ilog2 x = k.
Proof.
  intros H1 H2.
  assert (Hx : (0 < x)%Q) by (eapply Qlt_le_trans; [apply (pow2_pos k) | exact H1]).
  destruct (ilog2_spec x Hx) as [L1 L2].
  destruct (Z.lt_trichotomy (ilog2 x) k) as [H | [H | H]]; [|exact H|].
  - exfalso. pose proof (pow2_le (ilog2 x + 1) k ltac:(lia)). lra.
  - exfalso. pose proof (pow2_le (k + 1) (ilog2 x) ltac:(lia)). lra.
Qed.

Lemma ilog2_monotone (x y : Q) : (0 < x)%Q -> (x <= y)%Q -> ilog2 x <= ilog2 y.
Proof.
  intros Hx Hxy.
  assert (Hy : (0 < y)%Q) by lra.
  destruct (ilog2_spec x Hx) as [L1 L2]. destruct (ilog2_spec y Hy) as [M1 M2].
  destruct (Z_le_gt_dec (ilog2 x) (ilog2 y)) as [H | H]; [exact H|].
  exfalso. pose proof (pow2_le (ilog2 y + 1) (ilog2 x) ltac:(lia)). lra.
Qed.

Lemma ilog2_Qeq (x y : Q) : (0 < x)%Q -> (x == y)%Q -> ilog2 x = ilog2 y.
Proof.
  intros Hx E. assert (Hy : (0 < y)%Q) by lra.
  destruct (ilog2_spec y Hy) as [M1 M2].
  apply ilog2_unique; lra.
Qed.

(** [round_half_even] is monotone and leaves the integers alone. *)
Lemma rhe_bounds (x : Q) : Qfloor x <= round_half_even x <= Qfloor x + 1.
Proof.
  unfold round_half_even.
  destruct (Qcompare _ _); [destruct (Z.even _)| |]; lia.
Qed.

Lemma rhe_integer (n : Z) : round_half_even (inject_Z n) = n.
Proof.
  unfold round_half_even. rewrite Qfloor_Z.
  assert (E : (inject_Z n - inject_Z n ?= 1 # 2)%Q = Lt).
  { rewrite <- Qlt_alt. lra. }
  rewrite E. reflexivity.
Qed.

Lemma rhe_Qeq (x y : Q) : (x == y)%Q -> round_half_even x = round_half_even y.
Proof.
  intros E. unfold round_half_even.
  assert (F : Qfloor x = Qfloor y) by (apply Qfloor_comp; exact E).
  rewrite F.
  assert (C : ((x - inject_Z (Qfloor y)) ?= (1 # 2))%Q = ((y - inject_Z (Qfloor y)) ?= (1 # 2))%Q).
  { apply Qcompare_comp; [rewrite E; reflexivity | reflexivity]. }
  rewrite C. reflexivity.
Qed.

Lemma rhe_monotone (x y : Q) : (x <= y)%Q -> round_half_even x <= round_half_even y.
Proof.
  intros H.
  pose proof (Qfloor_resp_le x y H) as Hf.
  pose proof (rhe_bounds x) as Bx. pose proof (rhe_bounds y) as By.
  destruct (Z.eq_dec (Qfloor x) (Qfloor y)) as [E | NE]; [|lia].
  unfold round_half_even in *. rewrite E in *.
  destruct ((y - inject_Z (Qfloor y)) ?= (1 # 2))%Q eqn:Cy.
  - apply Qeq_alt in Cy.
    destruct ((x - inject_Z (Qfloor y)) ?= (1 # 2))%Q eqn:Cx.
    + lia.
    + destruct (Z.even (Qfloor y)); lia.
    + apply Qgt_alt in Cx. lra.
  - apply Qlt_alt in Cy.
    destruct ((x - inject_Z (Qfloor y)) ?= (1 # 2))%Q eqn:Cx.
    + apply Qeq_alt in Cx. lra.
    + lia.
    + apply Qgt_alt in Cx. lra.
  - destruct ((x - inject_Z (Qfloor y)) ?= (1 # 2))%Q; [destruct (Z.even _)| |]; lia.
Qed.

Lemma rhe_nonneg (x : Q) : (0 <= x)%Q -> 0 <= round_half_even x.
Proof.
  intros H. rewrite <- (rhe_integer 0). apply rhe_monotone. exact H.
Qed.

Lemma round_positive_eq (x : Q) :
  (round_positive x == inject_Z (mant x) * pow2 (exponent x))%Q.
Proof. unfold round_positive. rewrite Qred_correct. reflexivity. Qed.

Lemma pow2_neq (e : Z) : ~ (pow2 e == 0)%Q.
Proof. pose proof (pow2_pos e). lra. Qed.

Lemma div_pow2_le (x y : Q) (e : Z) : (x <= y)%Q -> (x / pow2 e <= y / pow2 e)%Q.
Proof.
  intros H. unfold Qdiv. apply Qmult_le_compat_r; [exact H|].
  apply Qlt_le_weak, Qinv_lt_0_compat, pow2_pos.
Qed.

Lemma pow2_div_Z (a e : Z) : e <= a -> (pow2 a / pow2 e == inject_Z (2 ^ (a - e)))%Q.
Proof.
  intros H. rewrite <- pow2_sub. rewrite pow2_nonneg_Z by lia. reflexivity.
Qed.

Lemma mant_bounds (x : Q) :
  (0 < x)%Q ->
  0 <= mant x <= 2 ^ 53 /\ (exponent x = ilog2 x - 52 -> 2 ^ 52 <= mant x).
Proof.
  intros Hx. destruct (ilog2_spec x Hx) as [L1 L2].
  unfold mant. set (e := exponent x).
  assert (He : ilog2 x - 52 <= e) by (unfold e, exponent; lia).
  split; [split|].
  - apply rhe_nonneg. apply Qle_shift_div_l; [apply pow2_pos|]. lra.
  - assert (H : (x / pow2 e <= inject_Z (2 ^ 53))%Q).
    { eapply Qle_trans; [apply div_pow2_le, Qlt_le_weak, L2|].
      eapply Qle_trans; [apply div_pow2_le, (pow2_le _ (e + 53)); lia|].
      rewrite pow2_div_Z by lia. replace (e + 53 - e) with 53 by lia. apply Qle_refl. }
    apply rhe_monotone in H. rewrite rhe_integer in H. exact H.
  - intros E.
    assert (H : (inject_Z (2 ^ 52) <= x / pow2 e)%Q).
    { eapply Qle_trans; [|apply div_pow2_le, L1].
      rewrite pow2_div_Z by lia. replace (ilog2 x - e) with 52 by lia. apply Qle_refl. }
    apply rhe_monotone in H. rewrite rhe_integer in H. exact H.
Qed.

Lemma round_positive_nonneg (x : Q) : (0 < x)%Q -> (0 <= round_positive x)%Q.
Proof.
  intros Hx. rewrite round_positive_eq.
  apply Qmult_le_0_compat; [|apply Qlt_le_weak, pow2_pos].
  change 0%Q with (inject_Z 0). rewrite <- Zle_Qle. apply (mant_bounds x Hx).
Qed.

Lemma inject_Z_pow2_mul (e k : Z) :
  0 <= k -> (inject_Z (2 ^ k) * pow2 e == pow2 (k + e))%Q.
Proof. intros H. rewrite pow2_add, (pow2_nonneg_Z k H). reflexivity. Qed.

Lemma round_positive_monotone (x y : Q) :
  (0 < x)%Q -> (x <= y)%Q -> (round_positive x <= round_positive y)%Q.
Proof.
  intros Hx Hxy. assert (Hy : (0 < y)%Q) by lra.
  rewrite !round_positive_eq.
  pose proof (ilog2_monotone x y Hx Hxy) as Hl.
  destruct (ilog2_spec x Hx) as [L1 L2]. destruct (ilog2_spec y Hy) as [M1 M2].
  destruct (Z.eq_dec (exponent x) (exponent y)) as [E | NE].
  - unfold mant. rewrite E. apply Qmult_le_compat_r; [|apply Qlt_le_weak, pow2_pos].
    rewrite <- Zle_Qle. apply rhe_monotone, div_pow2_le, Hxy.
  - assert (Hlt : exponent x < exponent y) by (unfold exponent in *; lia).
    assert (Ey : exponent y = ilog2 y - 52) by (unfold exponent in *; lia).
    assert (Hxl : ilog2 x + 1 <= ilog2 y) by (unfold exponent in *; lia).
    assert (Hge : exponent x <= ilog2 y) by (unfold exponent in *; lia).
    apply (Qle_trans _ (pow2 (ilog2 y))).
    + assert (H : (x / pow2 (exponent x) <= inject_Z (2 ^ (ilog2 y - exponent x)))%Q).
      { rewrite <- pow2_div_Z by exact Hge. apply div_pow2_le.
        pose proof (pow2_le (ilog2 x + 1) (ilog2 y) Hxl). lra. }
      apply rhe_monotone in H. rewrite rhe_integer in H.
      eapply Qle_trans.
      * apply Qmult_le_compat_r; [|apply Qlt_le_weak, pow2_pos].
        rewrite <- Zle_Qle. exact H.
      * rewrite inject_Z_pow2_mul by lia.
        replace (ilog2 y - exponent x + exponent x) with (ilog2 y) by lia. apply Qle_refl.
    + destruct (mant_bounds y Hy) as [_ Hm]. specialize (Hm Ey).
      apply (Qle_trans _ (inject_Z (2 ^ 52) * pow2 (exponent y))).
      * rewrite inject_Z_pow2_mul by lia.
        replace (52 + exponent y) with (ilog2 y) by lia. apply Qle_refl.
      * apply Qmult_le_compat_r; [|apply Qlt_le_weak, pow2_pos].
        rewrite <- Zle_Qle. exact Hm.
Qed.

Lemma round_positive_Qeq (x y : Q) :
  (0 < x)%Q -> (x == y)%Q -> (round_positive x == round_positive y)%Q.
Proof.
  intros Hx E. assert (Hy : (0 < y)%Q) by lra.
  apply Qle_antisym; apply round_positive_monotone; lra.
Qed.

(** A value [m * 2^e] with at most 53 significant bits and an exponent
    that binary64 has is left alone. *)
Lemma round_positive_representable (v : Q) (m e : Z) :
  (v == inject_Z m * pow2 e)%Q ->
  0 < m <= 2 ^ 53 -> - 1074 <= e -> (2 ^ 52 <= m \/ e = - 1074) ->
  (round_positive v == v)%Q.
Proof.
  intros Hv Hm He Hn.
  pose proof (pow2_pos e) as Hpe.
  assert (Hm0 : (0 < inject_Z m)%Q) by (change 0%Q with (inject_Z 0); rewrite <- Zlt_Qlt; lia).
  assert (Hv0 : (0 < v)%Q).
  { rewrite Hv. apply Qmult_lt_0_compat; assumption. }
  destruct (Z.eq_dec m (2 ^ 53)) as [E53 | N53].
  - (* the carry into the next binade *)
    assert (Hv' : (v == pow2 (53 + e))%Q).
    { rewrite Hv, E53. apply inject_Z_pow2_mul; lia. }
    assert (Hl : ilog2 v = 53 + e).
    { apply ilog2_unique; [rewrite Hv'; apply Qle_refl|].
      rewrite Hv'. apply pow2_lt. lia. }
    rewrite round_positive_eq. unfold mant.
    assert (Ee : exponent v = e + 1) by (unfold exponent; rewrite Hl; lia).
    rewrite Ee.
    assert (Hq : (v / pow2 (e + 1) == inject_Z (2 ^ 52))%Q).
    { rewrite Hv'. rewrite pow2_div_Z by lia. replace (53 + e - (e + 1)) with 52 by lia.
      reflexivity. }
    rewrite (rhe_Qeq _ _ Hq), rhe_integer.
    rewrite inject_Z_pow2_mul by lia. rewrite Hv'.
    replace (52 + (e + 1)) with (53 + e) by lia. reflexivity.
  - assert (Hup : (v < pow2 (53 + e))%Q).
    { rewrite Hv. rewrite <- inject_Z_pow2_mul by lia.
      apply Qmult_lt_compat_r; [exact Hpe|]. rewrite <- Zlt_Qlt. lia. }
    assert (Hlu : ilog2 v <= 52 + e).
    { destruct (ilog2_spec v Hv0) as [L1 _].
      destruct (Z_le_gt_dec (ilog2 v) (52 + e)) as [H | H]; [exact H|].
      exfalso. pose proof (pow2_le (53 + e) (ilog2 v) ltac:(lia)). lra. }
    assert (Ee : exponent v = e).
    { destruct Hn as [Hn | Hn].
      - assert (Hl : ilog2 v = 52 + e).
        { apply ilog2_unique.
          - rewrite Hv. rewrite <- inject_Z_pow2_mul by lia.
            apply Qmult_le_compat_r; [|apply Qlt_le_weak, Hpe]. rewrite <- Zle_Qle. exact Hn.
          - replace (52 + e + 1) with (53 + e) by lia. exact Hup. }
        unfold exponent. rewrite Hl. lia.
      - unfold exponent. lia. }
    rewrite round_positive_eq. unfold mant. rewrite Ee.
    assert (Hq : (v / pow2 e == inject_Z m)%Q).
    { rewrite Hv. field. apply pow2_neq. }
    rewrite (rhe_Qeq _ _ Hq), rhe_integer. symmetry. exact Hv.
Qed.

Lemma round_positive_idempotent (x : Q) :
  (0 < x)%Q -> (0 < round_positive x)%Q ->
  (round_positive (round_positive x) == round_positive x)%Q.
Proof.
  intros Hx Hr.
  destruct (mant_bounds x Hx) as [[Hm0 Hm1] Hm2].
  apply (round_positive_representable _ (mant x) (exponent x)).
  - apply round_positive_eq.
  - split; [|exact Hm1].
    destruct (Z.eq_dec (mant x) 0) as [E | NE]; [|lia].
    exfalso. rewrite round_positive_eq, E in Hr.
    change (inject_Z 0) with 0%Q in Hr. rewrite Qmult_0_l in Hr. discriminate.
  - unfold exponent. lia.
  - destruct (Z.eq_dec (exponent x) (- 1074)) as [E | NE]; [right; exact E|].
    left. apply Hm2. unfold exponent in *. lia.
Qed.

Lemma round_positive_integer (n : Z) :
  0 < n <= 2 ^ 53 -> (round_positive (inject_Z n) == inject_Z n)%Q.
Proof.
  intros Hn.
  destruct (Z.eq_dec n (2 ^ 53)) as [E | NE].
  - apply (round_positive_representable _ (2 ^ 53) 0); try lia.
    + rewrite E. change (pow2 0) with 1%Q. rewrite Qmult_1_r. reflexivity.
  - pose proof (Z.log2_spec n ltac:(lia)) as [H1 H2].
    pose proof (Z.log2_nonneg n) as H0.
    assert (Hl : Z.log2 n <= 52).
    { destruct (Z_le_gt_dec (Z.log2 n) 52) as [H | H]; [exact H|].
      exfalso. assert (2 ^ 53 <= 2 ^ Z.log2 n) by (apply Z.pow_le_mono_r; lia). lia. }
    set (l := Z.log2 n) in *.
    apply (round_positive_representable _ (n * 2 ^ (52 - l)) (l - 52)).
    + rewrite inject_Z_mult, <- Qmult_assoc, inject_Z_pow2_mul by lia.
      replace (52 - l + (l - 52)) with 0 by lia. change (pow2 0) with 1%Q.
      rewrite Qmult_1_r. reflexivity.
    + assert (Hp : 0 < 2 ^ (52 - l)) by (apply Z.pow_pos_nonneg; lia).
      split; [nia|].
      replace (Z.succ l) with (l + 1) in H2 by lia.
      assert (Hs : 2 ^ (l + 1) * 2 ^ (52 - l) = 2 ^ 53).
      { rewrite <- Z.pow_add_r by lia. f_equal. lia. }
      nia.
    + lia.
    + left. assert (Hs : 2 ^ l * 2 ^ (52 - l) = 2 ^ 52).
      { rewrite <- Z.pow_add_r by lia. f_equal. lia. }
      assert (Hp : 0 < 2 ^ (52 - l)) by (apply Z.pow_pos_nonneg; lia).
      nia.
Qed.

Lemma binary64_round_pos (x : Q) : (0 < x)%Q -> binary64_round x = round_positive x.
Proof.
  intros H. unfold binary64_round.
  assert (E : (x ?= 0)%Q = Gt) by (apply Qgt_alt; exact H).
  rewrite E. reflexivity.
Qed.

Lemma binary64_round_neg (x : Q) :
  (x < 0)%Q -> (binary64_round x == - round_positive (- x))%Q.
Proof.
  intros H. unfold binary64_round.
  assert (E : (x ?= 0)%Q = Lt) by (apply Qlt_alt; exact H).
  rewrite E. apply Qred_correct.
Qed.

Lemma binary64_round_zero (x : Q) : (x == 0)%Q -> binary64_round x = 0%Q.
Proof.
  intros H. unfold binary64_round.
  assert (E : (x ?= 0)%Q = Eq) by (apply Qeq_alt; exact H).
  rewrite E. reflexivity.
Qed.

Lemma binary64_round_monotone (x y : Q) :
  (x <= y)%Q -> (binary64_round x <= binary64_round y)%Q.
Proof.
  intros H.
  destruct (Q_dec x 0) as [[Hx | Hx] | Hx]; destruct (Q_dec y 0) as [[Hy | Hy] | Hy].
  - rewrite (binary64_round_neg x Hx), (binary64_round_neg y Hy).
    apply Qopp_le_compat. apply round_positive_monotone; lra.
  - rewrite (binary64_round_neg x Hx), (binary64_round_pos y Hy).
    pose proof (round_positive_nonneg (- x) ltac:(lra)).
    pose proof (round_positive_nonneg y Hy). lra.
  - rewrite (binary64_round_neg x Hx), (binary64_round_zero y Hy).
    pose proof (round_positive_nonneg (- x) ltac:(lra)). lra.
  - lra.
  - rewrite (binary64_round_pos x Hx), (binary64_round_pos y Hy).
    apply round_positive_monotone; assumption.
  - lra.
  - rewrite (binary64_round_zero x Hx), (binary64_round_neg y Hy). lra.
  - rewrite (binary64_round_zero x Hx), (binary64_round_pos y Hy).
    apply round_positive_nonneg, Hy.
  - rewrite (binary64_round_zero x Hx), (binary64_round_zero y Hy). apply Qle_refl.
Qed.

Lemma binary64_round_Qeq (x y : Q) :
  (x == y)%Q -> (binary64_round x == binary64_round y)%Q.
Proof.
  intros E. apply Qle_antisym; apply binary64_round_monotone; rewrite E; apply Qle_refl.
Qed.

Lemma binary64_round_fixed_pos (v : Q) :
  (0 <= v)%Q -> (0 < v -> round_positive v == v)%Q -> (binary64_round v == v)%Q.
Proof.
  intros H0 H.
  destruct (Q_dec v 0) as [[Hv | Hv] | Hv]; [lra | |].
  - rewrite (binary64_round_pos v Hv). apply H, Hv.
  - rewrite (binary64_round_zero v Hv). symmetry. exact Hv.
Qed.

Lemma binary64_round_opp (x : Q) : (binary64_round (- x) == - binary64_round x)%Q.
Proof.
  destruct (Q_dec x 0) as [[Hx | Hx] | Hx].
  - rewrite (binary64_round_neg x Hx), (binary64_round_pos (- x)) by lra. lra.
  - rewrite (binary64_round_pos x Hx), (binary64_round_neg (- x)) by lra.
    rewrite (round_positive_Qeq (- - x) x); [reflexivity | lra | lra].
  - rewrite (binary64_round_zero x Hx), (binary64_round_zero (- x)) by lra. reflexivity.
Qed.

Lemma binary64_round_idempotent (x : Q) :
  (binary64_round (binary64_round x) == binary64_round x)%Q.
Proof.
  assert (P : forall x, (0 < x)%Q ->
                (binary64_round (binary64_round x) == binary64_round x)%Q).
  { intros z Hz. rewrite (binary64_round_pos z Hz).
    apply binary64_round_fixed_pos; [apply round_positive_nonneg, Hz|].
    intros Hr. apply round_positive_idempotent; assumption. }
  destruct (Q_dec x 0) as [[Hx | Hx] | Hx].
  - assert (E : (binary64_round x == - binary64_round (- x))%Q).
    { rewrite binary64_round_opp. lra. }
    rewrite (binary64_round_Qeq _ _ E), binary64_round_opp, (P (- x)%Q) by lra.
    symmetry. exact E.
  - apply P, Hx.
  - rewrite (binary64_round_zero x Hx). reflexivity.
Qed.

Lemma binary64_round_integer (n : Z) :
  - 2 ^ 53 <= n <= 2 ^ 53 -> (binary64_round (inject_Z n) == inject_Z n)%Q.
Proof.
  intros Hn.
  assert (P : forall k, 0 < k <= 2 ^ 53 -> (binary64_round (inject_Z k) == inject_Z k)%Q).
  { intros k Hk. rewrite binary64_round_pos.
    - apply round_positive_integer, Hk.
    - change 0%Q with (inject_Z 0). rewrite <- Zlt_Qlt. lia. }
  destruct (Z.lt_trichotomy n 0) as [H | [H | H]].
  - assert (E : (inject_Z n == - inject_Z (- n))%Q).
    { rewrite inject_Z_opp. lra. }
    rewrite (binary64_round_Qeq _ _ E), binary64_round_opp, (P (- n)) by lia.
    symmetry. exact E.
  - subst n. reflexivity.
  - apply P. lia.
Qed.

Lemma binary64_laws : EngineLaws Examples.binary64.
Proof.
  split; cbn.
  - apply binary64_round_monotone.
  - apply binary64_round_idempotent.
  - apply binary64_round_integer.
  - discriminate.
Qed.

(** The literals are the doubles nearest to their decimals. *)
Lemma literals_are_rounded :
  binary64_round (95 # 100) = double_0_95 /\
  binary64_round (9 # 10) = double_0_9 /\
  binary64_round (45 # 100) = double_0_45 /\
  binary64_round (35 # 100) = double_0_35 /\
  binary64_round (1 # 10) = double_0_1 /\
  binary64_round (4 # 10) = double_0_4 /\
  binary64_round (1 # 1000) = double_0_001.
Proof. vm_compute. repeat split. Qed.

End JsFacts.

(** ** The resampler *)

Section ResamplerFacts.

(** With exact arithmetic the bucket boundaries are integer quotients. *)
Lemma floor_scaled (i n t : Z) :
  0 < t -> Qfloor (inject_Z i * (inject_Z n / inject_Z t)) = i * n / t.
Proof.
  intros Ht. rewrite (Zdiv_Qdiv (i * n) t). apply Qfloor_comp.
  rewrite inject_Z_mult. unfold Qdiv. ring.
Qed.

Lemma bucket_loop_count (data : list Q) (end_ : Z) :
  forall (fuel : nat) (j : Z) (max : Q) (count : Z),
    len data - j <= Z.of_nat fuel ->
    snd (bucket_loop fuel data j end_ max count)
    = count + Z.max 0 (Z.min end_ (len data - 1) - j + 1).
Proof.
  induction fuel as [|fuel IH]; intros j max count Hfuel.
  - simpl. lia.
  - cbn [bucket_loop].
    destruct ((j <=? end_) && (j <? len data)) eqn:E.
    + apply andb_true_iff in E. destruct E as [E1 E2].
      apply Z.leb_le in E1. apply Z.ltb_lt in E2.
      rewrite IH by lia. lia.
    + apply andb_false_iff in E. simpl.
      destruct E as [E | E]; [apply Z.leb_gt in E | apply Z.ltb_ge in E]; lia.
Qed.

Lemma bucket_loop_bound (data : list Q) (end_ : Z) (m : Q) :
  (forall x, In x data -> (x <= m)%Q) -> (0 <= m)%Q ->
  forall (fuel : nat) (j : Z) (max : Q) (count : Z),
    (max <= m)%Q -> (fst (bucket_loop fuel data j end_ max count) <= m)%Q.
Proof.
  intros Hall Hm. induction fuel as [|fuel IH]; intros j max count Hmax.
  - exact Hmax.
  - cbn [bucket_loop]. destruct ((j <=? end_) && (j <? len data)); [|exact Hmax].
    apply IH. destruct (ltb max (get_num data j)); [|exact Hmax].
    destruct (get_num_cases data j) as [H | ->]; [apply Hall, H | exact Hm].
Qed.

Lemma downsample_at_bound (data : list Q) (bucketSize m : Q) (i : Z) :
  (forall x, In x data -> (x <= m)%Q) -> (0 <= m)%Q ->
  (downsample_at data bucketSize i <= m)%Q.
Proof.
  intros Hall Hm. unfold downsample_at.
  destruct (bucket_scan data bucketSize i) as [max count] eqn:E.
  destruct (count =? 0).
  - match goal with |- (get_num ?d ?k <= _)%Q =>
      destruct (get_num_cases d k) as [H | ->]; [apply Hall, H | exact Hm] end.
  - change max with (fst (max, count)). rewrite <- E. unfold bucket_scan.
    apply bucket_loop_bound; [exact Hall | exact Hm | exact Hm].
Qed.

(** In the downsampling branch the result is one value per bucket. *)
Lemma resampleData_down (data : list Q) (targetLength : Z) :
  0 < targetLength < len data ->
  resampleData data targetLength
  = map (downsample_at data (inject_Z (len data) / inject_Z targetLength))
      (seqZ 0 targetLength).
Proof.
  intros H. unfold resampleData.
  destruct (len data =? targetLength) eqn:E1; [apply Z.eqb_eq in E1; lia|].
  destruct (len data =? 0) eqn:E2; [apply Z.eqb_eq in E2; lia|].
  destruct (targetLength =? 0) eqn:E3; [apply Z.eqb_eq in E3; lia|].
  destruct (len data <? targetLength) eqn:E4; [apply Z.ltb_lt in E4; lia|].
  cbn [orb]. rewrite for_loop_push. rewrite Z2Nat.id by lia. reflexivity.
Qed.

(** C2.  The two worked examples of the resampler: downsampling
    [0, 1, 0, 1] to 2 values gives [1, 1] (bucket maxima), and upsampling
    [0, 1] to 4 values gives 0, 1/3, 2/3, 1 (linear interpolation). *)
Theorem resampleData_worked_examples :
  resampleData [0; 1; 0; 1]%Q 2 = [1; 1]%Q /\
  Forall2 Qeq (resampleData [0; 1]%Q 4) [0; 1 # 3; 2 # 3; 1]%Q.
Proof.
  split.
  - vm_compute. reflexivity.
  - vm_compute. repeat constructor.
Qed.




(** C10.  In the downsampling branch every bucket scan starts inside the
    array and not after its end bound, so it visits
    [min(end, length - 1) - start + 1 >= 1] elements and the value pushed
    is the maximum found: the [count === 0] fallback is never taken. *)
Theorem bucket_scan_visits (data : list Q) (targetLength i : Z) :
  0 < targetLength < len data ->
  0 <= i < targetLength ->
  let bucketSize := (inject_Z (len data) / inject_Z targetLength)%Q in
  let start := bucket_start bucketSize i in
  let last := Z.min (bucket_end bucketSize i) (len data - 1) in
  0 <= start <= last /\
  snd (bucket_scan data bucketSize i) = last - start + 1 /\
  1 <= snd (bucket_scan data bucketSize i) /\
  downsample_at data bucketSize i = fst (bucket_scan data bucketSize i).
Proof.
  intros Ht Hi bucketSize start last.
  assert (Hs : start = i * len data / targetLength).
  { unfold start, bucket_start, bucketSize. apply floor_scaled. lia. }
  assert (He : bucket_end bucketSize i = (i + 1) * len data / targetLength).
  { unfold bucket_end, bucketSize. apply floor_scaled. lia. }
  assert (H0 : 0 <= start).
  { rewrite Hs. apply Z.div_pos; nia. }
  assert (H1 : start <= bucket_end bucketSize i).
  { rewrite Hs, He. apply Z.div_le_mono; nia. }
  assert (H2 : start < len data).
  { rewrite Hs. apply Z.div_lt_upper_bound; nia. }
  assert (Hcount : snd (bucket_scan data bucketSize i) = last - start + 1).
  { unfold bucket_scan. fold start. rewrite bucket_loop_count by lia.
    fold last. unfold last. lia. }
  split; [unfold last; lia|]. split; [exact Hcount|].
  split; [rewrite Hcount; unfold last; lia|].
  unfold downsample_at. destruct (bucket_scan data bucketSize i) as [max count].
  simpl in Hcount |- *. destruct (count =? 0) eqn:E; [|reflexivity].
  apply Z.eqb_eq in E. unfold last in Hcount. lia.
Qed.

Lemma bucket_scan_visits_witness :
  snd (bucket_scan [0; 1; 0; 1]%Q (inject_Z 4 / inject_Z 2) 1) = 2.
Proof.
  pose proof (bucket_scan_visits [0; 1; 0; 1]%Q 2 1) as H.
  destruct H as (_ & H & _).
  - vm_compute. split; reflexivity.
  - lia.
  - exact H.
Defined.

End ResamplerFacts.

(** ** The peak extractor *)

Section AudioFacts.

(** A loop whose body returns and keeps an invariant returns, with the
    invariant at the final index. *)
Lemma for_loopM_invariant {St : Type} (Inv : Z -> St -> Prop)
  (body : Z -> St -> outcome St) :
  forall (n : nat) (i : Z) (s : St),
    Inv i s ->
    (forall k s1, i <= k < i + Z.of_nat n -> Inv k s1 ->
       exists s2, body k s1 = Returns s2 /\ Inv (k + 1) s2) ->
    exists s', for_loopM n i body s = Returns s' /\ Inv (i + Z.of_nat n) s'.
Proof.
  induction n as [|n IH]; intros i s Hs Hbody.
  - exists s. split; [reflexivity|]. replace (i + Z.of_nat 0) with i by lia. exact Hs.
  - cbn [for_loopM]. destruct (Hbody i s) as (s2 & E & Hs2); [lia | exact Hs |].
    rewrite E. cbn [bind].
    destruct (IH (i + 1) s2 Hs2) as (s' & E' & Hs').
    + intros k s1 Hk. apply Hbody. lia.
    + exists s'. split; [exact E'|].
      replace (i + Z.of_nat (S n)) with (i + 1 + Z.of_nat n) by lia. exact Hs'.
Qed.

(** A loop that returns has run its body, with a result, at every index. *)
Lemma for_loopM_returns_body {St : Type} (body : Z -> St -> outcome St) :
  forall (n : nat) (i : Z) (s s' : St),
    for_loopM n i body s = Returns s' ->
    forall k, i <= k < i + Z.of_nat n -> exists s1 s2, body k s1 = Returns s2.
Proof.
  induction n as [|n IH]; intros i s s' H k Hk; [lia|].
  cbn [for_loopM] in H. destruct (body i s) as [s2| |] eqn:E; try discriminate.
  cbn [bind] in H. destruct (Z.eq_dec k i) as [-> | Hne].
  - exists s, s2. exact E.
  - apply (IH (i + 1) s2 s' H). lia.
Qed.

Lemma toInt32_small (x : Q) :
  (0 <= x)%Q -> Qfloor x < 2 ^ 31 -> toInt32 x = Qfloor x /\ 0 <= Qfloor x.
Proof.
  intros H0 Hlt.
  assert (Hf : 0 <= Qfloor x).
  { change 0 with (Qfloor 0). apply Qfloor_resp_le, H0. }
  split; [|exact Hf]. unfold toInt32, trunc.
  assert (E : ltb x 0 = false) by (apply ltb_ge, H0). rewrite E.
  rewrite Z.mod_small by lia.
  destruct (2 ^ 31 <=? Qfloor x) eqn:E'; [apply Z.leb_le in E'; lia | reflexivity].
Qed.

(** On a decoded buffer the stride is positive. *)
Lemma sampleStep_of_pos (buffer_len samples : Z) :
  0 <= buffer_len < 2 ^ 32 -> 0 <= samples -> 0 < sampleStep_of buffer_len samples.
Proof.
  intros HL Hs. unfold sampleStep_of.
  destruct (samples =? 0) eqn:E; [lia|]. apply Z.eqb_neq in E.
  set (x := (inject_Z buffer_len / inject_Z samples / 10)%Q).
  assert (Hx : (x == inject_Z buffer_len / inject_Z (samples * 10))%Q).
  { unfold x. rewrite inject_Z_mult. field.
    intros H. apply E. apply (inject_Z_injective samples 0), H. }
  assert (Hfl : Qfloor x = buffer_len / (samples * 10)).
  { rewrite (Zdiv_Qdiv buffer_len (samples * 10)). apply Qfloor_comp, Hx. }
  assert (H0 : (0 <= x)%Q).
  { rewrite Hx. apply Qle_shift_div_l.
    - change 0%Q with (inject_Z 0). rewrite <- Zlt_Qlt. lia.
    - rewrite Qmult_0_l. change 0%Q with (inject_Z 0). rewrite <- Zle_Qle. lia. }
  assert (Hup : Qfloor x < 2 ^ 31).
  { rewrite Hfl. apply Z.div_lt_upper_bound; nia. }
  destruct (toInt32_small x H0 Hup) as [-> Hge].
  destruct (Qfloor x =? 0) eqn:E'; [lia|]. apply Z.eqb_neq in E'. lia.
Qed.

Lemma window_scan_returns (chan : list Q) (start end_ sampleStep : Z) :
  0 < sampleStep -> exists mm, window_scan chan start end_ sampleStep = Returns mm.
Proof.
  intros H. unfold window_scan. destruct (start <? end_); [|eauto].
  destruct (0 <? sampleStep) eqn:E; [eauto | apply Z.ltb_ge in E; lia].
Qed.

Lemma window_scan_zero (chan : list Q) (start end_ sampleStep : Z) :
  0 < sampleStep -> Forall (fun v => (v == 0)%Q) chan ->
  window_scan chan start end_ sampleStep = Returns (0%Q, 0%Q).
Proof.
  intros Hstep Hz. unfold window_scan. destruct (start <? end_); [|reflexivity].
  destruct (0 <? sampleStep) eqn:E; [|apply Z.ltb_ge in E; lia].
  f_equal. generalize (Z.to_nat (end_ - start)) as fuel. generalize start as j.
  intros j fuel. revert j. induction fuel as [|fuel IH]; intros j; [reflexivity|].
  cbn [window_loop]. destruct (j <? end_); [|reflexivity].
  destruct (get chan j) as [value|] eqn:G; [|apply IH].
  assert (Hv : (value == 0)%Q).
  { rewrite Forall_forall in Hz. apply Hz, list_elem_of_In. eapply get_In, G. }
  assert (E1 : ltb 0 value = false) by (apply ltb_ge; rewrite Hv; apply Qle_refl).
  assert (E2 : ltb value 0 = false) by (apply ltb_ge; rewrite Hv; apply Qle_refl).
  rewrite E1, E2. apply IH.
Qed.

Lemma array_set_length (peaks : list Q) (i : Z) (peak : Q) :
  0 <= i <= len peaks ->
  len (array_set peaks i peak) = Z.max (len peaks) (i + 1).
Proof.
  intros H. unfold array_set, len in *.
  rewrite !length_app, length_firstn, length_skipn. simpl. lia.
Qed.

Lemma In_firstn_skipn {A : Type} (n : nat) (l : list A) (y : A) :
  In y (firstn n l) \/ In y (skipn n l) -> In y l.
Proof. intros H. rewrite <- (firstn_skipn n l). apply in_or_app, H. Qed.

Lemma array_set_In (peaks : list Q) (i : Z) (peak y : Q) :
  In y (array_set peaks i peak) -> y = peak \/ In y peaks.
Proof.
  unfold array_set. rewrite !in_app_iff. simpl.
  intros [H | [[<- | []] | H]]; auto; right.
  - apply (In_firstn_skipn (Z.to_nat i)). left. exact H.
  - apply (In_firstn_skipn (Z.to_nat i + 1)). right. exact H.
Qed.

Lemma array_set_has (peaks : list Q) (i : Z) (peak : Q) : In peak (array_set peaks i peak).
Proof. unfold array_set. rewrite !in_app_iff. simpl. auto. Qed.

End AudioFacts.

Lemma readable_of_length (buffer : AudioBuffer) :
  len (channels buffer) = numberOfChannels buffer -> readable buffer.
Proof.
  intros H c Hc. unfold getChannelData.
  destruct (get_in_range (channels buffer) c) as [chan Hchan]; [lia | eauto].
Qed.

Section RawPeaks.

Variable P : Q -> Prop.

Lemma store_peak_keeps (c i : Z) (peak : Q) (peaks : list Q) :
  P peak -> Forall P peaks -> Forall P (store_peak c i peak peaks).
Proof.
  intros Hp Hps. unfold store_peak.
  destruct ((c =? 0) || match get peaks i with Some p => ltb p peak | None => false end);
    [|exact Hps].
  apply Forall_forall. intros y Hy. apply list_elem_of_In, array_set_In in Hy.
  destruct Hy as [-> | Hy]; [exact Hp|].
  rewrite Forall_forall in Hps. apply Hps, list_elem_of_In, Hy.
Qed.

Lemma store_peak_length (c i : Z) (peak : Q) (peaks : list Q) (samples : Z) :
  0 <= c -> 0 <= i < samples ->
  len peaks = (if c =? 0 then i else samples) ->
  len (store_peak c i peak peaks) = (if c =? 0 then i + 1 else samples).
Proof.
  intros Hc Hi Hlen. unfold store_peak. destruct (c =? 0) eqn:E.
  - cbn [orb]. rewrite array_set_length by lia. lia.
  - cbn [orb]. destruct (match get peaks i with Some p => ltb p peak | None => false end);
      [|exact Hlen].
    rewrite array_set_length by lia. lia.
Qed.

(** The loops of [extractPeaks] return when every window scan does, and
    then hold one peak per window, each with the property that the scans
    establish. *)
Lemma raw_peaks_invariant (buffer : AudioBuffer) (samples : Z) :
  readable buffer ->
  1 <= numberOfChannels buffer ->
  0 <= samples ->
  (forall c chan i peaks,
     getChannelData buffer c = Some chan ->
     exists peak,
       window_step chan (inject_Z (buffer_length buffer) / inject_Z samples)
         (sampleStep_of (buffer_length buffer) samples) c i peaks
       = Returns (store_peak c i peak peaks) /\ P peak) ->
  exists raw,
    raw_peaks buffer samples = Returns raw /\ len raw = samples /\ Forall P raw.
Proof.
  intros Hch Hn Hs Hstep. unfold raw_peaks.
  set (sampleSize := (inject_Z (buffer_length buffer) / inject_Z samples)%Q) in *.
  set (sampleStep := sampleStep_of (buffer_length buffer) samples) in *.
  destruct (for_loopM_invariant
    (fun c peaks => Forall P peaks /\ len peaks = (if c =? 0 then 0 else samples))
    (fun c peaks =>
       match getChannelData buffer c with
       | None => Throws
       | Some chan =>
           for_loopM (Z.to_nat samples) 0 (window_step chan sampleSize sampleStep c) peaks
       end)
    (Z.to_nat (numberOfChannels buffer)) 0 []) as (raw & E & HP & Hlen).
  - split; [constructor | reflexivity].
  - intros c peaks Hc [HP Hlen].
    destruct (Hch c) as [chan Hchan]; [lia|]. rewrite Hchan.
    destruct (for_loopM_invariant
      (fun i peaks => Forall P peaks /\ len peaks = (if c =? 0 then i else samples))
      (window_step chan sampleSize sampleStep c)
      (Z.to_nat samples) 0 peaks) as (peaks' & E' & HP' & Hlen').
    + split; [exact HP | exact Hlen].
    + intros i s1 Hi [HP1 Hlen1].
      destruct (Hstep c chan i s1 Hchan) as (peak & Ep & Hpeak).
      exists (store_peak c i peak s1). split; [exact Ep|]. split.
      * apply store_peak_keeps; assumption.
      * apply store_peak_length; [lia | lia | exact Hlen1].
    + exists peaks'. split; [exact E'|]. split; [exact HP'|].
      rewrite Hlen'. destruct (c =? 0) eqn:E0, (c + 1 =? 0) eqn:E1; lia.
  - exists raw. split; [exact E|]. split; [|exact HP].
    rewrite Hlen. destruct (0 + Z.of_nat (Z.to_nat (numberOfChannels buffer)) =? 0) eqn:E0;
      [apply Z.eqb_eq in E0; lia | reflexivity].
Qed.

End RawPeaks.

Section PeakExtractor.

Lemma window_step_peak (chan : list Q) (sampleSize : Q) (sampleStep c i : Z)
  (peaks : list Q) :
  0 < sampleStep ->
  exists peak,
    window_step chan sampleSize sampleStep c i peaks = Returns (store_peak c i peak peaks)
    /\ (0 <= peak)%Q.
Proof.
  intros Hstep. unfold window_step.
  destruct (window_scan_returns chan (toInt32 (inject_Z i * sampleSize))
              (toInt32 (inject_Z (toInt32 (inject_Z i * sampleSize)) + sampleSize))
              sampleStep Hstep) as ([min max] & ->).
  cbn [bind]. eexists. split; [reflexivity|].
  eapply Qle_trans; [apply (abs_nonneg max) | apply max_ge_l].
Qed.

Lemma window_step_zero (chan : list Q) (sampleSize : Q) (sampleStep c i : Z)
  (peaks : list Q) :
  0 < sampleStep -> Forall (fun v => (v == 0)%Q) chan ->
  window_step chan sampleSize sampleStep c i peaks = Returns (store_peak c i 0%Q peaks).
Proof.
  intros Hstep Hz. unfold window_step.
  rewrite window_scan_zero by assumption. reflexivity.
Qed.

Context `{E : Engine}.

Lemma spread_max_fits (xs : list Q) :
  len xs <= max_arguments -> spread_max xs = Returns (Math_max xs).
Proof.
  intros H. unfold spread_max.
  destruct (max_arguments <? len xs) eqn:El; [apply Z.ltb_lt in El; lia | reflexivity].
Qed.

Lemma spread_max_throws (xs : list Q) :
  max_arguments < len xs -> spread_max xs = Throws.
Proof.
  intros H. unfold spread_max.
  destruct (max_arguments <? len xs) eqn:El; [reflexivity | apply Z.ltb_ge in El; lia].
Qed.

(** The normalization at the end of [extractPeaks], and what
    [normalizePeaks] then does to its result: nothing. *)
Lemma extractPeaks_of_raw (buffer : AudioBuffer) (samples : Z) (raw : list Q) :
  raw_peaks buffer samples = Returns raw ->
  Forall (fun p => (0 <= p)%Q) raw ->
  len raw <= max_arguments ->
  exists env,
    extractPeaks buffer samples = Returns env /\
    len env = len raw /\
    Forall (fun y => (0 <= y <= 1)%Q) env /\
    (Forall (fun p => p = 0%Q) raw -> env = raw) /\
    (~ Forall (fun p => (p == 0)%Q) raw -> Exists (fun y => (y == 1)%Q) env) /\
    normalizePeaks env double_0_95 = Returns env.
Proof.
  intros Hraw Hpos Hfit. unfold extractPeaks. rewrite Hraw. cbn [bind].
  rewrite (spread_max_fits raw Hfit). cbn [bind].
  rewrite Forall_forall in Hpos.
  destruct (Math_max raw) as [m|] eqn:Em.
  - pose proof (Math_max_In raw m Em) as Hin.
    pose proof (Math_max_bound raw m Em) as Hbound.
    destruct (ltb 0 m) eqn:E0.
    + apply ltb_lt in E0.
      assert (Hrange : Forall (fun y => (0 <= y <= 1)%Q) (map (fun peak => (peak / m)%Q) raw)).
      { apply Forall_forall. intros y Hy. apply list_elem_of_In, in_map_iff in Hy.
        destruct Hy as (p & <- & Hp). split.
        - apply Qle_shift_div_l; [exact E0|]. rewrite Qmult_0_l.
          apply Hpos, list_elem_of_In, Hp.
        - apply Qle_shift_div_r; [exact E0|]. rewrite Qmult_1_l. apply Hbound, Hp. }
      assert (Hone : (m / m == 1)%Q).
      { field. intros H. rewrite H in E0. apply (Qlt_irrefl 0), E0. }
      assert (Hhas : In (m / m)%Q (map (fun peak => (peak / m)%Q) raw)).
      { apply in_map_iff. exists m. split; [reflexivity | exact Hin]. }
      assert (Hlen : len (map (fun peak => (peak / m)%Q) raw) = len raw).
      { unfold len. rewrite length_map. reflexivity. }
      eexists. split; [reflexivity|]. split; [exact Hlen|].
      split; [exact Hrange|]. split; [|split].
      * intros Hz. rewrite Forall_forall in Hz.
        rewrite (Hz m) in E0 by (apply list_elem_of_In, Hin).
        exfalso. apply (Qlt_irrefl 0), E0.
      * intros _. apply Exists_exists. exists (m / m)%Q.
        split; [apply list_elem_of_In, Hhas | exact Hone].
      * unfold normalizePeaks. rewrite spread_max_fits by (rewrite Hlen; exact Hfit).
        cbn [bind].
        destruct (Math_max (map (fun peak => (peak / m)%Q) raw)) as [m'|] eqn:Em'.
        2:{ apply Math_max_None in Em'. rewrite Em' in Hhas. destruct Hhas. }
        assert (Hm' : (m / m <= m')%Q) by (apply (Math_max_bound _ _ Em'), Hhas).
        assert (E1 : ltb double_0_95 m' = true).
        { apply ltb_lt. eapply Qlt_le_trans; [|exact Hm']. rewrite Hone. reflexivity. }
        rewrite E1, orb_true_r. reflexivity.
    + apply ltb_ge in E0.
      assert (Hzero : forall p, In p raw -> (p == 0)%Q).
      { intros p Hp. apply Qle_antisym.
        - eapply Qle_trans; [apply Hbound, Hp | exact E0].
        - apply Hpos, list_elem_of_In, Hp. }
      exists raw. split; [reflexivity|]. split; [reflexivity|]. split; [|split; [|split]].
      * apply Forall_forall. intros y Hy. apply list_elem_of_In in Hy.
        rewrite (Hzero y Hy). split; discriminate.
      * reflexivity.
      * intros Hnz. exfalso. apply Hnz, Forall_forall.
        intros y Hy. apply Hzero, list_elem_of_In, Hy.
      * unfold normalizePeaks. rewrite (spread_max_fits raw Hfit). cbn [bind]. rewrite Em.
        assert (E1 : eqb m 0 = true) by (apply Qeq_bool_iff, Hzero, Hin).
        rewrite E1. reflexivity.
  - apply Math_max_None in Em. subst raw. exists []. split; [reflexivity|].
    split; [reflexivity|]. split; [constructor|]. split; [reflexivity|].
    split; [intros Hnz; exfalso; apply Hnz; constructor|].
    unfold normalizePeaks. rewrite (spread_max_fits [] Hfit). reflexivity.
Qed.

(** Beyond the argument limit the spread throws, whatever the peaks. *)
Lemma extractPeaks_beyond_limit (buffer : AudioBuffer) (samples : Z) (raw : list Q) :
  raw_peaks buffer samples = Returns raw ->
  max_arguments < len raw ->
  extractPeaks buffer samples = Throws.
Proof.
  intros Hraw Hbig. unfold extractPeaks. rewrite Hraw. cbn [bind].
  rewrite (spread_max_throws raw Hbig). reflexivity.
Qed.

End PeakExtractor.

Section PeakExtractorClaims.

Import Examples.

Context `{E : Engine}.

(** C5 as stated fails on an input that is not silent but whose only
    non-zero frame is skipped by the stride: with 20 frames and one
    window the scan reads every second frame, misses frame 1, and the
    envelope is the single value 0. *)
Lemma extractPeaks_stride_misses_click :
  valid_buffer click_buffer /\
  ~ Forall (Forall (fun v => (v == 0)%Q)) (channels click_buffer) /\
  sampleStep_of (buffer_length click_buffer) 1 = 2 /\
  generateWaveform_peaks (E := binary64) click_buffer 1 = Returns [0%Q] /\
  ~ Exists (fun y => (y == 1)%Q) [0%Q].
Proof.
  split.
  { repeat split; try (vm_compute; congruence).
    repeat constructor. }
  split.
  { intros H. apply Forall_cons in H. destruct H as [H _].
    apply Forall_cons in H. destruct H as [_ H].
    apply Forall_cons in H. destruct H as [H _]. discriminate H. }
  split; [vm_compute; reflexivity|].
  split; [vm_compute; reflexivity|].
  intros H. apply Exists_cons in H. destruct H as [H | H]; [discriminate H|].
  apply Exists_nil in H. exact H.
Qed.

(** C5, amended.  For a decoded buffer and [samples >= 1]: when
    [samples] is within the argument limit of the engine the envelope is
    produced, has exactly [samples] values, all in [0, 1]; channels of
    zeros give an envelope of zeros; and when the window peaks found by
    the strided scan are not all zero, some value of the envelope is 1
    (whatever the loudest window is).  Beyond the argument limit the
    spread in [Math.max(...peaks)] throws and no envelope is produced. *)
Theorem peak_extractor_postconditions (buffer : AudioBuffer) (samples : Z) :
  valid_buffer buffer ->
  1 <= samples ->
  (samples <= max_arguments ->
   exists raw env,
     raw_peaks buffer samples = Returns raw /\
     generateWaveform_peaks buffer samples = Returns env /\
     len env = samples /\
     Forall (fun y => (0 <= y <= 1)%Q) env /\
     (Forall (Forall (fun v => (v == 0)%Q)) (channels buffer) ->
      Forall (fun y => y = 0%Q) env) /\
     (~ Forall (fun p => (p == 0)%Q) raw -> Exists (fun y => (y == 1)%Q) env)) /\
  (max_arguments < samples ->
   extractPeaks buffer samples = Throws /\
   generateWaveform_peaks buffer samples = Throws).
Proof.
  intros (HL & Hn & Hch & _) Hs.
  assert (Hstep : 0 < sampleStep_of (buffer_length buffer) samples)
    by (apply sampleStep_of_pos; lia).
  destruct (raw_peaks_invariant (fun p => (0 <= p)%Q) buffer samples
              (readable_of_length buffer Hch) Hn)
    as (raw & Eraw & Hlen & Hpos); [lia | |].
  { intros c chan i peaks _. apply window_step_peak, Hstep. }
  split.
  - intros Hfit.
    destruct (extractPeaks_of_raw buffer samples raw Eraw Hpos)
      as (env & Eenv & Hlen' & Hrange & Hzero & Hone & Hnorm); [lia|].
    exists raw, env. split; [exact Eraw|]. split.
    { unfold generateWaveform_peaks. rewrite Eenv. cbn [bind]. exact Hnorm. }
    split; [lia|]. split; [exact Hrange|]. split; [|exact Hone].
    intros Hsilent.
    destruct (raw_peaks_invariant (fun p => p = 0%Q) buffer samples
                (readable_of_length buffer Hch) Hn)
      as (raw0 & Eraw0 & _ & Hz); [lia | |].
    { intros c chan i peaks Hc. exists 0%Q. split; [|reflexivity].
      apply window_step_zero; [exact Hstep|].
      rewrite Forall_forall in Hsilent. apply Hsilent, list_elem_of_In.
      eapply get_In, Hc. }
    rewrite Eraw in Eraw0. injection Eraw0 as <-.
    rewrite (Hzero Hz). exact Hz.
  - intros Hbig.
    assert (Et : extractPeaks buffer samples = Throws).
    { apply (extractPeaks_beyond_limit buffer samples raw Eraw). lia. }
    split; [exact Et|]. unfold generateWaveform_peaks. rewrite Et. reflexivity.
Qed.

(** C9 as stated fails: with [samples = 0] no window loop runs, the peaks
    stay empty and [extractPeaks] returns the empty envelope. *)
Lemma extractPeaks_zero_samples_returns :
  valid_buffer stereo_buffer /\
  extractPeaks (E := binary64) stereo_buffer 0 = Returns [] /\
  extractPeaks (E := binary64) stereo_buffer 0 <> Throws.
Proof.
  split.
  { repeat split; try (vm_compute; congruence). repeat constructor. }
  split; [vm_compute; reflexivity | vm_compute; discriminate].
Qed.

(** The loop over the windows of one channel returns: it has no
    iteration for a count that is not positive, and a positive stride
    ends every scan. *)
Lemma window_loop_returns (chan : list Q) (sampleSize : Q) (sampleStep c samples : Z) :
  samples <= 0 \/ 0 < sampleStep ->
  forall peaks,
    exists peaks',
      for_loopM (Z.to_nat samples) 0 (window_step chan sampleSize sampleStep c) peaks
      = Returns peaks'.
Proof.
  intros [Hs | Hstep] peaks.
  - replace (Z.to_nat samples) with 0%nat by lia. exists peaks. reflexivity.
  - destruct (for_loopM_invariant (fun _ _ => True)
                (window_step chan sampleSize sampleStep c) (Z.to_nat samples) 0 peaks I)
      as (peaks' & Ep & _); [|eauto].
    intros i s1 _ _. destruct (window_step_peak chan sampleSize sampleStep c i s1 Hstep)
      as (peak & Ew & _).
    eauto.
Qed.

(** The loop over the channels throws at the first channel that cannot
    be read. *)
Lemma channel_loop_throws (buffer : AudioBuffer) (samples : Z) :
  samples <= 0 \/ 0 < sampleStep_of (buffer_length buffer) samples ->
  forall (n : nat) (i c : Z) (peaks : list Q),
    i <= c < i + Z.of_nat n ->
    getChannelData buffer c = None ->
    for_loopM n i
      (fun c peaks =>
         match getChannelData buffer c with
         | None => Throws
         | Some chan =>
             for_loopM (Z.to_nat samples) 0
               (window_step chan (inject_Z (buffer_length buffer) / inject_Z samples)
                  (sampleStep_of (buffer_length buffer) samples) c) peaks
         end) peaks = Throws.
Proof.
  intros Hok. induction n as [|n IH]; intros i c peaks Hc Hnone; [lia|].
  cbn [for_loopM]. destruct (getChannelData buffer i) as [chan|] eqn:Ei; [|reflexivity].
  destruct (window_loop_returns chan (inject_Z (buffer_length buffer) / inject_Z samples)
              (sampleStep_of (buffer_length buffer) samples) i samples Hok peaks)
    as (peaks' & ->).
  cbn [bind]. apply (IH (i + 1) c); [|exact Hnone].
  destruct (Z.eq_dec c i) as [-> | Hne]; [congruence | lia].
Qed.

(** On a readable buffer the loops return, with no peak for a count that
    is not positive or for no channel, and with [samples] peaks
    otherwise. *)
Lemma raw_peaks_readable (buffer : AudioBuffer) (samples : Z) :
  0 <= buffer_length buffer < 2 ^ 32 ->
  readable buffer ->
  exists raw,
    raw_peaks buffer samples = Returns raw /\
    Forall (fun p => (0 <= p)%Q) raw /\
    len raw = (if (samples <=? 0) || (numberOfChannels buffer <=? 0) then 0 else samples).
Proof.
  intros HL Hread.
  destruct (samples <=? 0) eqn:Es; [apply Z.leb_le in Es | apply Z.leb_gt in Es].
  - cbn [orb]. exists []. split; [|split; [constructor | reflexivity]].
    unfold raw_peaks. replace (Z.to_nat samples) with 0%nat by lia.
    destruct (for_loopM_invariant (fun _ peaks => peaks = [])
      (fun c peaks =>
         match getChannelData buffer c with
         | None => Throws
         | Some chan =>
             for_loopM 0 0
               (window_step chan (inject_Z (buffer_length buffer) / inject_Z samples)
                  (sampleStep_of (buffer_length buffer) samples) c) peaks
         end)
      (Z.to_nat (numberOfChannels buffer)) 0 []) as (raw & Eraw & ->); [reflexivity | |exact Eraw].
    intros c peaks Hc ->. destruct (Hread c) as [chan Hchan]; [lia|].
    rewrite Hchan. exists []. split; reflexivity.
  - cbn [orb]. destruct (numberOfChannels buffer <=? 0) eqn:En;
      [apply Z.leb_le in En | apply Z.leb_gt in En].
    + exists []. split; [|split; [constructor | reflexivity]].
      unfold raw_peaks. replace (Z.to_nat (numberOfChannels buffer)) with 0%nat by lia.
      reflexivity.
    + destruct (raw_peaks_invariant (fun p => (0 <= p)%Q) buffer samples Hread)
        as (raw & Eraw & Hlen & Hpos); [lia | lia | |eauto].
      intros c chan i peaks _. apply window_step_peak, sampleStep_of_pos; lia.
Qed.

(** C9, amended.  [extractPeaks] checks nothing itself.  On a buffer of
    valid length it raises an error in two cases only: [getChannelData]
    fails for one of the announced channels, or there are more peaks
    than the engine takes as arguments in [Math.max(...peaks)].  In every
    other case it returns: with [samples = 0] (or less) and every
    announced channel readable it returns the empty envelope. *)
Theorem extractPeaks_zero_samples_or_missing_channel (buffer : AudioBuffer) (samples : Z) :
  0 <= max_arguments ->
  0 <= buffer_length buffer < 2 ^ 32 ->
  (readable buffer ->
   numberOfChannels buffer <= 0 \/ samples <= max_arguments ->
   exists env,
     extractPeaks buffer samples = Returns env /\ (samples <= 0 -> env = [])) /\
  (forall c,
     0 <= c < numberOfChannels buffer -> getChannelData buffer c = None ->
     extractPeaks buffer samples = Throws) /\
  (readable buffer ->
   1 <= numberOfChannels buffer -> max_arguments < samples ->
   extractPeaks buffer samples = Throws) /\
  ((exists env, extractPeaks buffer samples = Returns env) <->
   readable buffer /\ (numberOfChannels buffer <= 0 \/ samples <= max_arguments)).
Proof.
  intros Hmax HL.
  assert (Hok : samples <= 0 \/ 0 < sampleStep_of (buffer_length buffer) samples).
  { destruct (Z_le_gt_dec samples 0) as [H | H]; [left; exact H|].
    right. apply sampleStep_of_pos; lia. }
  assert (Hreturns : readable buffer ->
            numberOfChannels buffer <= 0 \/ samples <= max_arguments ->
            exists env,
              extractPeaks buffer samples = Returns env /\ (samples <= 0 -> env = [])).
  { intros Hread Hfit.
    destruct (raw_peaks_readable buffer samples HL Hread) as (raw & Eraw & Hpos & Hlen).
    destruct (extractPeaks_of_raw buffer samples raw Eraw Hpos)
      as (env & Eenv & Hlen' & _).
    - rewrite Hlen. destruct ((samples <=? 0) || (numberOfChannels buffer <=? 0)) eqn:Ez;
        [exact Hmax|].
      apply orb_false_iff in Ez. destruct Ez as [_ Ez]. apply Z.leb_gt in Ez. lia.
    - exists env. split; [exact Eenv|]. intros Hs.
      assert (Ez : (samples <=? 0) = true) by (apply Z.leb_le, Hs).
      rewrite Ez in Hlen. cbn [orb] in Hlen. rewrite Hlen in Hlen'.
      destruct env; [reflexivity|]. unfold len in Hlen'. cbn [length] in Hlen'. lia. }
  assert (Hmissing : forall c,
            0 <= c < numberOfChannels buffer -> getChannelData buffer c = None ->
            extractPeaks buffer samples = Throws).
  { intros c Hc Hnone. unfold extractPeaks, raw_peaks.
    rewrite (channel_loop_throws buffer samples Hok
               (Z.to_nat (numberOfChannels buffer)) 0 c []) by (lia || exact Hnone).
    reflexivity. }
  assert (Hbeyond : readable buffer ->
            1 <= numberOfChannels buffer -> max_arguments < samples ->
            extractPeaks buffer samples = Throws).
  { intros Hread Hn Hbig.
    destruct (raw_peaks_readable buffer samples HL Hread) as (raw & Eraw & _ & Hlen).
    apply (extractPeaks_beyond_limit buffer samples raw Eraw).
    rewrite Hlen.
    destruct (samples <=? 0) eqn:Es; [apply Z.leb_le in Es; lia|].
    destruct (numberOfChannels buffer <=? 0) eqn:En; [apply Z.leb_le in En; lia|].
    cbn [orb]. exact Hbig. }
  split; [exact Hreturns|]. split; [exact Hmissing|]. split; [exact Hbeyond|].
  split.
  - intros (env & Eenv).
    assert (Hread : readable buffer).
    { intros c Hc. destruct (getChannelData buffer c) as [chan|] eqn:Ec; [eauto|].
      rewrite (Hmissing c Hc Ec) in Eenv. discriminate Eenv. }
    split; [exact Hread|].
    destruct (Z_le_gt_dec (numberOfChannels buffer) 0) as [Hn | Hn]; [left; exact Hn|].
    destruct (Z_le_gt_dec samples max_arguments) as [Hs | Hs]; [right; exact Hs|].
    rewrite (Hbeyond Hread) in Eenv by lia. discriminate Eenv.
  - intros [Hread Hfit]. destruct (Hreturns Hread Hfit) as (env & Eenv & _). eauto.
Qed.

End PeakExtractorClaims.

Lemma peak_extractor_postconditions_witness :
  exists raw env,
    raw_peaks Examples.stereo_buffer 2 = Returns raw /\
    generateWaveform_peaks (E := Examples.binary64) Examples.stereo_buffer 2
    = Returns env /\
    len env = 2 /\
    Forall (fun y => (0 <= y <= 1)%Q) env /\
    (Forall (Forall (fun v => (v == 0)%Q)) (channels Examples.stereo_buffer) ->
     Forall (fun y => y = 0%Q) env) /\
    (~ Forall (fun p => (p == 0)%Q) raw -> Exists (fun y => (y == 1)%Q) env).
Proof.
  apply (peak_extractor_postconditions (E := Examples.binary64) Examples.stereo_buffer 2).
  - repeat split; try (vm_compute; congruence). repeat constructor.
  - lia.
  - vm_compute. discriminate.
Defined.

Lemma extractPeaks_zero_samples_or_missing_channel_witness :
  (exists env,
     extractPeaks (E := Examples.binary64) Examples.stereo_buffer 0 = Returns env /\
     (0 <= 0 -> env = [])) /\
  extractPeaks (E := Examples.binary64) Examples.short_buffer 2 = Throws.
Proof.
  split.
  - apply (extractPeaks_zero_samples_or_missing_channel (E := Examples.binary64)
             Examples.stereo_buffer 0).
    + vm_compute. discriminate.
    + vm_compute. split; [discriminate | reflexivity].
    + apply readable_of_length. reflexivity.
    + right. vm_compute. discriminate.
  - apply (extractPeaks_zero_samples_or_missing_channel (E := Examples.binary64)
             Examples.short_buffer 2) with (c := 1).
    + vm_compute. discriminate.
    + vm_compute. split; [discriminate | reflexivity].
    + vm_compute. split; [discriminate | reflexivity].
    + reflexivity.
Defined.

(** ** The tempo detector *)

Section TempoGroups.

Lemma keys_above_weaken (lo lo' : Z) (g : tempoGroups_t) :
  lo' <= lo -> keys_above lo g -> keys_above lo' g.
Proof. destruct g as [|[k n] r]; simpl; [tauto|]. intros H [H1 H2]. split; [lia | exact H2]. Qed.

Lemma keys_above_In (lo : Z) (g : tempoGroups_t) (k n : Z) :
  keys_above lo g -> In (k, n) g -> lo < k.
Proof.
  revert lo. induction g as [|[k' n'] r IH]; intros lo Hs Hin; [destruct Hin|].
  destruct Hs as [H1 H2]. destruct Hin as [E | Hin].
  - injection E as <- <-. exact H1.
  - specialize (IH k' H2 Hin). lia.
Qed.

Lemma keys_above_split (lo : Z) (pre post : tempoGroups_t) (w c k n : Z) :
  keys_above lo (pre ++ (w, c) :: post) -> In (k, n) post -> w < k.
Proof.
  revert lo. induction pre as [|[k' n'] pre IH]; intros lo Hs Hin.
  - destruct Hs as [_ Hs]. eapply keys_above_In; eassumption.
  - destruct Hs as [_ Hs]. eapply IH; eassumption.
Qed.

Lemma group_put_keys_above (lo : Z) (g : tempoGroups_t) (b c : Z) :
  lo < b -> keys_above lo g -> keys_above lo (group_put g b c).
Proof.
  revert lo. induction g as [|[k n] r IH]; intros lo Hb Hs.
  - simpl. auto.
  - destruct Hs as [H1 H2]. cbn [group_put].
    destruct (b <? k) eqn:E1.
    + apply Z.ltb_lt in E1. simpl. auto.
    + destruct (b =? k) eqn:E2.
      * simpl. auto.
      * apply Z.ltb_ge in E1. apply Z.eqb_neq in E2. simpl. split; [exact H1|].
        apply IH; [lia | exact H2].
Qed.

Lemma group_get_put (g : tempoGroups_t) (b c k : Z) :
  group_get (group_put g b c) k = if b =? k then Some c else group_get g k.
Proof.
  induction g as [|[k' n'] r IH].
  - simpl. reflexivity.
  - cbn [group_put]. destruct (b <? k') eqn:E1.
    + cbn [group_get]. reflexivity.
    + destruct (b =? k') eqn:E2.
      * apply Z.eqb_eq in E2. subst k'. cbn [group_get].
        destruct (b =? k); reflexivity.
      * apply Z.eqb_neq in E2. cbn [group_get]. rewrite IH.
        destruct (k' =? k) eqn:E3; [|reflexivity].
        apply Z.eqb_eq in E3. subst k'.
        destruct (b =? k) eqn:E4; [apply Z.eqb_eq in E4; lia | reflexivity].
Qed.

Lemma group_put_In (g : tempoGroups_t) (b c k n : Z) :
  In (k, n) (group_put g b c) -> (k, n) = (b, c) \/ In (k, n) g.
Proof.
  induction g as [|[k' n'] r IH]; cbn [group_put].
  - intros [E | []]. left. symmetry. exact E.
  - destruct (b <? k').
    + intros [E | H]; [left; symmetry; exact E | right; exact H].
    + destruct (b =? k') eqn:E2.
      * apply Z.eqb_eq in E2. subst k'.
        intros [E | H]; [left; symmetry; exact E | right; right; exact H].
      * intros [E | H]; [right; left; exact E|].
        destruct (IH H) as [E' | H']; [left; exact E' | right; right; exact H'].
Qed.

Lemma group_get_In (g : tempoGroups_t) (k n : Z) :
  group_get g k = Some n -> In (k, n) g.
Proof.
  induction g as [|[k' n'] r IH]; cbn [group_get]; [discriminate|].
  destruct (k' =? k) eqn:E.
  - apply Z.eqb_eq in E. subst k'. intros H. injection H as <-. left. reflexivity.
  - intros H. right. apply IH, H.
Qed.

Lemma In_group_get (lo : Z) (g : tempoGroups_t) (k n : Z) :
  keys_above lo g -> In (k, n) g -> group_get g k = Some n.
Proof.
  revert lo. induction g as [|[k' n'] r IH]; intros lo Hs Hin; [destruct Hin|].
  destruct Hs as [H1 H2]. cbn [group_get]. destruct Hin as [E | Hin].
  - injection E as -> ->. rewrite Z.eqb_refl. reflexivity.
  - pose proof (keys_above_In k' r k n H2 Hin) as Hlt.
    destruct (k' =? k) eqn:E; [apply Z.eqb_eq in E; lia|].
    eapply IH; eassumption.
Qed.

Lemma tally_gcount (ballot : list Z) :
  forall g k, gcount (tally g ballot) k = gcount g k + count_votes k ballot.
Proof.
  induction ballot as [|b r IH]; intros g k.
  - simpl. lia.
  - cbn [tally fold_left count_votes]. fold (tally (put1 g b) r). rewrite IH.
    unfold put1 at 1. unfold gcount at 1. rewrite group_get_put.
    destruct (b =? k) eqn:E.
    + apply Z.eqb_eq in E. subst b. lia.
    + fold (gcount g k). lia.
Qed.

Lemma tally_keys_above (lo : Z) (ballot : list Z) :
  Forall (fun b => lo < b) ballot ->
  forall g, keys_above lo g -> keys_above lo (tally g ballot).
Proof.
  induction 1 as [|b r Hb Hr IH]; intros g Hs; [exact Hs|].
  cbn [tally fold_left]. apply IH. apply group_put_keys_above; assumption.
Qed.

Lemma tally_In (ballot : list Z) :
  forall g k n, In (k, n) (tally g ballot) -> In (k, n) g \/ In k ballot.
Proof.
  induction ballot as [|b r IH]; intros g k n H; [left; exact H|].
  cbn [tally fold_left] in H. destruct (IH _ _ _ H) as [H' | H'].
  - apply group_put_In in H'. destruct H' as [E | H'].
    + injection E as -> _. right. left. reflexivity.
    + left. exact H'.
  - right. right. exact H'.
Qed.

Lemma count_votes_nonneg (k : Z) (l : list Z) : 0 <= count_votes k l.
Proof. induction l as [|b r IH]; simpl; [lia|]. destruct (b =? k); lia. Qed.

Lemma count_votes_In (k : Z) (l : list Z) : In k l <-> 0 < count_votes k l.
Proof.
  induction l as [|b r IH]; simpl; [split; [tauto | lia]|].
  pose proof (count_votes_nonneg k r). destruct (b =? k) eqn:E.
  - apply Z.eqb_eq in E. split; [lia | auto].
  - apply Z.eqb_neq in E. split.
    + intros [H' | H']; [congruence|]. apply IH in H'. lia.
    + intros H'. right. apply IH. lia.
Qed.

(** The entries of the groups of a ballot are its buckets with their
    numbers of votes. *)
Lemma tally_entries (ballot : list Z) (k n : Z) :
  Forall (fun b => 60 < b) ballot ->
  In (k, n) (tally [] ballot) <-> In k ballot /\ n = count_votes k ballot.
Proof.
  intros Hb.
  assert (Hs : keys_above 60 (tally [] ballot)) by (apply tally_keys_above; simpl; auto).
  pose proof (tally_gcount ballot [] k) as Hc.
  change (gcount [] k) with 0 in Hc. rewrite Z.add_0_l in Hc.
  split.
  - intros Hin. destruct (tally_In _ _ _ _ Hin) as [[] | Hk].
    split; [exact Hk|]. rewrite <- Hc. unfold gcount.
    rewrite (In_group_get 60 _ _ _ Hs Hin). reflexivity.
  - intros [Hk ->]. apply group_get_In. apply count_votes_In in Hk.
    unfold gcount in Hc. destruct (group_get (tally [] ballot) k) as [n|]; [|lia].
    rewrite Hc. reflexivity.
Qed.

End TempoGroups.

Section TempoEstimate.

Context `{Eng : Engine}.

(** The scan for the largest count stops on the first entry that reaches
    the maximum. *)
Lemma most_common_scan (g : tempoGroups_t) :
  forall (maxCount detectedBPM : Z),
    let r :=
      fold_left
        (fun (st : Z * Z) (entry : Z * Z) =>
           let '(maxCount, detectedBPM) := st in
           let '(tempo, count) := entry in
           if maxCount <? count then (count, tempo) else st)
        g (maxCount, detectedBPM) in
    (r = (maxCount, detectedBPM) /\ forall k n, In (k, n) g -> n <= maxCount) \/
    (exists pre post,
        g = pre ++ (snd r, fst r) :: post /\
        maxCount < fst r /\
        (forall k n, In (k, n) pre -> n < fst r) /\
        (forall k n, In (k, n) post -> n <= fst r)).
Proof.
  induction g as [|[k0 n0] g IH]; intros mc d; cbn zeta.
  - left. split; [reflexivity | intros k n []].
  - cbn [fold_left]. destruct (mc <? n0) eqn:E.
    + apply Z.ltb_lt in E. specialize (IH n0 k0). cbn zeta in IH.
      destruct IH as [[-> Hall] | (pre & post & Hg & Hlt & Hpre & Hpost)].
      * right. exists [], g. simpl. repeat split; [exact E | intros k n [] | exact Hall].
      * right. exists ((k0, n0) :: pre), post. rewrite Hg at 1. simpl.
        repeat split; [lia | | exact Hpost].
        intros k n [H | H]; [injection H as <- <-; exact Hlt | eapply Hpre, H].
    + apply Z.ltb_ge in E. specialize (IH mc d). cbn zeta in IH.
      destruct IH as [[-> Hall] | (pre & post & Hg & Hlt & Hpre & Hpost)].
      * left. split; [reflexivity|].
        intros k n [H | H]; [injection H as <- <-; exact E | eapply Hall, H].
      * right. exists ((k0, n0) :: pre), post. rewrite Hg at 1. simpl.
        repeat split; [exact Hlt | | exact Hpost].
        intros k n [H | H]; [injection H as <- <-; lia | eapply Hpre, H].
Qed.

(** The groups that [detectBPM] builds are the tally of the ballot. *)
Lemma add_interval_tally (intervals : list number) :
  forall g,
    fold_left add_interval intervals g
    = tally g (List.filter (fun bucket => (60 <? bucket) && (bucket <? 200))
                 (buckets_of intervals)).
Proof.
  induction intervals as [|x r IH]; intros g; [reflexivity|].
  cbn [fold_left]. rewrite IH. unfold buckets_of. cbn [flat_map].
  unfold add_interval at 1. destruct (bucket_of x) as [b|]; [|reflexivity].
  cbn [app List.filter]. destruct ((60 <? b) && (b <? 200)); reflexivity.
Qed.

Lemma votes_in_range (onsets : list Z) (sampleRate : Q) :
  Forall (fun b => 60 < b) (votes onsets sampleRate).
Proof.
  apply Forall_forall. intros b Hb. unfold votes in Hb.
  apply list_elem_of_In, filter_In in Hb. destruct Hb as [_ Hb].
  apply andb_true_iff in Hb. destruct Hb as [Hb _]. apply Z.ltb_lt, Hb.
Qed.

Lemma has_votes_count (ballot : list Z) (k : Z) :
  has_votes (tally [] ballot) k = (0 <? count_votes k ballot).
Proof.
  pose proof (tally_gcount ballot [] k) as Hc.
  change (gcount [] k) with 0 in Hc. rewrite Z.add_0_l in Hc.
  pose proof (count_votes_nonneg k ballot) as Hn.
  unfold has_votes. unfold gcount in Hc.
  destruct (group_get (tally [] ballot) k) as [n|].
  - rewrite Hc. destruct (count_votes k ballot =? 0) eqn:E.
    + apply Z.eqb_eq in E. rewrite E. reflexivity.
    + apply Z.eqb_neq in E. symmetry. apply Z.ltb_lt. lia.
  - rewrite <- Hc. reflexivity.
Qed.

Lemma octave_correct_corrected (ballot : list Z) (w : Z) :
  octave_correct (tally [] ballot) w = corrected ballot w.
Proof. unfold octave_correct, corrected. rewrite !has_votes_count. reflexivity. Qed.

Lemma most_common_winner (ballot : list Z) :
  Forall (fun b => 60 < b) ballot ->
  is_winner ballot (snd (most_common (tally [] ballot))).
Proof.
  intros Hb. destruct ballot as [|b0 r] eqn:Eb; [reflexivity|]. rewrite <- Eb in *.
  assert (Hb0 : In b0 ballot) by (rewrite Eb; left; reflexivity).
  assert (Hs : keys_above 60 (tally [] ballot)) by (apply tally_keys_above; simpl; auto).
  unfold most_common.
  destruct (most_common_scan (tally [] ballot) 0 120)
    as [[_ Hall] | (pre & post & Hg & Hlt & Hpre & Hpost)].
  - exfalso. pose proof (proj2 (tally_entries ballot b0 _ Hb) (conj Hb0 eq_refl)) as Hin.
    apply Hall in Hin. apply count_votes_In in Hb0. lia.
  - set (res := fold_left _ _ _) in *.
    assert (Hw : In (snd res, fst res) (tally [] ballot)).
    { rewrite Hg. apply in_or_app. right. left. reflexivity. }
    apply (tally_entries ballot _ _ Hb) in Hw. destruct Hw as [Hw Hc].
    unfold is_winner. rewrite Eb. rewrite <- Eb. split; [exact Hw|].
    intros b Hin. rewrite <- Hc.
    pose proof (proj2 (tally_entries ballot b _ Hb) (conj Hin eq_refl)) as Hbin.
    rewrite Hg in Hbin. apply in_app_or in Hbin. destruct Hbin as [H | [H | H]].
    + apply Hpre in H. lia.
    + injection H as H1 H2. lia.
    + pose proof (Hpost _ _ H). rewrite Hg in Hs.
      pose proof (keys_above_split _ _ _ _ _ _ _ Hs H). lia.
Qed.

Lemma intervals_of_In (onsets : list Z) (sampleRate : Q) (x : number) :
  In x (intervals_of onsets sampleRate) <->
  exists i, 1 <= i < len onsets /\
    x = number_div (inject_Z (get_int onsets i - get_int onsets (i - 1))) sampleRate.
Proof.
  unfold intervals_of. rewrite for_loop_push. cbn [app]. rewrite in_map_iff. split.
  - intros (i & <- & Hi). apply list_elem_of_In, elem_of_seqZ in Hi.
    exists i. split; [lia | reflexivity].
  - intros (i & Hi & ->). exists i. split; [reflexivity|].
    apply list_elem_of_In, elem_of_seqZ. lia.
Qed.

(** What the ballot holds. *)
Lemma votes_In (onsets : list Z) (sampleRate : Q) (b : Z) :
  In b (votes onsets sampleRate) <->
  60 < b < 200 /\
  exists i tempo,
    1 <= i < len onsets /\
    tempo_of (number_div (inject_Z (get_int onsets i - get_int onsets (i - 1)))
                sampleRate) = Finite tempo /\
    b = round (tempo /! 3) * 3.
Proof.
  unfold votes, buckets_of. rewrite filter_In, in_flat_map, andb_true_iff.
  rewrite Z.ltb_lt, Z.ltb_lt. split.
  - intros [(x & Hx & Hb) Hr]. split; [lia|].
    apply intervals_of_In in Hx. destruct Hx as (i & Hi & ->).
    exists i. unfold bucket_of in Hb.
    destruct (tempo_of _) as [tempo| |] eqn:Et; try contradiction.
    destruct Hb as [<- | []]. exists tempo. split; [exact Hi|]. split; reflexivity.
  - intros [Hr (i & tempo & Hi & Et & ->)]. split; [|lia].
    exists (number_div (inject_Z (get_int onsets i - get_int onsets (i - 1))) sampleRate).
    split; [apply intervals_of_In; eauto|].
    unfold bucket_of. rewrite Et. left. reflexivity.
Qed.

(** With two or more onsets the estimate is the corrected winner of the
    ballot, less one. *)
Lemma tempo_of_onsets_winner (onsets : list Z) (sampleRate : Q) :
  let ballot := votes onsets sampleRate in
  exists winner,
    is_winner ballot winner /\
    tempo_of_onsets onsets sampleRate = corrected ballot winner - 1.
Proof.
  intros ballot. unfold tempo_of_onsets. rewrite add_interval_tally.
  fold (votes onsets sampleRate). fold ballot.
  exists (snd (most_common (tally [] ballot))). split.
  - apply most_common_winner, votes_in_range.
  - rewrite octave_correct_corrected. reflexivity.
Qed.

End TempoEstimate.

Section Onsets.

Lemma skipn_nth_error {A : Type} (l : list A) :
  forall (n : nat) (v : A), nth_error l n = Some v -> skipn n l = v :: skipn (S n) l.
Proof.
  induction l as [|x l IH]; intros [|n] v H; simpl in H; try discriminate.
  - injection H as ->. reflexivity.
  - cbn [skipn]. rewrite (IH n v H). reflexivity.
Qed.

Lemma energy_loop_slice (channelData : list Q) :
  forall (n : nat) (i : Z) (e : Q),
    0 <= i -> i + Z.of_nat n <= len channelData ->
    for_loop n i
      (fun j energy => (energy + get_num channelData j * get_num channelData j)%Q) e
    = fold_left (fun energy v => (energy + v * v)%Q)
        (firstn n (skipn (Z.to_nat i) channelData)) e.
Proof.
  induction n as [|n IH]; intros i e Hi Hn; [reflexivity|].
  cbn [for_loop]. rewrite IH by lia.
  destruct (get_in_range channelData i) as [v Hv]; [lia|].
  unfold get_num at 1 2. rewrite Hv.
  unfold get in Hv. destruct (i <? 0) eqn:E; [discriminate|].
  rewrite (skipn_nth_error _ _ _ Hv). cbn [firstn fold_left].
  replace (Z.to_nat (i + 1)) with (S (Z.to_nat i)) by lia. reflexivity.
Qed.

Lemma window_energy_slice (channelData : list Q) (i : Z) :
  0 <= i -> i + 2048 <= len channelData ->
  window_energy channelData i = slice_energy channelData i.
Proof.
  intros Hi Hn. unfold window_energy, slice_energy.
  rewrite energy_loop_slice by (change (Z.of_nat 2048) with 2048; lia). reflexivity.
Qed.

Lemma onset_loop_sliced_eq (channelData : list Q) (sampleRate : Q) :
  forall (fuel : nat) (i : Z) (st : list Z * Q),
    0 <= i ->
    onset_loop fuel channelData sampleRate i st
    = onset_loop_sliced fuel channelData sampleRate i st.
Proof.
  induction fuel as [|fuel IH]; intros i st Hi; [reflexivity|].
  cbn [onset_loop onset_loop_sliced].
  destruct (i <? len channelData - 2048) eqn:E; [|reflexivity].
  apply Z.ltb_lt in E. unfold onset_step.
  rewrite window_energy_slice by lia. apply IH. lia.
Qed.

Lemma detectOnsets_sliced_eq (channelData : list Q) (sampleRate : Q) :
  detectOnsets channelData sampleRate = detectOnsets_sliced channelData sampleRate.
Proof.
  unfold detectOnsets, detectOnsets_sliced. rewrite onset_loop_sliced_eq by lia.
  reflexivity.
Qed.

End Onsets.

Section TempoClaims.

Import Examples.

Context `{E : Engine}.

(** C3 as stated fails: a channel too short for a single analysis
    window has no onset, and the early return gives 120, not 119. *)
Lemma detectBPM_no_onsets_is_120 :
  getChannelData click_buffer 0 = Some (0 :: (1 # 2) :: repeat 0 18)%Q /\
  detectOnsets (0 :: (1 # 2) :: repeat 0 18)%Q (sampleRate click_buffer) = [] /\
  detectBPM (E := binary64) click_buffer = Some 120 /\
  detectBPM (E := binary64) click_buffer <> Some 119.
Proof.
  split; [reflexivity|]. split; [vm_compute; reflexivity|].
  split; [vm_compute; reflexivity | vm_compute; discriminate].
Qed.

(** C3, amended.  Whenever onset detection on channel 0 finds fewer than
    2 onsets, [detectBPM] returns the default 120; the calibration offset
    is not applied on this path. *)
Theorem detectBPM_few_onsets (buffer : AudioBuffer) (channelData : list Q) :
  getChannelData buffer 0 = Some channelData ->
  len (detectOnsets channelData (sampleRate buffer)) < 2 ->
  detectBPM buffer = Some 120.
Proof.
  intros Hc Hlt. unfold detectBPM. rewrite Hc.
  destruct (len (detectOnsets channelData (sampleRate buffer)) <? 2) eqn:El;
    [reflexivity | apply Z.ltb_ge in El; lia].
Qed.

(** C7 as stated fails: a bucket votes only when it lies strictly between
    60 and 200.  Two onsets 0.256 s apart give the single tempo bucket
    234; the estimate worded in the specification is 233, while the code
    discards the bucket, keeps the default 120 and returns 119. *)
Lemma detectBPM_discards_fast_bucket :
  getChannelData two_click_buffer 0 = Some two_click_signal /\
  detectOnsets two_click_signal (sampleRate two_click_buffer) = [2048; 4096] /\
  buckets_of (E := binary64)
    (intervals_of (E := binary64) [2048; 4096] (sampleRate two_click_buffer)) = [234] /\
  spec_tempo_of_onsets (E := binary64) [2048; 4096] (sampleRate two_click_buffer) = 233 /\
  detectBPM (E := binary64) two_click_buffer = Some 119.
Proof.
  assert (H : detectOnsets two_click_signal (sampleRate two_click_buffer) = [2048; 4096]).
  { rewrite detectOnsets_sliced_eq. vm_compute. reflexivity. }
  split; [reflexivity|]. split; [exact H|].
  split; [vm_compute; reflexivity|]. split; [vm_compute; reflexivity|].
  unfold detectBPM. change (getChannelData two_click_buffer 0) with (Some two_click_signal).
  cbv iota beta. rewrite H. vm_compute. reflexivity.
Qed.

(** Equally frequent buckets: the scan runs over the keys in ascending
    order, so the smaller bucket wins even when the larger one was voted
    first.  Intervals of 0.512 s and 0.64 s give the buckets 117 and 93,
    one vote each, and the estimate is 93 - 1. *)
Lemma tempo_tie_keeps_smallest_bucket :
  buckets_of (E := binary64) (intervals_of (E := binary64) [2048; 6144; 11264] 8000)
  = [117; 93] /\
  tempo_of_onsets (E := binary64) [2048; 6144; 11264] 8000 = 92.
Proof. split; vm_compute; reflexivity. Qed.

(** The bucket is that of the rounded quotients: 5120 frames at 10112 Hz
    are a tempo of 118.5 exactly, whose third rounds up to the bucket
    120, but the doubles give 118.49999999999999 and the bucket 117. *)
Lemma tempo_bucket_follows_the_doubles :
  buckets_of (E := exact_engine) (intervals_of (E := exact_engine) [0; 5120] 10112) = [120] /\
  buckets_of (E := binary64) (intervals_of (E := binary64) [0; 5120] 10112) = [117] /\
  tempo_of_onsets (E := binary64) [0; 5120] 10112 = 116.
Proof. repeat split; vm_compute; reflexivity. Qed.

(** C7, amended.  With at least 2 onsets [detectBPM] returns the corrected
    winner less 1.  Each interval between consecutive onsets is divided
    by the sample rate, 60 is divided by it, and the tempo is rounded to
    the nearest multiple of 3 ([Math.round(tempo / 3) * 3]), every
    quotient being the double that the engine computes; the ballot holds
    the buckets that lie strictly between 60 and 200.  The winner is 120
    for an empty ballot and otherwise the most frequent bucket (the
    smallest one among equals), and the correction doubles a winner below
    70 whose double has votes, else halves (rounded) a winner above 160
    whose half has votes. *)
Theorem detectBPM_tempo (buffer : AudioBuffer) (channelData : list Q) :
  getChannelData buffer 0 = Some channelData ->
  2 <= len (detectOnsets channelData (sampleRate buffer)) ->
  let onsets := detectOnsets channelData (sampleRate buffer) in
  let ballot := votes onsets (sampleRate buffer) in
  (forall b, In b ballot <->
     60 < b < 200 /\
     exists i tempo,
       1 <= i < len onsets /\
       tempo_of (number_div (inject_Z (get_int onsets i - get_int onsets (i - 1)))
                   (sampleRate buffer)) = Finite tempo /\
       b = round (tempo /! 3) * 3) /\
  exists winner,
    is_winner ballot winner /\
    detectBPM buffer = Some (corrected ballot winner - 1).
Proof.
  intros Hc Hge onsets ballot. split.
  - intros b. unfold ballot. apply votes_In.
  - unfold detectBPM. rewrite Hc. fold onsets.
    destruct (len onsets <? 2) eqn:El; [apply Z.ltb_lt in El; unfold onsets in El; lia|].
    destruct (tempo_of_onsets_winner onsets (sampleRate buffer)) as (winner & Hw & Ht).
    exists winner. split; [exact Hw|]. rewrite Ht. reflexivity.
Qed.

End TempoClaims.

Lemma detectBPM_few_onsets_witness :
  detectBPM (E := Examples.binary64) Examples.click_buffer = Some 120.
Proof.
  apply (detectBPM_few_onsets (E := Examples.binary64)
           Examples.click_buffer (0 :: (1 # 2) :: repeat 0 18)%Q).
  - reflexivity.
  - vm_compute. reflexivity.
Defined.

(** On the three clicks at 4300 Hz the onsets are 2048, 4096 and 8192;
    the ballot holds 126 and 63 with one vote each, the smaller bucket
    wins, is doubled because 126 has a vote, and the estimate is 125. *)
Lemma detectBPM_tempo_witness :
  votes (E := Examples.binary64)
    (detectOnsets Examples.three_click_signal 4300) 4300 = [126; 63] /\
  exists winner,
    is_winner [126; 63] winner /\
    detectBPM (E := Examples.binary64) Examples.three_click_buffer
    = Some (corrected [126; 63] winner - 1) /\
    winner = 63 /\ corrected [126; 63] winner - 1 = 125.
Proof.
  assert (Hon : detectOnsets Examples.three_click_signal 4300 = [2048; 4096; 8192]).
  { rewrite detectOnsets_sliced_eq. vm_compute. reflexivity. }
  assert (Hvotes : votes (E := Examples.binary64)
                     (detectOnsets Examples.three_click_signal 4300) 4300 = [126; 63]).
  { rewrite Hon. vm_compute. reflexivity. }
  split; [exact Hvotes|].
  destruct (detectBPM_tempo (E := Examples.binary64)
              Examples.three_click_buffer Examples.three_click_signal)
    as (_ & winner & Hw & Hd).
  - reflexivity.
  - change (sampleRate Examples.three_click_buffer) with (4300 : Q).
    rewrite Hon. vm_compute. discriminate.
  - change (sampleRate Examples.three_click_buffer) with (4300 : Q) in Hw, Hd.
    rewrite Hvotes in Hw, Hd.
    exists winner. split; [exact Hw|]. split; [exact Hd|].
    assert (Ew : winner = 63).
    { destruct Hw as [Hin Hbest].
      destruct (Hbest 63) as [_ Hle]; [right; left; reflexivity|].
      destruct Hin as [<- | [<- | []]]; [|reflexivity].
      specialize (Hle eq_refl). lia. }
    split; [exact Ew|]. rewrite Ew. reflexivity.
Defined.


(** ** The renderer *)

Section RendererClaims.

Import Examples.

Context `{Eng : Engine}.

Variable devicePixelRatio : Q.
Variable sin : Q -> Q.

Lemma resample_columns_finite (peaks : list Q) (canvas_width per : Q) :
  ~ (per == 0)%Q ->
  resample_columns peaks canvas_width per
  = Returns (resampleData peaks (Qfloor (canvas_width /! per))).
Proof.
  intros H. unfold resample_columns. destruct (eqb per 0) eqn:Ep; [|reflexivity].
  apply Qeq_bool_iff in Ep. contradiction.
Qed.

Lemma Qred_inject_Z (n : Z) : Qred (inject_Z n) = inject_Z n.
Proof.
  unfold Qred, inject_Z. pose proof (Z.ggcd_gcd n 1) as Hg.
  pose proof (Z.ggcd_correct_divisors n 1) as Hd.
  destruct (Z.ggcd n 1) as [g [r1 r2]]. cbn [fst snd] in *.
  rewrite Z.gcd_1_r in Hg. subst g. destruct Hd as [H1 H2].
  rewrite Z.mul_1_l in H1, H2. subst. reflexivity.
Qed.

Lemma curve_points_length (canvas : Canvas) (peaks : list Q) :
  (rnd (inject_Z (len peaks)) == inject_Z (len peaks))%Q ->
  List.length (curve_points sin canvas peaks 1) = List.length peaks.
Proof.
  intros Hr. unfold curve_points. rewrite for_loop_push_length.
  assert (El : Qfloor (inject_Z (len peaks) *! 1) = len peaks).
  { rewrite <- (Qfloor_Z (len peaks)) at 2. apply Qfloor_comp. unfold fmul.
    rewrite (Qred_complete (inject_Z (len peaks) * 1) (inject_Z (len peaks))) by ring.
    rewrite Qred_inject_Z. exact Hr. }
  rewrite El. unfold len. apply Nat2Z.id.
Qed.

Lemma get_cons {A : Type} (x : A) (r : list A) (k : Z) :
  0 <= k -> get (x :: r) k = if k =? 0 then Some x else get r (k - 1).
Proof.
  intros Hk. unfold get. destruct (k <? 0) eqn:E1; [apply Z.ltb_lt in E1; lia|].
  destruct (k =? 0) eqn:E2.
  - apply Z.eqb_eq in E2. subst k. reflexivity.
  - apply Z.eqb_neq in E2. destruct (k - 1 <? 0) eqn:E3; [apply Z.ltb_lt in E3; lia|].
    replace (Z.to_nat k) with (S (Z.to_nat (k - 1))) by lia. reflexivity.
Qed.

Lemma get_Some_nonneg {A : Type} (data : list A) (k : Z) (v : A) :
  get data k = Some v -> 0 <= k.
Proof.
  unfold get. destruct (k <? 0) eqn:E1; [discriminate|]. intros _.
  apply Z.ltb_ge in E1. exact E1.
Qed.

(** What a pass over the columns draws: the paint of every column that
    it reaches. *)
Lemma column_pass_In_from (position : Z -> Q) (stop : Q -> bool)
  (paint : Q -> Q -> list canvas_op) (op : canvas_op) :
  forall (resampledPeaks : list Q) (i : Z),
    In op (column_pass position stop paint resampledPeaks i) <->
    exists k peak,
      get resampledPeaks k = Some peak /\
      (forall j, 0 <= j <= k -> stop (position (i + j)) = false) /\
      In op (paint (position (i + k)) peak).
Proof.
  induction resampledPeaks as [|peak rest IH]; intros i.
  - cbn [column_pass]. split; [intros []|].
    intros (k & p & Hg & _). unfold get in Hg. destruct (k <? 0); [discriminate|].
    destruct (Z.to_nat k); discriminate.
  - cbn [column_pass]. split.
    + destruct (stop (position i)) eqn:Es; [intros []|]. intros H.
      apply in_app_or in H. destruct H as [H | H].
      * exists 0, peak. split; [reflexivity|]. split.
        -- intros j Hj. replace (i + j) with i by lia. exact Es.
        -- rewrite Z.add_0_r. exact H.
      * apply IH in H. destruct H as (k & p & Hg & Hs & Hp).
        pose proof (get_Some_nonneg _ _ _ Hg) as Hk.
        exists (k + 1), p. split.
        -- rewrite get_cons by lia. destruct (k + 1 =? 0) eqn:E0;
             [apply Z.eqb_eq in E0; lia|].
           replace (k + 1 - 1) with k by lia. exact Hg.
        -- split.
           ++ intros j Hj. destruct (Z.eq_dec j 0) as [-> | Hne].
              ** rewrite Z.add_0_r. exact Es.
              ** replace (i + j) with (i + 1 + (j - 1)) by lia. apply Hs. lia.
           ++ replace (i + (k + 1)) with (i + 1 + k) by lia. exact Hp.
    + intros (k & p & Hg & Hs & Hp).
      pose proof (get_Some_nonneg _ _ _ Hg) as Hk.
      assert (Es : stop (position i) = false).
      { specialize (Hs 0). rewrite Z.add_0_r in Hs. apply Hs. lia. }
      rewrite Es. apply in_or_app. rewrite get_cons in Hg by lia.
      destruct (k =? 0) eqn:E0.
      * apply Z.eqb_eq in E0. subst k. injection Hg as ->. left.
        rewrite Z.add_0_r in Hp. exact Hp.
      * apply Z.eqb_neq in E0. right. apply IH. exists (k - 1), p.
        split; [exact Hg|]. split.
        -- intros j Hj. replace (i + 1 + j) with (i + (j + 1)) by lia. apply Hs. lia.
        -- replace (i + 1 + (k - 1)) with (i + k) by lia. exact Hp.
Qed.

Lemma column_pass_In_iff (position : Z -> Q) (stop : Q -> bool)
  (paint : Q -> Q -> list canvas_op) (op : canvas_op) (resampledPeaks : list Q) :
  In op (column_pass position stop paint resampledPeaks 0) <->
  exists k peak,
    get resampledPeaks k = Some peak /\ reached position stop k /\
    In op (paint (position k) peak).
Proof.
  rewrite column_pass_In_from. unfold reached. split; intros (k & p & Hg & Hs & Hp);
    exists k, p; (split; [exact Hg|]); split; try exact Hp; exact Hs.
Qed.

(** A pass whose paint always returns is the plain pass. *)
Lemma column_passM_returns (position : Z -> Q) (stop : Q -> bool)
  (paintM : Q -> Q -> outcome (list canvas_op)) (paint : Q -> Q -> list canvas_op) :
  (forall x peak, paintM x peak = Returns (paint x peak)) ->
  forall (resampledPeaks : list Q) (i : Z),
    column_passM position stop paintM resampledPeaks i
    = Returns (column_pass position stop paint resampledPeaks i).
Proof.
  intros Hp. induction resampledPeaks as [|peak rest IH]; intros i; [reflexivity|].
  cbn [column_passM column_pass]. destruct (stop (position i)); [reflexivity|].
  rewrite Hp, IH. reflexivity.
Qed.

Lemma for_loop_append_In {A : Type} (f : Z -> list A) (y : A) :
  forall (n : nat) (i : Z) (acc : list A),
    In y (for_loop n i (fun j ops => ops ++ f j) acc) <->
    In y acc \/ exists j, i <= j < i + Z.of_nat n /\ In y (f j).
Proof.
  induction n as [|n IH]; intros i acc.
  - cbn [for_loop]. split; [auto|]. intros [H | (j & Hj & _)]; [exact H | lia].
  - cbn [for_loop]. rewrite IH, in_app_iff. split.
    + intros [[H | H] | (j & Hj & H)].
      * left. exact H.
      * right. exists i. split; [lia | exact H].
      * right. exists j. split; [lia | exact H].
    + intros [H | (j & Hj & H)]; [left; left; exact H|].
      destruct (Z.eq_dec j i) as [-> | Hne]; [left; right; exact H|].
      right. exists j. split; [lia | exact H].
Qed.

(** The rectangles of the blocks of one column. *)
Lemma column_blocks_In (x centerY barWidth blockSize blockGap : Q) (blockCount : Z)
  (x' y' w' h' : Q) :
  In (FillRect x' y' w' h') (column_blocks x centerY barWidth blockSize blockGap blockCount)
  <->
  exists j, 0 <= j < blockCount /\
    x' = x /\ w' = barWidth /\ h' = blockSize /\
    (y' = centerY -! inject_Z j *! (blockSize +! blockGap) -! blockSize \/
     0 < j /\ y' = centerY +! inject_Z j *! (blockSize +! blockGap)).
Proof.
  unfold column_blocks.
  rewrite (for_loop_append_In
             (fun j =>
                [FillRect x (centerY -! inject_Z j *! (blockSize +! blockGap) -! blockSize)
                   barWidth blockSize]
                ++ (if 0 <? j
                    then [FillRect x (centerY +! inject_Z j *! (blockSize +! blockGap))
                            barWidth blockSize]
                    else []))).
  split.
  - intros [[] | (j & Hj & H)]. exists j. split; [lia|].
    cbn [app] in H. destruct H as [H | H].
    + injection H as <- <- <- <-. repeat split. left. reflexivity.
    + destruct (0 <? j) eqn:E0; [|destruct H]. apply Z.ltb_lt in E0.
      destruct H as [H | []]. injection H as <- <- <- <-. repeat split.
      right. split; [exact E0 | reflexivity].
  - intros (j & Hj & -> & -> & -> & Hy). right. exists j. split; [lia|].
    cbn [app]. destruct Hy as [-> | [H0 ->]]; [left; reflexivity|].
    right. apply Z.ltb_lt in H0. rewrite H0. left. reflexivity.
Qed.

(** The rectangles of the bars and of the mirrored bars. *)
Lemma paint_bars_In (canvas : Canvas) (progress : Q) (options : Options)
  (resampledPeaks : list Q) (x y w h : Q) :
  let bw := barWidth options *! dpr devicePixelRatio in
  let per := bw +! barSpacing options *! dpr devicePixelRatio in
  let position k := inject_Z k *! per in
  In (FillRect x y w h)
    (paint_bars devicePixelRatio canvas progress options resampledPeaks) <->
  exists k peak,
    get resampledPeaks k = Some peak /\
    (reached position (fun x => ltb (width canvas) (x +! bw)) k \/
     reached position (fun x => ltb (progress *! width canvas) x) k) /\
    x = position k /\ y = height canvas -! peak *! height canvas *! double_0_9 /\
    w = bw /\ h = peak *! height canvas *! double_0_9.
Proof.
  cbv zeta. unfold paint_bars.
  rewrite !in_app_iff, !column_pass_In_iff. split.
  - intros [Hin | [Hin | [Hin | [Hin | Hin]]]].
    + destruct Hin as [Hin | []]. discriminate Hin.
    + destruct Hin as (k & peak & Hg & Hr & [Hin | [Hin | []]]); [discriminate Hin|].
      injection Hin as <- <- <- <-. exists k, peak. split; [exact Hg|].
      split; [left; exact Hr|]. repeat split.
    + destruct Hin as [Hin | [Hin | [Hin | [Hin | []]]]]; discriminate Hin.
    + destruct Hin as (k & peak & Hg & Hr & [Hin | [Hin | []]]); [discriminate Hin|].
      injection Hin as <- <- <- <-. exists k, peak. split; [exact Hg|].
      split; [right; exact Hr|]. repeat split.
    + destruct Hin as [Hin | []]. discriminate Hin.
  - intros (k & peak & Hg & [Hr | Hr] & -> & -> & -> & ->).
    + right. left. exists k, peak. split; [exact Hg|]. split; [exact Hr|].
      right. left. reflexivity.
    + right. right. right. left. exists k, peak. split; [exact Hg|].
      split; [exact Hr|]. right. left. reflexivity.
Qed.

Lemma paint_mirror_In (canvas : Canvas) (progress : Q) (options : Options)
  (resampledPeaks : list Q) (x y w h : Q) :
  let bw := barWidth options *! dpr devicePixelRatio in
  let per := bw +! barSpacing options *! dpr devicePixelRatio in
  let position k := inject_Z k *! per in
  In (FillRect x y w h)
    (paint_mirror devicePixelRatio canvas progress options resampledPeaks) <->
  exists k peak,
    get resampledPeaks k = Some peak /\
    (reached position (fun x => ltb (width canvas) (x +! bw)) k \/
     reached position (fun x => ltb (progress *! width canvas) x) k) /\
    x = position k /\
    (y = height canvas /! 2 -! peak *! height canvas *! double_0_45 \/
     y = height canvas /! 2) /\
    w = bw /\ h = peak *! height canvas *! double_0_45.
Proof.
  cbv zeta. unfold paint_mirror.
  rewrite !in_app_iff, !column_pass_In_iff. split.
  - intros [Hin | [Hin | [Hin | [Hin | Hin]]]].
    + destruct Hin as [Hin | []]. discriminate Hin.
    + destruct Hin as (k & peak & Hg & Hr & [Hin | [Hin | [Hin | []]]]);
        [discriminate Hin | |];
        injection Hin as <- <- <- <-; exists k, peak; (split; [exact Hg|]);
        (split; [left; exact Hr|]); repeat split; auto.
    + destruct Hin as [Hin | [Hin | [Hin | [Hin | []]]]]; discriminate Hin.
    + destruct Hin as (k & peak & Hg & Hr & [Hin | [Hin | [Hin | []]]]);
        [discriminate Hin | |];
        injection Hin as <- <- <- <-; exists k, peak; (split; [exact Hg|]);
        (split; [right; exact Hr|]); repeat split; auto.
    + destruct Hin as [Hin | []]. discriminate Hin.
  - intros (k & peak & Hg & [Hr | Hr] & -> & Hy & -> & ->).
    + right. left. exists k, peak. split; [exact Hg|]. split; [exact Hr|].
      destruct Hy as [-> | ->]; [right; left; reflexivity | right; right; left; reflexivity].
    + right. right. right. left. exists k, peak. split; [exact Hg|].
      split; [exact Hr|].
      destruct Hy as [-> | ->]; [right; left; reflexivity | right; right; left; reflexivity].
Qed.

(** C4 as stated fails on the line style: on a surface that fits one
    column, envelopes of 4 and of 2 values resample to the same single
    column, yet the line style draws them differently (a curve through 4
    points against one through 2), whatever [Math.sin] returns. *)
Lemma drawLine_ignores_columns :
  spec_barCount 1 narrow_canvas (style_options "line") = 1 /\
  resampleData [1; 1; 1; 1]%Q 1 = resampleData [1; 1]%Q 1 /\
  forall sine : Q -> Q,
    draw (E := binary64) 1 sine narrow_canvas [1; 1; 1; 1]%Q 0 (style_options "line")
    <> draw (E := binary64) 1 sine narrow_canvas [1; 1]%Q 0 (style_options "line").
Proof.
  split; [vm_compute; reflexivity|]. split; [vm_compute; reflexivity|].
  intros sine H. apply (f_equal ops_count) in H. vm_compute in H. discriminate H.
Qed.

(** C4, amended.  Four styles (bars, mirror, blocks, dots) resample
    the envelope to the number of columns that fit the surface width for
    their own column pitch, and draw from the resampled envelope only.
    The pitch is [barWidth] and [barSpacing], each scaled by the device
    pixel ratio, then added, where blocks and dots first replace a zero
    [barWidth] or [barSpacing] by their defaults; the number of columns
    is the floor of the double quotient of the width and the pitch.
    Whatever the resampled envelope is, what is drawn from it is exactly
    one figure per column that the loop reaches: a rectangle of the
    column's height for bars, two for mirror, the blocks of the column
    for blocks, two dots for dots.  The line style does not resample:
    its curve has one point per envelope value.  The seekbar style does
    not read the envelope. *)
Theorem styles_and_resampling (canvas : Canvas) (progress : Q) (options : Options) :
  let dpr := Drawing.dpr devicePixelRatio in
  let W := width canvas in
  let H := height canvas in
  let columns per peaks := resampleData peaks (Qfloor (W /! per)) in
  let drawable per := ~ (per == 0)%Q /\ Qfloor (W /! per) < 2 ^ 32 in
  let right_edge bw := fun x => ltb W (x +! bw) in
  let played := fun x => ltb (progress *! W) x in
  (let bw := barWidth options *! dpr in
   let per := bw +! barSpacing options *! dpr in
   let position k := inject_Z k *! per in
   (forall peaks, drawable per ->
      drawBars devicePixelRatio canvas peaks progress options
      = Returns (paint_bars devicePixelRatio canvas progress options (columns per peaks))) /\
   (forall resampledPeaks x y w h,
      In (FillRect x y w h)
        (paint_bars devicePixelRatio canvas progress options resampledPeaks) <->
      exists k peak,
        get resampledPeaks k = Some peak /\
        (reached position (right_edge bw) k \/ reached position played k) /\
        x = position k /\ y = H -! peak *! H *! double_0_9 /\
        w = bw /\ h = peak *! H *! double_0_9) /\
   (forall peaks, drawable per ->
      drawMirror devicePixelRatio canvas peaks progress options
      = Returns (paint_mirror devicePixelRatio canvas progress options (columns per peaks))) /\
   (forall resampledPeaks x y w h,
      In (FillRect x y w h)
        (paint_mirror devicePixelRatio canvas progress options resampledPeaks) <->
      exists k peak,
        get resampledPeaks k = Some peak /\
        (reached position (right_edge bw) k \/ reached position played k) /\
        x = position k /\
        (y = H /! 2 -! peak *! H *! double_0_45 \/ y = H /! 2) /\
        w = bw /\ h = peak *! H *! double_0_45)) /\
  (let bw := num_or (barWidth options) 3 *! dpr in
   let per := bw +! num_or (barSpacing options) 1 *! dpr in
   let position k := inject_Z k *! per in
   let blockSize := 4 *! dpr in
   let blockPitch := blockSize +! 2 *! dpr in
   (forall peaks, drawable per ->
      drawBlocks devicePixelRatio canvas peaks progress options
      = paint_blocks devicePixelRatio canvas progress options (columns per peaks)) /\
   (forall resampledPeaks, ~ (blockPitch == 0)%Q ->
      exists ops,
        paint_blocks devicePixelRatio canvas progress options resampledPeaks = Returns ops /\
        forall x y w h, In (FillRect x y w h) ops <->
          exists k peak j,
            get resampledPeaks k = Some peak /\
            reached position (right_edge bw) k /\
            0 <= j < Qfloor (peak *! H *! double_0_9 /! blockPitch) /\
            x = position k /\ w = bw /\ h = blockSize /\
            (y = H /! 2 -! inject_Z j *! blockPitch -! blockSize \/
             0 < j /\ y = H /! 2 +! inject_Z j *! blockPitch))) /\
  (let bw := num_or (barWidth options) 2 *! dpr in
   let per := bw +! num_or (barSpacing options) 3 *! dpr in
   let position k := inject_Z k *! per +! bw /! 2 in
   (forall peaks, drawable per ->
      drawDots devicePixelRatio canvas peaks progress options
      = Returns (paint_dots devicePixelRatio canvas progress options (columns per peaks))) /\
   (forall resampledPeaks x y r a0 a1,
      In (Arc x y r a0 a1)
        (paint_dots devicePixelRatio canvas progress options resampledPeaks) <->
      exists k peak,
        get resampledPeaks k = Some peak /\
        reached position (fun x => ltb W x) k /\
        x = position k /\
        (y = H /! 2 -! peak *! H *! double_0_9 /! 2 \/
         y = H /! 2 +! peak *! H *! double_0_9 /! 2) /\
        r = Js.max ((3 # 2) *! dpr) (bw /! 2) /\
        a0 = PiTimes 0 /\ a1 = PiTimes 2)) /\
  (forall peaks,
     ((rnd (inject_Z (len peaks)) == inject_Z (len peaks))%Q ->
      List.length (curve_points sin canvas peaks 1) = List.length peaks) /\
     exists before after,
       drawLine sin canvas peaks progress options
       = Returns (before
                  ++ curve_segments (curve_points sin canvas peaks 1)
                  ++ after)) /\
  (forall peaks peaks',
     drawSeekbar canvas peaks progress options
     = drawSeekbar canvas peaks' progress options).
Proof.
  cbv zeta. split; [|split; [|split; [|split]]].
  - (* bars and mirror *)
    split; [|split; [|split]].
    + intros peaks [Hp _]. unfold drawBars.
      rewrite resample_columns_finite by exact Hp. reflexivity.
    + intros cols x y w h. apply paint_bars_In.
    + intros peaks [Hp _]. unfold drawMirror.
      rewrite resample_columns_finite by exact Hp. reflexivity.
    + intros cols x y w h. apply paint_mirror_In.
  - (* blocks *)
    split.
    + intros peaks [Hp _]. unfold drawBlocks.
      rewrite resample_columns_finite by exact Hp. reflexivity.
    + intros cols Hb. unfold paint_blocks.
      rewrite (column_passM_returns _ _ _
                 (fun x peak =>
                    FillStyle (if ltb x (progress *! width canvas)
                               then progressColor options else color options)
                    :: column_blocks x (height canvas /! 2)
                         (num_or (barWidth options) 3 *! dpr devicePixelRatio)
                         (4 *! dpr devicePixelRatio) (2 *! dpr devicePixelRatio)
                         (Qfloor (peak *! height canvas *! double_0_9
                                  /! (4 *! dpr devicePixelRatio
                                      +! 2 *! dpr devicePixelRatio))))).
      2:{ intros x peak. unfold block_count.
          destruct (eqb (4 *! dpr devicePixelRatio +! 2 *! dpr devicePixelRatio) 0) eqn:Eb;
            [|reflexivity].
          apply Qeq_bool_iff in Eb. contradiction. }
      cbn [bind]. eexists. split; [reflexivity|]. intros x y w h.
      rewrite in_app_iff, column_pass_In_iff. split.
      * intros [Hin | Hin]; [destruct Hin as [Hin | []]; discriminate Hin|].
        destruct Hin as (k & peak & Hg & Hr & [Hin | Hin]); [discriminate Hin|].
        apply column_blocks_In in Hin. destruct Hin as (j & Hj & -> & -> & -> & Hy).
        exists k, peak, j. repeat split; try assumption; try lia.
      * intros (k & peak & j & Hg & Hr & Hj & -> & -> & -> & Hy).
        right. exists k, peak. split; [exact Hg|]. split; [exact Hr|]. right.
        apply column_blocks_In. exists j. repeat split; try assumption; try lia.
  - (* dots *)
    split.
    + intros peaks [Hp _]. unfold drawDots.
      rewrite resample_columns_finite by exact Hp. reflexivity.
    + intros cols x y r a0 a1. unfold paint_dots.
      rewrite in_app_iff, column_pass_In_iff. split.
      * intros [Hin | Hin]; [destruct Hin as [Hin | []]; discriminate Hin|].
        destruct Hin as (k & peak & Hg & Hr & Hin).
        destruct Hin as [Hin | [Hin | [Hin | [Hin | [Hin | [Hin | [Hin | []]]]]]]];
          try discriminate Hin;
          injection Hin as <- <- <- <- <-; exists k, peak; repeat split; auto.
      * intros (k & peak & Hg & Hr & -> & Hy & -> & -> & ->).
        right. exists k, peak. split; [exact Hg|]. split; [exact Hr|].
        destruct Hy as [-> | ->].
        -- right. right. left. reflexivity.
        -- right. right. right. right. right. left. reflexivity.
  - intros peaks. split; [apply curve_points_length|].
    unfold drawLine, drawCurve. eexists. eexists.
    match goal with
    | |- Returns (?A ++ ?B ++ ([] ++ ?C ++ ?S ++ ?T ++ []) ++ ?D) = Returns (?x ++ _ ++ ?y) =>
        unify x (A ++ B ++ C); unify y (T ++ D)
    end.
    f_equal. rewrite app_nil_r. cbn [app]. rewrite <- !app_assoc. reflexivity.
  - intros peaks peaks'. reflexivity.
Qed.

End RendererClaims.


(** Ten columns of pitch 3.3000000000000003 on a surface 33 wide at the
    device pixel ratio 1.1; the first one is a bar of height 4.5. *)
Lemma styles_and_resampling_witness :
  exists ops,
    drawBars (E := Examples.binary64) Examples.double_1_1 Examples.wide_canvas
      [1 # 2; 1]%Q (1 # 2) (Examples.spaced_options "bars") = Returns ops /\
    In (FillRect 0 (11 # 2) (2476979795053773 # 1125899906842624) (9 # 2)) ops /\
    len (resampleData [1 # 2; 1]%Q
           (Qfloor (fdiv (E := Examples.binary64) 33
                      (fadd (E := Examples.binary64)
                         (fmul (E := Examples.binary64) 2 Examples.double_1_1)
                         (fmul (E := Examples.binary64) 1 Examples.double_1_1))))) = 10.
Proof.
  pose proof (styles_and_resampling (Eng := Examples.binary64) Examples.double_1_1
                (fun x => x) Examples.wide_canvas (1 # 2) (Examples.spaced_options "bars"))
    as HT.
  cbv zeta in HT. destruct HT as ((Hdraw & Hin & _) & _).
  eexists. split; [|split].
  - apply Hdraw. split; [vm_compute; discriminate | vm_compute; reflexivity].
  - apply Hin. exists 0, (1 # 2)%Q. split; [vm_compute; reflexivity|]. split.
    + left. intros j Hj. assert (j = 0) as -> by lia. vm_compute. reflexivity.
    + repeat split; vm_compute; reflexivity.
  - vm_compute. reflexivity.
Defined.

(** ** Pre-supplied waveform data *)

Section WaveformDataClaims.

Import WaveformData Examples.

(** A string on which [JSON.parse] throws is never normalized to the
    empty envelope: it yields one entry per comma-separated piece. *)
Lemma split_nonempty (sep : ascii) (data : string) : split sep data <> [].
Proof.
  induction data as [|c rest IH]; simpl; [discriminate|].
  destruct (split sep rest) as [|piece pieces]; [contradiction|].
  destruct (Ascii.eqb c sep); discriminate.
Qed.

Lemma setWaveformData_throwing_string
  (JSON_parse : string -> parse_result) (Number : string -> jsvalue) (s : string) :
  JSON_parse s = ParseThrows ->
  setWaveformData JSON_parse Number (DString s) <> [].
Proof.
  intros H. unfold setWaveformData. rewrite H.
  pose proof (split_nonempty "," s) as Hne.
  destruct (split "," s); [contradiction | discriminate].
Qed.

(** C8 as stated fails.  The string "abc" is neither a JSON array nor a
    list of numbers, and [setWaveformData] turns it into the one-entry
    envelope [NaN], which is drawn as it is.  The string "{}" does give
    the empty envelope, but nothing downstream replaces it: [load] leaves
    the envelope empty although a placeholder is at hand, and
    [drawWaveform] draws nothing. *)
Lemma setWaveformData_unparseable_strings :
  JSON_parse_table "abc" = ParseThrows /\
  ~ comma_separated_numbers Number_table "abc" /\
  setWaveformData JSON_parse_table Number_table (DString "abc") = [VNaN] /\
  drawWaveform_draws [VNaN] = true /\
  JSON_parse_table "{}" = ParsedOther /\
  load_waveformData JSON_parse_table Number_table Throws [VNum (1 # 2)] (DString "{}") = [] /\
  drawWaveform_draws [] = false.
Proof.
  split; [reflexivity|]. split.
  { intros H. apply Forall_cons in H. destruct H as [[q Hq] _]. discriminate Hq. }
  repeat split; reflexivity.
Qed.

(** C8, amended.  A pre-supplied waveform string that [JSON.parse] reads
    as something other than an array is normalized to the empty envelope;
    [load] then leaves the envelope empty, whatever placeholder could be
    generated, and the empty envelope is not drawn. *)
Theorem setWaveformData_non_array
  (JSON_parse : string -> parse_result) (Number : string -> jsvalue)
  (generated : outcome (list Q)) (placeholder : list jsvalue) (s : string) :
  JSON_parse s = ParsedOther ->
  setWaveformData JSON_parse Number (DString s) = [] /\
  (truthy (DString s) = true ->
   load_waveformData JSON_parse Number generated placeholder (DString s) = []) /\
  drawWaveform_draws [] = false.
Proof.
  intros H. assert (E : setWaveformData JSON_parse Number (DString s) = []).
  { unfold setWaveformData. rewrite H. reflexivity. }
  split; [exact E|]. split; [|reflexivity].
  intros Ht. unfold load_waveformData. rewrite Ht. exact E.
Qed.

Lemma setWaveformData_non_array_witness :
  setWaveformData JSON_parse_table Number_table (DString "{}") = [] /\
  (truthy (DString "{}") = true ->
   load_waveformData JSON_parse_table Number_table Throws [VNum (1 # 2)] (DString "{}") = []) /\
  drawWaveform_draws [] = false.
Proof.
  apply (setWaveformData_non_array JSON_parse_table Number_table Throws [VNum (1 # 2)] "{}").
  reflexivity.
Defined.

End WaveformDataClaims.

(** ** The single-play registry *)

Section PlayerFacts.

Import Player.

Local Open Scope nat_scope.

(** *** Dispatching events *)

Lemma flag_after_app (l l' : list (nat * media_event)) (a : nat) (f : bool) :
  flag_after (l ++ l') a f = flag_after l' a (flag_after l a f).
Proof.
  revert f. induction l as [|[b ev] l IH]; intros f; [reflexivity|].
  cbn [app flag_after]. apply IH.
Qed.

Lemma flag_after_absent (l : list (nat * media_event)) (a : nat) (f : bool) :
  (forall ev, ~ In (a, ev) l) -> flag_after l a f = f.
Proof.
  revert f. induction l as [|[b ev] l IH]; intros f H; [reflexivity|].
  cbn [flag_after]. case_bool_decide as E.
  - subst b. exfalso. apply (H ev). left. reflexivity.
  - apply IH. intros ev' Hin. apply (H ev'). right. exact Hin.
Qed.

(** *** What each step does to the readings of the state *)

Lemma paused_of_insert (w : world) (a x : nat) (p : player) (c : option nat)
  (q : list (nat * media_event)) :
  paused_of {| currentlyPlaying := c; players := <[a := p]> (players w); pending := q |} x
  = if bool_decide (x = a) then audio_paused p else paused_of w x.
Proof.
  unfold paused_of. cbn [players]. case_bool_decide as E.
  - subst x. rewrite lookup_insert_eq. reflexivity.
  - rewrite lookup_insert_ne by congruence. reflexivity.
Qed.

Lemma playing_of_insert (w : world) (a x : nat) (p : player) (c : option nat)
  (q : list (nat * media_event)) :
  playing_of {| currentlyPlaying := c; players := <[a := p]> (players w); pending := q |} x
  = if bool_decide (x = a) then isPlaying p else playing_of w x.
Proof.
  unfold playing_of. cbn [players]. case_bool_decide as E.
  - subst x. rewrite lookup_insert_eq. reflexivity.
  - rewrite lookup_insert_ne by congruence. reflexivity.
Qed.

Lemma audio_pause_cur (a : nat) (w : world) :
  currentlyPlaying (audio_pause a w) = currentlyPlaying w.
Proof.
  unfold audio_pause. destruct (players w !! a) as [p|]; [|reflexivity].
  destruct (audio_paused p); reflexivity.
Qed.

Lemma audio_pause_paused (a : nat) (w : world) (x : nat) :
  paused_of (audio_pause a w) x = if bool_decide (x = a) then true else paused_of w x.
Proof.
  unfold audio_pause. destruct (players w !! a) as [p|] eqn:E.
  - destruct (audio_paused p) eqn:Ep.
    + case_bool_decide as Ex; [|reflexivity]. subst x. unfold paused_of. rewrite E. exact Ep.
    + apply paused_of_insert.
  - case_bool_decide as Ex; [|reflexivity]. subst x. unfold paused_of. rewrite E. reflexivity.
Qed.

Lemma audio_pause_playing (a : nat) (w : world) (x : nat) :
  playing_of (audio_pause a w) x = playing_of w x.
Proof.
  unfold audio_pause. destruct (players w !! a) as [p|] eqn:E; [|reflexivity].
  destruct (audio_paused p); [reflexivity|]. rewrite playing_of_insert.
  case_bool_decide as Ex; [|reflexivity]. subst x. unfold playing_of. rewrite E. reflexivity.
Qed.

Lemma audio_pause_pending (a : nat) (w : world) :
  pending (audio_pause a w)
  = pending w ++ (if paused_of w a then [] else [(a, EvPause)]).
Proof.
  unfold audio_pause, paused_of. destruct (players w !! a) as [p|].
  - destruct (audio_paused p); [symmetry; apply app_nil_r | reflexivity].
  - symmetry. apply app_nil_r.
Qed.

Lemma audio_pause_lookup (a : nat) (w : world) (x : nat) :
  singlePlay <$> players (audio_pause a w) !! x = singlePlay <$> players w !! x.
Proof.
  unfold audio_pause. destruct (players w !! a) as [p|] eqn:E; [|reflexivity].
  destruct (audio_paused p); [reflexivity|]. cbn [players].
  destruct (decide (x = a)) as [-> | Hne].
  - rewrite lookup_insert_eq, E. reflexivity.
  - rewrite lookup_insert_ne by congruence. reflexivity.
Qed.

Lemma audio_play_cur (a : nat) (w : world) :
  currentlyPlaying (audio_play a w) = currentlyPlaying w.
Proof.
  unfold audio_play. destruct (players w !! a) as [p|]; [|reflexivity].
  destruct (audio_paused p); reflexivity.
Qed.

Lemma audio_play_paused (a : nat) (w : world) (x : nat) :
  is_Some (players w !! a) ->
  paused_of (audio_play a w) x = if bool_decide (x = a) then false else paused_of w x.
Proof.
  intros [p E]. unfold audio_play. rewrite E. destruct (audio_paused p) eqn:Ep.
  - apply paused_of_insert.
  - case_bool_decide as Ex; [|reflexivity]. subst x. unfold paused_of. rewrite E. exact Ep.
Qed.

Lemma audio_play_playing (a : nat) (w : world) (x : nat) :
  playing_of (audio_play a w) x = playing_of w x.
Proof.
  unfold audio_play. destruct (players w !! a) as [p|] eqn:E; [|reflexivity].
  destruct (audio_paused p); [|reflexivity]. rewrite playing_of_insert.
  case_bool_decide as Ex; [|reflexivity]. subst x. unfold playing_of. rewrite E. reflexivity.
Qed.

Lemma audio_play_pending (a : nat) (w : world) :
  is_Some (players w !! a) ->
  pending (audio_play a w)
  = pending w ++ (if paused_of w a then [(a, EvPlay)] else []).
Proof.
  intros [p E]. unfold audio_play, paused_of. rewrite E.
  destruct (audio_paused p); [reflexivity | symmetry; apply app_nil_r].
Qed.

Lemma audio_play_lookup (a : nat) (w : world) (x : nat) :
  singlePlay <$> players (audio_play a w) !! x = singlePlay <$> players w !! x.
Proof.
  unfold audio_play. destruct (players w !! a) as [p|] eqn:E; [|reflexivity].
  destruct (audio_paused p); [|reflexivity]. cbn [players].
  destruct (decide (x = a)) as [-> | Hne].
  - rewrite lookup_insert_eq, E. reflexivity.
  - rewrite lookup_insert_ne by congruence. reflexivity.
Qed.

Lemma media_ended_cur (a : nat) (w : world) :
  currentlyPlaying (media_ended a w) = currentlyPlaying w.
Proof.
  unfold media_ended. destruct (players w !! a) as [p|]; [|reflexivity].
  destruct (audio_paused p); reflexivity.
Qed.

Lemma media_ended_paused (a : nat) (w : world) (x : nat) :
  paused_of (media_ended a w) x = if bool_decide (x = a) then true else paused_of w x.
Proof.
  unfold media_ended. destruct (players w !! a) as [p|] eqn:E.
  - destruct (audio_paused p) eqn:Ep.
    + case_bool_decide as Ex; [|reflexivity]. subst x. unfold paused_of. rewrite E. exact Ep.
    + apply paused_of_insert.
  - case_bool_decide as Ex; [|reflexivity]. subst x. unfold paused_of. rewrite E. reflexivity.
Qed.

Lemma media_ended_playing (a : nat) (w : world) (x : nat) :
  playing_of (media_ended a w) x = playing_of w x.
Proof.
  unfold media_ended. destruct (players w !! a) as [p|] eqn:E; [|reflexivity].
  destruct (audio_paused p); [reflexivity|]. rewrite playing_of_insert.
  case_bool_decide as Ex; [|reflexivity]. subst x. unfold playing_of. rewrite E. reflexivity.
Qed.

Lemma media_ended_pending (a : nat) (w : world) :
  pending (media_ended a w)
  = pending w ++ (if paused_of w a then [] else [(a, EvPause); (a, EvEnded)]).
Proof.
  unfold media_ended, paused_of. destruct (players w !! a) as [p|].
  - destruct (audio_paused p); [symmetry; apply app_nil_r | reflexivity].
  - symmetry. apply app_nil_r.
Qed.

Lemma media_ended_lookup (a : nat) (w : world) (x : nat) :
  singlePlay <$> players (media_ended a w) !! x = singlePlay <$> players w !! x.
Proof.
  unfold media_ended. destruct (players w !! a) as [p|] eqn:E; [|reflexivity].
  destruct (audio_paused p); [reflexivity|]. cbn [players].
  destruct (decide (x = a)) as [-> | Hne].
  - rewrite lookup_insert_eq, E. reflexivity.
  - rewrite lookup_insert_ne by congruence. reflexivity.
Qed.

Lemma paused_of_exists (w : world) (a : nat) :
  paused_of w a = false -> is_Some (players w !! a).
Proof. unfold paused_of. destruct (players w !! a); [eauto | discriminate]. Qed.

Lemma lookup_singlePlay_is_Some (w w' : world) (x : nat) :
  singlePlay <$> players w' !! x = singlePlay <$> players w !! x ->
  is_Some (players w !! x) -> is_Some (players w' !! x).
Proof.
  intros E [p Hp]. rewrite Hp in E. destruct (players w' !! x); [eauto | discriminate].
Qed.

(** *** Small steps: the queue grows, the flags wait *)

Lemma micro_set_currentlyPlaying (c : option nat) (w : world) :
  micro w (set_currentlyPlaying c w).
Proof.
  exists []. repeat split; try reflexivity.
  - symmetry. apply app_nil_r.
  - intros j x _. rewrite take_nil. reflexivity.
  - intros x ev [].
Qed.

Lemma micro_audio_pause (a : nat) (w : world) : micro w (audio_pause a w).
Proof.
  exists (if paused_of w a then [] else [(a, EvPause)]). repeat split.
  - apply audio_pause_playing.
  - apply audio_pause_pending.
  - apply audio_pause_lookup.
  - intros j x Hj. rewrite audio_pause_paused. destruct (paused_of w a) eqn:E.
    + rewrite take_nil. cbn [flag_after]. case_bool_decide as Ex; [|reflexivity].
      subst x. rewrite E. reflexivity.
    + destruct j as [|j]; [lia|]. cbn [take flag_after]. rewrite take_nil. cbn [flag_after].
      rewrite (bool_decide_ext (a = x) (x = a)) by (split; congruence).
      case_bool_decide; reflexivity.
  - intros x ev H. destruct (paused_of w a) eqn:E; [destruct H|].
    destruct H as [H | []]. injection H as <- _. apply paused_of_exists, E.
Qed.

Lemma micro_audio_play (a : nat) (w : world) :
  is_Some (players w !! a) -> micro w (audio_play a w).
Proof.
  intros Ha. exists (if paused_of w a then [(a, EvPlay)] else []). repeat split.
  - apply audio_play_playing.
  - apply audio_play_pending, Ha.
  - apply audio_play_lookup.
  - intros j x Hj. rewrite audio_play_paused by exact Ha. destruct (paused_of w a) eqn:E.
    + destruct j as [|j]; [lia|]. cbn [take flag_after]. rewrite take_nil. cbn [flag_after].
      rewrite (bool_decide_ext (a = x) (x = a)) by (split; congruence).
      case_bool_decide; reflexivity.
    + rewrite take_nil. cbn [flag_after]. case_bool_decide as Ex; [|reflexivity].
      subst x. rewrite E. reflexivity.
  - intros x ev H. destruct (paused_of w a) eqn:E; [|destruct H].
    destruct H as [H | []]. injection H as <- _. exact Ha.
Qed.

Lemma micro_media_ended (a : nat) (w : world) : micro w (media_ended a w).
Proof.
  exists (if paused_of w a then [] else [(a, EvPause); (a, EvEnded)]). repeat split.
  - apply media_ended_playing.
  - apply media_ended_pending.
  - apply media_ended_lookup.
  - intros j x Hj. rewrite media_ended_paused. destruct (paused_of w a) eqn:E.
    + rewrite take_nil. cbn [flag_after]. case_bool_decide as Ex; [|reflexivity].
      subst x. rewrite E. reflexivity.
    + rewrite (bool_decide_ext (x = a) (a = x)) by (split; congruence).
      destruct j as [|[|j]]; [lia | |]; cbn [take flag_after]; try rewrite take_nil;
        cbn [flag_after]; case_bool_decide; reflexivity.
  - intros x ev H. destruct (paused_of w a) eqn:E; [destruct H|].
    destruct H as [H | [H | []]]; injection H as <- _; apply paused_of_exists, E.
Qed.

Lemma micro_base (w w' : world) :
  micro w w' -> events_exist w /\ coherent w -> events_exist w' /\ coherent w'.
Proof.
  intros (es & Hplay & Hpend & Hlook & Hflag & Hes) [Hex Hco]. split.
  - intros a ev Hin. rewrite Hpend in Hin. apply in_app_or in Hin.
    apply (lookup_singlePlay_is_Some w w' a (Hlook a)).
    destruct Hin as [Hin | Hin]; [eapply Hex, Hin | eapply Hes, Hin].
  - intros a. rewrite Hpend, Hplay, flag_after_app, Hco.
    destruct es as [|e es'].
    + rewrite <- (Hflag 1 a) by lia. reflexivity.
    + rewrite <- (Hflag (length (e :: es')) a) by (simpl; lia).
      rewrite firstn_all. reflexivity.
Qed.

Lemma exclusive_amo (w : world) : exclusive w -> amo_sounding w.
Proof. intros H a b Ha Hb. apply H in Ha, Hb. congruence. Qed.

Lemma micro_one_flag (w w' : world) :
  micro w w' -> coherent w -> one_flag w -> amo_sounding w' -> one_flag w'.
Proof.
  intros (es & Hplay & Hpend & _ & Hflag & _) Hco Hone Hamo k a b.
  assert (Hk : forall x, flag_at w' k x =
             if decide (k <= length (pending w)) then flag_at w k x
             else negb (paused_of w' x)).
  { intros x. unfold flag_at. rewrite Hpend, Hplay. destruct (decide _) as [Hle | Hgt].
    - rewrite take_app_le by exact Hle. reflexivity.
    - rewrite take_app_ge by lia. rewrite flag_after_app, Hco. apply Hflag. lia. }
  rewrite !Hk. destruct (decide _).
  - apply Hone.
  - intros Ha Hb. apply Hamo; [destruct (paused_of w' a) | destruct (paused_of w' b)];
      simpl in *; congruence.
Qed.

(** *** The calls [pause()] and [play()] as sequences of small steps *)

Lemma pause_unfold (a : nat) (w : world) :
  pause a w
  = audio_pause a (if decide (currentlyPlaying w = Some a)
                   then set_currentlyPlaying None w else w).
Proof. reflexivity. Qed.

Lemma play_cases (a : nat) (w : world) (p : player) :
  players w !! a = Some p ->
  (exists b, currentlyPlaying w = Some b /\ b <> a /\ singlePlay p = true /\
     play a w
     = audio_play a (set_currentlyPlaying (Some a)
                       (audio_pause b (set_currentlyPlaying None w)))) \/
  ((currentlyPlaying w = None \/ currentlyPlaying w = Some a \/ singlePlay p = false) /\
   play a w = audio_play a (set_currentlyPlaying (Some a) w)).
Proof.
  intros Hp. unfold play. rewrite Hp. destruct (currentlyPlaying w) as [b|] eqn:Ec.
  - destruct (singlePlay p) eqn:Es.
    + case_bool_decide as Eb.
      * subst b. right. split; [auto | reflexivity].
      * left. exists b. repeat split; try assumption. cbn [andb negb].
        unfold pause. rewrite Ec. rewrite decide_True by reflexivity. reflexivity.
    + right. split; [auto | reflexivity].
  - right. split; [auto | reflexivity].
Qed.

Lemma play_refused_cases (a : nat) (w : world) (p : player) :
  players w !! a = Some p ->
  (exists b, currentlyPlaying w = Some b /\ b <> a /\ singlePlay p = true /\
     play_refused a w
     = set_currentlyPlaying (Some a) (audio_pause b (set_currentlyPlaying None w))) \/
  ((currentlyPlaying w = None \/ currentlyPlaying w = Some a \/ singlePlay p = false) /\
   play_refused a w = set_currentlyPlaying (Some a) w).
Proof.
  intros Hp. unfold play_refused. rewrite Hp. destruct (currentlyPlaying w) as [b|] eqn:Ec.
  - destruct (singlePlay p) eqn:Es.
    + case_bool_decide as Eb.
      * subst b. right. split; [auto | reflexivity].
      * left. exists b. repeat split; try assumption. cbn [andb negb].
        unfold pause. rewrite Ec. rewrite decide_True by reflexivity. reflexivity.
    + right. split; [auto | reflexivity].
  - right. split; [auto | reflexivity].
Qed.

(** A refused [play()] is a sequence of small steps. *)
Lemma play_refused_micro (a : nat) (w : world) (p : player) :
  players w !! a = Some p ->
  exists w1 w2,
    micro w w1 /\ micro w1 w2 /\ micro w2 (play_refused a w) /\
    (forall x, paused_of w1 x = paused_of w x) /\
    (forall x, paused_of (play_refused a w) x = paused_of w2 x) /\
    (forall x, paused_of w2 x = false -> paused_of w x = false).
Proof.
  intros Hp.
  destruct (play_refused_cases a w p Hp) as [(b & _ & _ & _ & ->) | [_ ->]].
  - exists (set_currentlyPlaying None w), (audio_pause b (set_currentlyPlaying None w)).
    split; [apply micro_set_currentlyPlaying|]. split; [apply micro_audio_pause|].
    split; [apply micro_set_currentlyPlaying|]. split; [reflexivity|]. split; [reflexivity|].
    intros x. rewrite audio_pause_paused. case_bool_decide; [discriminate | auto].
  - exists w, w. split; [apply (micro_set_currentlyPlaying (currentlyPlaying w) w)|].
    split; [apply (micro_set_currentlyPlaying (currentlyPlaying w) w)|].
    split; [apply micro_set_currentlyPlaying|]. repeat split; auto.
Qed.

Lemma micro_is_Some (w w' : world) (x : nat) :
  micro w w' -> is_Some (players w !! x) -> is_Some (players w' !! x).
Proof.
  intros (es & _ & _ & Hlook & _) H. eapply lookup_singlePlay_is_Some; [apply Hlook | exact H].
Qed.

Lemma micro_singlePlay (w w' : world) :
  micro w w' -> all_singlePlay w' -> all_singlePlay w.
Proof.
  intros (es & _ & _ & Hlook & _) H a p Hp. specialize (Hlook a). rewrite Hp in Hlook.
  destruct (players w' !! a) as [p'|] eqn:E; [|discriminate].
  injection Hlook as Hl. rewrite <- Hl. eapply H, E.
Qed.

Lemma base_pause (a : nat) (w : world) : base w -> base (pause a w).
Proof.
  intros H. rewrite pause_unfold. apply (micro_base _ _ (micro_audio_pause _ _)).
  destruct (decide _); [|exact H].
  apply (micro_base _ _ (micro_set_currentlyPlaying _ _)), H.
Qed.

Lemma base_play (a : nat) (w : world) :
  is_Some (players w !! a) -> base w -> base (play a w).
Proof.
  intros [p Hp] H.
  destruct (play_cases a w p Hp) as [(b & _ & _ & _ & ->) | [_ ->]].
  - set (w1 := set_currentlyPlaying None w).
    set (w2 := audio_pause b w1).
    set (w3 := set_currentlyPlaying (Some a) w2).
    assert (M1 : micro w w1) by apply micro_set_currentlyPlaying.
    assert (M2 : micro w1 w2) by apply micro_audio_pause.
    assert (M3 : micro w2 w3) by apply micro_set_currentlyPlaying.
    assert (Ha : is_Some (players w3 !! a)).
    { apply (micro_is_Some _ _ _ M3), (micro_is_Some _ _ _ M2), (micro_is_Some _ _ _ M1).
      eauto. }
    apply (micro_base _ _ (micro_audio_play a w3 Ha)).
    apply (micro_base _ _ M3), (micro_base _ _ M2), (micro_base _ _ M1), H.
  - set (w3 := set_currentlyPlaying (Some a) w).
    assert (M3 : micro w w3) by apply micro_set_currentlyPlaying.
    assert (Ha : is_Some (players w3 !! a)) by (apply (micro_is_Some _ _ _ M3); eauto).
    apply (micro_base _ _ (micro_audio_play a w3 Ha)), (micro_base _ _ M3), H.
Qed.

Lemma singlePlay_pause (a : nat) (w : world) :
  all_singlePlay (pause a w) -> all_singlePlay w.
Proof.
  rewrite pause_unfold. intros H. apply (micro_singlePlay _ _ (micro_audio_pause _ _)) in H.
  destruct (decide _); [|exact H].
  apply (micro_singlePlay w _ (micro_set_currentlyPlaying None w)), H.
Qed.

Lemma singlePlay_play (a : nat) (w : world) :
  is_Some (players w !! a) -> all_singlePlay (play a w) -> all_singlePlay w.
Proof.
  intros [p Hp] H.
  destruct (play_cases a w p Hp) as [(b & _ & _ & _ & E) | [_ E]]; rewrite E in H.
  - set (w1 := set_currentlyPlaying None w) in *.
    set (w2 := audio_pause b w1) in *.
    set (w3 := set_currentlyPlaying (Some a) w2) in *.
    assert (M1 : micro w w1) by apply micro_set_currentlyPlaying.
    assert (M2 : micro w1 w2) by apply micro_audio_pause.
    assert (M3 : micro w2 w3) by apply micro_set_currentlyPlaying.
    assert (Ha : is_Some (players w3 !! a)).
    { apply (micro_is_Some _ _ _ M3), (micro_is_Some _ _ _ M2), (micro_is_Some _ _ _ M1).
      eauto. }
    apply (micro_singlePlay _ _ M1), (micro_singlePlay _ _ M2), (micro_singlePlay _ _ M3).
    apply (micro_singlePlay _ _ (micro_audio_play a w3 Ha)), H.
  - set (w3 := set_currentlyPlaying (Some a) w) in *.
    assert (M3 : micro w w3) by apply micro_set_currentlyPlaying.
    assert (Ha : is_Some (players w3 !! a)) by (apply (micro_is_Some _ _ _ M3); eauto).
    apply (micro_singlePlay _ _ M3), (micro_singlePlay _ _ (micro_audio_play a w3 Ha)), H.
Qed.

Lemma micro_steady (w w' : world) :
  micro w w' -> steady w -> amo_sounding w' -> steady w'.
Proof.
  intros M (Hb & Hone & _) Hamo. split; [apply (micro_base _ _ M), Hb|].
  split; [|exact Hamo]. apply (micro_one_flag _ _ M); [apply Hb | exact Hone | exact Hamo].
Qed.

Lemma steady_pause (a : nat) (w : world) :
  steady w -> exclusive w -> steady (pause a w) /\ exclusive (pause a w).
Proof.
  intros Hs Hex. rewrite pause_unfold.
  set (w1 := if decide (currentlyPlaying w = Some a) then set_currentlyPlaying None w else w).
  assert (Hp1 : forall x, paused_of w1 x = paused_of w x).
  { intros x. unfold w1. destruct (decide _); reflexivity. }
  assert (Hs1 : steady w1).
  { unfold w1. destruct (decide _); [|exact Hs].
    apply (micro_steady _ _ (micro_set_currentlyPlaying _ _) Hs).
    apply (proj2 (proj2 Hs)). }
  assert (Hex' : exclusive (audio_pause a w1)).
  { intros x Hx. rewrite audio_pause_paused in Hx. case_bool_decide as Ex; [discriminate|].
    rewrite Hp1 in Hx. apply Hex in Hx. rewrite audio_pause_cur. unfold w1.
    destruct (decide _) as [E | _]; [congruence | exact Hx]. }
  split; [|exact Hex'].
  apply (micro_steady _ _ (micro_audio_pause _ _) Hs1), exclusive_amo, Hex'.
Qed.

Lemma steady_play (a : nat) (w : world) (p : player) :
  players w !! a = Some p -> singlePlay p = true ->
  steady w -> exclusive w -> steady (play a w) /\ exclusive (play a w).
Proof.
  intros Hp Hsp Hs Hex.
  destruct (play_cases a w p Hp) as [(b & Hc & Hne & _ & ->) | [Hc ->]].
  - set (w1 := set_currentlyPlaying None w).
    set (w2 := audio_pause b w1).
    set (w3 := set_currentlyPlaying (Some a) w2).
    assert (M1 : micro w w1) by apply micro_set_currentlyPlaying.
    assert (M2 : micro w1 w2) by apply micro_audio_pause.
    assert (M3 : micro w2 w3) by apply micro_set_currentlyPlaying.
    assert (Ha : is_Some (players w3 !! a)).
    { apply (micro_is_Some _ _ _ M3), (micro_is_Some _ _ _ M2), (micro_is_Some _ _ _ M1).
      eauto. }
    assert (Hq : forall x, paused_of w3 x = true).
    { intros x. change (paused_of w3 x) with (paused_of w2 x). unfold w2.
      rewrite audio_pause_paused. case_bool_decide as Ex; [reflexivity|].
      change (paused_of w1 x) with (paused_of w x).
      destruct (paused_of w x) eqn:E; [reflexivity|]. apply Hex in E. congruence. }
    assert (Hs1 : steady w1) by (apply (micro_steady _ _ M1 Hs), (proj2 (proj2 Hs))).
    assert (Hs2 : steady w2).
    { apply (micro_steady _ _ M2 Hs1). intros x y Hx. change (paused_of w2 x) with (paused_of w3 x) in Hx.
      rewrite Hq in Hx. discriminate. }
    assert (Hs3 : steady w3) by (apply (micro_steady _ _ M3 Hs2), (proj2 (proj2 Hs2))).
    assert (Hex' : exclusive (audio_play a w3)).
    { intros x Hx. rewrite audio_play_paused in Hx by exact Ha. rewrite audio_play_cur.
      case_bool_decide as Ex; [subst x; reflexivity|]. rewrite Hq in Hx. discriminate. }
    split; [|exact Hex'].
    apply (micro_steady _ _ (micro_audio_play a w3 Ha) Hs3), exclusive_amo, Hex'.
  - set (w3 := set_currentlyPlaying (Some a) w).
    assert (M3 : micro w w3) by apply micro_set_currentlyPlaying.
    assert (Ha : is_Some (players w3 !! a)) by (apply (micro_is_Some _ _ _ M3); eauto).
    assert (Hs3 : steady w3) by (apply (micro_steady _ _ M3 Hs), (proj2 (proj2 Hs))).
    assert (Hex' : exclusive (audio_play a w3)).
    { intros x Hx. rewrite audio_play_paused in Hx by exact Ha. rewrite audio_play_cur.
      case_bool_decide as Ex; [subst x; reflexivity|].
      change (paused_of w3 x) with (paused_of w x) in Hx. apply Hex in Hx.
      destruct Hc as [Hc | [Hc | Hc]]; congruence. }
    split; [|exact Hex'].
    apply (micro_steady _ _ (micro_audio_play a w3 Ha) Hs3), exclusive_amo, Hex'.
Qed.

Lemma steady_media_ended (a : nat) (w : world) :
  steady w -> exclusive w -> steady (media_ended a w) /\ exclusive (media_ended a w).
Proof.
  intros Hs Hex.
  assert (Hex' : exclusive (media_ended a w)).
  { intros x Hx. rewrite media_ended_paused in Hx. case_bool_decide as Ex; [discriminate|].
    rewrite media_ended_cur. apply Hex, Hx. }
  split; [|exact Hex'].
  apply (micro_steady _ _ (micro_media_ended _ _) Hs), exclusive_amo, Hex'.
Qed.

Lemma steady_audio_pause (a : nat) (w : world) :
  steady w -> exclusive w -> steady (audio_pause a w) /\ exclusive (audio_pause a w).
Proof.
  intros Hs Hex.
  assert (Hex' : exclusive (audio_pause a w)).
  { intros x Hx. rewrite audio_pause_paused in Hx. case_bool_decide as Ex; [discriminate|].
    rewrite audio_pause_cur. apply Hex, Hx. }
  split; [|exact Hex'].
  apply (micro_steady _ _ (micro_audio_pause _ _) Hs), exclusive_amo, Hex'.
Qed.

Lemma exclusive_play_refused (a : nat) (w : world) (p : player) :
  players w !! a = Some p -> singlePlay p = true ->
  exclusive w -> exclusive (play_refused a w).
Proof.
  intros Hp Hsp Hex x Hx.
  destruct (play_refused_cases a w p Hp) as [(b & Hc & Hne & _ & E) | [Hc E]];
    rewrite E in *.
  - change (paused_of (audio_pause b (set_currentlyPlaying None w)) x = false) in Hx.
    rewrite audio_pause_paused in Hx. case_bool_decide as Exb; [discriminate Hx|].
    change (paused_of w x = false) in Hx. specialize (Hex x Hx). congruence.
  - change (paused_of w x = false) in Hx. specialize (Hex x Hx).
    cbn [set_currentlyPlaying currentlyPlaying].
    destruct Hc as [Hc | [Hc | Hc]]; congruence.
Qed.

Lemma steady_play_refused (a : nat) (w : world) (p : player) :
  players w !! a = Some p -> singlePlay p = true ->
  steady w -> exclusive w -> steady (play_refused a w) /\ exclusive (play_refused a w).
Proof.
  intros Hp Hsp Hs Hex.
  split; [|apply (exclusive_play_refused a w p); assumption].
  destruct (play_refused_micro a w p Hp) as (w1 & w2 & M1 & M2 & M3 & H1 & H3 & H2).
  pose proof (proj2 (proj2 Hs)) as Hamo.
  assert (Hs1 : steady w1).
  { apply (micro_steady _ _ M1 Hs). intros x y Hx Hy. rewrite H1 in Hx, Hy.
    apply Hamo; assumption. }
  assert (Hamo2 : amo_sounding w2).
  { intros x y Hx Hy. apply Hamo; apply H2; assumption. }
  assert (Hs2 : steady w2) by (apply (micro_steady _ _ M2 Hs1), Hamo2).
  apply (micro_steady _ _ M3 Hs2). intros x y Hx Hy. rewrite H3 in Hx, Hy.
  apply Hamo2; assumption.
Qed.

(** *** Construction and dispatch *)

Lemma create_paused (a : nat) (sp : bool) (w : world) (x : nat) :
  players w !! a = None -> paused_of (create a sp w) x = paused_of w x.
Proof.
  intros Hf. unfold create. rewrite paused_of_insert. case_bool_decide as E; [|reflexivity].
  subst x. unfold paused_of. rewrite Hf. reflexivity.
Qed.

Lemma create_playing (a : nat) (sp : bool) (w : world) (x : nat) :
  players w !! a = None -> playing_of (create a sp w) x = playing_of w x.
Proof.
  intros Hf. unfold create. rewrite playing_of_insert. case_bool_decide as E; [|reflexivity].
  subst x. unfold playing_of. rewrite Hf. reflexivity.
Qed.

Lemma same_readings_create (a : nat) (sp : bool) (w : world) :
  players w !! a = None -> same_readings w (create a sp w).
Proof.
  intros Hf. repeat split; try reflexivity.
  - intros x. apply create_paused, Hf.
  - intros x. apply create_playing, Hf.
Qed.

Lemma same_readings_invariants (w w' : world) :
  same_readings w w' ->
  (coherent w -> coherent w') /\
  (one_flag w -> one_flag w') /\
  (amo_sounding w -> amo_sounding w') /\
  (exclusive w -> exclusive w').
Proof.
  intros (Hc & Hq & Hp & Hf). repeat split.
  - intros H x. rewrite Hq, Hp, Hf. apply H.
  - intros H k a b. unfold flag_at. rewrite Hq, !Hf. apply H.
  - intros H a b. rewrite !Hp. apply H.
  - intros H a. rewrite Hp, Hc. apply H.
Qed.

Lemma deliver_empty (w : world) : pending w = [] -> deliver w = w.
Proof. intros H. unfold deliver. rewrite H. reflexivity. Qed.

Lemma deliver_cons (w : world) (b : nat) (ev : media_event) (rest : list (nat * media_event)) :
  pending w = (b, ev) :: rest ->
  is_Some (players w !! b) ->
  currentlyPlaying (deliver w) = currentlyPlaying w /\
  pending (deliver w) = rest /\
  (forall x, paused_of (deliver w) x = paused_of w x) /\
  (forall x, playing_of (deliver w) x
             = if bool_decide (b = x) then ev_flag ev else playing_of w x) /\
  (forall x, singlePlay <$> players (deliver w) !! x = singlePlay <$> players w !! x).
Proof.
  intros Hq [p Hp]. unfold deliver. rewrite Hq. unfold handle. cbn [pending players].
  repeat split.
  - intros x. unfold paused_of. cbn [players]. destruct (decide (b = x)) as [<- | Hne].
    + rewrite lookup_alter_eq, Hp. reflexivity.
    + rewrite lookup_alter_ne by exact Hne. reflexivity.
  - intros x. unfold playing_of. cbn [players]. case_bool_decide as E.
    + subst x. rewrite lookup_alter_eq, Hp. reflexivity.
    + rewrite lookup_alter_ne by exact E. reflexivity.
  - intros x. cbn [players]. destruct (decide (b = x)) as [<- | Hne].
    + rewrite lookup_alter_eq, Hp. reflexivity.
    + rewrite lookup_alter_ne by exact Hne. reflexivity.
Qed.

Lemma deliver_flag_at (w : world) :
  events_exist w -> forall k x, flag_at (deliver w) k x = flag_at w (S k) x.
Proof.
  intros Hex k x. destruct (pending w) as [|[b ev] rest] eqn:Hq.
  - rewrite deliver_empty by exact Hq. unfold flag_at. rewrite Hq, !take_nil. reflexivity.
  - destruct (deliver_cons w b ev rest Hq) as (_ & Hq' & _ & Hf & _).
    { apply (Hex b ev). rewrite Hq. left. reflexivity. }
    unfold flag_at. rewrite Hq', Hq, Hf. reflexivity.
Qed.

Lemma base_deliver (w : world) : base w -> base (deliver w).
Proof.
  intros [Hex Hco]. destruct (pending w) as [|[b ev] rest] eqn:Hq.
  - rewrite deliver_empty by exact Hq. split; assumption.
  - destruct (deliver_cons w b ev rest Hq) as (_ & Hq' & Hp & Hf & Hl).
    { apply (Hex b ev). rewrite Hq. left. reflexivity. }
    split.
    + intros a e Hin. rewrite Hq' in Hin.
      apply (lookup_singlePlay_is_Some w _ a (Hl a)), (Hex a e). rewrite Hq. right. exact Hin.
    + intros a. rewrite Hq', Hf, Hp. rewrite <- (Hco a), Hq. reflexivity.
Qed.

Lemma steady_deliver (w : world) :
  steady w -> exclusive w -> steady (deliver w) /\ exclusive (deliver w).
Proof.
  intros (Hb & Hone & Hamo) Hexc.
  assert (Hcp : currentlyPlaying (deliver w) = currentlyPlaying w /\
                forall x, paused_of (deliver w) x = paused_of w x).
  { destruct (pending w) as [|[b ev] rest] eqn:Hq.
    - rewrite deliver_empty by exact Hq. split; reflexivity.
    - destruct (deliver_cons w b ev rest Hq) as (Hc & _ & Hp & _).
      { apply (proj1 Hb b ev). rewrite Hq. left. reflexivity. }
      split; assumption. }
  destruct Hcp as [Hc Hp].
  split; [split; [exact (base_deliver w Hb) | split] |].
  - intros k a b. rewrite !(deliver_flag_at w (proj1 Hb)). apply Hone.
  - intros a b. rewrite !Hp. apply Hamo.
  - intros a. rewrite Hp, Hc. apply Hexc.
Qed.

Lemma singlePlay_deliver (w : world) :
  events_exist w -> all_singlePlay (deliver w) -> all_singlePlay w.
Proof.
  intros Hex H. destruct (pending w) as [|[b ev] rest] eqn:Hq.
  - rewrite deliver_empty in H by exact Hq. exact H.
  - destruct (deliver_cons w b ev rest Hq) as (_ & _ & _ & _ & Hl).
    { apply (Hex b ev). rewrite Hq. left. reflexivity. }
    intros a p Hp. specialize (Hl a). rewrite Hp in Hl.
    destruct (players (deliver w) !! a) as [p'|] eqn:E; [|discriminate].
    injection Hl as Hl. rewrite <- Hl. eapply H, E.
Qed.

(** *** Reachable pages *)

Lemma reachable_base (w : world) : reachable w -> base w.
Proof.
  induction 1 as [|w act Hr IH Hen].
  - split; [intros a ev [] | intros a; reflexivity].
  - destruct act as [a sp | a | a | a | a | | a | a]; cbn [exec enabled] in *.
    + destruct IH as [Hex Hco]. split.
      * intros x ev Hin. cbn [create pending] in Hin. specialize (Hex x ev Hin).
        unfold create. cbn [players]. destruct (decide (a = x)) as [<- | Hne].
        -- rewrite lookup_insert_eq. eauto.
        -- rewrite lookup_insert_ne by exact Hne. exact Hex.
      * apply (proj1 (same_readings_invariants _ _ (same_readings_create a sp w Hen))), Hco.
    + apply base_play; assumption.
    + apply base_pause; assumption.
    + unfold togglePlay. destruct Hen as [p Hp]. rewrite Hp.
      destruct (isPlaying p); [apply base_pause | apply base_play; eauto]; assumption.
    + apply (micro_base _ _ (micro_media_ended _ _)), IH.
    + apply base_deliver, IH.
    + destruct Hen as [p Hp].
      destruct (play_refused_micro a w p Hp) as (w1 & w2 & M1 & M2 & M3 & _).
      apply (micro_base _ _ M3), (micro_base _ _ M2), (micro_base _ _ M1), IH.
    + apply (micro_base _ _ (micro_audio_pause _ _)), IH.
Qed.

Lemma singlePlay_exec (act : action) (w : world) :
  base w -> enabled act w -> all_singlePlay (exec act w) -> all_singlePlay w.
Proof.
  intros Hb Hen H. destruct act as [a sp | a | a | a | a | | a | a]; cbn [exec enabled] in *.
  - intros x p Hp. apply (H x). unfold create. cbn [players].
    rewrite lookup_insert_ne by congruence. exact Hp.
  - eapply singlePlay_play; eassumption.
  - eapply singlePlay_pause; eassumption.
  - unfold togglePlay in H. destruct Hen as [p Hp]. rewrite Hp in H.
    destruct (isPlaying p); [eapply singlePlay_pause | eapply singlePlay_play; eauto];
      eassumption.
  - apply (micro_singlePlay _ _ (micro_media_ended a w)), H.
  - apply singlePlay_deliver; [apply Hb | exact H].
  - destruct Hen as [p Hp].
    destruct (play_refused_micro a w p Hp) as (w1 & w2 & M1 & M2 & M3 & _).
    apply (micro_singlePlay _ _ M1), (micro_singlePlay _ _ M2), (micro_singlePlay _ _ M3), H.
  - apply (micro_singlePlay _ _ (micro_audio_pause a w)), H.
Qed.

Lemma reachable_steady (w : world) :
  reachable w -> all_singlePlay w -> steady w /\ exclusive w.
Proof.
  induction 1 as [|w act Hr IH Hen]; intros Hall.
  - split; [split; [split | split] |].
    + intros a ev [].
    + intros a. reflexivity.
    + intros k a b. unfold flag_at. cbn [initial pending]. rewrite take_nil.
      cbn [flag_after]. unfold playing_of. cbn [initial players]. rewrite lookup_empty.
      discriminate.
    + intros a b H. unfold paused_of in H. cbn [initial players] in H.
      rewrite lookup_empty in H. discriminate.
    + intros a H. unfold paused_of in H. cbn [initial players] in H.
      rewrite lookup_empty in H. discriminate.
  - pose proof (reachable_base w Hr) as Hb.
    pose proof (singlePlay_exec act w Hb Hen Hall) as Hall0.
    destruct (IH Hall0) as [Hs Hexc].
    destruct act as [a sp | a | a | a | a | | a | a]; cbn [exec enabled] in *.
    + pose proof (same_readings_invariants _ _ (same_readings_create a sp w Hen))
        as (_ & H1 & H2 & H3).
      destruct Hs as (_ & Hone & Hamo).
      split; [split; [|split] |]; auto.
      apply (reachable_base _ (reachable_step w (Create a sp) Hr Hen)).
    + destruct Hen as [p Hp]. apply (steady_play a w p Hp); [eapply Hall0, Hp | |]; assumption.
    + apply steady_pause; assumption.
    + unfold togglePlay. destruct Hen as [p Hp]. rewrite Hp. destruct (isPlaying p).
      * apply steady_pause; assumption.
      * apply (steady_play a w p Hp); [eapply Hall0, Hp | |]; assumption.
    + apply steady_media_ended; assumption.
    + apply steady_deliver; assumption.
    + destruct Hen as [p Hp].
      apply (steady_play_refused a w p Hp); [eapply Hall0, Hp | |]; assumption.
    + apply steady_audio_pause; assumption.
Qed.

Lemma deliver_n_readings (k : nat) :
  forall w, events_exist w ->
    currentlyPlaying (deliver_n k w) = currentlyPlaying w /\
    (forall x, paused_of (deliver_n k w) x = paused_of w x) /\
    (forall x, playing_of (deliver_n k w) x = flag_at w k x).
Proof.
  induction k as [|k IH]; intros w Hex.
  - split; [reflexivity|]. split; [reflexivity|].
    intros x. unfold flag_at. rewrite take_0. reflexivity.
  - cbn [deliver_n].
    assert (Hb : events_exist (deliver w) /\
                 currentlyPlaying (deliver w) = currentlyPlaying w /\
                 forall x, paused_of (deliver w) x = paused_of w x).
    { destruct (pending w) as [|[b ev] rest] eqn:Hq.
      - rewrite deliver_empty by exact Hq.
        split; [exact Hex|]. split; reflexivity.
      - destruct (deliver_cons w b ev rest Hq) as (Hc & Hq' & Hp & _ & Hl).
        { apply (Hex b ev). rewrite Hq. left. reflexivity. }
        split; [|split; assumption].
        intros a e Hin. rewrite Hq' in Hin.
        apply (lookup_singlePlay_is_Some w _ a (Hl a)), (Hex a e). rewrite Hq. right. exact Hin. }
    destruct Hb as (Hex' & Hc & Hp). destruct (IH (deliver w) Hex') as (Hc' & Hp' & Hf').
    split; [|split].
    + rewrite Hc'. exact Hc.
    + intros x. rewrite Hp'. apply Hp.
    + intros x. rewrite Hf'. apply deliver_flag_at, Hex.
Qed.

Lemma sounding_paused_of (w : world) (a : nat) : sounding w a <-> paused_of w a = false.
Proof.
  unfold sounding, paused_of. split.
  - intros (p & -> & H). exact H.
  - destruct (players w !! a) as [p|]; [eauto | discriminate].
Qed.

Lemma flagged_playing_of (w : world) (a : nat) : flagged w a <-> playing_of w a = true.
Proof.
  unfold flagged, playing_of. split.
  - intros (p & -> & H). exact H.
  - destruct (players w !! a) as [p|]; [eauto | discriminate].
Qed.

Lemma settle_readings (w : world) :
  base w ->
  currentlyPlaying (settle w) = currentlyPlaying w /\
  (forall x, playing_of (settle w) x = negb (paused_of w x)).
Proof.
  intros [Hex Hco]. unfold settle.
  destruct (deliver_n_readings (length (pending w)) w Hex) as (Hc & _ & Hf).
  split; [exact Hc|]. intros x. rewrite Hf. unfold flag_at. rewrite firstn_all. apply Hco.
Qed.

(** *** Pages reached through loads *)

Lemma grows_refl (w : world) : grows w w.
Proof. split; [auto | intros x ev H; left; exact H]. Qed.

Lemma grows_trans (w1 w2 w3 : world) : grows w1 w2 -> grows w2 w3 -> grows w1 w3.
Proof.
  intros [Hd1 He1] [Hd2 He2]. split; [auto|].
  intros x ev H. destruct (He2 x ev H) as [H' | H']; [|right; exact H'].
  destruct (He1 x ev H') as [H'' | H'']; [left; exact H'' | right; apply Hd2, H''].
Qed.

Lemma grows_events_exist (w w' : world) : grows w w' -> events_exist w -> events_exist w'.
Proof.
  intros [Hd He] Hex x ev H. destruct (He x ev H) as [H' | H']; [|exact H'].
  apply Hd, (Hex x ev H').
Qed.

Lemma micro_grows (w w' : world) : micro w w' -> grows w w'.
Proof.
  intros (es & _ & Hpend & Hlook & _ & Hes). split.
  - intros x. apply lookup_singlePlay_is_Some, Hlook.
  - intros x ev H. rewrite Hpend in H. apply in_app_or in H.
    destruct H as [H | H]; [left; exact H|]. right.
    apply (lookup_singlePlay_is_Some w w' x (Hlook x)), (Hes x ev H).
Qed.

Lemma alter_is_Some (f : player -> player) (a x : nat) (m : gmap nat player) :
  is_Some (m !! x) -> is_Some (alter f a m !! x).
Proof.
  intros [p Hp]. destruct (decide (a = x)) as [-> | Hne].
  - rewrite lookup_alter_eq, Hp. eauto.
  - rewrite lookup_alter_ne by exact Hne. eauto.
Qed.

Lemma grows_pause (a : nat) (w : world) : grows w (pause a w).
Proof.
  rewrite pause_unfold. eapply grows_trans; [|apply micro_grows, micro_audio_pause].
  destruct (decide _); [apply micro_grows, micro_set_currentlyPlaying | apply grows_refl].
Qed.

Lemma grows_play (a : nat) (w : world) : is_Some (players w !! a) -> grows w (play a w).
Proof.
  intros [p Hp].
  destruct (play_cases a w p Hp) as [(b & _ & _ & _ & ->) | [_ ->]].
  - set (w1 := set_currentlyPlaying None w).
    set (w2 := audio_pause b w1).
    set (w3 := set_currentlyPlaying (Some a) w2).
    assert (M1 : micro w w1) by apply micro_set_currentlyPlaying.
    assert (M2 : micro w1 w2) by apply micro_audio_pause.
    assert (M3 : micro w2 w3) by apply micro_set_currentlyPlaying.
    assert (Ha : is_Some (players w3 !! a)).
    { apply (micro_is_Some _ _ _ M3), (micro_is_Some _ _ _ M2), (micro_is_Some _ _ _ M1).
      eauto. }
    eapply grows_trans; [|apply micro_grows, (micro_audio_play a w3 Ha)].
    eapply grows_trans; [|apply micro_grows, M3].
    eapply grows_trans; [apply micro_grows, M1 | apply micro_grows, M2].
  - set (w3 := set_currentlyPlaying (Some a) w).
    assert (M3 : micro w w3) by apply micro_set_currentlyPlaying.
    assert (Ha : is_Some (players w3 !! a)) by (apply (micro_is_Some _ _ _ M3); eauto).
    eapply grows_trans; [apply micro_grows, M3 | apply micro_grows, (micro_audio_play a w3 Ha)].
Qed.

Lemma grows_deliver (w : world) : grows w (deliver w).
Proof.
  unfold deliver. destruct (pending w) as [|[b ev] rest] eqn:Hq; [apply grows_refl|].
  split.
  - intros x. unfold handle. cbn [players]. apply alter_is_Some.
  - intros x e H. unfold handle in H. cbn [pending] in H. left. rewrite Hq. right. exact H.
Qed.

Lemma grows_create (a : nat) (sp : bool) (w : world) : grows w (create a sp w).
Proof.
  split.
  - intros x [p Hp]. unfold create. cbn [players]. destruct (decide (a = x)) as [-> | Hne].
    + rewrite lookup_insert_eq. eauto.
    + rewrite lookup_insert_ne by exact Hne. eauto.
  - intros x ev H. left. exact H.
Qed.

Lemma grows_exec (act : action) (w : world) : enabled act w -> grows w (exec act w).
Proof.
  intros Hen. destruct act as [a sp | a | a | a | a | | a | a]; cbn [exec enabled] in *.
  - apply grows_create.
  - apply grows_play, Hen.
  - apply grows_pause.
  - unfold togglePlay. destruct Hen as [p Hp]. rewrite Hp.
    destruct (isPlaying p); [apply grows_pause | apply grows_play; eauto].
  - apply micro_grows, micro_media_ended.
  - apply grows_deliver.
  - destruct Hen as [p Hp].
    destruct (play_refused_micro a w p Hp) as (w1 & w2 & M1 & M2 & M3 & _).
    eapply grows_trans; [|apply micro_grows, M3].
    eapply grows_trans; [apply micro_grows, M1 | apply micro_grows, M2].
  - apply micro_grows, micro_audio_pause.
Qed.

Lemma grows_audio_load (a : nat) (had_resource : bool) (w : world) :
  grows w (audio_load a had_resource w).
Proof.
  assert (Hdrop : grows w (drop_events a w)).
  { split; [auto|]. intros x ev H. left. unfold drop_events in H. cbn [pending] in H.
    apply filter_In in H. apply H. }
  unfold audio_load. destruct had_resource; [|exact Hdrop].
  eapply grows_trans; [exact Hdrop|]. split.
  - intros x. unfold silence. cbn [players]. apply alter_is_Some.
  - intros x ev H. left. exact H.
Qed.

Lemma grows_merge_singlePlay (a : nat) (sp : option bool) (w : world) :
  grows w (merge_singlePlay a sp w).
Proof.
  destruct sp as [b|]; [|apply grows_refl]. split.
  - intros x. unfold merge_singlePlay. cbn [players]. apply alter_is_Some.
  - intros x ev H. left. exact H.
Qed.

Lemma grows_loadTrack (a : nat) (had_resource : bool) (sp : option bool) (w : world) :
  grows w (loadTrack a had_resource sp w).
Proof.
  unfold loadTrack, load. destruct (players w !! a) as [p|]; [|apply grows_refl].
  eapply grows_trans; [|apply grows_audio_load].
  eapply grows_trans; [|apply grows_merge_singlePlay].
  eapply grows_trans; [|apply grows_audio_load].
  eapply grows_trans; [|apply grows_audio_load].
  destruct (isPlaying p); [apply grows_pause | apply grows_refl].
Qed.

Lemma grows_run (c : call) (w : world) : callable c w -> grows w (run c w).
Proof.
  intros Hc. destruct c as [act | a b | a b sp | a b]; cbn [run callable] in *.
  - apply grows_exec, Hc.
  - apply grows_audio_load.
  - apply grows_loadTrack.
  - unfold destroy. eapply grows_trans; [apply grows_pause | apply grows_audio_load].
Qed.

Lemma loads_events_exist (w : world) : reachable_with_loads w -> events_exist w.
Proof.
  induction 1 as [|w c Hr IH Hc]; [intros a ev []|].
  apply (grows_events_exist w); [apply grows_run, Hc | exact IH].
Qed.

Lemma reachable_loads (w : world) : reachable w -> reachable_with_loads w.
Proof.
  induction 1 as [|w act Hr IH Hen]; [constructor|].
  apply (loads_step w (Method act)); assumption.
Qed.

(** *** Who sounds *)

Lemma quieter_refl (w : world) : quieter w w.
Proof. split; [reflexivity | auto]. Qed.

Lemma quieter_trans (w1 w2 w3 : world) : quieter w1 w2 -> quieter w2 w3 -> quieter w1 w3.
Proof. intros [Hc1 Hp1] [Hc2 Hp2]. split; [congruence | auto]. Qed.

Lemma quieter_exclusive (w w' : world) : quieter w w' -> exclusive w -> exclusive w'.
Proof. intros [Hc Hp] Hex x Hx. rewrite Hc. apply Hex, Hp, Hx. Qed.

Lemma alter_paused_of (f : player -> player) (a x : nat) (w : world) (c : option nat)
  (q : list (nat * media_event)) :
  (forall p, audio_paused (f p) = false -> audio_paused p = false) ->
  paused_of {| currentlyPlaying := c; players := alter f a (players w); pending := q |} x
  = false ->
  paused_of w x = false.
Proof.
  intros Hf. unfold paused_of. cbn [players]. destruct (decide (a = x)) as [-> | Hne].
  - rewrite lookup_alter_eq. destruct (players w !! x) as [p|]; cbn; [apply Hf | auto].
  - rewrite lookup_alter_ne by exact Hne. auto.
Qed.

Lemma quieter_audio_pause (a : nat) (w : world) : quieter w (audio_pause a w).
Proof.
  split; [apply audio_pause_cur|]. intros x. rewrite audio_pause_paused.
  case_bool_decide; [discriminate | auto].
Qed.

Lemma quieter_media_ended (a : nat) (w : world) : quieter w (media_ended a w).
Proof.
  split; [apply media_ended_cur|]. intros x. rewrite media_ended_paused.
  case_bool_decide; [discriminate | auto].
Qed.

Lemma quieter_deliver (w : world) : quieter w (deliver w).
Proof.
  unfold deliver. destruct (pending w) as [|[b ev] rest]; [apply quieter_refl|].
  split; [reflexivity|]. intros x. unfold handle. cbn [players currentlyPlaying pending].
  intros H. apply (alter_paused_of (set_isPlaying (ev_flag ev)) b x w _ _) in H; [exact H|].
  intros p Hp. exact Hp.
Qed.

Lemma quieter_create (a : nat) (sp : bool) (w : world) : quieter w (create a sp w).
Proof.
  split; [reflexivity|]. intros x. unfold create. rewrite paused_of_insert.
  case_bool_decide; [discriminate | auto].
Qed.

Lemma quieter_audio_load (a : nat) (had_resource : bool) (w : world) :
  quieter w (audio_load a had_resource w).
Proof.
  assert (Hdrop : quieter w (drop_events a w)) by (split; [reflexivity | auto]).
  unfold audio_load. destruct had_resource; [|exact Hdrop].
  eapply quieter_trans; [exact Hdrop|]. split; [reflexivity|].
  intros x H. unfold silence in H.
  apply (alter_paused_of (set_paused true) a x (drop_events a w) _ _) in H; [exact H|].
  intros p Hp. discriminate Hp.
Qed.

Lemma quieter_merge_singlePlay (a : nat) (sp : option bool) (w : world) :
  quieter w (merge_singlePlay a sp w).
Proof.
  destruct sp as [b|]; [|apply quieter_refl]. split; [reflexivity|].
  intros x H. unfold merge_singlePlay in H.
  apply (alter_paused_of (set_singlePlay b) a x w _ _) in H; [exact H|].
  intros p Hp. exact Hp.
Qed.

Lemma exclusive_pause (a : nat) (w : world) : exclusive w -> exclusive (pause a w).
Proof.
  intros Hex x Hx. rewrite pause_unfold in *. rewrite audio_pause_paused in Hx.
  rewrite audio_pause_cur. case_bool_decide as Exa; [discriminate Hx|].
  assert (Hw : paused_of w x = false).
  { destruct (decide (currentlyPlaying w = Some a)); exact Hx. }
  specialize (Hex x Hw). rewrite decide_False by congruence. exact Hex.
Qed.

Lemma exclusive_play (a : nat) (w : world) (p : player) :
  players w !! a = Some p -> singlePlay p = true ->
  exclusive w -> exclusive (play a w).
Proof.
  intros Hp Hsp Hex x Hx.
  destruct (play_cases a w p Hp) as [(b & Hc & Hne & _ & E) | [Hc E]]; rewrite E in *.
  - set (w3 := set_currentlyPlaying (Some a)
                 (audio_pause b (set_currentlyPlaying None w))) in *.
    assert (Ha : is_Some (players w3 !! a)).
    { apply (proj1 (grows_trans _ _ _
                      (grows_trans _ _ _ (micro_grows _ _ (micro_set_currentlyPlaying None w))
                         (micro_grows _ _ (micro_audio_pause b _)))
                      (micro_grows _ _ (micro_set_currentlyPlaying (Some a) _)))).
      eauto. }
    rewrite audio_play_cur. rewrite (audio_play_paused a w3 x Ha) in Hx.
    case_bool_decide as Exa; [subst x; reflexivity|].
    change (paused_of w3 x) with (paused_of (audio_pause b (set_currentlyPlaying None w)) x)
      in Hx.
    rewrite audio_pause_paused in Hx. case_bool_decide as Exb; [discriminate Hx|].
    change (paused_of (set_currentlyPlaying None w) x) with (paused_of w x) in Hx.
    specialize (Hex x Hx). congruence.
  - set (w3 := set_currentlyPlaying (Some a) w) in *.
    assert (Ha : is_Some (players w3 !! a)) by (cbn; eauto).
    rewrite audio_play_cur. rewrite (audio_play_paused a w3 x Ha) in Hx.
    case_bool_decide as Exa; [subst x; reflexivity|].
    change (paused_of w3 x) with (paused_of w x) in Hx.
    specialize (Hex x Hx). destruct Hc as [Hc | [Hc | Hc]]; congruence.
Qed.

Lemma exclusive_run (c : call) (w : world) :
  callable c w -> all_singlePlay w -> exclusive w -> exclusive (run c w).
Proof.
  intros Hc Hall Hex. destruct c as [act | a b | a b sp | a b]; cbn [run callable] in *.
  - destruct act as [a sp | a | a | a | a | | a | a]; cbn [exec enabled] in *.
    + apply (quieter_exclusive w); [apply quieter_create | exact Hex].
    + destruct Hc as [p Hp]. apply (exclusive_play a w p Hp); [eapply Hall, Hp | exact Hex].
    + apply exclusive_pause, Hex.
    + unfold togglePlay. destruct Hc as [p Hp]. rewrite Hp. destruct (isPlaying p).
      * apply exclusive_pause, Hex.
      * apply (exclusive_play a w p Hp); [eapply Hall, Hp | exact Hex].
    + apply (quieter_exclusive w); [apply quieter_media_ended | exact Hex].
    + apply (quieter_exclusive w); [apply quieter_deliver | exact Hex].
    + destruct Hc as [p Hp].
      apply (exclusive_play_refused a w p Hp); [eapply Hall, Hp | exact Hex].
    + apply (quieter_exclusive w); [apply quieter_audio_pause | exact Hex].
  - apply (quieter_exclusive w); [apply quieter_audio_load | exact Hex].
  - unfold loadTrack, load. destruct Hc as [p Hp]. rewrite Hp.
    set (w1 := if isPlaying p then pause a w else w).
    assert (H1 : exclusive w1).
    { unfold w1. destruct (isPlaying p); [apply exclusive_pause|]; exact Hex. }
    eapply quieter_exclusive; [|exact H1].
    eapply quieter_trans; [|apply quieter_audio_load].
    eapply quieter_trans; [|apply quieter_merge_singlePlay].
    eapply quieter_trans; apply quieter_audio_load.
  - unfold destroy. apply (quieter_exclusive (pause a w)); [apply quieter_audio_load|].
    apply exclusive_pause, Hex.
Qed.

Lemma single_play_history_exclusive (w : world) :
  single_play_history w -> all_singlePlay w /\ exclusive w.
Proof.
  induction 1 as [|w c Hr [Hall Hex] Hc Hall'].
  - split.
    + intros a p H. cbn [initial players] in H. rewrite lookup_empty in H. discriminate.
    + intros a H. unfold paused_of in H. cbn [initial players] in H.
      rewrite lookup_empty in H. discriminate.
  - split; [exact Hall'|]. apply exclusive_run; assumption.
Qed.

Lemma reachable_single (w : world) :
  reachable w -> all_singlePlay w -> single_play_history w.
Proof.
  induction 1 as [|w act Hr IH Hen]; intros Hall; [constructor|].
  apply (single_step w (Method act)); [|exact Hen | exact Hall].
  apply IH, (singlePlay_exec act w (reachable_base w Hr) Hen Hall).
Qed.

(** C1 as stated fails twice.  On a page with a player that is not in
    single-play mode, the second of two single-play players is started
    while the other kind holds the reference, and is not told of the
    first: both single-play players sound and are flagged.  And with two
    single-play players only, a player that is loaded again while it
    plays is silenced without a [pause] event: it stays flagged, and
    when the other one is started it is paused to no effect, so that
    [isPlaying] of the holder does not become false and two flags are
    up. *)
Lemma single_play_exclusivity_fails :
  (reachable mixed_page /\
   singlePlay <$> players mixed_page !! 1 = Some true /\
   singlePlay <$> players mixed_page !! 2 = Some true /\
   sounding mixed_page 1 /\ sounding mixed_page 2 /\
   flagged (settle mixed_page) 1 /\ flagged (settle mixed_page) 2) /\
  (reachable_with_loads reloaded_page /\
   single_play_history reloaded_page /\
   holder reloaded_page 1 /\
   singlePlay <$> players reloaded_page !! 2 = Some true /\
   ~ sounding reloaded_page 1 /\
   flagged (settle (play 2 reloaded_page)) 1 /\
   flagged (settle (play 2 reloaded_page)) 2).
Proof.
  split.
  - split.
    { unfold mixed_page. repeat (apply reachable_step); try apply reachable_initial;
        cbn [enabled]; try exact I; try reflexivity; eexists; reflexivity. }
    split; [reflexivity|]. split; [reflexivity|].
    rewrite !sounding_paused_of, !flagged_playing_of. repeat split; reflexivity.
  - assert (Hall : forall w : world,
              map_Forall (fun _ p => singlePlay p = true) (players w) -> all_singlePlay w).
    { intros w H a p Hp. apply (H a p Hp). }
    assert (Hh : single_play_history reloaded_page).
    { unfold reloaded_page.
      repeat (apply single_step);
        try apply single_initial;
        try (apply Hall; apply (bool_decide_unpack _); vm_compute; reflexivity);
        cbn [callable enabled]; try exact I; try reflexivity; eexists; reflexivity. }
    split.
    { unfold reloaded_page. repeat (apply loads_step); try apply loads_initial;
        cbn [callable enabled]; try exact I; try reflexivity; eexists; reflexivity. }
    split; [exact Hh|]. split; [reflexivity|]. split; [reflexivity|].
    rewrite !sounding_paused_of, !flagged_playing_of.
    split; [vm_compute; discriminate|]. split; reflexivity.
Qed.

(** C1, amended.  The histories are made of constructor calls, [play()]
    (let to start or refused by the browser), [pause()], [togglePlay()],
    the end of a track, a pause that the browser makes of its own accord,
    the dispatch of a queued event and, where said, [load], [loadTrack]
    and [destroy].  First, on every page that calls and loads can reach,
    where [B] is the holder of [currentlyPlaying] and a different player
    [A] is in single-play mode, [A.play()] pauses [B] before it starts
    [A] (here the element of [A] is let to start): the [pause] event of
    [B] (if [B] was sounding) is queued before
    the [play] event of [A], [B] no longer sounds and [A] does, and [A]
    is the one holder.  Once the queued events are dispatched
    [B.isPlaying] is false if [B] was sounding, and [A.isPlaying] is true
    if [A] was not; both hold whenever the flags of the page were in
    step with its elements.  Second, on a page whose players have all
    been in single-play mode all along, a sounding player is the holder,
    so that at most one player sounds.  Third, the pages reached without
    [load], [loadTrack] and [destroy] have their flags in step with
    their elements, and when every player is in single-play mode at most
    one [isPlaying] flag is up on them however many queued events are
    dispatched. *)
Theorem single_play_exclusivity :
  (forall (w : world) (A B : nat) (pA pB : player),
     reachable_with_loads w -> A <> B ->
     players w !! A = Some pA -> players w !! B = Some pB ->
     holder w B -> singlePlay pA = true ->
     let w' := play A w in
     pending w' = (pending w ++ (if audio_paused pB then [] else [(B, EvPause)]))
                  ++ (if audio_paused pA then [(A, EvPlay)] else []) /\
     ~ sounding w' B /\ sounding w' A /\
     (forall c, holder w' c <-> c = A) /\
     (forall c, holder (settle w') c <-> c = A) /\
     (audio_paused pB = false \/ coherent w -> ~ flagged (settle w') B) /\
     (audio_paused pA = true \/ coherent w -> flagged (settle w') A)) /\
  (forall w : world,
     single_play_history w ->
     all_singlePlay w /\
     (forall a b, holder w a -> holder w b -> a = b) /\
     (forall a, sounding w a -> holder w a) /\
     (forall a b, sounding w a -> sounding w b -> a = b)) /\
  (forall w : world,
     reachable w ->
     reachable_with_loads w /\ coherent w /\
     (all_singlePlay w ->
      single_play_history w /\
      forall k a b, flagged (deliver_n k w) a -> flagged (deliver_n k w) b -> a = b)).
Proof.
  split; [|split].
  - intros w A B pA pB Hr Hne HA HB Hh Hsp w'.
    pose proof (loads_events_exist w Hr) as Hex.
    assert (Hex' : events_exist w').
    { apply (grows_events_exist w); [apply grows_play; eauto | exact Hex]. }
    destruct (play_cases A w pA HA) as [(b & Hc & _ & _ & E) | [Hc _]].
    2:{ unfold holder in Hh. destruct Hc as [Hc | [Hc | Hc]]; congruence. }
    unfold holder in Hh. rewrite Hh in Hc. injection Hc as <-.
    set (w1 := set_currentlyPlaying None w) in E.
    set (w2 := audio_pause B w1) in E.
    set (w3 := set_currentlyPlaying (Some A) w2) in E.
    assert (Ha3 : is_Some (players w3 !! A)).
    { apply (micro_is_Some w2 w3), (micro_is_Some w1 w2), (micro_is_Some w w1); eauto.
      - apply micro_set_currentlyPlaying.
      - apply micro_audio_pause.
      - apply micro_set_currentlyPlaying. }
    assert (HpA : paused_of w A = audio_paused pA) by (unfold paused_of; rewrite HA; reflexivity).
    assert (HpB : paused_of w B = audio_paused pB) by (unfold paused_of; rewrite HB; reflexivity).
    assert (Hp3A : paused_of w3 A = audio_paused pA).
    { change (paused_of w3 A) with (paused_of w2 A). unfold w2. rewrite audio_pause_paused.
      rewrite bool_decide_false by exact Hne. exact HpA. }
    assert (HqB : paused_of w' B = true).
    { unfold w'. rewrite E, audio_play_paused by exact Ha3.
      rewrite bool_decide_false by congruence.
      change (paused_of w3 B) with (paused_of w2 B). unfold w2. rewrite audio_pause_paused.
      rewrite bool_decide_true by reflexivity. reflexivity. }
    assert (HqA : paused_of w' A = false).
    { unfold w'. rewrite E, audio_play_paused by exact Ha3.
      rewrite bool_decide_true by reflexivity. reflexivity. }
    assert (Hcur : currentlyPlaying w' = Some A).
    { unfold w'. rewrite E, audio_play_cur. reflexivity. }
    assert (Hpend : pending w'
                    = (pending w ++ (if audio_paused pB then [] else [(B, EvPause)]))
                      ++ (if audio_paused pA then [(A, EvPlay)] else [])).
    { unfold w'. rewrite E, audio_play_pending by exact Ha3. rewrite Hp3A.
      change (pending w3) with (pending w2). unfold w2. rewrite audio_pause_pending.
      change (paused_of w1 B) with (paused_of w B). rewrite HpB. reflexivity. }
    assert (Hflags : forall x, playing_of w' x = playing_of w x).
    { intros x. unfold w'. rewrite E, audio_play_playing.
      change (playing_of w3 x) with (playing_of w2 x). unfold w2.
      rewrite audio_pause_playing. reflexivity. }
    destruct (deliver_n_readings (length (pending w')) w' Hex') as (Hsc & _ & Hsf).
    assert (Hsettled : forall x,
              playing_of (settle w') x
              = flag_after (if audio_paused pA then [(A, EvPlay)] else []) x
                  (flag_after (if audio_paused pB then [] else [(B, EvPause)]) x
                     (flag_after (pending w) x (playing_of w x)))).
    { intros x. unfold settle. rewrite Hsf. unfold flag_at. rewrite firstn_all.
      rewrite Hpend, Hflags, !flag_after_app. reflexivity. }
    split; [exact Hpend|]. split; [|split; [|split; [|split; [|split]]]].
    + rewrite sounding_paused_of, HqB. discriminate.
    + rewrite sounding_paused_of. exact HqA.
    + intros c. unfold holder. rewrite Hcur. split; congruence.
    + intros c. unfold holder, settle. rewrite Hsc, Hcur. split; congruence.
    + intros Hcase. rewrite flagged_playing_of, Hsettled.
      rewrite (flag_after_absent (if audio_paused pA then [(A, EvPlay)] else []) B).
      2:{ intros ev. destruct (audio_paused pA); [|intros []].
          intros [H | []]. congruence. }
      destruct (audio_paused pB) eqn:EpB.
      * destruct Hcase as [Hcase | Hco]; [discriminate Hcase|].
        cbn [flag_after]. rewrite (Hco B), HpB. discriminate.
      * cbn [flag_after]. rewrite bool_decide_true by reflexivity. discriminate.
    + intros Hcase. rewrite flagged_playing_of, Hsettled.
      destruct (audio_paused pA) eqn:EpA.
      * cbn [flag_after]. rewrite bool_decide_true by reflexivity. reflexivity.
      * destruct Hcase as [Hcase | Hco]; [discriminate Hcase|].
        cbn [flag_after].
        rewrite (flag_after_absent (if audio_paused pB then [] else [(B, EvPause)]) A).
        2:{ intros ev. destruct (audio_paused pB); [intros []|].
            intros [H | []]. congruence. }
        rewrite (Hco A), HpA. reflexivity.
  - intros w Hh. destruct (single_play_history_exclusive w Hh) as [Hall Hexc].
    split; [exact Hall|]. split; [|split].
    + unfold holder. intros a b Ha Hb. congruence.
    + intros a Ha. apply Hexc, sounding_paused_of, Ha.
    + intros a b Ha Hb. apply sounding_paused_of in Ha, Hb.
      pose proof (Hexc a Ha). pose proof (Hexc b Hb). congruence.
  - intros w Hr. split; [apply reachable_loads, Hr|].
    split; [apply (reachable_base w Hr)|]. intros Hall.
    split; [apply reachable_single; assumption|].
    destruct (reachable_steady w Hr Hall) as [(Hb & Hone & _) _].
    intros k a b Ha Hb'. rewrite flagged_playing_of in Ha, Hb'.
    destruct (deliver_n_readings k w (proj1 Hb)) as (_ & _ & Hf).
    rewrite Hf in Ha, Hb'. eapply Hone; eassumption.
Qed.

End PlayerFacts.

Lemma single_play_exclusivity_witness :
  let w := Player.run (Player.Method Player.Deliver)
             (Player.run (Player.Method (Player.Play 2))
                (Player.run (Player.Load 2 false)
                   (Player.run (Player.Method (Player.Create 2 true))
                      (Player.run (Player.Method (Player.Create 1 true)) Player.initial)))) in
  Player.pending (Player.play 1 w) = [(2, Player.EvPause); (1, Player.EvPlay)]%nat /\
  ~ Player.flagged (Player.settle (Player.play 1 w)) 2 /\
  Player.flagged (Player.settle (Player.play 1 w)) 1.
Proof.
  intros w.
  assert (Hr : Player.reachable_with_loads w).
  { unfold w. repeat (apply Player.loads_step); try apply Player.loads_initial;
      cbn [Player.callable Player.enabled]; try exact I; try reflexivity;
      eexists; reflexivity. }
  destruct (proj1 single_play_exclusivity w 1%nat 2%nat
              {| Player.singlePlay := true; Player.audio_paused := true;
                 Player.isPlaying := false |}
              {| Player.singlePlay := true; Player.audio_paused := false;
                 Player.isPlaying := true |}
              Hr) as (Hq & _ & _ & _ & _ & HB & HA);
    try reflexivity; try discriminate.
  split; [exact Hq|]. split; [apply HB; left; reflexivity | apply HA; left; reflexivity].
Defined.

(** ** More on the resampler *)

Section ResamplerMore.

Lemma resampleData_up (data : list Q) (targetLength : Z) :
  0 < len data < targetLength ->
  resampleData data targetLength
  = map (upsample_at data (inject_Z (len data - 1) / inject_Z (targetLength - 1)))
      (seqZ 0 targetLength).
Proof.
  intros H. unfold resampleData.
  destruct (len data =? targetLength) eqn:E1; [apply Z.eqb_eq in E1; lia|].
  destruct (len data =? 0) eqn:E2; [apply Z.eqb_eq in E2; lia|].
  destruct (targetLength =? 0) eqn:E3; [apply Z.eqb_eq in E3; lia|].
  destruct (len data <? targetLength) eqn:E4; [|apply Z.ltb_ge in E4; lia].
  cbn [orb]. rewrite for_loop_push. rewrite Z2Nat.id by lia. reflexivity.
Qed.

Lemma resampleData_nothing (data : list Q) (targetLength : Z) :
  data = [] \/ targetLength <= 0 -> resampleData data targetLength = [].
Proof.
  assert (Hlen : 0 <= len data) by (unfold len; lia).
  intros H. unfold resampleData.
  destruct (len data =? targetLength) eqn:E1.
  - apply Z.eqb_eq in E1. destruct H as [-> | H]; [reflexivity|].
    destruct data; [reflexivity|]. unfold len in E1. simpl in E1. lia.
  - destruct (len data =? 0) eqn:E2; [reflexivity|].
    destruct (targetLength =? 0) eqn:E3; [reflexivity|]. cbn [orb].
    destruct H as [-> | H]; [discriminate E2|].
    destruct (len data <? targetLength) eqn:E4; [apply Z.ltb_lt in E4; lia|].
    replace (Z.to_nat targetLength) with 0%nat by lia. reflexivity.
Qed.

Lemma resampleData_len (data : list Q) (targetLength : Z) :
  data <> [] -> 0 < targetLength -> len (resampleData data targetLength) = targetLength.
Proof.
  intros Hne Ht.
  assert (Hpos : 0 < len data).
  { destruct data; [contradiction|]. unfold len. simpl. lia. }
  destruct (Z.lt_trichotomy (len data) targetLength) as [Hlt | [Heq | Hgt]].
  - rewrite resampleData_up by lia. unfold len. rewrite length_map, length_seqZ. lia.
  - unfold resampleData. rewrite (proj2 (Z.eqb_eq _ _) Heq). exact Heq.
  - rewrite resampleData_down by lia. unfold len. rewrite length_map, length_seqZ. lia.
Qed.

(** X1.  The length of the result: nothing for an empty input or a
    target that is not positive, and exactly [targetLength] values
    otherwise. *)
Theorem resampleData_length (data : list Q) (targetLength : Z) :
  (data = [] \/ targetLength <= 0 -> resampleData data targetLength = []) /\
  (data <> [] -> 0 < targetLength -> len (resampleData data targetLength) = targetLength).
Proof.
  split; [apply resampleData_nothing | apply resampleData_len].
Qed.

Lemma resampleData_length_witness : len (resampleData [0; 1]%Q 5) = 5.
Proof.
  apply (proj2 (resampleData_length [0; 1]%Q 5)); [discriminate | lia].
Defined.

(** The position read by the upsampling loop, and its integer parts. *)
Lemma upsample_index (n t i : Z) :
  0 < n < t -> 0 <= i < t ->
  let index := (inject_Z i * (inject_Z (n - 1) / inject_Z (t - 1)))%Q in
  Qfloor index = i * (n - 1) / (t - 1) /\
  0 <= Qfloor index <= Qceiling index /\
  Qfloor index <= n - 1 /\
  (0 <= index - inject_Z (Qfloor index) <= 1)%Q.
Proof.
  intros Hn Hi index.
  assert (Hf : Qfloor index = i * (n - 1) / (t - 1)).
  { unfold index. apply floor_scaled. lia. }
  split; [exact Hf|]. split; [|split].
  - split; [rewrite Hf; apply Z.div_pos; nia | rewrite Zle_Qle; apply Qle_floor_ceiling].
  - rewrite Hf. apply Z.div_le_upper_bound; nia.
  - split.
    + apply (Qplus_le_l _ _ (inject_Z (Qfloor index))).
      setoid_replace (index - inject_Z (Qfloor index) + inject_Z (Qfloor index))%Q
        with index using relation Qeq by ring.
      rewrite Qplus_0_l. apply Qfloor_le.
    + apply (Qplus_le_l _ _ (inject_Z (Qfloor index))).
      setoid_replace (index - inject_Z (Qfloor index) + inject_Z (Qfloor index))%Q
        with index using relation Qeq by ring.
      apply Qlt_le_weak. pose proof (Qlt_floor index) as H.
      rewrite inject_Z_plus in H. rewrite Qplus_comm. exact H.
Qed.

Lemma convex_bounds (a b f lo hi : Q) :
  (lo <= a <= hi)%Q -> (lo <= b <= hi)%Q -> (0 <= f <= 1)%Q ->
  (lo <= a * (1 - f) + b * f <= hi)%Q.
Proof.
  intros [Ha1 Ha2] [Hb1 Hb2] [Hf1 Hf2].
  assert (Hg : (0 <= 1 - f)%Q).
  { apply (Qplus_le_l _ _ f). ring_simplify. exact Hf2. }
  assert (El : (lo * (1 - f) + lo * f == lo)%Q) by ring.
  assert (Eh : (hi * (1 - f) + hi * f == hi)%Q) by ring.
  split.
  - apply Qle_trans with (lo * (1 - f) + lo * f)%Q; [rewrite El; apply Qle_refl|].
    apply Qplus_le_compat; apply Qmult_le_compat_r; assumption.
  - apply Qle_trans with (hi * (1 - f) + hi * f)%Q; [|rewrite Eh; apply Qle_refl].
    apply Qplus_le_compat; apply Qmult_le_compat_r; assumption.
Qed.

Lemma upsample_at_bounds (data : list Q) (t i : Z) (lo hi : Q) :
  0 < len data < t -> 0 <= i < t ->
  (forall x, In x data -> (lo <= x <= hi)%Q) ->
  (lo <= upsample_at data (inject_Z (len data - 1) / inject_Z (t - 1)) i <= hi)%Q.
Proof.
  intros Hn Hi Hall.
  destruct (upsample_index (len data) t i Hn Hi) as (_ & [H0 Hle] & Hup & Hfr).
  unfold upsample_at.
  set (index := (inject_Z i * (inject_Z (len data - 1) / inject_Z (t - 1)))%Q) in *.
  destruct (len data <=? Qceiling index) eqn:E1.
  - apply Hall, get_num_in_range. lia.
  - apply Z.leb_gt in E1. destruct (Qfloor index =? Qceiling index) eqn:E2.
    + apply Hall, get_num_in_range. lia.
    + apply convex_bounds; [| | exact Hfr]; apply Hall, get_num_in_range; lia.
Qed.

Lemma nth_error_seqZ (k : nat) :
  forall m n, Z.of_nat k < n -> nth_error (seqZ m n) k = Some (m + Z.of_nat k).
Proof.
  induction k as [|k IH]; intros m n H; rewrite seqZ_cons by lia.
  - cbn [nth_error]. f_equal. lia.
  - cbn [nth_error]. rewrite IH by lia. f_equal. lia.
Qed.

Lemma resampleData_up_between (data : list Q) (targetLength : Z) (lo hi : Q) :
  0 < len data < targetLength ->
  (forall x, In x data -> (lo <= x <= hi)%Q) ->
  Forall (fun y => (lo <= y <= hi)%Q) (resampleData data targetLength).
Proof.
  intros Hn Hall. rewrite resampleData_up by exact Hn.
  apply Forall_forall. intros y Hy. apply list_elem_of_In, in_map_iff in Hy.
  destruct Hy as (i & <- & Hin). apply list_elem_of_In, elem_of_seqZ in Hin.
  apply upsample_at_bounds; [exact Hn | lia | exact Hall].
Qed.

(** X2.  Upsampling starts from the first value of the input: the
    result has [targetLength] values, and the first one is the first
    value of the input, taken as it is. *)
Theorem resampleData_up_interpolates (data : list Q) (targetLength : Z) :
  0 < len data < targetLength ->
  len (resampleData data targetLength) = targetLength /\
  get (resampleData data targetLength) 0 = get data 0.
Proof.
  intros Hn. split.
  { apply resampleData_len; [|lia]. intros ->. unfold len in Hn. cbn in Hn. lia. }
  rewrite resampleData_up by exact Hn.
  set (ratio := (inject_Z (len data - 1) / inject_Z (targetLength - 1))%Q).
  unfold get at 1. cbn [Z.ltb Z.compare Z.to_nat]. rewrite nth_error_map.
  rewrite nth_error_seqZ by (cbn [Z.of_nat]; lia). cbn [option_map].
  change (0 + Z.of_nat (Z.to_nat 0)) with 0. unfold upsample_at. fold ratio.
  assert (E : Qfloor (inject_Z 0 * ratio) = 0 /\ Qceiling (inject_Z 0 * ratio) = 0).
  { split; [rewrite <- (Qfloor_Z 0) at 2 | rewrite <- (Qceiling_Z 0) at 2];
      [apply Qfloor_comp | apply Qceiling_comp]; ring. }
  destruct E as [-> ->].
  destruct (len data <=? 0) eqn:E1; [apply Z.leb_le in E1; lia|].
  cbn [Z.eqb]. unfold get_num. destruct (get_in_range data 0) as [v Hv]; [lia|].
  rewrite Hv. reflexivity.
Qed.

Lemma resampleData_up_interpolates_witness :
  len (resampleData [1 # 2; 1]%Q 10) = 10 /\
  get (resampleData [1 # 2; 1]%Q 10) 0 = get [1 # 2; 1]%Q 0.
Proof.
  apply (resampleData_up_interpolates [1 # 2; 1]%Q 10).
  vm_compute. split; reflexivity.
Defined.

(** The running maximum of a bucket is at least every element visited. *)
Lemma bucket_loop_ge (data : list Q) (end_ : Z) :
  forall (fuel : nat) (j : Z) (max : Q) (count : Z),
    len data - j <= Z.of_nat fuel ->
    (max <= fst (bucket_loop fuel data j end_ max count))%Q /\
    forall k, j <= k <= end_ -> k < len data ->
      (get_num data k <= fst (bucket_loop fuel data j end_ max count))%Q.
Proof.
  induction fuel as [|fuel IH]; intros j max count Hfuel.
  - split; [apply Qle_refl | intros k Hk Hlt; lia].
  - cbn [bucket_loop]. destruct ((j <=? end_) && (j <? len data)) eqn:E.
    + apply andb_true_iff in E. destruct E as [E1 E2].
      apply Z.leb_le in E1. apply Z.ltb_lt in E2.
      set (max' := if ltb max (get_num data j) then get_num data j else max).
      assert (Hm : (max <= max')%Q /\ (get_num data j <= max')%Q).
      { unfold max'. destruct (ltb max (get_num data j)) eqn:El.
        - apply ltb_lt in El. split; [apply Qlt_le_weak, El | apply Qle_refl].
        - apply ltb_ge in El. split; [apply Qle_refl | exact El]. }
      destruct (IH (j + 1) max' (count + 1)) as [H1 H2]; [lia|].
      split; [eapply Qle_trans; [apply Hm | exact H1]|].
      intros k Hk Hlt. destruct (Z.eq_dec k j) as [-> | Hne].
      * eapply Qle_trans; [apply Hm | exact H1].
      * apply H2; lia.
    + split; [apply Qle_refl|]. intros k Hk Hlt.
      apply andb_false_iff in E.
      destruct E as [E | E]; [apply Z.leb_gt in E | apply Z.ltb_ge in E]; lia.
Qed.

Lemma resampleData_within (data : list Q) (targetLength : Z) (hi : Q) :
  (forall x, In x data -> (0 <= x <= hi)%Q) ->
  Forall (fun y => (0 <= y <= hi)%Q) (resampleData data targetLength).
Proof.
  intros Hall.
  assert (Hlen : 0 <= len data) by (unfold len; lia).
  destruct (Z.eq_dec (len data) targetLength) as [Heq | Hne].
  { unfold resampleData. rewrite (proj2 (Z.eqb_eq _ _) Heq).
    apply Forall_forall. intros y Hy. apply Hall, list_elem_of_In, Hy. }
  destruct (Z.eq_dec (len data) 0) as [H0 | Hn0].
  { rewrite resampleData_nothing; [constructor|]. left. destruct data; [reflexivity|].
    unfold len in H0. simpl in H0. lia. }
  destruct (Z_le_gt_dec targetLength 0) as [Ht | Ht].
  { rewrite resampleData_nothing; [constructor | right; exact Ht]. }
  destruct (Z_lt_le_dec (len data) targetLength) as [Hlt | Hge].
  - apply (resampleData_up_between data targetLength 0 hi); [lia | exact Hall].
  - rewrite resampleData_down by lia.
    assert (Hhi : (0 <= hi)%Q).
    { destruct data as [|x r]; [unfold len in Hn0; simpl in Hn0; lia|].
      destruct (Hall x (or_introl eq_refl)) as [H1 H2]. eapply Qle_trans; eassumption. }
    apply Forall_forall. intros y Hy. apply list_elem_of_In, in_map_iff in Hy.
    destruct Hy as (i & <- & _). split.
    + unfold downsample_at.
      destruct (bucket_scan data (inject_Z (len data) / inject_Z targetLength) i)
        as [max count] eqn:E.
      destruct (count =? 0).
      * match goal with |- (0 <= get_num ?d ?k)%Q =>
          destruct (get_num_cases d k) as [H | ->]; [apply Hall, H | apply Qle_refl] end.
      * change max with (fst (max, count)). rewrite <- E. unfold bucket_scan.
        apply (bucket_loop_ge data). lia.
    + apply downsample_at_bound; [intros x Hx; apply Hall, Hx | exact Hhi].
Qed.

(** X3.  An envelope stays an envelope: when no input value is
    negative, no value of the result is, whatever the target length; and
    when the result is no longer than the input, a bound of the input is
    a bound of the result. *)
Theorem resampleData_range (data : list Q) (targetLength : Z) (hi : Q) :
  (forall x, In x data -> (0 <= x <= hi)%Q) ->
  Forall (fun y => (0 <= y)%Q) (resampleData data targetLength) /\
  (targetLength <= len data ->
   Forall (fun y => (y <= hi)%Q) (resampleData data targetLength)).
Proof.
  intros Hall. pose proof (resampleData_within data targetLength hi Hall) as H.
  split; [|intros _]; (eapply Forall_impl; [exact H|]); intros y Hy; apply Hy.
Qed.

Lemma resampleData_range_witness :
  Forall (fun y => (0 <= y)%Q) (resampleData [0; 1; 0; 1]%Q 2) /\
  (2 <= len [0; 1; 0; 1]%Q -> Forall (fun y => (y <= 1)%Q) (resampleData [0; 1; 0; 1]%Q 2)).
Proof.
  apply (resampleData_range [0; 1; 0; 1]%Q 2 1).
  intros x [<- | [<- | [<- | [<- | []]]]]; split; discriminate.
Defined.

(** X4.  Downsampling keeps the peak: when the global maximum of the
    input is not negative, some value of the result equals it. *)
Theorem resampleData_down_keeps_max (data : list Q) (targetLength : Z) (m : Q) :
  0 < targetLength < len data ->
  Math_max data = Some m ->
  (0 <= m)%Q ->
  Exists (fun y => (y == m)%Q) (resampleData data targetLength).
Proof.
  intros Ht Hmax Hm.
  pose proof (Math_max_In data m Hmax) as Hin.
  apply In_nth_error in Hin. destruct Hin as [jn Hj].
  assert (Hjlt : (jn < List.length data)%nat) by (apply nth_error_Some; congruence).
  set (j := Z.of_nat jn).
  assert (Hgj : get_num data j = m).
  { unfold get_num, get, j. destruct (Z.of_nat jn <? 0) eqn:E; [apply Z.ltb_lt in E; lia|].
    rewrite Nat2Z.id, Hj. reflexivity. }
  set (i := j * targetLength / len data).
  assert (Hjr : 0 <= j < len data) by (unfold j, len; lia).
  assert (Hi : 0 <= i < targetLength).
  { unfold i. split; [apply Z.div_pos; nia | apply Z.div_lt_upper_bound; nia]. }
  set (bucketSize := (inject_Z (len data) / inject_Z targetLength)%Q).
  assert (Hs : bucket_start bucketSize i = i * len data / targetLength).
  { unfold bucket_start, bucketSize. apply floor_scaled. lia. }
  assert (He : bucket_end bucketSize i = (i + 1) * len data / targetLength).
  { unfold bucket_end, bucketSize. apply floor_scaled. lia. }
  assert (Hi1 : i * len data <= j * targetLength).
  { unfold i. rewrite Z.mul_comm. apply Z.mul_div_le. lia. }
  assert (Hi2 : j * targetLength < (i + 1) * len data).
  { unfold i. pose proof (Z.mul_succ_div_gt (j * targetLength) (len data)). lia. }
  assert (Hsj : bucket_start bucketSize i <= j).
  { rewrite Hs. apply Z.div_le_upper_bound; nia. }
  assert (Hje : j <= bucket_end bucketSize i).
  { rewrite He. apply Z.div_le_lower_bound; nia. }
  rewrite resampleData_down by exact Ht. fold bucketSize.
  apply Exists_exists. exists (downsample_at data bucketSize i). split.
  - apply list_elem_of_In, in_map_iff. exists i. split; [reflexivity|].
    apply list_elem_of_In, elem_of_seqZ. lia.
  - apply Qle_antisym.
    + apply downsample_at_bound; [apply Math_max_bound, Hmax | exact Hm].
    + unfold downsample_at. destruct (bucket_scan data bucketSize i) as [max count] eqn:E.
      assert (Hc : count = snd (bucket_scan data bucketSize i)) by (rewrite E; reflexivity).
      assert (Hmx : max = fst (bucket_scan data bucketSize i)) by (rewrite E; reflexivity).
      unfold bucket_scan in Hc, Hmx.
      rewrite bucket_loop_count in Hc by lia.
      destruct (count =? 0) eqn:E0; [apply Z.eqb_eq in E0; lia|].
      rewrite Hmx, <- Hgj.
      apply (bucket_loop_ge data (bucket_end bucketSize i)); lia.
Qed.

Lemma resampleData_down_keeps_max_witness :
  Exists (fun y => (y == 1)%Q) (resampleData [0; 1; 0; 1 # 2]%Q 2).
Proof.
  apply (resampleData_down_keeps_max [0; 1; 0; 1 # 2]%Q 2 1).
  - vm_compute. split; reflexivity.
  - reflexivity.
  - discriminate.
Defined.

End ResamplerMore.

(** ** More on the peak pipeline *)

Section AudioMore.

Import Placeholder.

Lemma min_le_l (a b : Q) : (Js.min a b <= a)%Q.
Proof.
  unfold Js.min. destruct (ltb b a) eqn:E.
  - apply ltb_lt in E. apply Qlt_le_weak, E.
  - apply Qle_refl.
Qed.

(** X5.  The placeholder envelope has [samples] values (none for a count
    that is not positive), each between 0.1 and 1, whatever
    [Math.random] and [Math.sin] return. *)
Theorem generatePlaceholderWaveform_range
  (random : Z -> Q) (sin : Q -> Q) (PI : Q) (samples : Z) :
  len (generatePlaceholderWaveform random sin PI samples) = Z.max 0 samples /\
  Forall (fun y => ((1 # 10) <= y <= 1)%Q)
    (generatePlaceholderWaveform random sin PI samples).
Proof.
  unfold generatePlaceholderWaveform. split.
  - unfold len. rewrite for_loop_push_length. lia.
  - apply Forall_forall. intros y Hy. apply list_elem_of_In, for_loop_push_In in Hy.
    destruct Hy as (k & _ & ->). split; [apply max_ge_l|].
    match goal with |- (Js.max ?a ?b <= 1)%Q =>
      destruct (max_cases a b) as [-> | ->]; [discriminate | apply min_le_l] end.
Qed.

(** X6.  [normalizePeaks] throws when the envelope has more values than
    the engine takes as arguments.  Otherwise it returns a silent
    envelope and one louder than the ceiling unchanged; an envelope of
    non-negative values whose maximum is positive and at most the
    ceiling is multiplied, value by value and in doubles, by the double
    quotient of the ceiling and the maximum (taken finite): the loudest
    value of the result is the product for the loudest input, and every
    value lies between 0 and it. *)
Theorem normalizePeaks_ceiling `{E : Engine} `{!EngineLaws E}
  (peaks : list Q) (targetMax m : Q) :
  Math_max peaks = Some m ->
  (max_arguments < len peaks -> normalizePeaks peaks targetMax = Throws) /\
  (len peaks <= max_arguments ->
   ((m == 0)%Q \/ (targetMax < m)%Q -> normalizePeaks peaks targetMax = Returns peaks) /\
   ((0 < m)%Q -> (m <= targetMax)%Q -> (targetMax / m <= max_value)%Q ->
    Forall (fun peak => (0 <= peak)%Q) peaks ->
    exists scaled m',
      normalizePeaks peaks targetMax = Returns scaled /\
      scaled = map (fun peak => peak *! (targetMax /! m)) peaks /\
      Math_max scaled = Some m' /\
      (m' == m *! (targetMax /! m))%Q /\
      Forall (fun y => (0 <= y <= m')%Q) scaled)).
Proof.
  intros Hm. unfold normalizePeaks. split.
  { intros Hbig. rewrite (spread_max_throws peaks Hbig). reflexivity. }
  intros Hfit. rewrite (spread_max_fits peaks Hfit), Hm. cbn [bind]. split.
  - intros [H | H].
    + apply Qeq_bool_iff in H. unfold eqb. rewrite H. reflexivity.
    + apply ltb_lt in H. rewrite H, orb_true_r. reflexivity.
  - intros Hpos Hle _ Hnn.
    assert (E1 : eqb m 0 = false).
    { unfold eqb. destruct (Qeq_bool m 0) eqn:Eb; [|reflexivity].
      apply Qeq_bool_iff in Eb. rewrite Eb in Hpos. exfalso. apply (Qlt_irrefl 0), Hpos. }
    assert (E2 : ltb targetMax m = false) by (apply ltb_ge, Hle).
    rewrite E1, E2. cbn [orb].
    assert (Hs : (0 <= targetMax /! m)%Q).
    { apply fdiv_nonneg; [|exact Hpos]. apply Qlt_le_weak. eapply Qlt_le_trans; eassumption. }
    destruct (Math_max_monotone (fun peak => peak *! (targetMax /! m)) peaks
                (fun x y => fmul_monotone (targetMax /! m) x y Hs) m Hm)
      as (m' & Em' & Hm').
    exists (map (fun peak => peak *! (targetMax /! m)) peaks), m'.
    split; [reflexivity|]. split; [reflexivity|]. split; [exact Em'|].
    split; [exact Hm'|].
    apply Forall_forall. intros y Hy. apply list_elem_of_In in Hy. split.
    + apply in_map_iff in Hy. destruct Hy as (x & <- & Hx).
      apply fmul_nonneg; [|exact Hs].
      rewrite Forall_forall in Hnn. apply Hnn, list_elem_of_In, Hx.
    + apply (Math_max_bound _ m' Em' y Hy).
Qed.

Lemma normalizePeaks_ceiling_witness :
  exists scaled m',
    normalizePeaks (E := Examples.binary64) [1 # 4; 1 # 2]%Q double_0_95 = Returns scaled /\
    scaled = map (fun peak => fmul (E := Examples.binary64) peak
                                (fdiv (E := Examples.binary64) double_0_95 (1 # 2)))
               [1 # 4; 1 # 2]%Q /\
    Math_max scaled = Some m' /\
    (m' == fmul (E := Examples.binary64) (1 # 2)
             (fdiv (E := Examples.binary64) double_0_95 (1 # 2)))%Q /\
    Forall (fun y => (0 <= y <= m')%Q) scaled.
Proof.
  apply (proj2 (normalizePeaks_ceiling (E := Examples.binary64)
                  (EngineLaws0 := binary64_laws)
                  [1 # 4; 1 # 2]%Q double_0_95 (1 # 2) eq_refl)).
  - vm_compute. discriminate.
  - reflexivity.
  - discriminate.
  - vm_compute. discriminate.
  - repeat constructor; discriminate.
Defined.

(** In binary64 the loudest value of the scaled envelope can pass the
    ceiling by one unit in the last place: with peaks 0.225 and 0.45 and
    the ceiling 0.95 it is 0.9500000000000001. *)
Lemma normalizePeaks_overshoots :
  exists scaled m',
    normalizePeaks (E := Examples.binary64)
      [binary64_round (225 # 1000); double_0_45] double_0_95 = Returns scaled /\
    Math_max scaled = Some m' /\ (double_0_95 < m')%Q.
Proof.
  eexists. eexists. split; [vm_compute; reflexivity|]. split; reflexivity.
Qed.

End AudioMore.

(** ** More on the tempo detector *)

Section OnsetsMore.

Import OnsetShape.

Lemma last_cons (r : list Z) : forall o d, List.last (o :: r) d = List.last r o.
Proof.
  induction r as [|a r IH]; intros o d; [reflexivity|].
  change (List.last (o :: a :: r) d) with (List.last (a :: r) d).
  rewrite (IH a d), (IH a o). reflexivity.
Qed.

Lemma chain_app (R : Z -> Z -> Prop) (l : list Z) (x : Z) :
  forall prev, chain R prev (l ++ [x]) <-> chain R prev l /\ R (List.last l prev) x.
Proof.
  induction l as [|o r IH]; intros prev.
  - simpl. tauto.
  - cbn [app chain]. rewrite IH, last_cons. tauto.
Qed.

Lemma last_bound (P : Z -> Prop) (l : list Z) (d : Z) :
  P d -> Forall P l -> P (List.last l d).
Proof.
  intros Hd Hl. revert d Hd. induction Hl as [|x l Hx Hl IH]; intros d Hd; [exact Hd|].
  rewrite last_cons. apply IH, Hx.
Qed.

Lemma increasing_app (l : list Z) (x : Z) :
  increasing l -> Forall (fun o => o < x) l -> increasing (l ++ [x]).
Proof.
  destruct l as [|o r]; [simpl; auto|]. intros Hi Hl. cbn [app increasing] in *.
  apply chain_app. split; [exact Hi|].
  apply (last_bound (fun o => o < x)); [|].
  - apply Forall_cons in Hl. apply Hl.
  - apply Forall_cons in Hl. apply Hl.
Qed.

Lemma onset_loop_shape (channelData : list Q) (sampleRate : Q) :
  forall (fuel : nat) (i : Z) (st : list Z * Q),
    0 <= i -> i mod 1024 = 0 ->
    onsets_shape channelData sampleRate i (fst st) ->
    exists bound,
      onsets_shape channelData sampleRate bound
        (fst (onset_loop fuel channelData sampleRate i st)).
Proof.
  induction fuel as [|fuel IH]; intros i st Hi Hmod Hsh; [exists i; exact Hsh|].
  cbn [onset_loop]. destruct (i <? len channelData - 2048) eqn:E; [|exists i; exact Hsh].
  apply Z.ltb_lt in E. apply IH; [lia | |].
  - replace (i + 1024) with (i + 1 * 1024) by lia. rewrite Z_mod_plus_full. exact Hmod.
  - destruct st as [onsets previousEnergy]. destruct Hsh as (Hall & Hch & Hinc).
    cbn [fst] in *. unfold onset_step, onset_update.
    assert (Hweak : Forall (fun o => 0 <= o < i + 1024 /\ o mod 1024 = 0
                                     /\ o + 2048 < len channelData) onsets).
    { eapply Forall_impl; [exact Hall|]. cbv beta. intros o Ho. lia. }
    match goal with
    | |- onsets_shape _ _ _ (fst (if ?c then _ else _, _)) => destruct c
    end; cbn [fst]; [|split; [exact Hweak | split; assumption]].
    destruct (ltb (sampleRate * (15 # 100)) (inject_Z (i - List.last onsets 0))) eqn:El;
      [|split; [exact Hweak | split; assumption]].
    apply ltb_lt in El. split; [|split].
    + apply Forall_app. split; [exact Hweak|]. constructor; [lia | constructor].
    + apply chain_app. split; [exact Hch | exact El].
    + apply increasing_app; [exact Hinc|].
      eapply Forall_impl; [exact Hall|]. cbv beta. intros o Ho. lia.
Qed.

(** X7.  The onsets that [detectOnsets] returns are window starts:
    multiples of the hop size 1024 that leave room for a whole window;
    they are strictly increasing, and each lies more than 0.15 s (in
    frames, [sampleRate * 0.15]) after the one before it, the first one
    after frame 0. *)
Theorem detectOnsets_shape (channelData : list Q) (sampleRate : Q) :
  let onsets := detectOnsets channelData sampleRate in
  Forall (fun o => 0 <= o /\ o mod 1024 = 0 /\ o + 2048 < len channelData) onsets /\
  increasing onsets /\
  chain (fun a b => (sampleRate * (15 # 100) < inject_Z (b - a))%Q) 0 onsets.
Proof.
  cbv zeta. unfold detectOnsets.
  destruct (onset_loop_shape channelData sampleRate (List.length channelData) 0 ([], 0%Q))
    as (bound & Hall & Hch & Hinc).
  - lia.
  - reflexivity.
  - split; [constructor | split; exact I].
  - split; [|split; [exact Hinc | exact Hch]].
    eapply Forall_impl; [exact Hall|]. cbv beta. intros o Ho. lia.
Qed.

(** The energy of a window of quiet frames. *)
Lemma energy_sum_bound (channelData : list Q) (b : Q) :
  (0 <= b)%Q ->
  Forall (fun v => (v * v <= b)%Q) channelData ->
  forall (n : nat) (i : Z) (e : Q),
    (for_loop n i
       (fun j energy => energy + get_num channelData j * get_num channelData j) e
     <= e + inject_Z (Z.of_nat n) * b)%Q.
Proof.
  intros Hb Hq. induction n as [|n IH]; intros i e.
  - cbn [for_loop Z.of_nat]. rewrite Qmult_0_l, Qplus_0_r. apply Qle_refl.
  - cbn [for_loop]. eapply Qle_trans; [apply IH|].
    assert (Hg : (get_num channelData i * get_num channelData i <= b)%Q).
    { destruct (get_num_cases channelData i) as [H | ->].
      - rewrite Forall_forall in Hq. apply Hq, list_elem_of_In, H.
      - exact Hb. }
    rewrite Nat2Z.inj_succ, <- Z.add_1_r, inject_Z_plus.
    apply Qle_trans with (e + b + inject_Z (Z.of_nat n) * b)%Q.
    + apply Qplus_le_compat; [|apply Qle_refl].
      apply Qplus_le_compat; [apply Qle_refl | exact Hg].
    + apply Qle_lteq. right. ring.
Qed.

Lemma window_energy_quiet (channelData : list Q) (i : Z) :
  Forall (fun v => (v * v <= 1 # 100)%Q) channelData ->
  (window_energy channelData i <= 1 # 100)%Q.
Proof.
  intros Hq. unfold window_energy. apply Qle_shift_div_r; [reflexivity|].
  eapply Qle_trans; [apply (energy_sum_bound channelData (1 # 100)); [discriminate | exact Hq]|].
  rewrite Qplus_0_l. apply Qle_lteq. right. reflexivity.
Qed.

Lemma onset_loop_none (channelData : list Q) (sampleRate : Q) :
  len channelData <= 2048 \/ Forall (fun v => (v * v <= 1 # 100)%Q) channelData ->
  forall (fuel : nat) (i : Z) (previousEnergy : Q),
    0 <= i ->
    fst (onset_loop fuel channelData sampleRate i ([], previousEnergy)) = [].
Proof.
  intros H. induction fuel as [|fuel IH]; intros i e Hi; [reflexivity|].
  cbn [onset_loop]. destruct (i <? len channelData - 2048) eqn:E; [|reflexivity].
  apply Z.ltb_lt in E. destruct H as [H | H]; [lia|].
  unfold onset_step, onset_update.
  assert (El : ltb (1 # 100) (window_energy channelData i) = false).
  { apply ltb_ge, window_energy_quiet, H. }
  rewrite El, andb_false_r. apply IH. lia.
Qed.

(** X8.  No onset, hence the default tempo: on a channel of at most 2048
    frames, and on a channel whose frames all have a square of at most
    0.01 (an amplitude of at most 0.1), [detectOnsets] returns no onset
    and [detectBPM] returns 120. *)
Theorem detectBPM_quiet `{Eng : Engine} (buffer : AudioBuffer) (channelData : list Q) :
  getChannelData buffer 0 = Some channelData ->
  len channelData <= 2048 \/ Forall (fun v => (v * v <= 1 # 100)%Q) channelData ->
  detectOnsets channelData (sampleRate buffer) = [] /\
  detectBPM buffer = Some 120.
Proof.
  intros Hc Hq.
  assert (E : detectOnsets channelData (sampleRate buffer) = []).
  { unfold detectOnsets. apply onset_loop_none; [exact Hq | lia]. }
  split; [exact E|]. unfold detectBPM. rewrite Hc, E. reflexivity.
Qed.

Lemma detectBPM_quiet_witness :
  detectOnsets (0 :: (1 # 2) :: repeat 0 18)%Q (sampleRate Examples.click_buffer) = [] /\
  detectBPM (E := Examples.binary64) Examples.click_buffer = Some 120.
Proof.
  apply (detectBPM_quiet (Eng := Examples.binary64)
           Examples.click_buffer (0 :: (1 # 2) :: repeat 0 18)%Q).
  - reflexivity.
  - left. vm_compute. discriminate.
Defined.

Lemma votes_spec `{Eng : Engine} (onsets : list Z) (sampleRate : Q) (b : Z) :
  In b (votes onsets sampleRate) -> 60 < b < 200 /\ b mod 3 = 0.
Proof.
  intros H. apply votes_In in H. destruct H as (Hr & i & tempo & _ & _ & ->).
  split; [exact Hr | apply Z_mod_mult].
Qed.

(** X9.  What [detectBPM] can return: [null] exactly when channel 0
    cannot be read; otherwise 120, or one less than a multiple of 3 that
    lies strictly between 60 and 200. *)
Theorem detectBPM_values `{Eng : Engine} (buffer : AudioBuffer) :
  match detectBPM buffer with
  | None => getChannelData buffer 0 = None
  | Some bpm =>
      is_Some (getChannelData buffer 0) /\
      (bpm = 120 \/ (60 < bpm + 1 < 200 /\ (bpm + 1) mod 3 = 0))
  end.
Proof.
  unfold detectBPM. destruct (getChannelData buffer 0) as [channelData|]; [|reflexivity].
  cbv zeta.
  destruct (len (detectOnsets channelData (sampleRate buffer)) <? 2);
    (split; [eauto|]); [left; reflexivity|].
  right.
  pose proof (tempo_of_onsets_winner (detectOnsets channelData (sampleRate buffer))
                (sampleRate buffer)) as Hex.
  cbv zeta in Hex. destruct Hex as (winner & Hw & ->).
  set (ballot := votes (detectOnsets channelData (sampleRate buffer)) (sampleRate buffer)) in *.
  replace (corrected ballot winner - 1 + 1) with (corrected ballot winner) by lia.
  assert (Hgood : forall b, 0 < count_votes b ballot -> 60 < b < 200 /\ b mod 3 = 0).
  { intros b Hb. apply count_votes_In in Hb. apply (votes_spec _ _ _ Hb). }
  assert (Hwin : 60 < winner < 200 /\ winner mod 3 = 0).
  { unfold is_winner in Hw. destruct ballot as [|b0 r] eqn:Eb.
    - subst winner. split; [lia | reflexivity].
    - rewrite <- Eb in *. destruct Hw as [Hin _]. apply (votes_spec _ _ _ Hin). }
  unfold corrected.
  destruct ((winner <? 70) && (0 <? count_votes (winner * 2) ballot)) eqn:E1.
  { apply andb_true_iff in E1. destruct E1 as [_ E1]. apply Z.ltb_lt in E1. apply Hgood, E1. }
  destruct ((160 <? winner) && (0 <? count_votes (round (inject_Z winner / 2)) ballot)) eqn:E2.
  { apply andb_true_iff in E2. destruct E2 as [_ E2]. apply Z.ltb_lt in E2. apply Hgood, E2. }
  exact Hwin.
Qed.

End OnsetsMore.

(** ** The envelope of a decoded file *)

Section GenerateWaveform.

(** What a loop returns satisfies every property that its body keeps. *)
Lemma for_loopM_keeps {St : Type} (Inv : St -> Prop) (body : Z -> St -> outcome St) :
  (forall k s s', Inv s -> body k s = Returns s' -> Inv s') ->
  forall (n : nat) (i : Z) (s s' : St),
    Inv s -> for_loopM n i body s = Returns s' -> Inv s'.
Proof.
  intros Hbody. induction n as [|n IH]; intros i s s' Hs H.
  - cbn [for_loopM] in H. injection H as <-. exact Hs.
  - cbn [for_loopM] in H. destruct (body i s) as [s1| |] eqn:E; try discriminate H.
    cbn [bind] in H. apply (IH (i + 1) s1 s'); [|exact H].
    apply (Hbody i s s1 Hs E).
Qed.

Lemma window_step_nonneg (chan : list Q) (sampleSize : Q) (sampleStep c i : Z)
  (peaks peaks' : list Q) :
  Forall (fun p => (0 <= p)%Q) peaks ->
  window_step chan sampleSize sampleStep c i peaks = Returns peaks' ->
  Forall (fun p => (0 <= p)%Q) peaks'.
Proof.
  intros Hp H. unfold window_step in H.
  destruct (window_scan chan (toInt32 (inject_Z i * sampleSize))
              (toInt32 (inject_Z (toInt32 (inject_Z i * sampleSize)) + sampleSize))
              sampleStep) as [[min max]| |]; try discriminate H.
  cbn [bind] in H. injection H as <-.
  apply (store_peak_keeps (fun p => (0 <= p)%Q)); [|exact Hp].
  eapply Qle_trans; [apply (abs_nonneg max) | apply max_ge_l].
Qed.

Lemma raw_peaks_nonneg (buffer : AudioBuffer) (samples : Z) (raw : list Q) :
  raw_peaks buffer samples = Returns raw -> Forall (fun p => (0 <= p)%Q) raw.
Proof.
  unfold raw_peaks.
  apply (for_loopM_keeps (fun peaks => Forall (fun p => (0 <= p)%Q) peaks)); [|constructor].
  intros c peaks peaks' Hp H.
  destruct (getChannelData buffer c) as [chan|]; [|discriminate H].
  revert H. apply (for_loopM_keeps (fun peaks => Forall (fun p => (0 <= p)%Q) peaks));
    [|exact Hp].
  intros i s s' Hs. apply window_step_nonneg, Hs.
Qed.

(** X10.  In [generateWaveform] the call of [normalizePeaks] never changes
    the envelope: what [extractPeaks] returns is empty, all zero, or has
    the maximum 1, which is above the ceiling 0.95.  This holds for every
    buffer and sample count, and when [extractPeaks] throws or does not
    return, so does the composition. *)
Theorem generateWaveform_normalization_is_identity `{E : Engine}
  (audioBuffer : AudioBuffer) (samples : Z) :
  generateWaveform_peaks audioBuffer samples = extractPeaks audioBuffer samples.
Proof.
  unfold generateWaveform_peaks.
  destruct (raw_peaks audioBuffer samples) as [raw| |] eqn:Eraw.
  - destruct (Z_le_gt_dec (len raw) max_arguments) as [Hfit | Hbig].
    + destruct (extractPeaks_of_raw audioBuffer samples raw Eraw
                  (raw_peaks_nonneg audioBuffer samples raw Eraw) Hfit)
        as (env & Eenv & _ & _ & _ & _ & Hnorm).
      rewrite Eenv. cbn [bind]. rewrite Hnorm. reflexivity.
    + rewrite (extractPeaks_beyond_limit audioBuffer samples raw Eraw) by lia.
      reflexivity.
  - unfold extractPeaks. rewrite Eraw. reflexivity.
  - unfold extractPeaks. rewrite Eraw. reflexivity.
Qed.

End GenerateWaveform.

(** ** Bar geometry *)

Section BarGeometry.

Context `{Eng : Engine} `{!EngineLaws Eng}.

Variable devicePixelRatio : Q.

Lemma dpr_pos : (0 <= devicePixelRatio)%Q -> (0 < dpr devicePixelRatio)%Q.
Proof.
  intros H. unfold dpr, num_or. destruct (eqb devicePixelRatio 0) eqn:Ed; [reflexivity|].
  unfold eqb in Ed. apply Qle_lteq in H. destruct H as [H | H]; [exact H|].
  symmetry in H. apply Qeq_bool_iff in H. rewrite H in Ed. discriminate.
Qed.

(** The height of a column: not negative and at most [f] times the
    canvas height, rounded. *)
Lemma scaled_height (peak h f : Q) :
  (0 <= peak <= 1)%Q -> (rnd h == h)%Q -> (0 <= h)%Q -> (0 <= f <= 1)%Q ->
  (0 <= peak *! h *! f)%Q /\ (peak *! h *! f <= h *! f)%Q /\ (peak *! h *! f <= h)%Q.
Proof.
  intros [H0 H1] Hfix Hh [Hf0 Hf1].
  assert (A0 : (0 <= peak *! h)%Q) by (apply fmul_nonneg; assumption).
  assert (A1 : (peak *! h <= h)%Q).
  { apply rnd_Qred_le; [|exact Hfix].
    pose proof (Qmult_le_compat_r peak 1 h H1 Hh). lra. }
  split; [apply fmul_nonneg; assumption|]. split.
  - apply fmul_monotone; assumption.
  - apply rnd_Qred_le; [|exact Hfix].
    pose proof (Qmult_le_compat_r f 1 (peak *! h) Hf1 A0).
    rewrite (Qmult_comm (peak *! h) f). lra.
Qed.

(** The abscissa of a column that a pass reaches. *)
Lemma column_abscissa (canvas_width progress bw per : Q) (k : Z) :
  (rnd canvas_width == canvas_width)%Q -> (0 <= canvas_width)%Q ->
  (0 <= progress <= 1)%Q -> (0 <= bw)%Q -> (0 <= per)%Q -> 0 <= k ->
  reached (fun k => inject_Z k *! per) (fun x => ltb canvas_width (x +! bw)) k \/
  reached (fun k => inject_Z k *! per) (fun x => ltb (progress *! canvas_width) x) k ->
  (0 <= inject_Z k *! per <= canvas_width)%Q.
Proof.
  intros Hfix Hw [Hp0 Hp1] Hbw Hper Hk Hr.
  assert (Hk0 : (0 <= inject_Z k)%Q).
  { change 0%Q with (inject_Z 0). rewrite <- Zle_Qle. exact Hk. }
  set (x := inject_Z k *! per).
  assert (Hx0 : (0 <= x)%Q) by (apply fmul_nonneg; assumption).
  assert (Hxfix : (rnd x == x)%Q) by apply rnd_Qred_fixed.
  split; [exact Hx0|]. destruct Hr as [Hr | Hr].
  - specialize (Hr k (conj Hk (Z.le_refl k))). cbv beta in Hr. fold x in Hr.
    apply ltb_ge in Hr. eapply Qle_trans; [|exact Hr].
    apply rnd_Qred_ge; [lra | exact Hxfix].
  - specialize (Hr k (conj Hk (Z.le_refl k))). cbv beta in Hr. fold x in Hr.
    apply ltb_ge in Hr. eapply Qle_trans; [exact Hr|].
    apply rnd_Qred_le; [|exact Hfix].
    pose proof (Qmult_le_compat_r progress 1 canvas_width Hp1 Hw). lra.
Qed.

(** X11.  The bars start on the canvas and are no larger than it.  Let
    the width and the height of the canvas be whole numbers, the device
    pixel ratio, the bar width and the bar spacing not negative, and the
    progress between 0 and 1.  For an envelope in [[0, 1]] and a pitch
    that is not 0, [drawBars] and [drawMirror] return, and paint from
    resampled values in [[0, 1]].  Every rectangle painted from such
    values has its left edge between 0 and the canvas width, its top edge
    between 0 and the canvas height, a width that is not negative, and a
    height between 0 and the canvas height; in the first pass the
    rounded right edge is on the canvas too, in the second the left edge
    is within the played part. *)
Theorem bars_inside_canvas (canvas : Canvas) (progress : Q) (options : Options) :
  (0 <= devicePixelRatio)%Q ->
  (0 <= barWidth options)%Q -> (0 <= barSpacing options)%Q ->
  (exists n, 0 <= n <= 2 ^ 53 /\ (width canvas == inject_Z n)%Q) ->
  (exists n, 0 <= n <= 2 ^ 53 /\ (height canvas == inject_Z n)%Q) ->
  (0 <= progress <= 1)%Q ->
  let bw := barWidth options *! dpr devicePixelRatio in
  let per := bw +! barSpacing options *! dpr devicePixelRatio in
  (forall peaks,
     (forall v, In v peaks -> (0 <= v <= 1)%Q) -> ~ (per == 0)%Q ->
     exists resampledPeaks,
       Forall (fun v => (0 <= v <= 1)%Q) resampledPeaks /\
       drawBars devicePixelRatio canvas peaks progress options
       = Returns (paint_bars devicePixelRatio canvas progress options resampledPeaks) /\
       drawMirror devicePixelRatio canvas peaks progress options
       = Returns (paint_mirror devicePixelRatio canvas progress options resampledPeaks)) /\
  (forall resampledPeaks x y w h,
     Forall (fun v => (0 <= v <= 1)%Q) resampledPeaks ->
     In (FillRect x y w h)
       (paint_bars devicePixelRatio canvas progress options resampledPeaks) \/
     In (FillRect x y w h)
       (paint_mirror devicePixelRatio canvas progress options resampledPeaks) ->
     (0 <= x <= width canvas)%Q /\ (0 <= w)%Q /\
     (0 <= y <= height canvas)%Q /\ (0 <= h <= height canvas)%Q /\
     ((x +! w <= width canvas)%Q \/ (x <= progress *! width canvas)%Q)).
Proof.
  intros Hd Hbw Hbs HW HH Hprog bw per.
  pose proof (dpr_pos Hd) as Hdpr.
  destruct (rnd_count_fixed _ HW) as [HWfix HW0].
  destruct (rnd_count_fixed _ HH) as [HHfix HH0].
  assert (Hbw' : (0 <= bw)%Q).
  { apply fmul_nonneg; [exact Hbw | apply Qlt_le_weak, Hdpr]. }
  assert (Hper : (0 <= per)%Q).
  { apply rnd_Qred_nonneg.
    assert (0 <= barSpacing options *! dpr devicePixelRatio)%Q
      by (apply fmul_nonneg; [exact Hbs | apply Qlt_le_weak, Hdpr]).
    lra. }
  split.
  - intros peaks Hall Hne.
    exists (resampleData peaks (Qfloor (width canvas /! per))). split; [|split].
    + apply resampleData_within, Hall.
    + unfold drawBars. fold bw. fold per.
      rewrite (resample_columns_finite _ _ _ Hne). reflexivity.
    + unfold drawMirror. fold bw. fold per.
      rewrite (resample_columns_finite _ _ _ Hne). reflexivity.
  - intros cols x y w h Hcols Hin.
    assert (Hpeak : forall k peak, get cols k = Some peak -> (0 <= peak <= 1)%Q).
    { intros k peak Hg. rewrite Forall_forall in Hcols.
      apply Hcols, list_elem_of_In. eapply get_In, Hg. }
    assert (Hedge : forall k,
              reached (fun k => inject_Z k *! per) (fun x => ltb (width canvas) (x +! bw)) k \/
              reached (fun k => inject_Z k *! per)
                (fun x => ltb (progress *! width canvas) x) k ->
              0 <= k ->
              (inject_Z k *! per +! bw <= width canvas)%Q \/
              (inject_Z k *! per <= progress *! width canvas)%Q).
    { intros k [Hr | Hr] Hk; specialize (Hr k (conj Hk (Z.le_refl k)));
        cbv beta in Hr; apply ltb_ge in Hr; [left | right]; exact Hr. }
    destruct Hin as [Hin | Hin].
    + apply paint_bars_In in Hin. cbv zeta in Hin. fold bw in Hin. fold per in Hin.
      destruct Hin as (k & peak & Hg & Hr & -> & -> & -> & ->).
      pose proof (get_Some_nonneg _ _ _ Hg) as Hk.
      destruct (scaled_height peak (height canvas) double_0_9 (Hpeak k peak Hg) HHfix HH0)
        as (Hs0 & _ & Hs1); [split; discriminate|].
      split; [apply (column_abscissa (width canvas) progress bw per k); assumption|].
      split; [exact Hbw'|]. split; [split|split; [split; assumption|]].
      * apply rnd_Qred_nonneg. lra.
      * apply rnd_Qred_le; [lra | exact HHfix].
      * apply Hedge; assumption.
    + apply paint_mirror_In in Hin. cbv zeta in Hin. fold bw in Hin. fold per in Hin.
      destruct Hin as (k & peak & Hg & Hr & -> & Hy & -> & ->).
      pose proof (get_Some_nonneg _ _ _ Hg) as Hk.
      destruct (scaled_height peak (height canvas) double_0_45 (Hpeak k peak Hg) HHfix HH0)
        as (Hs0 & Hs1 & Hs2); [split; discriminate|].
      set (ph := peak *! height canvas *! double_0_45) in *.
      assert (Hc0 : (0 <= height canvas /! 2)%Q) by (apply fdiv_nonneg; [exact HH0 | reflexivity]).
      assert (Hc1 : (height canvas /! 2 <= height canvas)%Q).
      { apply rnd_Qred_le; [|exact HHfix].
        assert (Eh : (height canvas / 2 == height canvas * (1 # 2))%Q) by reflexivity.
        lra. }
      assert (Hpc : (ph <= height canvas /! 2)%Q).
      { eapply Qle_trans; [exact Hs1|]. apply rnd_Qred_monotone.
        assert (Eh : (height canvas / 2 == height canvas * (1 # 2))%Q) by reflexivity.
        assert (Ed : (height canvas * double_0_45
                      == height canvas * (8106479329266893 # 18014398509481984))%Q)
          by reflexivity.
        lra. }
      split; [apply (column_abscissa (width canvas) progress bw per k); assumption|].
      split; [exact Hbw'|]. split; [|split; [split; assumption|]].
      * destruct Hy as [-> | ->]; [|split; assumption]. split.
        -- apply rnd_Qred_nonneg. lra.
        -- apply rnd_Qred_le; [lra | exact HHfix].
      * apply Hedge; assumption.
Qed.

End BarGeometry.

Lemma bars_inside_canvas_witness :
  (0 <= 0 <= 33)%Q /\ (0 <= 2476979795053773 # 1125899906842624)%Q /\
  (0 <= 11 # 2 <= 10)%Q /\ (0 <= 9 # 2 <= 10)%Q /\
  ((fadd (E := Examples.binary64) 0 (2476979795053773 # 1125899906842624) <= 33)%Q \/
   (0 <= fmul (E := Examples.binary64) (1 # 2) 33)%Q).
Proof.
  assert (Hin : In (FillRect 0 (11 # 2) (2476979795053773 # 1125899906842624) (9 # 2))
                  (paint_bars (E := Examples.binary64) Examples.double_1_1
                     Examples.wide_canvas (1 # 2)
                     (Examples.spaced_options "bars") [1 # 2; 1]%Q)).
  { vm_compute. right. right. left. reflexivity. }
  apply (fun H1 H2 H3 H4 H5 H6 H7 =>
           proj2 (bars_inside_canvas (Eng := Examples.binary64)
                    (EngineLaws0 := binary64_laws) Examples.double_1_1
                    Examples.wide_canvas (1 # 2)
                    (Examples.spaced_options "bars") H1 H2 H3 H4 H5 H6)
             [1 # 2; 1]%Q 0%Q (11 # 2)%Q (2476979795053773 # 1125899906842624)%Q
             (9 # 2)%Q H7 (or_introl Hin)).
  - discriminate.
  - discriminate.
  - discriminate.
  - exists 33. split; [lia | reflexivity].
  - exists 10. split; [lia | reflexivity].
  - split; discriminate.
  - repeat constructor; discriminate.
Defined.

(** ** Seeking, progress, volume and rate *)

Section PlaybackFacts.

Import Playback.

Ltac ltb_cases :=
  repeat match goal with
         | |- context [ltb ?a ?b] =>
             lazymatch a with context [ltb _ _] => fail | _ => idtac end;
             lazymatch b with context [ltb _ _] => fail | _ => idtac end;
             let E := fresh "E" in
             destruct (ltb a b) eqn:E; [apply ltb_lt in E | apply ltb_ge in E]
         end.

Lemma ltb_proper (a b c d : Q) : (a == c)%Q -> (b == d)%Q -> ltb a b = ltb c d.
Proof.
  intros E1 E2. destruct (ltb c d) eqn:E.
  - apply ltb_lt. apply ltb_lt in E. rewrite E1, E2. exact E.
  - apply ltb_ge. apply ltb_ge in E. rewrite E1, E2. exact E.
Qed.

Lemma abs_proper (a b : Q) : (a == b)%Q -> (abs a == abs b)%Q.
Proof.
  intros E. unfold abs. rewrite (ltb_proper a 0 b 0 E (Qeq_refl 0)).
  destruct (ltb b 0); rewrite E; reflexivity.
Qed.

Lemma abs_zero (a : Q) : (a == 0)%Q -> (abs a == 0)%Q.
Proof. intros E. rewrite (abs_proper a 0 E). reflexivity. Qed.

Lemma min_le_r (a b : Q) : (Js.min a b <= b)%Q.
Proof.
  unfold Js.min. destruct (ltb b a) eqn:E; [apply Qle_refl|]. apply ltb_ge in E. exact E.
Qed.

Lemma min_glb (a b c : Q) : (c <= a)%Q -> (c <= b)%Q -> (c <= Js.min a b)%Q.
Proof. intros Ha Hb. unfold Js.min. destruct (ltb b a); assumption. Qed.

Lemma max_lub (a b c : Q) : (a <= c)%Q -> (b <= c)%Q -> (Js.max a b <= c)%Q.
Proof. intros Ha Hb. unfold Js.max. destruct (ltb a b); assumption. Qed.

(** Clamping into [[lo, hi]], as [Math.max(lo, Math.min(x, hi))] and as
    [Math.max(lo, Math.min(hi, x))]. *)
Lemma clamp_range (lo hi x : Q) :
  (lo <= hi)%Q ->
  (lo <= Js.max lo (Js.min x hi) <= hi)%Q /\ (lo <= Js.max lo (Js.min hi x) <= hi)%Q.
Proof.
  intros H. split; (split; [apply max_ge_l|]); apply max_lub; try exact H.
  - apply min_le_r.
  - apply min_le_l.
Qed.

Lemma clamp_inside (lo hi x : Q) :
  (lo <= x <= hi)%Q ->
  (Js.max lo (Js.min x hi) == x)%Q /\ (Js.max lo (Js.min hi x) == x)%Q.
Proof.
  intros [H1 H2]. unfold Js.max, Js.min. split; ltb_cases; lra.
Qed.

Lemma eqb_pos (d : Q) : (0 < d)%Q -> eqb d 0 = false.
Proof.
  intros Hd. unfold eqb. destruct (Qeq_bool d 0) eqn:E; [|reflexivity].
  apply Qeq_bool_iff in E. rewrite E in Hd. discriminate.
Qed.

Section Transport.

Context `{Eng : Engine} `{!EngineLaws Eng}.

Variable devicePixelRatio : Q.
Variable sin : Q -> Q.
Variable onTimeUpdate : option (Q -> duration_t -> instance -> outcome instance).

(** A number is within the threshold of itself. *)
Lemma self_difference (x : Q) : (abs (x -! x) <= double_0_001)%Q.
Proof.
  assert (E0 : (x -! x == 0)%Q).
  { unfold fsub. rewrite (Qred_complete (x - x) 0) by ring. apply rnd_zero. }
  rewrite (abs_zero _ E0). discriminate.
Qed.

(** Equal numbers have the same rounded product and quotient. *)
Lemma fmul_Qeq (x y y' : Q) : (y == y')%Q -> x *! y = x *! y'.
Proof.
  intros Hy. unfold fmul. rewrite (Qred_complete (x * y) (x * y')); [reflexivity|].
  rewrite Hy. reflexivity.
Qed.

Lemma fdiv_Qeq (x x' y : Q) : (x == x')%Q -> x /! y = x' /! y.
Proof.
  intros Hx. unfold fdiv. rewrite (Qred_complete (x / y) (x' / y)); [reflexivity|].
  rewrite Hx. reflexivity.
Qed.

(** [drawWaveform] changes nothing but the frames, to which it adds at
    most one. *)
Lemma drawWaveform_keeps (s s' : instance) :
  drawWaveform devicePixelRatio sin s = Returns s' ->
  audio s' = audio s /\ progress s' = progress s /\
  options_playbackRate s' = options_playbackRate s /\ surface s' = surface s /\
  (s' = s \/ exists ops, frames s' = frames s ++ [ops]).
Proof.
  unfold drawWaveform.
  destruct (negb (ctx (surface s)) || (len (waveformData (surface s)) =? 0)).
  - intros [= <-]. repeat split. left. reflexivity.
  - destruct (Drawing.draw _ _ _ _ _ _) as [ops| |]; cbn [bind]; try discriminate.
    intros [= <-]. repeat split. right. exists ops. reflexivity.
Qed.

(** The audio element plays no part in it. *)
Lemma drawWaveform_set_audio (a : media) (s : instance) :
  drawWaveform devicePixelRatio sin (set_audio a s)
  = bind (drawWaveform devicePixelRatio sin s) (fun s' => Returns (set_audio a s')).
Proof.
  unfold drawWaveform. cbn [set_audio surface progress].
  destruct (negb (ctx (surface s)) || (len (waveformData (surface s)) =? 0)); [reflexivity|].
  destruct (Drawing.draw _ _ _ _ _ _) as [ops| |]; reflexivity.
Qed.

Lemma notify_quiet (a : media) (s : instance) :
  quiet onTimeUpdate -> notify onTimeUpdate a s = Returns s.
Proof.
  unfold quiet, notify. destruct onTimeUpdate as [callback|]; [|reflexivity].
  intros H. apply H.
Qed.

(** With a usable duration, a quiet callback and a surface that can be
    painted, [updateProgress] returns and brings the progress next to
    the ratio. *)
Lemma updateProgress_returns (s : instance) (a : media) :
  audio s = Some a ->
  falsy (duration a) = false ->
  quiet onTimeUpdate ->
  paints devicePixelRatio sin (surface s) ->
  exists s',
    updateProgress devicePixelRatio sin onTimeUpdate s = Returns s' /\
    audio s' = Some a /\
    options_playbackRate s' = options_playbackRate s /\
    surface s' = surface s /\
    (s' = s \/ frames s' = frames s \/ exists ops, frames s' = frames s ++ [ops]) /\
    (abs (quotient (currentTime a) (duration a) -! progress s') <= double_0_001)%Q.
Proof.
  intros Ha Hf Hq Hp. unfold updateProgress. rewrite Ha, Hf.
  set (ratio := quotient (currentTime a) (duration a)).
  destruct (ltb double_0_001 (abs (ratio -! progress s))) eqn:El.
  - destruct (Hp (set_progress ratio s) eq_refl) as (s1 & Hd).
    rewrite Hd. cbn [bind]. rewrite (notify_quiet a s1 Hq).
    destruct (drawWaveform_keeps _ _ Hd) as (H1 & H2 & H3 & H4 & H5).
    exists s1. split; [reflexivity|]. split; [rewrite H1; exact Ha|].
    split; [exact H3|]. split; [exact H4|]. split.
    + right. destruct H5 as [-> | H5]; [left; reflexivity | right; exact H5].
    + rewrite H2. cbn [set_progress progress]. apply self_difference.
  - cbn [bind]. rewrite (notify_quiet a s Hq).
    exists s. split; [reflexivity|]. split; [exact Ha|].
    split; [reflexivity|]. split; [reflexivity|]. split; [left; reflexivity|].
    apply ltb_ge, El.
Qed.

(** X12.  [updateProgress] throws when there is no audio element and
    returns at once while the duration is not usable.  Otherwise it
    compares the double quotient of position and duration with the
    progress: within 0.001 it only calls [onTimeUpdate]; beyond, it
    stores the quotient, redraws, and then calls [onTimeUpdate], so that
    it throws or fails to return exactly when the redraw or the callback
    does.  When the callback leaves the player alone and the call
    returns, it has changed nothing but the progress and the frames, has
    drawn at most one frame, has left the progress within 0.001 of the
    quotient, and a second call right after it changes nothing. *)
Theorem updateProgress_settles (s : instance) :
  (audio s = None -> updateProgress devicePixelRatio sin onTimeUpdate s = Throws) /\
  (forall a, audio s = Some a ->
     let ratio := quotient (currentTime a) (duration a) in
     (falsy (duration a) = true ->
      updateProgress devicePixelRatio sin onTimeUpdate s = Returns s) /\
     (falsy (duration a) = false ->
      (abs (ratio -! progress s) <= double_0_001)%Q ->
      updateProgress devicePixelRatio sin onTimeUpdate s = notify onTimeUpdate a s) /\
     (falsy (duration a) = false ->
      (double_0_001 < abs (ratio -! progress s))%Q ->
      updateProgress devicePixelRatio sin onTimeUpdate s
      = bind (drawWaveform devicePixelRatio sin (set_progress ratio s))
          (notify onTimeUpdate a))) /\
  (quiet onTimeUpdate ->
   forall s', updateProgress devicePixelRatio sin onTimeUpdate s = Returns s' ->
     updateProgress devicePixelRatio sin onTimeUpdate s' = Returns s' /\
     audio s' = audio s /\
     options_playbackRate s' = options_playbackRate s /\
     surface s' = surface s /\
     (s' = s \/ frames s' = frames s \/ exists ops, frames s' = frames s ++ [ops]) /\
     forall a, audio s = Some a -> falsy (duration a) = false ->
       (abs (quotient (currentTime a) (duration a) -! progress s') <= double_0_001)%Q).
Proof.
  split; [|split].
  - intros Ha. unfold updateProgress. rewrite Ha. reflexivity.
  - intros a Ha ratio. unfold updateProgress. rewrite Ha. split; [|split].
    + intros ->. reflexivity.
    + intros -> Hle. apply ltb_ge in Hle. fold ratio. rewrite Hle. reflexivity.
    + intros -> Hlt. apply ltb_lt in Hlt. fold ratio. rewrite Hlt. reflexivity.
  - intros Hq s' Hs'. unfold updateProgress in Hs'.
    destruct (audio s) as [a|] eqn:Ha; [|discriminate Hs'].
    destruct (falsy (duration a)) eqn:Hf.
    { injection Hs' as <-. unfold updateProgress. rewrite Ha, Hf.
      repeat (split; [reflexivity|]). split; [left; reflexivity|].
      intros a' [= <-] Hf'. rewrite Hf in Hf'. discriminate Hf'. }
    set (ratio := quotient (currentTime a) (duration a)) in *.
    assert (Hkeep : audio s' = Some a /\ options_playbackRate s' = options_playbackRate s /\
                    surface s' = surface s /\
                    (s' = s \/ frames s' = frames s \/ exists ops, frames s' = frames s ++ [ops]) /\
                    (abs (ratio -! progress s') <= double_0_001)%Q).
    { destruct (ltb double_0_001 (abs (ratio -! progress s))) eqn:El.
      - destruct (drawWaveform devicePixelRatio sin (set_progress ratio s)) as [s1| |] eqn:Hd;
          cbn [bind] in Hs'; try discriminate Hs'.
        rewrite (notify_quiet a s1 Hq) in Hs'. injection Hs' as <-.
        destruct (drawWaveform_keeps _ _ Hd) as (H1 & H2 & H3 & H4 & H5).
        split; [rewrite H1; exact Ha|]. split; [exact H3|]. split; [exact H4|]. split.
        + right. destruct H5 as [-> | H5]; [left; reflexivity | right; exact H5].
        + rewrite H2. cbn [set_progress progress]. apply self_difference.
      - cbn [bind] in Hs'. rewrite (notify_quiet a s Hq) in Hs'. injection Hs' as <-.
        split; [exact Ha|]. split; [reflexivity|]. split; [reflexivity|].
        split; [left; reflexivity|]. apply ltb_ge, El. }
    destruct Hkeep as (H1 & H2 & H3 & H4 & H5).
    split.
    { unfold updateProgress. rewrite H1, Hf. fold ratio.
      apply ltb_ge in H5. rewrite H5. cbn [bind]. apply notify_quiet, Hq. }
    split; [exact H1|]. split; [exact H2|]. split; [exact H3|]. split; [exact H4|].
    intros a' [= <-] _. exact H5.
Qed.

(** X13.  With a known positive duration, a callback that leaves the
    player alone and a surface that can be painted, [seekTo] returns,
    puts the position inside [[0, duration]] (at [seconds] itself when
    that lies inside), keeps duration, volume and rate, and leaves the
    progress within 0.001 of the double quotient of position and
    duration. *)
Theorem seekTo_lands_inside (s : instance) (a : media) (d seconds : Q) :
  audio s = Some a ->
  duration a = DurFinite d ->
  (0 < d)%Q ->
  quiet onTimeUpdate ->
  paints devicePixelRatio sin (surface s) ->
  exists s' a',
    seekTo devicePixelRatio sin onTimeUpdate seconds s = Returns s' /\
    audio s' = Some a' /\
    duration a' = DurFinite d /\
    volume a' = volume a /\
    playbackRate a' = playbackRate a /\
    (0 <= currentTime a' <= d)%Q /\
    ((0 <= seconds <= d)%Q -> (currentTime a' == seconds)%Q) /\
    (abs (currentTime a' /! d -! progress s') <= double_0_001)%Q.
Proof.
  intros Ha Hd Hpos Hq Hp. unfold seekTo. rewrite Ha, Hd. cbn [falsy].
  rewrite (eqb_pos d Hpos).
  set (a' := set_currentTime (Js.max 0 (Js.min seconds d)) a).
  destruct (updateProgress_returns (set_audio a' s) a' eq_refl)
    as (s' & Hs' & Haud & _ & _ & _ & Hnear).
  - cbn [a' set_currentTime duration]. rewrite Hd. cbn [falsy]. apply eqb_pos, Hpos.
  - exact Hq.
  - exact Hp.
  - exists s', a'. split; [exact Hs'|]. split; [exact Haud|].
    split; [exact Hd|]. split; [reflexivity|]. split; [reflexivity|].
    split; [apply clamp_range, Qlt_le_weak, Hpos|].
    split; [intros Hin; apply (clamp_inside 0 d seconds Hin)|].
    cbn [a' set_currentTime duration currentTime quotient] in Hnear.
    rewrite Hd in Hnear. exact Hnear.
Qed.

(** The position that [seekToPercent] computes is the clamped product. *)
Lemma scaled_clamp (d percent : Q) :
  (0 < d)%Q -> (rnd d == d)%Q ->
  (d *! Js.max 0 (Js.min 1 percent) == Js.max 0 (Js.min (d *! percent) d))%Q.
Proof.
  intros Hd Hfix.
  assert (Hzero : (rnd 0 == 0)%Q) by apply rnd_zero.
  destruct (Qlt_le_dec percent 0) as [Hneg | Hnn].
  - assert (Ec : (Js.max 0 (Js.min 1 percent) == 0)%Q).
    { unfold Js.max, Js.min. ltb_cases; lra. }
    rewrite (fmul_Qeq d _ 0 Ec).
    assert (E0 : (d *! 0 == 0)%Q).
    { unfold fmul. rewrite (Qred_complete (d * 0) 0) by ring. exact Hzero. }
    assert (Hx : (d *! percent <= 0)%Q).
    { apply rnd_Qred_le; [|exact Hzero].
      pose proof (Qmult_lt_compat_r percent 0 d Hd Hneg) as Hm.
      rewrite (Qmult_comm d percent). lra. }
    rewrite E0. unfold Js.max, Js.min. ltb_cases; lra.
  - destruct (Qlt_le_dec 1 percent) as [Hbig | Hle].
    + assert (Ec : (Js.max 0 (Js.min 1 percent) == 1)%Q).
      { unfold Js.max, Js.min. ltb_cases; lra. }
      rewrite (fmul_Qeq d _ 1 Ec).
      assert (E1 : (d *! 1 == d)%Q).
      { unfold fmul. rewrite (Qred_complete (d * 1) d) by ring.
        rewrite (rnd_Qeq (Qred d) d (Qred_correct d)). exact Hfix. }
      assert (Hx : (d <= d *! percent)%Q).
      { apply rnd_Qred_ge; [|exact Hfix].
        pose proof (Qmult_lt_compat_r 1 percent d Hd Hbig) as Hm.
        rewrite (Qmult_comm d percent). lra. }
      rewrite E1. unfold Js.max, Js.min. ltb_cases; lra.
    + assert (Ec : (Js.max 0 (Js.min 1 percent) == percent)%Q).
      { unfold Js.max, Js.min. ltb_cases; lra. }
      rewrite (fmul_Qeq d _ percent Ec).
      assert (Hx0 : (0 <= d *! percent)%Q).
      { apply fmul_nonneg; [apply Qlt_le_weak, Hd | exact Hnn]. }
      assert (Hx1 : (d *! percent <= d)%Q).
      { apply rnd_Qred_le; [|exact Hfix].
        pose proof (Qmult_le_compat_r percent 1 d Hle (Qlt_le_weak _ _ Hd)) as Hm.
        rewrite (Qmult_comm d percent). lra. }
      symmetry. apply (clamp_inside 0 d (d *! percent)). split; assumption.
Qed.

(** X14.  With a known positive duration that is a double, a callback
    that leaves the player alone and a surface that can be painted,
    [seekToPercent(percent)] does what [seekTo(duration * percent)] does:
    the two calls return instances that agree on every field (as
    numbers), the frames included. *)
Theorem seekToPercent_as_seekTo (s : instance) (a : media) (d percent : Q) :
  audio s = Some a ->
  duration a = DurFinite d ->
  (0 < d)%Q ->
  (rnd d == d)%Q ->
  quiet onTimeUpdate ->
  paints devicePixelRatio sin (surface s) ->
  exists s1 s2,
    seekToPercent devicePixelRatio sin onTimeUpdate percent s = Returns s1 /\
    seekTo devicePixelRatio sin onTimeUpdate (d *! percent) s = Returns s2 /\
    same_instance s1 s2.
Proof.
  intros Ha Hd Hpos Hfix Hq Hp. unfold seekToPercent, seekTo. rewrite Ha, Hd. cbn [falsy].
  rewrite (eqb_pos d Hpos).
  pose proof (scaled_clamp d percent Hpos Hfix) as Ec.
  set (p1 := d *! Js.max 0 (Js.min 1 percent)) in *.
  set (p2 := Js.max 0 (Js.min (d *! percent) d)) in *.
  unfold updateProgress.
  cbn [set_audio audio set_currentTime duration currentTime progress]. rewrite Hd.
  cbn [falsy quotient]. rewrite (eqb_pos d Hpos).
  rewrite (fdiv_Qeq p1 p2 d Ec).
  set (ratio := p2 /! d).
  destruct (ltb double_0_001 (abs (ratio -! progress s))).
  - change (set_progress ratio (set_audio (set_currentTime p1 a) s))
      with (set_audio (set_currentTime p1 a) (set_progress ratio s)).
    change (set_progress ratio (set_audio (set_currentTime p2 a) s))
      with (set_audio (set_currentTime p2 a) (set_progress ratio s)).
    rewrite !drawWaveform_set_audio.
    destruct (Hp (set_progress ratio s) eq_refl) as (s' & ->). cbn [bind].
    rewrite !(notify_quiet _ _ Hq). eexists _, _.
    split; [reflexivity|]. split; [reflexivity|].
    unfold same_instance, same_media. cbn. rewrite Ec.
    repeat (split; try reflexivity).
  - cbn [bind]. rewrite !(notify_quiet _ _ Hq). eexists _, _.
    split; [reflexivity|]. split; [reflexivity|].
    unfold same_instance, same_media. cbn. rewrite Ec.
    repeat (split; try reflexivity).
Qed.

End Transport.

(** The bars of [bars_view] can be painted at every progress. *)
Lemma bars_view_paints :
  paints (E := Examples.binary64) 1 (fun x => x) bars_view.
Proof.
  intros s Hs. unfold drawWaveform. rewrite Hs. cbn [bars_view ctx waveformData negb orb].
  change (len [1 # 2; 1]%Q =? 0) with false. cbv iota.
  unfold Drawing.draw. cbn [options_waveformStyle Drawing.waveformStyle Drawing.str_or].
  change (Drawing.DRAWING_STYLES (E := Examples.binary64) 1 (fun x => x)
            (Drawing.str_or (options_waveformStyle bars_view) "bars"))
    with (Some (Drawing.drawBars (E := Examples.binary64) 1)).
  cbv iota. unfold Drawing.drawBars.
  rewrite resample_columns_finite by (vm_compute; discriminate).
  cbn [bind]. eexists. reflexivity.
Qed.

Lemma updateProgress_settles_witness :
  exists s',
    updateProgress (E := Examples.binary64) 1 (fun x => x) None
      (set_audio {| duration := DurFinite 60; currentTime := 20; volume := 1;
                    playbackRate := 1 |} (player_at_start (DurFinite 60)))
    = Returns s' /\
    updateProgress (E := Examples.binary64) 1 (fun x => x) None s' = Returns s' /\
    progress s' = (6004799503160661 # 18014398509481984)%Q /\ List.length (frames s') = 1%nat.
Proof.
  destruct (updateProgress (E := Examples.binary64) 1 (fun x => x) None
              (set_audio {| duration := DurFinite 60; currentTime := 20; volume := 1;
                            playbackRate := 1 |} (player_at_start (DurFinite 60))))
    as [s'| |] eqn:Hs'; try (vm_compute in Hs'; discriminate Hs').
  exists s'. split; [reflexivity|].
  destruct (proj2 (proj2 (updateProgress_settles (Eng := Examples.binary64)
                            (EngineLaws0 := binary64_laws) 1 (fun x => x) None
                            (set_audio {| duration := DurFinite 60; currentTime := 20;
                                          volume := 1; playbackRate := 1 |}
                               (player_at_start (DurFinite 60))))) I s' Hs')
    as (Hsettled & _).
  split; [exact Hsettled|].
  vm_compute in Hs'. injection Hs' as <-. split; reflexivity.
Defined.

Lemma seekTo_lands_inside_witness :
  exists s' a',
    seekTo (E := Examples.binary64) 1 (fun x => x) None 90
      (player_at_start (DurFinite 60)) = Returns s' /\
    audio s' = Some a' /\
    duration a' = DurFinite 60 /\
    volume a' = 1%Q /\
    playbackRate a' = 1%Q /\
    (0 <= currentTime a' <= 60)%Q /\
    ((0 <= 90 <= 60)%Q -> (currentTime a' == 90)%Q) /\
    (abs (fsub (E := Examples.binary64)
            (fdiv (E := Examples.binary64) (currentTime a') 60) (progress s'))
     <= double_0_001)%Q.
Proof.
  apply (seekTo_lands_inside (Eng := Examples.binary64)
           (EngineLaws0 := binary64_laws) 1 (fun x => x) None
           (player_at_start (DurFinite 60))
           {| duration := DurFinite 60; currentTime := 0; volume := 1; playbackRate := 1 |}
           60 90).
  - reflexivity.
  - reflexivity.
  - reflexivity.
  - exact I.
  - exact bars_view_paints.
Defined.

Lemma seekToPercent_as_seekTo_witness :
  exists s1 s2,
    seekToPercent (E := Examples.binary64) 1 (fun x => x) None (1 # 3)
      (player_at_start (DurFinite 60)) = Returns s1 /\
    seekTo (E := Examples.binary64) 1 (fun x => x) None
      (fmul (E := Examples.binary64) 60 (1 # 3))
      (player_at_start (DurFinite 60)) = Returns s2 /\
    same_instance s1 s2.
Proof.
  apply (seekToPercent_as_seekTo (Eng := Examples.binary64)
           (EngineLaws0 := binary64_laws) 1 (fun x => x) None
           (player_at_start (DurFinite 60))
           {| duration := DurFinite 60; currentTime := 0; volume := 1; playbackRate := 1 |}
           60 (1 # 3)).
  - reflexivity.
  - reflexivity.
  - reflexivity.
  - reflexivity.
  - exact I.
  - exact bars_view_paints.
Defined.

(** A style named after a member that the style table inherits makes
    the redraw, and with it [updateProgress], throw. *)
Lemma updateProgress_inherited_style_throws :
  updateProgress (E := Examples.binary64) 1 (fun x => x) None
    {| audio := Some {| duration := DurFinite 60; currentTime := 30; volume := 1;
                        playbackRate := 1 |};
       progress := 0;
       options_playbackRate := 1;
       surface := {| ctx := true;
                     canvas := {| Drawing.width := 33; Drawing.height := 10 |};
                     waveformData := [1 # 2; 1]%Q;
                     options_waveformStyle := "__proto__";
                     options_barWidth := 2;
                     options_barSpacing := 1;
                     options_waveformColor := "rgba(255, 255, 255, 0.3)";
                     options_progressColor := "rgba(255, 255, 255, 0.9)" |};
       frames := [] |} = Throws.
Proof. vm_compute. reflexivity. Qed.

(** X15.  [setVolume] stores a volume in [[0, 1]] and [setPlaybackRate] a
    rate in [[0.5, 2]], the argument itself when it lies inside; the rate
    is stored in the element and in the options alike; neither touches
    position, duration, progress or the other setting, and without an
    audio element neither does anything. *)
Theorem volume_and_rate_clamped (s : instance) (x : Q) :
  match audio s with
  | Some a =>
      (exists a1,
         audio (setVolume x s) = Some a1 /\
         (0 <= volume a1 <= 1)%Q /\
         ((0 <= x <= 1)%Q -> (volume a1 == x)%Q) /\
         playbackRate a1 = playbackRate a /\
         currentTime a1 = currentTime a /\ duration a1 = duration a /\
         options_playbackRate (setVolume x s) = options_playbackRate s) /\
      (exists a2,
         audio (setPlaybackRate x s) = Some a2 /\
         ((1 # 2) <= playbackRate a2 <= 2)%Q /\
         (((1 # 2) <= x <= 2)%Q -> (playbackRate a2 == x)%Q) /\
         options_playbackRate (setPlaybackRate x s) = playbackRate a2 /\
         volume a2 = volume a /\
         currentTime a2 = currentTime a /\ duration a2 = duration a) /\
      progress (setVolume x s) = progress s /\
      progress (setPlaybackRate x s) = progress s
  | None => setVolume x s = s /\ setPlaybackRate x s = s
  end.
Proof.
  unfold setVolume, setPlaybackRate. destruct (audio s) as [a|]; [|split; reflexivity].
  split; [|split; [|split; reflexivity]].
  - eexists. split; [reflexivity|]. cbn [volume playbackRate currentTime duration].
    split; [apply (clamp_range 0 1 x); discriminate|].
    split; [intros Hx; apply (clamp_inside 0 1 x Hx)|].
    repeat (split; [reflexivity|]). reflexivity.
  - eexists. split; [reflexivity|]. cbn [volume playbackRate currentTime duration].
    split; [apply (clamp_range (1 # 2) 2 x); discriminate|].
    split; [intros Hx; apply (clamp_inside (1 # 2) 2 x Hx)|].
    repeat (split; [reflexivity|]). reflexivity.
Qed.

End PlaybackFacts.

Lemma volume_and_rate_clamped_witness :
  exists a2,
    Playback.audio
      (Playback.setPlaybackRate 3 (Playback.player_at_start Playback.DurNaN)) = Some a2 /\
    ((1 # 2) <= Playback.playbackRate a2 <= 2)%Q.
Proof.
  destruct (volume_and_rate_clamped (Playback.player_at_start Playback.DurNaN) 3)
    as (_ & (a2 & E & Hr & _) & _).
  exists a2. split; [exact E | exact Hr].
Defined.

(** ** Helpers *)

Section UtilsFacts.

Import Utils.

Lemma floor_unique (x : Q) (z : Z) :
  (inject_Z z <= x)%Q -> (x < inject_Z (z + 1))%Q -> Qfloor x = z.
Proof.
  intros H1 H2.
  assert (Hlo : z <= Qfloor x).
  { rewrite <- (Qfloor_Z z). apply Qfloor_resp_le, H1. }
  assert (Hhi : Qfloor x < z + 1).
  { rewrite Zlt_Qlt. eapply Qle_lt_trans; [apply Qfloor_le | exact H2]. }
  lia.
Qed.

Lemma formatTime_nonneg (s : Q) :
  (0 <= s)%Q ->
  Qfloor (s / 60) * 60 + Qfloor (rem s 60) = Qfloor s /\
  0 <= Qfloor (rem s 60) < 60 /\
  0 <= Qfloor (s / 60).
Proof.
  intros Hs. unfold rem.
  assert (Eq : (s == 60 * (s / 60))%Q) by field.
  set (q := (s / 60)%Q) in *.
  set (m := Qfloor q).
  pose proof (Qfloor_le q) as Hm1. pose proof (Qlt_floor q) as Hm2.
  fold m in Hm1, Hm2. rewrite inject_Z_plus in Hm2.
  pose proof (Qfloor_le s) as Hf1. pose proof (Qlt_floor s) as Hf2.
  rewrite inject_Z_plus in Hf2.
  change (inject_Z 1) with 1%Q in Hm2, Hf2.
  assert (Hm0 : 0 <= m).
  { unfold m. change 0 with (Qfloor 0). apply Qfloor_resp_le. lra. }
  assert (Ht : trunc q = m).
  { unfold trunc. assert (E : ltb q 0 = false) by (apply ltb_ge; lra).
    rewrite E. reflexivity. }
  rewrite Ht.
  assert (Hsec : Qfloor (s - 60 * inject_Z m) = Qfloor s - m * 60).
  { apply floor_unique.
    - unfold Z.sub. rewrite inject_Z_plus, inject_Z_opp, inject_Z_mult.
      change (inject_Z 60) with 60%Q. lra.
    - unfold Z.sub. rewrite !inject_Z_plus, inject_Z_opp, inject_Z_mult.
      change (inject_Z 60) with 60%Q. change (inject_Z 1) with 1%Q.
      lra. }
  assert (Hlo : m * 60 <= Qfloor s).
  { rewrite <- (Qfloor_Z (m * 60)). apply Qfloor_resp_le.
    rewrite inject_Z_mult. change (inject_Z 60) with 60%Q. lra. }
  assert (Hhi : Qfloor s < m * 60 + 60).
  { rewrite Zlt_Qlt. rewrite inject_Z_plus, inject_Z_mult.
    change (inject_Z 60) with 60%Q. change (inject_Z 1) with 1%Q in *. lra. }
  rewrite Hsec. lia.
Qed.

(** X16.  The two numbers that [formatTime] prints for a time that is not
    negative are the minutes and seconds of the whole seconds elapsed:
    [mins * 60 + secs] is the floor of the argument and [secs] lies in
    0..59; the playlist's copy of the function, which has no early
    return, prints the same numbers. *)
Theorem formatTime_fields (seconds : Q) :
  (0 <= seconds)%Q ->
  let c := formatTime (Some seconds) in
  mins c * 60 + secs c = Qfloor seconds /\
  0 <= secs c < 60 /\
  0 <= mins c /\
  Playlist.formatTime seconds = c.
Proof.
  intros Hs. cbv zeta. pose proof (formatTime_nonneg seconds Hs) as (H1 & H2 & H3).
  unfold formatTime, Playlist.formatTime. destruct (eqb seconds 0) eqn:E.
  - apply Qeq_bool_iff in E. cbn [mins secs].
    assert (Ef : Qfloor seconds = 0) by (rewrite (Qfloor_comp _ _ E); reflexivity).
    rewrite Ef in H1.
    assert (Em : Qfloor (seconds / 60) = 0) by lia.
    assert (Es : Qfloor (rem seconds 60) = 0) by lia.
    rewrite Em, Es. repeat split; lia.
  - cbn [mins secs]. repeat split; lia.
Qed.

Lemma formatTime_fields_witness :
  let c := formatTime (Some (1255 # 10)) in
  mins c * 60 + secs c = Qfloor (1255 # 10) /\
  0 <= secs c < 60 /\
  0 <= mins c /\
  Playlist.formatTime (1255 # 10) = c.
Proof.
  apply (formatTime_fields (1255 # 10)). discriminate.
Defined.

Section MergeOptionsFacts.

Context {K : Type} `{Countable K} {V : Type}.





End MergeOptionsFacts.

End UtilsFacts.

(** ** Track and chapter navigation *)

Section PlaylistFacts.

Import Playlist.

Lemma chapter_scan_finds (chapters : list (option Q)) (currentTime : Q) :
  forall (fuel : nat) (i : Z),
    -1 <= i < len chapters ->
    i + 1 <= Z.of_nat fuel ->
    exists c,
      chapter_scan fuel chapters currentTime i = Returns c /\
      -1 <= c <= i /\
      (0 <= c -> exists time, get chapters c = Some time /\ reached currentTime time = true) /\
      (forall j time, c < j <= i -> get chapters j = Some time ->
         reached currentTime time = false).
Proof.
  induction fuel as [|fuel IH]; intros i Hi Hfuel.
  - exists (-1). cbn [chapter_scan]. split; [reflexivity|]. split; [lia|].
    split; [lia|]. intros j time Hj. lia.
  - cbn [chapter_scan]. destruct (0 <=? i) eqn:E0.
    + apply Z.leb_le in E0.
      destruct (get_in_range chapters i) as [time Ht]; [lia|]. rewrite Ht.
      destruct (reached currentTime time) eqn:Er.
      * exists i. split; [reflexivity|]. split; [lia|]. split; [eauto|].
        intros j t Hj. lia.
      * destruct (IH (i - 1)) as (c & Ec & Hc & Hfound & Hafter); [lia | lia |].
        exists c. split; [exact Ec|]. split; [lia|]. split; [exact Hfound|].
        intros j t Hj Hg. destruct (Z.eq_dec j i) as [-> | Hne].
        -- rewrite Ht in Hg. injection Hg as <-. exact Er.
        -- apply (Hafter j t); [lia | exact Hg].
    + apply Z.leb_gt in E0. exists (-1). split; [reflexivity|]. split; [lia|].
      split; [lia|]. intros j t Hj. lia.
Qed.

Lemma reached_true (currentTime : Q) (time : option Q) :
  reached currentTime time = true <-> exists t, time = Some t /\ (t <= currentTime)%Q.
Proof.
  unfold reached. destruct time as [t|].
  - rewrite negb_true_iff. split.
    + intros E. apply ltb_ge in E. eauto.
    + intros (t' & [= <-] & Ht). apply ltb_ge, Ht.
  - split; [discriminate | intros (t & E & _); discriminate].
Qed.

Lemma updateActiveChapter_returns (currentTime : Q) (s : playlist) (track : track) :
  get (tracks s) (currentTrackIndex s) = Some track ->
  exists s',
    updateActiveChapter currentTime s = Returns s' /\
    tracks s' = tracks s /\
    continuous s' = continuous s /\
    currentTrackIndex s' = currentTrackIndex s /\
    (chapters track = [] -> s' = s) /\
    (chapters track <> [] ->
     let c := currentChapterIndex s' in
     -1 <= c < len (chapters track) /\
     (0 <= c -> exists t, get (chapters track) c = Some (Some t) /\ (t <= currentTime)%Q) /\
     (forall j t, c < j -> get (chapters track) j = Some (Some t) -> (currentTime < t)%Q)).
Proof.
  intros Ht. unfold updateActiveChapter. rewrite Ht.
  destruct (len (chapters track) =? 0) eqn:E0.
  - apply Z.eqb_eq in E0. exists s. do 4 (split; [reflexivity|]).
    split; [intros _; reflexivity|]. intros Hne. destruct (chapters track); [contradiction | discriminate].
  - apply Z.eqb_neq in E0.
    assert (Hlen : 0 < len (chapters track)) by (unfold len in *; lia).
    destruct (chapter_scan_finds (chapters track) currentTime
                (length (chapters track)) (len (chapters track) - 1))
      as (c & Ec & Hc & Hfound & Hafter); [lia | unfold len; lia |].
    rewrite Ec. cbn [bind].
    assert (Hspec :
      -1 <= c < len (chapters track) /\
      (0 <= c -> exists t, get (chapters track) c = Some (Some t) /\ (t <= currentTime)%Q) /\
      (forall j t, c < j -> get (chapters track) j = Some (Some t) -> (currentTime < t)%Q)).
    { split; [lia|]. split.
      - intros H0. destruct (Hfound H0) as (time & Hg & Hr).
        apply reached_true in Hr. destruct Hr as (t & -> & Hle). eauto.
      - intros j t Hj Hg.
        assert (Hjr : j <= len (chapters track) - 1).
        { unfold get in Hg. destruct (j <? 0) eqn:Ej; [discriminate|].
          apply Z.ltb_ge in Ej.
          assert (Hn : (Z.to_nat j < length (chapters track))%nat).
          { apply nth_error_Some. rewrite Hg. discriminate. }
          unfold len. lia. }
        specialize (Hafter j (Some t) (conj Hj Hjr) Hg). cbn [reached] in Hafter.
        apply negb_false_iff, ltb_lt in Hafter. exact Hafter. }
    destruct (c =? currentChapterIndex s) eqn:Ecur.
    + apply Z.eqb_eq in Ecur. exists s. do 4 (split; [reflexivity|]).
      split; [intros _; reflexivity|]. intros _. cbv zeta. rewrite <- Ecur. exact Hspec.
    + exists (set_chapter c s). do 4 (split; [reflexivity|]).
      split; [intros Hnil; rewrite Hnil in E0; exfalso; apply E0; reflexivity|].
      intros _. exact Hspec.
Qed.

(** X18.  [updateActiveChapter] selects the last chapter, in list order,
    whose time is a number not after the current time, and no chapter
    ([-1]) when there is none: every later chapter with a numeric time
    starts after the current time.  Tracks and the current track are
    left alone, and a track without chapters changes nothing. *)
Theorem updateActiveChapter_last_reached (currentTime : Q) (s : playlist) (track : track) :
  get (tracks s) (currentTrackIndex s) = Some track ->
  exists s',
    updateActiveChapter currentTime s = Returns s' /\
    tracks s' = tracks s /\
    currentTrackIndex s' = currentTrackIndex s /\
    (chapters track = [] -> s' = s) /\
    (chapters track <> [] ->
     let c := currentChapterIndex s' in
     -1 <= c < len (chapters track) /\
     (0 <= c -> exists t, get (chapters track) c = Some (Some t) /\ (t <= currentTime)%Q) /\
     (forall j t, c < j -> get (chapters track) j = Some (Some t) -> (currentTime < t)%Q)).
Proof.
  intros Ht. destruct (updateActiveChapter_returns currentTime s track Ht)
    as (s' & E & H1 & _ & H2 & H3 & H4).
  exists s'. do 4 (split; [assumption|]). exact H4.
Qed.

Lemma updateActiveChapter_last_reached_witness :
  exists s',
    updateActiveChapter 75
      {| tracks := [{| chapters := [Some 0%Q; Some 60%Q; None; Some 180%Q] |}];
         continuous := true; currentTrackIndex := 0; currentChapterIndex := -1 |}
    = Returns s' /\ currentChapterIndex s' = 1.
Proof.
  destruct (updateActiveChapter_last_reached 75
    {| tracks := [{| chapters := [Some 0%Q; Some 60%Q; None; Some 180%Q] |}];
       continuous := true; currentTrackIndex := 0; currentChapterIndex := -1 |}
    {| chapters := [Some 0%Q; Some 60%Q; None; Some 180%Q] |} eq_refl)
    as (s' & E & _).
  exists s'. split; [exact E|]. vm_compute in E. injection E as <-. reflexivity.
Defined.






(** X20.  Next and previous are inverse to each other on the track
    index away from the ends of the list, and do nothing at the ends:
    [nextTrack] at the last track and [previousTrack] at the first
    return the state unchanged. *)
Theorem next_previous_round_trip (s : playlist) :
  0 <= currentTrackIndex s < len (tracks s) ->
  (currentTrackIndex s < len (tracks s) - 1 ->
   currentTrackIndex (nextTrack s) = currentTrackIndex s + 1 /\
   currentChapterIndex (nextTrack s) = -1 /\
   currentTrackIndex (previousTrack (nextTrack s)) = currentTrackIndex s) /\
  (0 < currentTrackIndex s ->
   currentTrackIndex (previousTrack s) = currentTrackIndex s - 1 /\
   currentChapterIndex (previousTrack s) = -1 /\
   currentTrackIndex (nextTrack (previousTrack s)) = currentTrackIndex s) /\
  (currentTrackIndex s = len (tracks s) - 1 -> nextTrack s = s) /\
  (currentTrackIndex s = 0 -> previousTrack s = s).
Proof.
  intros Hr.
  assert (Hsel : forall index t,
            0 <= index < len (tracks t) ->
            selectTrack index t
            = {| tracks := tracks t; continuous := continuous t;
                 currentTrackIndex := index; currentChapterIndex := -1 |}).
  { intros index t Hi. unfold selectTrack.
    destruct (index <? 0) eqn:E1; [apply Z.ltb_lt in E1; lia|].
    destruct (len (tracks t) <=? index) eqn:E2; [apply Z.leb_le in E2; lia|]. reflexivity. }
  split; [|split; [|split]].
  - intros Hlt. unfold nextTrack at 1 2.
    assert (E : (currentTrackIndex s <? len (tracks s) - 1) = true) by (apply Z.ltb_lt; lia).
    rewrite E, Hsel by lia. cbn [currentTrackIndex currentChapterIndex].
    split; [reflexivity|]. split; [reflexivity|].
    unfold nextTrack. rewrite E, Hsel by lia. unfold previousTrack.
    cbn [currentTrackIndex tracks].
    assert (E' : (0 <? currentTrackIndex s + 1) = true) by (apply Z.ltb_lt; lia).
    rewrite E', Hsel by (cbn [tracks]; lia). cbn [currentTrackIndex]. lia.
  - intros Hgt. unfold previousTrack at 1 2.
    assert (E : (0 <? currentTrackIndex s) = true) by (apply Z.ltb_lt; lia).
    rewrite E, Hsel by lia. cbn [currentTrackIndex currentChapterIndex].
    split; [reflexivity|]. split; [reflexivity|].
    unfold previousTrack. rewrite E, Hsel by lia. unfold nextTrack.
    cbn [currentTrackIndex tracks].
    assert (E' : (currentTrackIndex s - 1 <? len (tracks s) - 1) = true)
      by (apply Z.ltb_lt; lia).
    rewrite E', Hsel by (cbn [tracks]; lia). cbn [currentTrackIndex]. lia.
  - intros He. unfold nextTrack.
    assert (E : (currentTrackIndex s <? len (tracks s) - 1) = false) by (apply Z.ltb_ge; lia).
    rewrite E. reflexivity.
  - intros He. unfold previousTrack. rewrite He. reflexivity.
Qed.

Lemma next_previous_round_trip_witness :
  currentTrackIndex
    (previousTrack
       (nextTrack {| tracks := [{| chapters := [] |}; {| chapters := [] |}];
                     continuous := false; currentTrackIndex := 0;
                     currentChapterIndex := -1 |})) = 0.
Proof.
  apply (next_previous_round_trip
           {| tracks := [{| chapters := [] |}; {| chapters := [] |}];
              continuous := false; currentTrackIndex := 0; currentChapterIndex := -1 |}).
  - vm_compute. split; [discriminate | reflexivity].
  - vm_compute. reflexivity.
Defined.

End PlaylistFacts.

(** ** Titles from file names *)

Section TitleFacts.

Import WaveformData Title.

Lemma split_pieces (sep : ascii) (data : string) :
  Forall (fun piece => occurs sep piece = false /\
                       forall c, occurs c piece = true -> occurs c data = true)
    (split sep data).
Proof.
  induction data as [|d rest IH]; cbn [split].
  - constructor; [|constructor]. split; [reflexivity | auto].
  - destruct (split sep rest) as [|piece pieces] eqn:E; [constructor|].
    apply Forall_cons in IH. destruct IH as [[Hsep Hsub] Hrest].
    assert (Hrest' : Forall (fun piece => occurs sep piece = false /\
                       forall c, occurs c piece = true -> occurs c (String d rest) = true)
                       pieces).
    { eapply Forall_impl; [exact Hrest|]. cbv beta. intros p [H1 H2]. split; [exact H1|].
      intros c Hc. cbn [occurs]. rewrite (H2 c Hc). apply orb_true_r. }
    destruct (Ascii.eqb d sep) eqn:Ed.
    + constructor; [split; [reflexivity | discriminate]|].
      constructor; [|exact Hrest']. split; [exact Hsep|].
      intros c Hc. cbn [occurs]. rewrite (Hsub c Hc). apply orb_true_r.
    + constructor; [|exact Hrest']. split.
      * cbn [occurs]. rewrite Ed, Hsep. reflexivity.
      * intros c Hc. cbn [occurs] in *. apply orb_true_iff in Hc.
        destruct Hc as [Hc | Hc]; [rewrite Hc; reflexivity|].
        rewrite (Hsub c Hc). apply orb_true_r.
Qed.

Lemma split_absent (sep : ascii) (data : string) :
  occurs sep data = false -> split sep data = [data].
Proof.
  induction data as [|d rest IH]; intros H; [reflexivity|].
  cbn [occurs] in H. apply orb_false_iff in H. destruct H as [Hd Hr].
  cbn [split]. rewrite (IH Hr), Hd. reflexivity.
Qed.

Lemma last_piece_In (parts : list string) : parts <> [] -> In (last_piece parts) parts.
Proof.
  intros H. unfold last_piece. induction parts as [|p r IH]; [contradiction|].
  destruct r as [|q r']; [left; reflexivity|]. right. apply IH. discriminate.
Qed.

Lemma first_piece_In (parts : list string) : parts <> [] -> In (first_piece parts) parts.
Proof. destruct parts; [contradiction | left; reflexivity]. Qed.

Lemma replace_dashes_occurs (c : ascii) (name : string) :
  occurs c (replace_dashes name) = true ->
  is_dash c = false /\ (c = " "%char \/ occurs c name = true).
Proof.
  induction name as [|d rest IH]; cbn [replace_dashes occurs]; [discriminate|].
  intros H. apply orb_true_iff in H. destruct H as [H | H].
  - apply Ascii.eqb_eq in H. subst c. destruct (is_dash d) eqn:Ed.
    + split; [reflexivity | left; reflexivity].
    + split; [exact Ed|]. right. rewrite Ascii.eqb_refl. reflexivity.
  - destruct (IH H) as [H1 [H2 | H2]]; split; auto.
    right. rewrite H2. apply orb_true_r.
Qed.

Lemma replace_dashes_id (name : string) :
  occurs "-" name = false -> occurs "_" name = false -> replace_dashes name = name.
Proof.
  induction name as [|d rest IH]; cbn [occurs replace_dashes]; [reflexivity|].
  intros H1 H2. apply orb_false_iff in H1. apply orb_false_iff in H2.
  destruct H1 as [H1 H1'], H2 as [H2 H2']. rewrite (IH H1' H2').
  unfold is_dash. rewrite H1, H2. reflexivity.
Qed.

(** Facts on single characters, by enumeration. *)
Lemma toUpperCase_word (c : ascii) :
  is_word (toUpperCase c) = is_word c /\
  toUpperCase (toUpperCase c) = toUpperCase c /\
  (is_word c = true -> is_dash c = false ->
   Ascii.eqb (toUpperCase c) "/" = false /\ Ascii.eqb (toUpperCase c) "." = false /\
   is_dash (toUpperCase c) = false).
Proof.
  destruct c as [[] [] [] [] [] [] [] []];
    (split; [reflexivity | split; [reflexivity|]]);
    intros H1 H2; try discriminate H1; try discriminate H2;
    repeat split; reflexivity.
Qed.

Lemma capitalize_occurs (c : ascii) (s : string) :
  forall after_word,
    occurs c (capitalize after_word s) = true ->
    occurs c s = true \/
    exists d, occurs d s = true /\ is_word d = true /\ c = toUpperCase d.
Proof.
  induction s as [|d rest IH]; intros after_word; cbn [capitalize occurs]; [discriminate|].
  intros H. apply orb_true_iff in H. destruct H as [H | H].
  - apply Ascii.eqb_eq in H. destruct (is_word d && negb after_word) eqn:E.
    + right. exists d. rewrite Ascii.eqb_refl. apply andb_true_iff in E.
      destruct E as [E _]. auto.
    + left. subst c. rewrite Ascii.eqb_refl. reflexivity.
  - destruct (IH _ H) as [H' | (e & He & Hw & Hc)].
    + left. rewrite H'. apply orb_true_r.
    + right. exists e. rewrite He, orb_true_r. auto.
Qed.

Lemma capitalize_idempotent (s : string) :
  forall after_word,
    capitalize after_word (capitalize after_word s) = capitalize after_word s.
Proof.
  induction s as [|d rest IH]; intros after_word; cbn [capitalize]; [reflexivity|].
  destruct (toUpperCase_word d) as (Hw & Hu & _).
  destruct (is_word d && negb after_word) eqn:E.
  - rewrite Hw, E, Hu, IH. reflexivity.
  - rewrite E, IH. reflexivity.
Qed.

(** The four characters that a title never holds. *)
Lemma separator_free (name : string) :
  occurs "/" name = false -> occurs "." name = false ->
  let title := capitalize false (replace_dashes name) in
  occurs "/" title = false /\ occurs "." title = false /\
  occurs "-" title = false /\ occurs "_" title = false.
Proof.
  intros Hs Hd. cbv zeta.
  assert (Hc : forall c,
            occurs c (capitalize false (replace_dashes name)) = true ->
            is_dash c = false /\ Ascii.eqb c "/" = false /\ Ascii.eqb c "." = false).
  { intros c Hc. apply capitalize_occurs in Hc. destruct Hc as [Hc | (d & Hc & Hw & ->)].
    - apply replace_dashes_occurs in Hc. destruct Hc as [H1 [-> | H2]].
      + repeat split; reflexivity.
      + split; [exact H1|]. split.
        * destruct (Ascii.eqb c "/") eqn:E; [|reflexivity].
          apply Ascii.eqb_eq in E. subst c. rewrite H2 in Hs. discriminate.
        * destruct (Ascii.eqb c ".") eqn:E; [|reflexivity].
          apply Ascii.eqb_eq in E. subst c. rewrite H2 in Hd. discriminate.
    - apply replace_dashes_occurs in Hc. destruct Hc as [H1 _].
      destruct (toUpperCase_word d) as (_ & _ & H). destruct (H Hw H1) as (A & B & C).
      auto. }
  assert (Hno : forall c,
            (is_dash c = true \/ Ascii.eqb c "/" = true \/ Ascii.eqb c "." = true) ->
            occurs c (capitalize false (replace_dashes name)) = false).
  { intros c Hbad. destruct (occurs c (capitalize false (replace_dashes name))) eqn:E;
      [|reflexivity].
    destruct (Hc c E) as (A & B & C).
    destruct Hbad as [Hb | [Hb | Hb]]; congruence. }
  repeat split; apply Hno; auto.
Qed.

(** X21.  The title made from a URL holds no slash, dot, hyphen or
    underscore, and (unless it is empty) it is its own title: feeding it
    back to [extractTitleFromUrl] returns it unchanged.  The title of the
    empty URL is ["Audio"], and the player's title is the playlist's
    with the first letter of every word in upper case. *)
Theorem extractTitleFromUrl_title (url : string) :
  let title := extractTitleFromUrl url in
  occurs "/" title = false /\ occurs "." title = false /\
  occurs "-" title = false /\ occurs "_" title = false /\
  (title <> EmptyString -> extractTitleFromUrl title = title) /\
  (url <> EmptyString ->
   title = capitalize false (playlist_extractTitleFromUrl url)).
Proof.
  cbv zeta. destruct (String.eqb url EmptyString) eqn:Eu.
  - apply String.eqb_eq in Eu. subst url.
    repeat split; try reflexivity. intros H. contradiction.
  - set (filename := last_piece (split "/" url)).
    set (name := first_piece (split "." filename)).
    assert (Et : extractTitleFromUrl url = capitalize false (replace_dashes name)).
    { unfold extractTitleFromUrl. rewrite Eu. reflexivity. }
    assert (Ep : playlist_extractTitleFromUrl url = replace_dashes name).
    { unfold playlist_extractTitleFromUrl. rewrite Eu. reflexivity. }
    rewrite Et, Ep.
    assert (Hf : occurs "/" filename = false /\
                 forall c, occurs c filename = true -> occurs c url = true).
    { pose proof (split_pieces "/" url) as HF. rewrite Forall_forall in HF.
      apply HF, list_elem_of_In, last_piece_In, split_nonempty. }
    assert (Hn : occurs "." name = false /\
                 forall c, occurs c name = true -> occurs c filename = true).
    { pose proof (split_pieces "." filename) as HF. rewrite Forall_forall in HF.
      apply HF, list_elem_of_In, first_piece_In, split_nonempty. }
    assert (Hslash : occurs "/" name = false).
    { destruct (occurs "/" name) eqn:E; [|reflexivity].
      apply (proj2 Hn) in E. rewrite (proj1 Hf) in E. discriminate. }
    destruct (separator_free name Hslash (proj1 Hn)) as (A & B & C & D).
    split; [exact A|]. split; [exact B|]. split; [exact C|]. split; [exact D|].
    split; [|intros _; reflexivity].
    intros Hne. unfold extractTitleFromUrl.
    set (title := capitalize false (replace_dashes name)) in *.
    destruct (String.eqb title EmptyString) eqn:Ee.
    { apply String.eqb_eq in Ee. contradiction. }
    rewrite (split_absent "/" title A). unfold last_piece. cbn [List.last].
    rewrite (split_absent "." title B). unfold first_piece. cbn [hd].
    rewrite (replace_dashes_id title C D). apply capitalize_idempotent.
Qed.

End TitleFacts.

Lemma extractTitleFromUrl_title_witness :
  Title.extractTitleFromUrl (Title.extractTitleFromUrl "audio/my-first_song.mp3")
  = Title.extractTitleFromUrl "audio/my-first_song.mp3".
Proof.
  apply (extractTitleFromUrl_title "audio/my-first_song.mp3").
  vm_compute. discriminate.
Defined.

(** ** What a call leaves alone *)

Section PlayerFrame.

Import Player.

Lemma audio_pause_other (a x : nat) (w : world) :
  x <> a -> players (audio_pause a w) !! x = players w !! x.
Proof.
  intros Hne. unfold audio_pause. destruct (players w !! a) as [p|]; [|reflexivity].
  destruct (audio_paused p); [reflexivity|]. cbn [players].
  apply lookup_insert_ne. congruence.
Qed.

Lemma audio_play_other (a x : nat) (w : world) :
  x <> a -> players (audio_play a w) !! x = players w !! x.
Proof.
  intros Hne. unfold audio_play. destruct (players w !! a) as [p|]; [|reflexivity].
  destruct (audio_paused p); [|reflexivity]. cbn [players].
  apply lookup_insert_ne. congruence.
Qed.

Lemma pause_other (a x : nat) (w : world) :
  x <> a -> players (pause a w) !! x = players w !! x.
Proof.
  intros Hne. unfold pause. rewrite audio_pause_other by exact Hne.
  destruct (decide (currentlyPlaying w = Some a)); reflexivity.
Qed.

(** X22.  A call touches two players at most.  [play()] on [a] leaves
    every player alone that is neither [a] nor the holder of
    [currentlyPlaying], and every player but [a] when [a] is not in
    single-play mode; [pause()] on [a] leaves every player but [a]
    alone.  After [play()] the holder is [a]; after [pause()] it is
    nobody if it was [a], and unchanged otherwise. *)
Theorem calls_leave_others_alone (a q : nat) (w : world) :
  q <> a ->
  (currentlyPlaying w <> Some q -> players (play a w) !! q = players w !! q) /\
  (forall p, players w !! a = Some p -> singlePlay p = false ->
     players (play a w) !! q = players w !! q) /\
  players (pause a w) !! q = players w !! q /\
  currentlyPlaying (play a w) = Some a /\
  currentlyPlaying (pause a w)
  = (if decide (currentlyPlaying w = Some a) then None else currentlyPlaying w).
Proof.
  intros Hne. split; [|split; [|split; [|split]]].
  - intros Hq. unfold play. rewrite audio_play_other by exact Hne. cbn [players set_currentlyPlaying].
    destruct (players w !! a) as [p|]; [|reflexivity].
    destruct (currentlyPlaying w) as [b|] eqn:Ec; [|reflexivity].
    destruct (singlePlay p && negb (bool_decide (b = a))); [|reflexivity].
    apply pause_other. congruence.
  - intros p Hp Hs. unfold play. rewrite audio_play_other by exact Hne.
    cbn [players set_currentlyPlaying]. rewrite Hp, Hs. cbn [andb].
    destruct (currentlyPlaying w); reflexivity.
  - apply pause_other, Hne.
  - unfold play. rewrite audio_play_cur. reflexivity.
  - unfold pause. rewrite audio_pause_cur.
    destruct (decide (currentlyPlaying w = Some a)); reflexivity.
Qed.

End PlayerFrame.

Lemma calls_leave_others_alone_witness :
  Player.players
    (Player.pause 1 (Player.play 2 (Player.create 2 true
                                      (Player.create 1 true Player.initial)))) !! 2%nat
  = Player.players
      (Player.play 2 (Player.create 2 true (Player.create 1 true Player.initial))) !! 2%nat.
Proof.
  apply (calls_leave_others_alone 1 2
           (Player.play 2 (Player.create 2 true (Player.create 1 true Player.initial)))).
  discriminate.
Defined.

(** ** The envelope does not depend on the gain *)

Section GainFacts.

Import Gain.

Variable k : Q.
Hypothesis k_pos : (0 < k)%Q.

Lemma get_map {A B : Type} (f : A -> B) (l : list A) (j : Z) :
  get (map f l) j = option_map f (get l j).
Proof. unfold get. destruct (j <? 0); [reflexivity | apply nth_error_map]. Qed.

Lemma ltb_scaled (x y xs ys : Q) :
  scaled k x xs -> scaled k y ys -> ltb xs ys = ltb x y.
Proof.
  unfold scaled. intros Hx Hy. rewrite (ltb_proper xs ys _ _ Hx Hy).
  destruct (ltb x y) eqn:E.
  - apply ltb_lt. apply ltb_lt in E. apply Qmult_lt_compat_r; assumption.
  - apply ltb_ge. apply ltb_ge in E. apply Qmult_le_compat_r; [exact E|].
    apply Qlt_le_weak, k_pos.
Qed.

Lemma scaled_zero : scaled k 0 0.
Proof. unfold scaled. ring. Qed.

Lemma scaled_refl (x : Q) : scaled k x (x * k).
Proof. unfold scaled. reflexivity. Qed.

Lemma abs_scaled (x xs : Q) : scaled k x xs -> scaled k (abs x) (abs xs).
Proof.
  intros H. unfold abs. rewrite (ltb_scaled x 0 xs 0 H scaled_zero).
  unfold scaled in *. destruct (ltb x 0); [rewrite H; ring | exact H].
Qed.

Lemma max_scaled (x y xs ys : Q) :
  scaled k x xs -> scaled k y ys -> scaled k (Js.max x y) (Js.max xs ys).
Proof.
  intros Hx Hy. unfold Js.max. rewrite (ltb_scaled x y xs ys Hx Hy).
  destruct (ltb x y); assumption.
Qed.

Lemma window_loop_scaled (chan : list Q) (end_ sampleStep : Z) :
  forall (fuel : nat) (j : Z) (min max mins maxs : Q),
    scaled k min mins -> scaled k max maxs ->
    scaled k (fst (window_loop fuel chan j end_ sampleStep min max))
      (fst (window_loop fuel (map (fun v => (v * k)%Q) chan) j end_ sampleStep mins maxs)) /\
    scaled k (snd (window_loop fuel chan j end_ sampleStep min max))
      (snd (window_loop fuel (map (fun v => (v * k)%Q) chan) j end_ sampleStep mins maxs)).
Proof.
  induction fuel as [|fuel IH]; intros j min max mins maxs Hmin Hmax.
  - cbn [window_loop fst snd]. split; assumption.
  - cbn [window_loop]. destruct (j <? end_); [|cbn [fst snd]; split; assumption].
    rewrite get_map. destruct (get chan j) as [value|]; cbn [option_map].
    + apply IH.
      * rewrite (ltb_scaled value min (value * k) mins (scaled_refl value) Hmin).
        destruct (ltb value min); [apply scaled_refl | exact Hmin].
      * rewrite (ltb_scaled max value maxs (value * k) Hmax (scaled_refl value)).
        destruct (ltb max value); [apply scaled_refl | exact Hmax].
    + apply IH; assumption.
Qed.

Lemma Forall2_get (R : Q -> Q -> Prop) (l ls : list Q) (i : Z) :
  Forall2 R l ls ->
  match get l i, get ls i with
  | Some x, Some xs => R x xs
  | None, None => True
  | _, _ => False
  end.
Proof.
  intros H. unfold get. destruct (i <? 0); [exact I|].
  generalize (Z.to_nat i) as n. induction H as [|x xs l ls Hx Hl IH]; intros n.
  - destruct n; exact I.
  - destruct n as [|n]; [exact Hx | apply IH].
Qed.

Lemma store_peak_scaled (c i : Z) (peak peaks_ : Q) (peaks peakss : list Q) :
  scaled k peak peaks_ ->
  Forall2 (scaled k) peaks peakss ->
  Forall2 (scaled k) (store_peak c i peak peaks) (store_peak c i peaks_ peakss).
Proof.
  intros Hp Hl. unfold store_peak.
  assert (E : match get peakss i with Some p => ltb p peaks_ | None => false end
              = match get peaks i with Some p => ltb p peak | None => false end).
  { pose proof (Forall2_get (scaled k) peaks peakss i Hl) as Hg.
    destruct (get peaks i) as [p|], (get peakss i) as [ps|]; try contradiction;
      [|reflexivity].
    apply ltb_scaled; assumption. }
  rewrite E.
  destruct ((c =? 0) || match get peaks i with Some p => ltb p peak | None => false end);
    [|exact Hl].
  unfold array_set. apply Forall2_app; [apply Forall2_take, Hl|].
  apply Forall2_app; [constructor; [exact Hp | constructor]|].
  apply Forall2_drop, Hl.
Qed.

Lemma window_step_scaled (chan : list Q) (sampleSize : Q) (sampleStep c i : Z)
  (peaks peakss : list Q) :
  Forall2 (scaled k) peaks peakss ->
  related_outcome (Forall2 (scaled k))
    (window_step chan sampleSize sampleStep c i peaks)
    (window_step (map (fun v => (v * k)%Q) chan) sampleSize sampleStep c i peakss).
Proof.
  intros Hl. unfold window_step, window_scan.
  set (start := toInt32 (inject_Z i * sampleSize)).
  set (end_ := toInt32 (inject_Z start + sampleSize)).
  destruct (start <? end_).
  - destruct (0 <? sampleStep); [|exact I]. cbn [bind].
    pose proof (window_loop_scaled chan end_ sampleStep (Z.to_nat (end_ - start)) start
                  0 0 0 0 scaled_zero scaled_zero) as [Hmin Hmax].
    destruct (window_loop (Z.to_nat (end_ - start)) chan start end_ sampleStep 0 0)
      as [min max].
    destruct (window_loop (Z.to_nat (end_ - start)) (map (fun v => (v * k)%Q) chan)
                start end_ sampleStep 0 0) as [mins maxs].
    cbn [fst snd] in Hmin, Hmax. cbn [related_outcome].
    apply store_peak_scaled; [|exact Hl].
    apply max_scaled; apply abs_scaled; assumption.
  - cbn [bind related_outcome]. apply store_peak_scaled; [|exact Hl].
    apply max_scaled; apply abs_scaled; apply scaled_zero.
Qed.

Lemma for_loopM_related {St : Type} (R : St -> St -> Prop)
  (body1 body2 : Z -> St -> outcome St) :
  (forall j s1 s2, R s1 s2 -> related_outcome R (body1 j s1) (body2 j s2)) ->
  forall (n : nat) (i : Z) (s1 s2 : St),
    R s1 s2 -> related_outcome R (for_loopM n i body1 s1) (for_loopM n i body2 s2).
Proof.
  intros Hbody. induction n as [|n IH]; intros i s1 s2 Hs; [exact Hs|].
  cbn [for_loopM]. specialize (Hbody i s1 s2 Hs).
  destruct (body1 i s1) as [t1| |], (body2 i s2) as [t2| |]; cbn [bind related_outcome] in *;
    try contradiction; try exact I.
  apply IH, Hbody.
Qed.

Lemma raw_peaks_scaled (buffer : AudioBuffer) (samples : Z) :
  related_outcome (Forall2 (scaled k))
    (raw_peaks buffer samples) (raw_peaks (scale_buffer k buffer) samples).
Proof.
  unfold raw_peaks. cbn [scale_buffer buffer_length numberOfChannels].
  apply for_loopM_related; [|constructor].
  intros c peaks peakss Hl. unfold getChannelData. cbn [scale_buffer channels].
  rewrite get_map. destruct (get (channels buffer) c) as [chan|]; cbn [option_map];
    [|exact I].
  apply for_loopM_related; [|exact Hl].
  intros i s1 s2 Hs. apply window_step_scaled, Hs.
Qed.

Lemma Math_max_scaled (peaks peakss : list Q) :
  Forall2 (scaled k) peaks peakss ->
  match Math_max peaks, Math_max peakss with
  | Some m, Some ms => scaled k m ms
  | None, None => True
  | _, _ => False
  end.
Proof.
  induction 1 as [|x xs l ls Hx Hl IH]; [exact I|].
  cbn [Math_max]. destruct (Math_max l) as [m|], (Math_max ls) as [ms|];
    try contradiction; [|exact Hx].
  apply max_scaled; assumption.
Qed.

(** X23.  The envelope does not depend on the gain of the recording:
    multiplying every frame of every channel by the same positive factor
    leaves the outcome of [extractPeaks] as it is, with the same values
    as numbers. *)
Theorem extractPeaks_gain_invariant `{Eng : Engine} (buffer : AudioBuffer) (samples : Z) :
  related_outcome (Forall2 Qeq)
    (extractPeaks buffer samples) (extractPeaks (scale_buffer k buffer) samples).
Proof.
  unfold extractPeaks. pose proof (raw_peaks_scaled buffer samples) as Hraw.
  pose proof (raw_peaks_nonneg buffer samples) as Hpos.
  destruct (raw_peaks buffer samples) as [raw| |],
           (raw_peaks (scale_buffer k buffer) samples) as [raws| |];
    cbn [related_outcome bind] in *; try contradiction; try exact I.
  specialize (Hpos raw eq_refl).
  pose proof (Math_max_scaled raw raws Hraw) as Hm.
  unfold spread_max, len. rewrite <- (Forall2_length _ _ _ Hraw).
  destruct (max_arguments <? Z.of_nat (length raw)); cbn [bind related_outcome];
    [exact I|].
  destruct (Math_max raw) as [m|] eqn:Em, (Math_max raws) as [ms|] eqn:Ems;
    try contradiction.
  - rewrite (ltb_scaled 0 m 0 ms scaled_zero Hm).
    destruct (ltb 0 m) eqn:E0; cbn [related_outcome].
    + apply ltb_lt in E0. clear Em Ems Hpos.
      induction Hraw as [|p ps l ls Hp Hl IH]; [constructor|].
      cbn [map]. constructor; [|exact IH].
      unfold scaled in Hp, Hm. rewrite Hp, Hm. field. split.
      * intros E. rewrite E in k_pos. discriminate.
      * intros E. rewrite E in E0. discriminate.
    + apply ltb_ge in E0. pose proof (Math_max_bound raw m Em) as Hb.
      assert (Hpos' : forall x, In x raw -> (0 <= x)%Q).
      { rewrite Forall_forall in Hpos. intros x Hx. apply Hpos, list_elem_of_In, Hx. }
      clear Em Ems Hm Hpos.
      induction Hraw as [|p ps l ls Hp Hl IH]; [constructor|].
      constructor.
      * assert (Hz : (p == 0)%Q).
        { apply Qle_antisym.
          - eapply Qle_trans; [apply Hb; left; reflexivity | exact E0].
          - apply Hpos'. left. reflexivity. }
        unfold scaled in Hp. rewrite Hp, Hz. ring.
      * apply IH.
        -- intros x Hx. apply Hb. right. exact Hx.
        -- intros x Hx. apply Hpos'. right. exact Hx.
  - cbn [related_outcome]. rewrite (proj1 (Math_max_None raw) Em).
    rewrite (proj1 (Math_max_None raws) Ems). constructor.
Qed.

End GainFacts.

Lemma extractPeaks_gain_invariant_witness :
  Gain.related_outcome (Forall2 Qeq)
    (extractPeaks (E := Examples.binary64) Examples.stereo_buffer 2)
    (extractPeaks (E := Examples.binary64)
       (Gain.scale_buffer (1 # 2) Examples.stereo_buffer) 2).
Proof.
  apply (extractPeaks_gain_invariant (1 # 2)). reflexivity.
Defined.

(** ** The merge over the channels *)

Section ChannelMerge.

Import Windows.

Lemma get_array_set (peaks : list Q) (i j : Z) (peak : Q) :
  0 <= i <= len peaks ->
  get (array_set peaks i peak) j = if j =? i then Some peak else get peaks j.
Proof.
  intros Hi. unfold get, array_set, len in *. destruct (j <? 0) eqn:Ej.
  - apply Z.ltb_lt in Ej. destruct (j =? i) eqn:E; [apply Z.eqb_eq in E; lia | reflexivity].
  - apply Z.ltb_ge in Ej.
    assert (Hlen : length (firstn (Z.to_nat i) peaks) = Z.to_nat i).
    { rewrite length_firstn. lia. }
    destruct (j =? i) eqn:E.
    + apply Z.eqb_eq in E. subst j. rewrite nth_error_app2 by lia.
      rewrite Hlen, Nat.sub_diag. reflexivity.
    + apply Z.eqb_neq in E. destruct (Z_lt_le_dec j i) as [Hlt | Hge].
      * rewrite nth_error_app1 by lia. rewrite nth_error_firstn.
        destruct (Z.to_nat j <? Z.to_nat i)%nat eqn:En; [reflexivity|].
        apply Nat.ltb_ge in En. lia.
      * rewrite nth_error_app2 by lia. rewrite Hlen.
        replace (Z.to_nat j - Z.to_nat i)%nat with (S (Z.to_nat j - Z.to_nat i - 1)) by lia.
        cbn [app nth_error]. rewrite nth_error_skipn. f_equal. lia.
Qed.

Lemma window_step_window_peak (chan : list Q) (sampleSize : Q) (sampleStep c i : Z)
  (peaks : list Q) :
  0 < sampleStep ->
  window_step chan sampleSize sampleStep c i peaks
  = Returns (store_peak c i (window_peak chan sampleSize sampleStep i) peaks).
Proof.
  intros Hstep. unfold window_step, window_peak.
  destruct (window_scan_returns chan (toInt32 (inject_Z i * sampleSize))
              (toInt32 (inject_Z (toInt32 (inject_Z i * sampleSize)) + sampleSize))
              sampleStep Hstep) as ([min max] & ->).
  reflexivity.
Qed.

(** One step of the loop over the windows of channel [c]. *)
Lemma store_peak_merged (buffer : AudioBuffer) (samples : Z) (sampleSize : Q)
  (sampleStep c i : Z) (chan : list Q) (peaks : list Q) :
  0 <= c -> 0 <= i < samples ->
  getChannelData buffer c = Some chan ->
  len peaks = (if c =? 0 then i else samples) ->
  (forall j, 0 <= j < i -> merged buffer sampleSize sampleStep (c + 1) j peaks) ->
  (forall j, i <= j < samples -> 0 < c -> merged buffer sampleSize sampleStep c j peaks) ->
  let peaks' := store_peak c i (window_peak chan sampleSize sampleStep i) peaks in
  (forall j, 0 <= j < i + 1 -> merged buffer sampleSize sampleStep (c + 1) j peaks') /\
  (forall j, i + 1 <= j < samples -> 0 < c ->
     merged buffer sampleSize sampleStep c j peaks').
Proof.
  intros Hc Hi Hchan Hlen Hdone Htodo. cbv zeta.
  set (peak := window_peak chan sampleSize sampleStep i).
  assert (Hrange : 0 <= i <= len peaks) by (destruct (c =? 0); lia).
  assert (Hself : forall j, merged buffer sampleSize sampleStep c j peaks ->
            forall p, get peaks j = Some p -> (peak <= p)%Q -> j = i ->
            merged buffer sampleSize sampleStep (c + 1) j peaks).
  { intros j (p & Hg & (c' & ch & Hc' & Hch & Hp) & Hb) p' Hg' Hle ->.
    rewrite Hg in Hg'. injection Hg' as <-.
    exists p. split; [exact Hg|]. split; [exists c', ch; split; [lia | auto]|].
    intros c2 ch2 Hc2 Hch2. destruct (Z.eq_dec c2 c) as [-> | Hne].
    - rewrite Hchan in Hch2. injection Hch2 as <-. exact Hle.
    - apply (Hb c2 ch2); [lia | exact Hch2]. }
  unfold store_peak. destruct (c =? 0) eqn:E0.
  - apply Z.eqb_eq in E0. subst c. cbn [orb]. split.
    + intros j Hj. destruct (Z.eq_dec j i) as [-> | Hne].
      * exists peak. rewrite get_array_set, Z.eqb_refl by exact Hrange.
        split; [reflexivity|]. split; [exists 0, chan; split; [lia | auto]|].
        intros c2 ch2 Hc2 Hch2. replace c2 with 0 in Hch2 by lia.
        rewrite Hchan in Hch2. injection Hch2 as <-. apply Qle_refl.
      * destruct (Hdone j) as (p & Hg & Hw); [lia|].
        exists p. rewrite get_array_set by exact Hrange.
        destruct (j =? i) eqn:E; [apply Z.eqb_eq in E; lia|]. split; assumption.
    + intros j Hj Hpos. lia.
  - apply Z.eqb_neq in E0. cbn [orb].
    destruct (Htodo i) as (p & Hg & (c' & ch & Hc' & Hch & Hp) & Hb); [lia | lia |].
    rewrite Hg. destruct (ltb p peak) eqn:El.
    + apply ltb_lt in El. split.
      * intros j Hj. destruct (Z.eq_dec j i) as [-> | Hne].
        -- exists peak. rewrite get_array_set, Z.eqb_refl by exact Hrange.
           split; [reflexivity|]. split; [exists c, chan; split; [lia | auto]|].
           intros c2 ch2 Hc2 Hch2. destruct (Z.eq_dec c2 c) as [-> | Hne].
           ++ rewrite Hchan in Hch2. injection Hch2 as <-. apply Qle_refl.
           ++ apply Qle_trans with p; [apply (Hb c2 ch2); [lia | exact Hch2]|].
              apply Qlt_le_weak, El.
        -- destruct (Hdone j) as (q & Hq & Hw); [lia|].
           exists q. rewrite get_array_set by exact Hrange.
           destruct (j =? i) eqn:E; [apply Z.eqb_eq in E; lia|]. split; assumption.
      * intros j Hj Hpos. destruct (Htodo j) as (q & Hq & Hw); [lia | lia |].
        exists q. rewrite get_array_set by exact Hrange.
        destruct (j =? i) eqn:E; [apply Z.eqb_eq in E; lia|]. split; assumption.
    + apply ltb_ge in El. split.
      * intros j Hj. destruct (Z.eq_dec j i) as [-> | Hne].
        -- apply (Hself i) with (p := p); [|exact Hg | exact El | reflexivity].
           exists p. split; [exact Hg|]. split; [exists c', ch; auto | exact Hb].
        -- apply Hdone. lia.
      * intros j Hj Hpos. apply Htodo; lia.
Qed.

(** X24.  Over the channels [extractPeaks] keeps the largest window
    peak.  For a decoded buffer and [samples >= 1] the loops return, and
    before the final normalization the value of every window is the peak
    of that window in one of the channels and at least its peak in each
    channel. *)
Theorem raw_peaks_channel_maximum (buffer : AudioBuffer) (samples : Z) :
  valid_buffer buffer ->
  1 <= samples ->
  exists raw,
    raw_peaks buffer samples = Returns raw /\
    len raw = samples /\
    forall i, 0 <= i < samples ->
      merged buffer (inject_Z (buffer_length buffer) / inject_Z samples)
        (sampleStep_of (buffer_length buffer) samples) (numberOfChannels buffer) i raw.
Proof.
  intros (HL & Hn & Hch & _) Hs. unfold raw_peaks.
  set (sampleSize := (inject_Z (buffer_length buffer) / inject_Z samples)%Q).
  set (sampleStep := sampleStep_of (buffer_length buffer) samples).
  assert (Hstep : 0 < sampleStep) by (apply sampleStep_of_pos; lia).
  destruct (for_loopM_invariant
    (fun c peaks =>
       len peaks = (if c =? 0 then 0 else samples) /\
       forall i, 0 <= i < samples -> 0 < c ->
         merged buffer sampleSize sampleStep c i peaks)
    (fun c peaks =>
       match getChannelData buffer c with
       | None => Throws
       | Some chan =>
           for_loopM (Z.to_nat samples) 0 (window_step chan sampleSize sampleStep c) peaks
       end)
    (Z.to_nat (numberOfChannels buffer)) 0 []) as (raw & E & Hlen & Hraw).
  - split; [reflexivity|]. intros i Hi Hc. lia.
  - intros c peaks Hc [Hlen Hm].
    destruct (get_in_range (channels buffer) c) as [chan Hchan]; [lia|].
    unfold getChannelData at 1. rewrite Hchan.
    destruct (for_loopM_invariant
      (fun i peaks =>
         len peaks = (if c =? 0 then i else samples) /\
         (forall j, 0 <= j < i -> merged buffer sampleSize sampleStep (c + 1) j peaks) /\
         (forall j, i <= j < samples -> 0 < c ->
            merged buffer sampleSize sampleStep c j peaks))
      (window_step chan sampleSize sampleStep c)
      (Z.to_nat samples) 0 peaks) as (peaks' & E' & Hlen' & Hdone & _).
    + split; [exact Hlen|]. split; [intros j Hj; lia|].
      intros j Hj Hpos. apply Hm; lia.
    + intros i s1 Hi (Hl1 & Hd1 & Ht1).
      exists (store_peak c i (window_peak chan sampleSize sampleStep i) s1).
      split; [apply window_step_window_peak, Hstep|].
      split; [apply store_peak_length; [lia | lia | exact Hl1]|].
      apply store_peak_merged; try assumption; lia.
    + exists peaks'. split; [exact E'|]. split.
      * rewrite Hlen'. destruct (c =? 0) eqn:E0, (c + 1 =? 0) eqn:E1; lia.
      * intros i Hi _. apply Hdone. lia.
  - exists raw. split; [exact E|].
    assert (E0 : (0 + Z.of_nat (Z.to_nat (numberOfChannels buffer)) =? 0) = false)
      by (apply Z.eqb_neq; lia).
    rewrite E0 in Hlen. split; [exact Hlen|].
    intros i Hi. replace (numberOfChannels buffer)
      with (0 + Z.of_nat (Z.to_nat (numberOfChannels buffer))) by lia.
    apply Hraw; lia.
Qed.

End ChannelMerge.

Lemma raw_peaks_channel_maximum_witness :
  exists raw,
    raw_peaks Examples.stereo_buffer 2 = Returns raw /\
    len raw = 2 /\
    forall i, 0 <= i < 2 ->
      Windows.merged Examples.stereo_buffer
        (inject_Z (buffer_length Examples.stereo_buffer) / inject_Z 2)
        (sampleStep_of (buffer_length Examples.stereo_buffer) 2)
        (numberOfChannels Examples.stereo_buffer) i raw.
Proof.
  apply (raw_peaks_channel_maximum Examples.stereo_buffer 2).
  - split; [vm_compute; split; [discriminate | reflexivity]|].
    split; [vm_compute; discriminate|]. split; [reflexivity|].
    repeat constructor.
  - lia.
Defined.
